(* ===== verification/_CoqProject ===== *)
-Q . S2P
Prelude.v
Regex.v
Token.v
Tokenizer.v
Prefix.v
Scanner.v
Language.v
Ast.v
PathAt.v
Query.v
Pipeline.v
PathTree.v
KeyRanges.v
Completion.v
Shape.v
Json.v
Double.v
Numeric.v
Members.v
Document.v
Cursor.v
Heap.v
HeapBuilder.v
HeapQuery.v
Machine.v
Modules.v
Exports.v
Tests.v
