(* ===== verification/Prelude.v ===== *)
(** * json-parse-ast: a verification development

    The program (JavaScript, [src/src/]) tokenizes a lenient JSON dialect
    (JSON plus [//] and [/* */] comments), builds a lossless syntax tree with
    source ranges, and answers queries on it.  It has four parts, in three
    files: [json-parse-ast.js] holds all of them, [json-tokenize.js] the
    tokenizer and the path inference, [json-parse.js] the tree builder and
    [findAtPosition]; [json-parse.test.js] composes the two small files.

    - the tokenizer, [tokenize]: seven regular expressions tried in order
      on the rest of the input, a running line/column cursor, and a [create]
      function per token type (the one for strings calls [JSON.parse]);
    - the tree builder, [parseTokens], [parseObject], [parseArray] and the
      seven leaf builders, with the [raw] getter and (in
      [json-parse-ast.js]) [extractValues] of the container nodes; it
      allocates one object per token and per container and links them by
      [parent] and [children] references;
    - the position query layer, [findAtPosition], [getKeyInParent],
      [isKeyInParent];
    - the path inference on a token prefix, [getPathInObject], and its
      sibling [getPositionOfKeys].

    ** Files, in dependency order

    - [Prelude] (this file): JavaScript strings as lists of UTF-16 code
      units ([list N]), the outcome type [outcome] of a call (a value, a
      thrown error, or the model running out of fuel) with its monad
      instances, the string primitives the sources call ([lastIndexOf],
      counting line feeds, [substring], [slice]), the hint database [js] and
      the tactics [outcome_inv] and [case_cond].
    - [Regex]: the regular expressions of [tokenTypes] as data ([regex]) and
      the backtracking, priority-ordered semantics of [RegExp.prototype.exec]
      on them ([matches], [exec]), with the unfolding equation of the greedy
      star, the prefix property of a match, the nullability test that gives
      progress, the maximal-munch law of a starred character class and the
      order in which the matcher backtracks into it ([star_suffixes]).
      Matching is local ([matches_cut]): the matches of an expression on a
      text are its matches on any extension of the text that stay within
      the text, in the same order.
    - [Token]: [IRange], [IPosition] with the order of positions and
      chains of contiguous ranges ([chain]), JavaScript values ([jsval]),
      tokens, and the two decoders the [create] functions call:
      [JSON_parse] on a string literal (the value of a literal without
      escapes is the text between its quotes) and [to_number], the
      decimal a number literal denotes.  [JSON_stringify] on a string is
      the inverse the test files use to write string literals; it escapes
      quotes, backslashes, control characters and lone surrogates, and
      [JSON_parse] gives the string back ([JSON_parse_stringify]).
    - [Tokenizer]: [tokenTypes], [advance] (the cursor update) and the loop
      of [tokenize], by fuel.  The class [TokenType] is what the loop needs
      of an entry of the table: its expression consumes input, its [create]
      function fills the fields of the token from the match and the range
      and throws nothing but a [SyntaxError]; the seven entries are
      instances, and the lemmas on the loop use the class only.
      Theorems: the loop never runs out of the fuel
      [S (length json)] it is given (every regular expression consumes at
      least one code unit), the raw texts of the tokens concatenate to a
      prefix of the input and the loop stops only where nothing matches,
      the range of each token is determined by the raw texts before it, the
      ranges are chained and ordered, the only error is the [SyntaxError]
      of [JSON.parse], and the column after a line feed is one too large;
      every token is well typed ([token_ok]: the value is the one the
      [create] function of its type computes) and the numbers stay within
      the text (lines and columns between 1 and a bound the text gives).
    - [Prefix]: the loop of [tokenize] as a relation, [pass] being one
      round of the [while] and [passes] its reflexive transitive closure;
      a pass is deterministic and a pass that stays within the start of a
      text is a pass on the start.  Theorems: the tokens of the start of a
      text begin with the tokens of the text that end before the cut, and
      are exactly those when nothing matches after them ([tokenize_cut]);
      [tokenize] throws exactly when the passes reach a place where the
      table selects a string literal that [JSON.parse] rejects
      ([tokenize_throws]).
    - [Scanner]: a scanner per expression of the table, which reads the
      input from the left without backtracking ([scan_string],
      [scan_number], [scan_multilinecomment], ...), and [scan], the
      scanners tried in the order of the table.  Theorems: [exec] on each
      expression returns the prefix its scanner reads and the [for] loop
      selects the entry [scan] selects ([first_match_scan]): white space
      and line comments take the longest run, a string token ends at the
      first double quote no backslash escapes, a number is the longest
      text of the JSON grammar, a block comment extends to the last
      closing pair of its line, and a block comment that spans lines
      stops the tokenizer.  The text [JSON.stringify] writes for a string
      is one string token whose value is that string
      ([tokenize_stringify]).
    - [Language]: the language of an expression by the rules of regular
      expressions ([denotes]).  Lemmas: the matcher finds exactly the
      starts of a text that belong to the language ([matches_denotes]),
      so that what [exec] returns is a text of the language and [exec]
      fails only where no start of the text is one ([exec_denotes]).
      Theorem: every token is a text of the language of an expression
      of the table, and no start of what [tokenize] leaves unread is
      ([tokenize_denotes]).
    - [Ast]: the node type [ast] (leaves and containers; the [parent]
      back-reference is kept as the flag [has_parent] that records whether
      the builder assigned it, a node being addressed by its path from the
      root), the builders, the [raw] getter [ast_raw] and [extractValues].
      The relation [built] is the grammar the builder implements.
      Theorems: the recursive descent returns exactly the nodes [built]
      gives (soundness for every fuel, completeness with fuel above the
      number of tokens), fuel [S (length tokens)] is enough, the raw text
      of the built node is the concatenation of the raw texts of the tokens
      it consumed, the range of a node spans its first and last token,
      which children get a parent, and the error outcomes ([TypeError] on
      exhausted input, on a stray closing token and on an unknown token
      type).
    - [PathAt]: [getPathInObject] and [getPositionOfKeys] as folds of a step
      function over the tokens, the abstract stack machine of the
      specification ([spec_step], with a marker distinct from every key),
      the simulation between the two ([erase]), and invariance under
      insertion of comment and white space tokens.
    - [Query]: [findAtPosition] with its three results ([Null], [Undefined]
      when the function ends without a [return], [Found] with the path of
      the node), [getKeyInParent] and [isKeyInParent] on nodes given by
      their path from the root ([node_at]), where [extractValues] runs on
      the children paired with their indices so that identity of nodes is
      equality of indices.  [chained] is the layout of the ranges of a tree
      built from tokenizer output.  Theorems: on a chained tree
      [findAtPosition] returns the leaf a position belongs to (after the
      start, at or before the end of its range) and never [Undefined]; on
      other trees it can; the key of an array element is its index, the
      key of a value of an object is the [value] of its key, a key is a key
      and a value is not; no query raises the invalid-parent error; in a
      tree the builder returned every value child has its parent set.
    - [Pipeline]: the components composed, [parse_text] being
      [parseTokens(tokenize(json))].  The tree of a tokenized text has
      chained ranges; its raw text is the input exactly when the value
      spans all tokens and the tokenizer read all input; [findAtPosition]
      finds every leaf of it.
    - [PathTree]: what [getPathInObject] is for, on the tree of the
      document: [locate n k] is the list of the keys of the members in
      which the place after the first [k] tokens lies, from the root
      inwards, and [wf_document] the documents of objects with string
      keys.  Theorem: on a text that parses to such a document,
      [getPathInObject] on the first [k] tokens returns [locate n k]
      without the keys that are the text of the array marker
      ([getPathInObject_locate]).  Arrays are outside the theorem: inside
      an array of scalars the path inference loses the keys around it
      ([getPathInObject_array_of_scalars]).
    - [KeyRanges]: what [getPositionOfKeys] computes, on the tree of the
      document: [key_ranges n] walks the tree as [extractValues] walks
      the children of an object and collects the range of every key.
      Theorems: on a text that parses to a document of objects with
      string keys [getPositionOfKeys] returns [key_ranges]
      ([getPositionOfKeys_keys]), and these are the ranges of the keys of
      the pairs of [extractValues] ([key_ranges_extractValues]).
    - [Completion]: the use the documentation of [getPathInObject] shows,
      [pathOfText] being [getPathInObject(tokenize(textUntilPosition))] and
      [provideCompletionItems] the test on the last key.  Theorem: on the
      text of a document of objects cut after its first [k] tokens and a
      started token, the path is the one of the place in the tree of the
      whole document ([pathOfText_cursor]).
    - [Shape]: tokens and trees up to their ranges.  [bare] and [shape]
      erase the ranges, [≡] is equality of the erasures, and the path
      inference, the builder, [ast_raw], [node_at] and the key queries are
      [Proper] for it.  [reposition] gives tokens the ranges a reader
      counts.  Theorems: the ranges [tokenize] gives are the reader's
      exactly on a text without a line feed ([tokenize_ranges_reader]);
      the tree of a text is, up to ranges, the tree of the repositioned
      tokens, and the queries that do not read ranges agree on the two
      ([parse_text_ranges]).
    - [Json]: JSON values ([json]: objects as lists of members, arrays,
      strings, natural numbers, [true], [false], [null]) and their
      texts.  A [text_layout] gives the white space and comments that
      stand at each [place] between the tokens of a text, by the depth
      of the container: [compact] is [JSON.stringify(v)] ([stringify]),
      [indented] is [JSON.stringify(v, null, 2)], [commented] puts a
      line or block comment at every place.  [words] are the tokens the
      text of a value in a layout is made of, [text] their texts put
      together.  The class [Spacing] says what the tokenizer needs of a
      layout (its words are white space and comments, each read whole
      when no white space follows, and each ends a number before it),
      with the three layouts as instances.  Theorem: [tokenize] reads
      the text of a value in such a layout as exactly these tokens, up
      to their ranges ([tokenize_text]).
    - [Double]: the number that [+value] of [create] stores for a
      number token: [to_double] rounds the decimal that [to_number]
      reads to the binary64 number of the language, an integer through
      [binary_round] and a fraction through [SFdiv] of two integers,
      both of the specification of floating-point arithmetic of the
      standard library; [double_of] is the double of the value of a
      token, [strict_equal] the comparison [===] of two numbers.
      Theorems: the double of a decimal is a number of the format or
      an infinity, never a NaN ([to_double_is_double]); when the value
      of a number token of [tokenize] is finite it
      is the double nearest to the number the text denotes, the even
      one of two that are as near ([nearest]), and an integer up to
      [MAX_SAFE_INTEGER] is stored exactly ([tokenize_number_nearest],
      from [to_double_nearest]); a zero and an infinity are the
      doubles of numbers beyond the two ends of the format
      ([to_double_zero], [to_double_infinity]); on integers up to
      [MAX_SAFE_INTEGER] the equality of the decimals is [===]
      ([strict_equal_integer]).  Examples show where
      decimal and double part ([strict_equal_texts],
      [strict_equal_unsafe], [beyond_the_format]).
    - [Numeric]: the unary plus of [+value] on any text, as
      StringToNumber of the language ([StringToNumber], [unary_plus]):
      white space at both ends dropped ([trim]), the empty text 0, an
      integer with a radix prefix ([NonDecimalIntegerLiteral]), a text
      of the grammar StrDecimalLiteral ([re_StrDecimalLiteral], with
      [Infinity]) rounded by [to_double], and NaN on every other text
      ([StringToNumber_nan]).  Theorems: the language of the number
      expression of the tokenizer is part of StrDecimalLiteral, its
      texts are without white space, radix and plus sign
      ([number_StrDecimalLiteral], [number_chars], [number_head]), so
      that the unary plus of such a text is the double of the decimal
      [to_number] reads ([unary_plus_number]); the value of every
      number token of [tokenize] is the unary plus of its text and is
      never a NaN ([tokenize_number_double]).  Examples: the texts the
      unary plus reads beyond JSON, the texts of which it is NaN
      ([unary_plus_beyond_JSON], [unary_plus_NaN]), and the doubles at
      the ends of the format ([unary_plus_ties], [unary_plus_range]).
    - [Members]: what the children of an object node are for the
      queries: the values among them ([values]) are keys and values in
      turn ([alternates]) and the others are leaves the path inference
      ignores ([tidy]); such children make a well-formed object
      ([wf_value_object]).  [key_leaves] are the key leaves of a tree,
      whose ranges are the [key_ranges] ([key_ranges_leaves]).
    - [Document]: [value_of] reads a value off a tree with
      [extractValues] of its object and array nodes; [represents] says
      that a node stands for a value.  Theorems: the tree
      [parseTokens(tokenize(text))] of the text of a value, in any
      layout of the class [Spacing], has that value and the text as its
      raw text ([parse_text_value], with [parse_stringify] and
      [parse_commented] for the compact text and the text with
      comments), so that a value is determined by its text
      ([text_injective]) and the value read does not depend on the
      layout ([text_layouts]); on the text of an object without arrays,
      [getPositionOfKeys] returns the ranges of the key leaves of the
      tree, which are the keys of the value in the order of the text
      ([getPositionOfKeys_text]), and the theorem of [Completion]
      applies ([pathOfText_text]).
    - [Cursor]: the path at a place of the text of a value.  A place is
      given by the members one goes through from the root ([walk]) and
      by a [target], the value or the key of a member; [words_to] are
      the words of the text up to the place, [keys_at] the keys of the
      members gone through; a place may also be the first element of an
      array.  Theorem: in the text of a value, in any layout, when the
      members before the place have no arrays ([clear_before]),
      [getPathInObject(tokenize(text up to the place))] returns these
      keys and whether a value is expected ([pathOfText_place]); what
      the loop does after the first element of an array is shown by
      examples.
    - [Heap]: the store of objects the builder allocates and mutates.  An
      object is a [node] (the properties [type], [raw], [value],
      [position], [parent], [children] and [extractValues]), a reference
      is an address in the list of objects, [console.error] appends to a
      log; a call is a function [M] from the store to an outcome and a
      store, built from
      [alloc] (an object literal), [update] (an assignment) and
      [console_error].  [sim] is the simulation of a functional call by a
      call on the store, [holds] says that a store contains a segment of
      objects, [store_ok] that every object has the shape of the interface
      [AST] of the declaration file.
    - [HeapBuilder]: module [JsonParse] is [json-parse.js] statement by
      statement on the store: [parseTokens], the leaf builders,
      [parseObject] and [parseArray] with their assignments
      [start.parent = result], [children.push], [result.position] and
      [Object.defineProperty], the [raw] getter and [findAtPosition]
      reading the store through the [children] arrays.  The builder has
      a parameter [methods]: with it [parseObject] and [parseArray] end
      with the assignment of [result.extractValues], the one statement
      the builder of [json-parse-ast.js] has more; the theorems hold for
      both.  [layout] is the segment of the store that holds a tree, in
      allocation order (the first child, then the container, then the
      other children).
      Theorems: a run returns exactly when the functional builder does,
      and then it has allocated the layout of the tree behind the objects
      it found (refinement, in both directions); it throws when the other
      throws; it never touches the objects it found; it prints only a token
      of an unknown type, and then throws; [raw] and [findAtPosition] on
      the store return what [ast_raw] and [findAtPosition] return on the
      tree; the [parent] and [children] references are those of the tree;
      the builder preserves [store_ok].
    - [HeapQuery]: module [JsonParseAst] is [extractValues],
      [getKeyInParent] and [isKeyInParent] of [json-parse-ast.js] on the
      store, where the test [values[i] === ast] is equality of addresses
      and a call of [extractValues] throws on a container without the
      method.  Theorems: on the store the builder of [json-parse-ast.js]
      left they return what the functions of [Query] return on paths
      ([queries_on_store]); the objects of distinct nodes are distinct
      ([objects_distinct]), which is why a path names a node as well as
      its reference does; on the store the builder of [json-parse.js]
      left [getKeyInParent] throws ([queries_without_methods]).
    - [Machine]: module [JsonTokenize] is [tokenize] of [json-tokenize.js]
      as a transition system: a state is the test of the [while], the test
      of the [for] with its counter, the [return] or a pending exception;
      [step] goes from one test to the next.  Theorems: the machine
      computes what [Tokenizer.tokenize] computes; it halts within
      [(length tokenTypes + 2) * S (length json)] steps; every reachable
      state satisfies the invariant of the loop; a state that is not final
      has a successor.  The inner functions [update] and [toIRange], which
      the source declares and never calls, are definitions of their own.
      [getPositionOfKeys] and [getPathInObject] of the same file are loops
      by their counters, which return what the folds of [PathAt] return
      ([getPathInObject_loops], [getPositionOfKeys_loops]).
    - [Modules]: [parse_on_store], the composition of [json-tokenize.js]
      and [json-parse.js] that [json-parse.test.js] makes.  It refines
      [parse_text]; it never prints; [raw] of the node it returns is the
      input exactly under the condition of the round trip of [Pipeline];
      its [findAtPosition] is the one of [Pipeline].
      [parse_ast_on_store] and [key_of_parent_at] are the composition
      [json-parse-ast.test.js] makes of [tokenize], [parseTokens],
      [findAtPosition] and [getKeyInParent]: the key of the container
      under the cursor is the one [Query] computes on the tree
      ([key_of_parent_on_store]).
    - [Exports]: the names each file assigns to [module.exports]
      ([module_exports]), the functions [json-parse-ast.d.ts] declares
      ([declared]), and the names the first lines of the test files
      bind: [require] gives a module object, a destructuring pattern
      binds each name to the [property] of that name, and [resolve]
      evaluates the callee of a call to the function it runs.
      Theorems: a destructured name runs the function of that name of
      the file ([resolve_destructured]); a property of a destructured
      name is not a function, so that [tokenize.tokenize(...)] of
      [json-parse-ast.test.js] throws a TypeError
      ([resolve_property_of_destructured], [ast_test_calls_resolve]),
      while the same call in [json-tokenize.test.js], where the name
      is the module object, runs [tokenize] ([test_calls_resolve]);
      the declaration file declares every export but
      [getPositionOfKeys] ([declared_exported]).
    - [Tests]: the three Jest suites, call by call: the expression each
      test passes to [expect] as a definition over the machine of
      [json-tokenize.js], the builder on the store and the functions of
      [json-parse-ast.js], the expected tokens transcribed from the
      suites, and an example per test with the value the model computes.
      The values are the expected ones but for the two tests that
      tokenize a text that is no JSON text.

    ** Fuel

    The two loops that are not structural take fuel: [tokenize_loop] gets
    [S (length json)] rounds, enough because each round consumes at least
    one code unit ([tokenize_terminates]); [parseTokens] gets
    [S (length tokens)] levels, enough because each call moves the cursor
    forward ([parseTokens_root_terminates], and [parseTokens_refines] for
    any larger fuel).  The star of a regular expression iterates at most
    [length s] times, each iteration having to consume input.  The
    relation [passes] of [Prefix] has no fuel; [tokenize_passes] and
    [passes_tokenize] connect it to the loop.  The scanners of [Scanner]
    and [quote_chars] of [Token] are structural recursions on the text.
    [decimal] of [Json] gets one round more than the number has binary
    digits, enough because it has no more decimal digits
    ([decimal_spec]).  The machine
    of [Machine] gets [(length tokenTypes + 2) * S (length json)] steps:
    a round of the [while] is one step into the [for], at most one step per
    token type and one step out, and there are at most [length json] rounds
    and a last test ([tokenize_machine_halts]).  The readers of the store,
    [JsonParse.raw] and [JsonParse.findAtPosition], recurse through
    references and get the number of objects of the store as fuel, more
    than the depth of any tree the store holds ([raw_on_store],
    [findAtPosition_on_store]).  The counter loops of [Machine] get as
    many rounds as the array they run over is long.

    ** Conventions

    A JavaScript call is a function into [outcome]: [Ok v] for a returned
    value, [Throw e] for an exception, [OutOfFuel] when the model's fuel is
    exhausted (the totality theorems show that the fuel chosen by the
    top-level functions never is).  [undefined] results are [None], or a
    constructor of their own where the source tells them from [null].  Numbers
    that hold lines, columns and indices are [Z] or [nat]; they stay far
    below 2^53, where JavaScript numbers are exact integers.  A [Number]
    produced by [+value] is kept in the token as the exact decimal it
    denotes ([js_number]); [to_double] of [Double] rounds it to the
    binary64 number the language stores, and [Numeric] shows that this
    double is what the unary plus gives of the text of the token.  The theorems on tokens
    compare the decimals, which tells apart two texts of one number
    (1 and 1.0): where a theorem says that two values are equal, the
    doubles are equal as well.

    ** Two levels

    The builder is modelled twice.  In [Ast] a tree is a value, a reference
    to a node is its path, and the [parent] field is the flag [has_parent];
    in [HeapBuilder] nodes are objects of a store and references are
    addresses.  The refinement theorems of [HeapBuilder] connect the two,
    so that the theorems of [Ast], [Query] and [Pipeline] on trees speak of
    the objects the program allocates.  The queries [getKeyInParent] and
    [isKeyInParent] are on paths in [Query] and on addresses in
    [HeapQuery].  Likewise the tokenizer is a loop by fuel in [Tokenizer]
    and a transition system in [Machine], connected by
    [tokenize_machine_equiv].  The method [extractValues] of a container
    is the property [node_extractValues] of its object, which names the
    function assigned; a call of it is [JsonParseAst.extractValues], a
    function of the store.

    ** Not modelled

    The module loader of CommonJS beyond the names a file exports
    ([Exports]; the cache of [require] and the wrapper of a module play
    no part in these files), the TypeScript declaration file beyond the
    record shapes and the declared names, and the test runner of the Jest test files ([test], [expect], [toEqual]; the
    expressions the tests evaluate are in [Tests]).  The regular expressions,
    the [create] functions and the loop bodies of [json-tokenize.js] are
    the text of [json-parse-ast.js] and are translated once, from that
    file; the table and the loops around them are translated again in
    [Machine].  Regular expression features the sources do not use
    (captures are not read by the tokenizer, no lookaround, no flags) are
    absent from [regex].  [JSON.parse] is modelled on string literals
    only, the one use the sources make of it, and [JSON.stringify] on
    the values of [Json] only; the numbers of these values are natural
    numbers, written with all their digits, and a layout puts the same
    words at the same place of every container of a depth.  The unary
    plus is modelled on texts, the one use the sources make of it;
    the matcher behind [exec] ([matches]), [StringToNumber] and the
    rounding [to_double] are models of the language, written from its
    specification, not translations of code of the repository; the
    rounding is the one of the exact decimal, also beyond the 20
    significant digits after which the language leaves a choice to
    the implementation.  A
    store in
    which a client has reassigned [parent] or [children] after the
    builder returned is outside the theorems on built stores;
    [parseTokens_store_ok] and [parseTokens_store_frame] hold from any
    store.  The path inference and the key positions are specified on
    documents of objects and at the first element of an array; for the
    later elements of an array the source has no case (its comment
    says TODO), and the development records what the loops do there by
    examples ([pathOfText_array_later], [getPositionOfKeys_array]). *)

From Stdlib Require Export Ascii String.
From stdpp Require Export prelude.

(** stdpp's tactics clear hypotheses that are already gone. *)
#[export] Set Warnings "-clear-no-such-hyp".

(** ** JavaScript strings *)

(** A JavaScript string is a sequence of UTF-16 code units. *)
Abbreviation code_unit := N (only parsing).
Abbreviation jstring := (list N) (only parsing).

Declare Scope js_scope.
Delimit Scope js_scope with js.

(** An ASCII literal as a JavaScript string. *)
Definition js (s : string) : jstring :=
  N_of_ascii <$> list_ascii_of_string s.

(** The same, with every apostrophe read as a double quote, to write JSON
    texts as literals. *)
Definition jsq (s : string) : jstring :=
  (λ c : ascii, if Ascii.eqb c "'" then 34%N else N_of_ascii c)
    <$> list_ascii_of_string s.

Notation "'LF'" := 10%N (only parsing) : js_scope.

(** [s.lastIndexOf(c)] for a one-unit needle: the index of the last
    occurrence, or -1. *)
Fixpoint lastIndexOf (c : code_unit) (s : jstring) : Z :=
  match s with
  | [] => -1
  | x :: s' =>
    let r := lastIndexOf c s' in
    if decide (0 ≤ r)%Z then (1 + r)%Z
    else if decide (x = c) then 0%Z else (-1)%Z
  end.

(** [(s.match(/\n/g) || '').length]: how many code units of [s] equal [c]. *)
Definition count_unit (c : code_unit) (s : jstring) : nat :=
  length (filter (λ x, x = c) s).

(** [s.substring(i)] for an index in range. *)
Definition substring (i : nat) (s : jstring) : jstring := drop i s.

(** [s.slice(i, -j)]. *)
Definition slice_neg (i j : nat) (s : jstring) : jstring :=
  take (length s - j - i) (drop i s).

(** The elements of [l] from index [i] up to [j], excluded. *)
Definition segment {A} (i j : nat) (l : list A) : list A :=
  take (j - i) (drop i l).

(** ** Outcomes of a call *)

Inductive js_error :=
| TypeError
| SyntaxError
| GenericError (msg : jstring).

Inductive outcome (A : Type) :=
| Ok (a : A)
| Throw (e : js_error)
| OutOfFuel.
Arguments Ok {A} a.
Arguments Throw {A} e.
Arguments OutOfFuel {A}.

#[export] Instance js_error_eq_dec : EqDecision js_error.
Proof. solve_decision. Defined.

#[export] Instance outcome_eq_dec `{EqDecision A} : EqDecision (outcome A).
Proof. solve_decision. Defined.

#[export] Instance outcome_ret : MRet outcome := @Ok.

#[export] Instance outcome_bind : MBind outcome := λ A B f m,
  match m with
  | Ok a => f a
  | Throw e => Throw e
  | OutOfFuel => OutOfFuel
  end.

#[export] Instance outcome_fmap : FMap outcome := λ A B f m,
  match m with
  | Ok a => Ok (f a)
  | Throw e => Throw e
  | OutOfFuel => OutOfFuel
  end.

(** A call that returned or threw: it did not exhaust the model's fuel. *)
Definition terminated {A} (m : outcome A) : Prop := m ≠ OutOfFuel.

#[export] Instance terminated_dec {A} (m : outcome A) : Decision (terminated m).
Proof. destruct m; [left | left | right]; unfold terminated; congruence. Defined.

(** [undefined[i]] and [undefined.f] throw a TypeError. *)
Definition defined {A} (o : option A) : outcome A :=
  match o with
  | Some a => Ok a
  | None => Throw TypeError
  end.

(** ** Automation *)

Create HintDb js discriminated.
Create Rewrite HintDb js.

(** Case analysis on the guard of the first [if] or [match] of the goal. *)
Ltac case_cond :=
  match goal with
  | |- context [decide ?P] => destruct (decide P)
  | |- context [match ?x with _ => _ end] => destruct x eqn:?
  end.

(** ** Lemmas on outcomes *)

Section outcome.
Context {A B : Type}.
Implicit Types (m : outcome A) (f : A → outcome B).

Lemma bind_Ok a f : (Ok a ≫= f) = f a.
Proof. done. Qed.

Lemma bind_Ok_inv m f b :
  m ≫= f = Ok b ↔ ∃ a, m = Ok a ∧ f a = Ok b.
Proof. destruct m; simpl; naive_solver. Qed.

Lemma bind_Throw_inv m f e :
  m ≫= f = Throw e ↔ m = Throw e ∨ ∃ a, m = Ok a ∧ f a = Throw e.
Proof. destruct m; simpl; naive_solver. Qed.

Lemma bind_OutOfFuel_inv m f :
  m ≫= f = OutOfFuel ↔ m = OutOfFuel ∨ ∃ a, m = Ok a ∧ f a = OutOfFuel.
Proof. destruct m; simpl; naive_solver. Qed.

Lemma bind_terminated m f :
  terminated m → (∀ a, m = Ok a → terminated (f a)) → terminated (m ≫= f).
Proof.
  unfold terminated. rewrite bind_OutOfFuel_inv.
  intros Hm Hf [?|(a & ? & ?)]; [done | by eapply Hf].
Qed.

Lemma fmap_Ok_inv (g : A → B) m b :
  g <$> m = Ok b ↔ ∃ a, m = Ok a ∧ b = g a.
Proof. destruct m; simpl; naive_solver. Qed.

Lemma fmap_terminated (g : A → B) m : terminated (g <$> m) ↔ terminated m.
Proof. by destruct m. Qed.

Lemma defined_Ok_inv (o : option A) a : defined o = Ok a ↔ o = Some a.
Proof. destruct o; simpl; split; congruence. Qed.

Lemma defined_terminated (o : option A) : terminated (defined o).
Proof. by destruct o. Qed.

End outcome.

#[export] Hint Resolve defined_terminated : js.
#[export] Hint Rewrite @bind_Ok : js.

(** Invert the hypotheses that say a bind, a map or a lookup returned. *)
Ltac outcome_inv :=
  repeat match goal with
  | H : context [match ?x with pair _ _ => _ end] |- _ => is_var x; destruct x
  | H : _ ≫= _ = Ok _ |- _ => apply bind_Ok_inv in H as (? & ? & ?)
  | H : _ <$> _ = Ok _ |- _ => apply fmap_Ok_inv in H as (? & ? & ?)
  | H : defined _ = Ok _ |- _ => apply defined_Ok_inv in H
  | H : mret _ = Ok _ |- _ => injection H as H
  | H : Ok _ = Ok _ |- _ => injection H as H
  | H : Throw _ = Ok _ |- _ => discriminate H
  | H : OutOfFuel = Ok _ |- _ => discriminate H
  end; simplify_eq.

(** ** Lemmas on lists *)

Section lists.
Context {A B : Type}.
Implicit Types (l : list A).

(** Two ways to split a list, the first part of one within the first part
    of the other. *)
Lemma app_eq_le (l1 l2 k1 k2 : list A) :
  l1 ++ l2 = k1 ++ k2 → length k1 ≤ length l1 →
  ∃ m, l1 = k1 ++ m ∧ k2 = m ++ l2.
Proof.
  intros [(m & -> & ->)|(m & -> & ->)]%app_eq_inv Hlen; [by eauto|].
  rewrite length_app in Hlen. destruct m; [|simpl in Hlen; lia].
  exists []. by rewrite !app_nil_r.
Qed.

Lemma segment_singleton i l x : l !! i = Some x → segment i (S i) l = [x].
Proof.
  intros Hi. unfold segment. replace (S i - i) with 1 by lia.
  rewrite (drop_S _ _ _ Hi). done.
Qed.

Lemma segment_empty i l : segment i i l = [].
Proof. unfold segment. by rewrite Nat.sub_diag. Qed.

Lemma segment_split i j k l :
  i ≤ j → j ≤ k → segment i k l = segment i j l ++ segment j k l.
Proof.
  intros Hij Hjk. unfold segment.
  replace (k - i) with ((j - i) + (k - j)) by lia.
  rewrite <- take_take_drop, drop_drop. by replace (i + (j - i)) with j by lia.
Qed.

(** A segment with its first and its last element apart. *)
Lemma segment_around i j (l : list A) x y :
  l !! i = Some x → l !! j = Some y → i < j →
  segment i (S j) l = x :: segment (S i) j l ++ [y].
Proof.
  intros Hi Hj Hlt. rewrite (segment_split i (S i) (S j)) by lia.
  rewrite (segment_split (S i) j (S j)) by lia.
  by rewrite (segment_singleton _ _ _ Hi), (segment_singleton _ _ _ Hj).
Qed.

Lemma segment_all l : segment 0 (length l) l = l.
Proof. unfold segment. by rewrite Nat.sub_0_r, drop_0, firstn_all. Qed.

Lemma segment_prefix j l : segment 0 j l `prefix_of` l.
Proof. unfold segment. rewrite Nat.sub_0_r, drop_0. apply prefix_take. Qed.

Lemma foldl_app_join (f : B → list A) (acc : list A) (k : list B) :
  foldl (λ s x, s ++ f x) acc k = acc ++ mjoin (f <$> k).
Proof.
  revert acc. induction k as [|x k IH]; intros acc; simpl.
  - by rewrite app_nil_r.
  - by rewrite IH, app_assoc.
Qed.

Lemma foldl_filter_snoc (p : A → bool) (acc : list A) l :
  foldl (λ s x, if p x then s ++ [x] else s) acc l
  = acc ++ filter (λ x, p x = true) l.
Proof.
  revert acc. induction l as [|x l IH]; intros acc; simpl.
  - by rewrite app_nil_r.
  - rewrite IH, filter_cons. destruct (p x); [|done].
    by rewrite decide_True, <- app_assoc by done.
Qed.

Lemma filter_Forall_id (P : A → Prop) `{!∀ x, Decision (P x)} l :
  Forall P l → filter P l = l.
Proof.
  induction 1 as [|x l ? ? IH]; [done|].
  by rewrite filter_cons, decide_True, IH.
Qed.

(** Two lists related pointwise, with what holds of every element of the
    second. *)
Lemma Forall2_Forall_r_impl (P R : A → B → Prop) (Q : B → Prop) l k :
  Forall2 P l k → Forall Q k →
  (∀ x y, y ∈ k → P x y → Q y → R x y) → Forall2 R l k.
Proof.
  induction 1 as [|x y l k ? ? IH]; intros HQ HR; [done|].
  apply Forall_cons in HQ as [? ?]. constructor.
  - apply HR; [left|done..].
  - apply IH; [done|]. intros x' y' ?. apply HR. by right.
Qed.

End lists.

(** ** Lemmas on related lists *)

Section related.
Context {A B : Type} (R : A → B → Prop).
Context (P : A → Prop) (Q : B → Prop).
Context `{!∀ x, Decision (P x)} `{!∀ y, Decision (Q y)}.
Context (HPQ : ∀ x y, R x y → P x ↔ Q y).

Lemma Forall2_filter l k :
  Forall2 R l k → Forall2 R (filter P l) (filter Q k).
Proof.
  induction 1 as [|x y l k Hxy _ IH]; [constructor|].
  rewrite !filter_cons. specialize (HPQ x y Hxy).
  destruct (decide (P x)), (decide (Q y)); try tauto. by constructor.
Qed.

Lemma list_find_Forall2 l k :
  Forall2 R l k →
  option_Forall2 (λ a r, a.1 = r.1 ∧ R a.2 r.2) (list_find P l) (list_find Q k).
Proof.
  induction 1 as [|x y l k Hxy _ IH]; simpl; [constructor|].
  specialize (HPQ x y Hxy).
  destruct (decide (P x)), (decide (Q y)); try tauto; [by constructor|].
  destruct IH as [[i a] [i' r] [? ?]|]; simpl in *; constructor.
  simpl. by subst.
Qed.

End related.

(** ** Lemmas on strings *)

Section strings.
Implicit Types (s t : jstring) (c : code_unit).

Lemma bool_decide_elem_of_app c s t :
  bool_decide (c ∈ s ++ t) = bool_decide (c ∈ s) || bool_decide (c ∈ t).
Proof. rewrite <- bool_decide_or. apply bool_decide_ext, elem_of_app. Qed.

Lemma count_unit_app c s t :
  count_unit c (s ++ t) = count_unit c s + count_unit c t.
Proof. unfold count_unit. by rewrite filter_app, length_app. Qed.

Lemma count_unit_zero c s : count_unit c s = 0 ↔ c ∉ s.
Proof.
  unfold count_unit. induction s as [|x s IH]; simpl.
  - split; [intros _; apply not_elem_of_nil | done].
  - rewrite filter_cons, not_elem_of_cons. case_decide; simpl; naive_solver.
Qed.

Lemma lastIndexOf_lt c s : (-1 ≤ lastIndexOf c s < Z.of_nat (length s))%Z.
Proof.
  induction s as [|x s IH]; simpl; [lia|].
  repeat case_decide; lia.
Qed.

Lemma lastIndexOf_absent c s : lastIndexOf c s = (-1)%Z ↔ c ∉ s.
Proof.
  induction s as [|x s IH]; simpl.
  - split; [intros _; apply not_elem_of_nil | done].
  - pose proof (lastIndexOf_lt c s). rewrite not_elem_of_cons.
    repeat case_decide; split; intros; try lia; naive_solver lia.
Qed.

Lemma lastIndexOf_present c s : (0 ≤ lastIndexOf c s)%Z ↔ c ∈ s.
Proof.
  pose proof (lastIndexOf_lt c s). split.
  - intros Hr. destruct (decide (c ∈ s)) as [|Hout]; [done|].
    apply lastIndexOf_absent in Hout. lia.
  - intros Hin. destruct (decide (0 ≤ lastIndexOf c s)%Z); [done|].
    exfalso. eapply lastIndexOf_absent; [|done]. lia.
Qed.

(** The units after the last occurrence of [c] do not hold [c]. *)
Lemma lastIndexOf_spec c s i :
  lastIndexOf c s = Z.of_nat i →
  s !! i = Some c ∧ c ∉ drop (S i) s.
Proof.
  revert i. induction s as [|x s IH]; intros i; simpl; [lia|].
  pose proof (lastIndexOf_lt c s).
  case_decide as Hr.
  - intros Hi. destruct i as [|i]; [lia|].
    apply (IH i). lia.
  - case_decide as Hx; [|lia]. intros Hi.
    assert (i = 0) as -> by lia. subst x. split; [done|].
    simpl. rewrite drop_0. apply lastIndexOf_absent. lia.
Qed.

End strings.
