(* ===== verification/Regex.v ===== *)
(** * Regex: the regular expressions of the tokenizer and [exec] on them

    The tokenizer is driven by seven regular expression literals, each
    anchored at the start of the remaining input.  This file holds the
    expressions as data and the semantics of [RegExp.prototype.exec] the
    tokenizer relies on: a backtracking matcher that explores alternatives
    in priority order (left alternative first, greedy star: one more
    iteration before none) and returns the first match.  [matches r s] is
    the list of all ways [r] matches a prefix of [s], as the remaining
    suffixes, in that order; [exec] takes its head.  The lemmas at the end
    say that matching is local: what follows a match does not change it
    ([matches_cut]). *)

From S2P Require Import Prelude.

(** ** Syntax *)

Inductive regex :=
| Eps
| Chr (p : code_unit → bool)
| Seq (r1 r2 : regex)
| Alt (r1 r2 : regex)
| Star (r : regex).

(** Sequence, alternative and star, as the expressions are written. *)
Declare Scope regex_scope.
Delimit Scope regex_scope with re.
Notation "r1 ⨾ r2" := (Seq r1 r2)
  (at level 41, right associativity) : regex_scope.
Notation "r1 ∣ r2" := (Alt r1 r2)
  (at level 42, right associativity) : regex_scope.
Notation "r ⋆" := (Star r) (at level 1, format "r ⋆") : regex_scope.

(** [r+] and [r?], both greedy. *)
Definition Plus (r : regex) : regex := Seq r (Star r).
Definition Opt (r : regex) : regex := Alt r Eps.

(** A literal character, and a literal word. *)
Definition Lit (a : ascii) : regex := Chr (N.eqb (N_of_ascii a)).

Fixpoint Word (w : list ascii) : regex :=
  match w with
  | [] => Eps
  | a :: w' => Seq (Lit a) (Word w')
  end.

(** ** Character classes *)

(** LineTerminator of ECMAScript: LF, CR, LS, PS. *)
Definition is_line_terminator (c : code_unit) : bool :=
  bool_decide (c ∈ [10; 13; 8232; 8233]%N).

(** [.] without the [s] flag: any code unit but a line terminator. *)
Definition is_dot (c : code_unit) : bool := negb (is_line_terminator c).

(** [\d]. *)
Definition is_digit (c : code_unit) : bool := (48 <=? c)%N && (c <=? 57)%N.

(** [\s]: WhiteSpace and LineTerminator of ECMAScript. *)
Definition is_space (c : code_unit) : bool :=
  bool_decide (c ∈ [9; 10; 11; 12; 13; 32; 160; 5760; 8232; 8233; 8239;
                    8287; 12288; 65279]%N)
  || (8192 <=? c)%N && (c <=? 8202)%N.

(** [[abc]] and [[^abc]]. *)
Definition one_of (l : list ascii) (c : code_unit) : bool :=
  bool_decide (c ∈ N_of_ascii <$> l).
Definition none_of (l : list ascii) (c : code_unit) : bool :=
  negb (one_of l c).

(** [[a-b]]. *)
Definition in_range (a b : ascii) (c : code_unit) : bool :=
  (N_of_ascii a <=? c)%N && (c <=? N_of_ascii b)%N.

(** ** Semantics *)

(** The greedy star over a body matcher [m]: one more iteration of the body,
    then the star again, before the empty match.  An iteration that consumes
    nothing is rejected, as RepeatMatcher does; [n] bounds the number of
    iterations and [length s] is always enough. *)
Fixpoint star_iter (m : jstring → list jstring) (n : nat) (s : jstring)
    : list jstring :=
  match n with
  | 0 => [s]
  | S n' =>
    (s' ← m s; if decide (length s' < length s) then star_iter m n' s' else [])
    ++ [s]
  end.

Fixpoint matches (r : regex) (s : jstring) : list jstring :=
  match r with
  | Eps => [s]
  | Chr p =>
    match s with
    | c :: s' => if p c then [s'] else []
    | [] => []
    end
  | Seq r1 r2 => matches r1 s ≫= matches r2
  | Alt r1 r2 => matches r1 s ++ matches r2 s
  | Star r1 => star_iter (matches r1) (length s) s
  end.

(** [/^r/.exec(s)]: the text of the first match ([matchResult[0]]), or
    [None] for [null]. *)
Definition exec (r : regex) (s : jstring) : option jstring :=
  s' ← head (matches r s); Some (take (length s - length s') s).

(** Whether [r] can match the empty string. *)
Fixpoint nullable (r : regex) : bool :=
  match r with
  | Eps => true
  | Chr _ => false
  | Seq r1 r2 => nullable r1 && nullable r2
  | Alt r1 r2 => nullable r1 || nullable r2
  | Star _ => true
  end.

(** The longest prefix of [s] whose units satisfy [p], and the rest. *)
Fixpoint take_while (p : code_unit → bool) (s : jstring) : jstring :=
  match s with
  | c :: s' => if p c then c :: take_while p s' else []
  | [] => []
  end.

Fixpoint drop_while (p : code_unit → bool) (s : jstring) : jstring :=
  match s with
  | c :: s' => if p c then drop_while p s' else s
  | [] => []
  end.

(** The suffixes of [s] a greedy starred character class leaves, in the
    order the matcher tries them: the one after the longest run first, [s]
    itself last. *)
Fixpoint star_suffixes (p : code_unit → bool) (s : jstring) : list jstring :=
  match s with
  | c :: s' => if p c then star_suffixes p s' ++ [s] else [s]
  | [] => [[]]
  end.

(** [u] without the suffix [t]; nothing when [u] does not end with [t]. *)
Definition cut (t u : jstring) : option jstring :=
  if decide (t `suffix_of` u) then Some (take (length u - length t) u)
  else None.

(** ** Character classes *)

Lemma in_range_spec a b c :
  in_range a b c = true ↔ (N_of_ascii a ≤ c ≤ N_of_ascii b)%N.
Proof. unfold in_range. rewrite andb_true_iff, !N.leb_le. done. Qed.

Lemma is_digit_spec c : is_digit c = true ↔ (48 ≤ c ≤ 57)%N.
Proof. unfold is_digit. rewrite andb_true_iff, !N.leb_le. done. Qed.

Lemma is_dot_spec c : is_dot c = true ↔ c ∉ [10; 13; 8232; 8233]%N.
Proof.
  unfold is_dot, is_line_terminator.
  rewrite negb_true_iff, bool_decide_eq_false. done.
Qed.

(** ** The star *)

Section star.
Context (m : jstring → list jstring).

Lemma star_iter_fuel n1 n2 s :
  length s ≤ n1 → length s ≤ n2 → star_iter m n1 s = star_iter m n2 s.
Proof.
  revert n2 s. induction n1 as [|n1 IH]; intros [|n2] s H1 H2; simpl; try done.
  - rewrite (Forall_bind_ext _ (λ _, [])); [by induction (m s)|].
    apply Forall_forall; intros; case_decide; [lia | done].
  - rewrite (Forall_bind_ext _ (λ _, [])); [by induction (m s)|].
    apply Forall_forall; intros; case_decide; [lia | done].
  - f_equal. apply Forall_bind_ext, Forall_forall. intros s' _.
    case_decide; [apply IH; lia | done].
Qed.

(** The equation of the greedy star. *)
Lemma star_iter_unfold s :
  star_iter m (length s) s
  = (s' ← m s;
     if decide (length s' < length s) then star_iter m (length s') s' else [])
    ++ [s].
Proof.
  rewrite (star_iter_fuel _ (S (length s))) by lia. simpl. f_equal.
  apply Forall_bind_ext, Forall_forall. intros s' _.
  case_decide; [apply star_iter_fuel; lia | done].
Qed.

Lemma star_iter_suffix n s s' :
  (∀ t t', t' ∈ m t → t' `suffix_of` t) →
  s' ∈ star_iter m n s → s' `suffix_of` s.
Proof.
  intros Hm. revert s. induction n as [|n IH]; intros s; simpl.
  - by intros ->%list_elem_of_singleton.
  - rewrite elem_of_app, list_elem_of_bind, list_elem_of_singleton.
    intros [(t & Hs' & Ht)| ->]; [|done].
    case_decide; [|by apply elem_of_nil in Hs'].
    trans t; eauto.
Qed.

Lemma star_iter_last n s : last (star_iter m n s) = Some s.
Proof. destruct n; simpl; [done | apply last_snoc]. Qed.

End star.

(** ** Matches are suffixes, and the first one is what [exec] returns *)

Lemma matches_Star r s :
  matches (Star r) s
  = (s' ← matches r s;
     if decide (length s' < length s) then matches (Star r) s' else [])
    ++ [s].
Proof. apply star_iter_unfold. Qed.

Lemma matches_suffix r s s' : s' ∈ matches r s → s' `suffix_of` s.
Proof.
  revert s s'. induction r as [|p|r1 IH1 r2 IH2|r1 IH1 r2 IH2|r IH];
    intros s s'; simpl.
  - by intros ->%list_elem_of_singleton.
  - destruct s as [|c s]; [by intros ?%elem_of_nil|].
    destruct (p c); [|by intros ?%elem_of_nil].
    intros ->%list_elem_of_singleton. by apply suffix_cons_r.
  - rewrite list_elem_of_bind. intros (t & ? & ?). trans t; eauto.
  - rewrite elem_of_app. intros [?|?]; eauto.
  - apply star_iter_suffix. eauto.
Qed.

Lemma matches_length r s s' : s' ∈ matches r s → length s' ≤ length s.
Proof. intros ?%matches_suffix. by apply suffix_length. Qed.

(** A match of an expression that is not nullable consumes input. *)
Lemma matches_progress r s s' :
  nullable r = false → s' ∈ matches r s → length s' < length s.
Proof.
  revert s s'. induction r as [|p|r1 IH1 r2 IH2|r1 IH1 r2 IH2|r IH];
    intros s s'; simpl; try done.
  - intros _. destruct s as [|c s]; [by intros ?%elem_of_nil|].
    destruct (p c); [|by intros ?%elem_of_nil].
    intros ->%list_elem_of_singleton. simpl. lia.
  - intros Hn. rewrite list_elem_of_bind. intros (t & H2 & H1).
    pose proof (matches_length _ _ _ H1). pose proof (matches_length _ _ _ H2).
    apply andb_false_iff in Hn as [Hn|Hn].
    + specialize (IH1 _ _ Hn H1). lia.
    + specialize (IH2 _ _ Hn H2). lia.
  - intros [? ?]%orb_false_iff. rewrite elem_of_app. intros [?|?]; eauto.
Qed.

Lemma exec_Some r s m :
  exec r s = Some m ↔ ∃ s', head (matches r s) = Some s' ∧ s = m ++ s'.
Proof.
  unfold exec. split.
  - destruct (head (matches r s)) as [s'|] eqn:Hh; [|done]. intros [= <-].
    exists s'. split; [done|].
    apply head_Some_elem_of, matches_suffix in Hh as [k ->].
    rewrite length_app, Nat.add_sub, take_app_length. done.
  - intros (s' & -> & ->). simpl.
    by rewrite length_app, Nat.add_sub, take_app_length.
Qed.

Lemma exec_None r s : exec r s = None ↔ matches r s = [].
Proof.
  unfold exec. destruct (matches r s); simpl; split; done.
Qed.

Lemma exec_prefix r s m : exec r s = Some m → m `prefix_of` s.
Proof. intros (s' & _ & ->)%exec_Some. by eexists. Qed.

Lemma exec_nonempty r s m :
  nullable r = false → exec r s = Some m → m ≠ [].
Proof.
  intros Hn (s' & Hh%head_Some_elem_of & ->)%exec_Some ->.
  apply (matches_progress _ _ _ Hn) in Hh. simpl in Hh. lia.
Qed.

(** ** Matching is local *)

Lemma cut_Some t u u' : cut t u = Some u' ↔ u = u' ++ t.
Proof.
  unfold cut. split.
  - case_decide as Hs; [|done]. destruct Hs as [k ->]. intros [= <-].
    by rewrite length_app, Nat.add_sub, take_app_length.
  - intros ->. rewrite decide_True by (by eexists).
    by rewrite length_app, Nat.add_sub, take_app_length.
Qed.

Lemma cut_app t u : cut t (u ++ t) = Some u.
Proof. by apply cut_Some. Qed.

Lemma cut_None t u : cut t u = None ↔ ¬ t `suffix_of` u.
Proof. unfold cut. case_decide; naive_solver. Qed.

(** Nothing is left of texts that do not end with [t]. *)
Lemma omap_cut_nil t u (l : list jstring) :
  cut t u = None → (∀ v, v ∈ l → v `suffix_of` u) → omap (cut t) l = [].
Proof.
  intros Hu%cut_None Hl. apply elem_of_nil_inv. intros v'.
  rewrite list_elem_of_omap. intros (v & Hv%Hl & ->%cut_Some).
  apply Hu. trans (v' ++ t); [by eexists | done].
Qed.

(** Two matchers in sequence, cut at [t]. *)
Lemma omap_cut_bind t (f g : jstring → list jstring) (l : list jstring) :
  (∀ u, u ++ t ∈ l → g u = omap (cut t) (f (u ++ t))) →
  (∀ u v, v ∈ f u → v `suffix_of` u) →
  omap (cut t) l ≫= g = omap (cut t) (l ≫= f).
Proof.
  intros Hg Hf. induction l as [|u l IH]; [done|].
  cbn [omap list_omap mbind list_bind]. rewrite omap_app.
  destruct (cut t u) as [u'|] eqn:Hu.
  - apply cut_Some in Hu as ->. cbn [mbind list_bind].
    rewrite (Hg u') by left. f_equal. apply IH. intros; apply Hg. by right.
  - rewrite (omap_cut_nil t u _ Hu (λ v, Hf u v)). apply IH. intros; apply Hg. by right.
Qed.

(** The greedy star, cut at [t]. *)
Lemma star_iter_cut t m s :
  (∀ s, m s = omap (cut t) (m (s ++ t))) →
  (∀ u v, v ∈ m u → v `suffix_of` u) →
  star_iter m (length s) s
  = omap (cut t) (star_iter m (length (s ++ t)) (s ++ t)).
Proof.
  intros Hm Hsuf. remember (length s) as n eqn:Hn. revert s Hn.
  induction n as [n IH] using lt_wf_ind. intros s ->.
  rewrite (star_iter_unfold m s), (star_iter_unfold m (s ++ t)), omap_app.
  cbn [omap list_omap]. rewrite cut_app, (Hm s). f_equal.
  apply omap_cut_bind.
  - intros u _. rewrite !length_app.
    destruct (decide (length u < length s)).
    + rewrite decide_True by lia. rewrite <- length_app. by eapply IH.
    + by rewrite decide_False by lia.
  - intros u v. case_decide; [|by intros ?%elem_of_nil].
    apply star_iter_suffix. eauto.
Qed.

(** The matches of [r] on a text are its matches on a longer text that end
    before the addition, in the same order. *)
Lemma matches_cut r s t : matches r s = omap (cut t) (matches r (s ++ t)).
Proof.
  revert s. induction r as [|p|r1 IH1 r2 IH2|r1 IH1 r2 IH2|r IH]; intros s.
  - simpl. by rewrite cut_app.
  - destruct s as [|c s]; simpl.
    + destruct t as [|c t]; [done|]. destruct (p c); [|done]. simpl.
      rewrite (proj2 (cut_None (c :: t) t)); [done|].
      intros ?%suffix_length. simpl in *. lia.
    + destruct (p c); [|done]. simpl. by rewrite cut_app.
  - simpl. rewrite (IH1 s). apply omap_cut_bind; [done|].
    intros u v. apply matches_suffix.
  - simpl. by rewrite omap_app, <- IH1, <- IH2.
  - apply star_iter_cut; [done|]. intros u v. apply matches_suffix.
Qed.

(** [exec] on a text cut after the match, or anywhere after it: the same
    match; and no match on the text, none on a part of it. *)
Lemma exec_cut r raw rest t :
  exec r (raw ++ rest ++ t) = Some raw → exec r (raw ++ rest) = Some raw.
Proof.
  intros (s' & Hh & <-%(inj (raw ++.)))%exec_Some. apply exec_Some.
  exists rest. split; [|done]. rewrite (matches_cut r _ t), <- (assoc_L (++)).
  destruct (matches r (raw ++ rest ++ t)); simplify_eq/=.
  by rewrite cut_app.
Qed.

Lemma exec_cut_None r s t : exec r (s ++ t) = None → exec r s = None.
Proof. rewrite !exec_None, (matches_cut r s t). by intros ->. Qed.

(** ** Maximal munch of a starred character class *)

Lemma take_drop_while p s : take_while p s ++ drop_while p s = s.
Proof. induction s as [|c s IH]; simpl; [done|]. destruct (p c); simpl; congruence. Qed.

Lemma take_while_Forall p s : Forall (λ c, p c = true) (take_while p s).
Proof.
  induction s as [|c s IH]; simpl; [done|].
  destruct (p c) eqn:?; [by constructor | done].
Qed.

Lemma drop_while_head p s c : head (drop_while p s) = Some c → p c = false.
Proof.
  induction s as [|x s IH]; simpl; [done|].
  destruct (p x) eqn:?; [done|]. simpl. by intros [= <-].
Qed.

Lemma head_matches_Star_Chr p s :
  head (matches (Star (Chr p)) s) = Some (drop_while p s).
Proof.
  induction s as [|c s IH]; [done|].
  rewrite matches_Star. cbn [matches drop_while].
  destruct (p c); [|done]. simpl. rewrite app_nil_r.
  case_decide; [|lia].
  change (star_iter _ _ s) with (matches (Star (Chr p)) s).
  destruct (matches (Star (Chr p)) s); simplify_eq/=; done.
Qed.

(** ** Backtracking into a starred character class *)

Lemma matches_Star_Chr p s : matches (Star (Chr p)) s = star_suffixes p s.
Proof.
  induction s as [|c s IH]; [done|].
  rewrite matches_Star. cbn [matches star_suffixes].
  destruct (p c); [|done]. simpl. rewrite app_nil_r.
  case_decide; [|lia]. by rewrite <- IH.
Qed.

Lemma star_suffixes_app p s t :
  Forall (λ c, p c = true) s →
  star_suffixes p (s ++ t)
  = star_suffixes p t ++ ((λ k, drop k s ++ t) <$> reverse (seq 0 (length s))).
Proof.
  induction 1 as [|c s Hc _ IH]; simpl; [by rewrite app_nil_r|].
  rewrite Hc, IH, <- fmap_S_seq, reverse_cons, <- fmap_reverse, fmap_app.
  rewrite <- list_fmap_compose, (assoc_L (++)). done.
Qed.

Lemma star_suffixes_head p s : head (star_suffixes p s) = Some (drop_while p s).
Proof. rewrite <- matches_Star_Chr. apply head_matches_Star_Chr. Qed.

Lemma matches_Seq r1 r2 s :
  matches (Seq r1 r2) s = matches r1 s ≫= matches r2.
Proof. done. Qed.

Lemma matches_Lit_cons a c s :
  matches (Lit a) (c :: s) = if decide (c = N_of_ascii a) then [s] else [].
Proof.
  simpl. case_decide as Hc.
  - subst. by rewrite N.eqb_refl.
  - apply N.eqb_neq in Hc. rewrite N.eqb_sym. by rewrite Hc.
Qed.

(** [exec] on a sequence: the first match of the second part after a match
    of the first. *)
Lemma exec_Seq_app r1 r2 s1 s2 m :
  matches r1 (s1 ++ s2) = [s2] → exec r2 s2 = Some m →
  exec (Seq r1 r2) (s1 ++ s2) = Some (s1 ++ m).
Proof.
  intros H1 (s' & Hh & ->)%exec_Some. apply exec_Some. exists s'.
  simpl. rewrite H1. simpl. rewrite app_nil_r. by rewrite (assoc_L (++)).
Qed.

Lemma exec_Seq_None r1 r2 s1 s2 :
  matches r1 (s1 ++ s2) = [s2] → exec r2 s2 = None →
  exec (Seq r1 r2) (s1 ++ s2) = None.
Proof.
  intros H1 H2%exec_None. apply exec_None. simpl. rewrite H1. simpl.
  by rewrite H2.
Qed.

(** Maximal munch: a starred character class matches the longest run. *)
Lemma exec_Star_Chr p s : exec (Star (Chr p)) s = Some (take_while p s).
Proof.
  apply exec_Some. exists (drop_while p s).
  by rewrite head_matches_Star_Chr, take_drop_while.
Qed.

Lemma matches_Chr_cons p c s : matches (Chr p) (c :: s) = if p c then [s] else [].
Proof. done. Qed.

(** ** The first match of a sequence *)

Lemma head_app_Some {A} (l k : list A) x : head l = Some x → head (l ++ k) = Some x.
Proof. by destruct l. Qed.

Lemma head_bind_Some {A B} (f : A → list B) l x y :
  head l = Some x → head (f x) = Some y → head (l ≫= f) = Some y.
Proof.
  destruct l as [|x' l]; [done|]. intros [= ->] Hy. cbn [mbind list_bind].
  by apply head_app_Some.
Qed.

Lemma matches_Opt r s : matches (Opt r) s = matches r s ++ [s].
Proof. done. Qed.

(** The first match of a sequence is the first match of its second part
    after the first match of its first part, when there is one. *)
Lemma head_matches_Seq r1 r2 s s1 s2 :
  head (matches r1 s) = Some s1 → head (matches r2 s1) = Some s2 →
  head (matches (Seq r1 r2) s) = Some s2.
Proof. rewrite matches_Seq. apply head_bind_Some. Qed.

Lemma matches_Seq_nil r1 r2 s : matches r1 s = [] → matches (Seq r1 r2) s = [].
Proof. rewrite matches_Seq. by intros ->. Qed.

(** One unit of a class or more: the rest after the longest run. *)
Lemma head_matches_Plus_Chr p s :
  head (matches (Plus (Chr p)) s)
  = match s with
    | c :: s' => if p c then Some (drop_while p s') else None
    | [] => None
    end.
Proof.
  unfold Plus. destruct s as [|c s]; [done|].
  rewrite matches_Seq, matches_Chr_cons. destruct (p c); [|done].
  cbn [mbind list_bind]. rewrite app_nil_r. apply head_matches_Star_Chr.
Qed.

Lemma matches_Alt r1 r2 s : matches (Alt r1 r2) s = matches r1 s ++ matches r2 s.
Proof. done. Qed.
