(* ===== verification/Token.v ===== *)
(** * Token: ranges, values and tokens

    The records the components exchange ([IRange], [IPosition], [Token] of
    [json-parse-ast.d.ts]), the values a token can carry, and the two
    library calls that decode a raw text into a value: [JSON.parse] on a
    string literal and the unary plus on a number literal.  [JSON.stringify]
    on a string, with which the test files write their inputs, is the
    inverse of the first. *)

From S2P Require Import Prelude Regex.

(** ** Ranges and positions *)

Record IRange := {
  startLineNumber : Z;
  startColumn : Z;
  endLineNumber : Z;
  endColumn : Z
}.

Record IPosition := {
  lineNumber : Z;
  column : Z
}.

#[export] Instance IRange_eq_dec : EqDecision IRange.
Proof. solve_decision. Defined.

#[export] Instance IPosition_eq_dec : EqDecision IPosition.
Proof. solve_decision. Defined.

(** The two corners of a range. *)
Definition range_start (r : IRange) : IPosition :=
  {| lineNumber := startLineNumber r; column := startColumn r |}.
Definition range_end (r : IRange) : IPosition :=
  {| lineNumber := endLineNumber r; column := endColumn r |}.

(** Lexicographic order on (line, column). *)
Definition pos_le (p q : IPosition) : Prop :=
  (lineNumber p < lineNumber q
   ∨ lineNumber p = lineNumber q ∧ column p ≤ column q)%Z.

(** Strictly before. *)
Definition pos_lt (p q : IPosition) : Prop :=
  (lineNumber p < lineNumber q
   ∨ lineNumber p = lineNumber q ∧ column p < column q)%Z.

#[export] Instance pos_lt_dec p q : Decision (pos_lt p q).
Proof. unfold pos_lt. apply _. Defined.

#[export] Instance pos_le_dec p q : Decision (pos_le p q).
Proof. unfold pos_le. apply _. Defined.

#[export] Instance pos_le_preorder : PreOrder pos_le.
Proof. split; unfold pos_le; [intros ? | intros ? ? ?]; lia. Qed.

(** The ranges [ranges] follow one another from [start]: each starts where
    the one before ends and ends at or after its start.  The result is the
    end of the last one. *)
Fixpoint chain (start : IPosition) (ranges : list IRange) : option IPosition :=
  match ranges with
  | [] => Some start
  | r :: rs =>
    if decide (range_start r = start ∧ pos_le (range_start r) (range_end r))
    then chain (range_end r) rs
    else None
  end.

(** ** Values *)

(** The number a decimal literal denotes: (-1)^neg * mantissa * 10^exp10. *)
Record js_number := {
  num_neg : bool;
  num_mantissa : N;
  num_exp10 : Z
}.

Inductive jsval :=
| VString (s : jstring)
| VNumber (x : js_number)
| VBool (b : bool)
| VNull.

#[export] Instance js_number_eq_dec : EqDecision js_number.
Proof. solve_decision. Defined.

#[export] Instance jsval_eq_dec : EqDecision jsval.
Proof. solve_decision. Defined.

(** ** Tokens *)

(** The [type] of a token is one of seven strings; any other string is
    [T_other]. *)
Inductive token_type :=
| T_inlinecomment
| T_multilinecomment
| T_whitespace
| T_string
| T_literal
| T_number
| T_punctuation
| T_other (name : jstring).

Record token := {
  tok_type : token_type;
  tok_position : IRange;
  tok_raw : jstring;
  tok_value : jsval
}.

(** The object literal [{type, position, raw, value}]. *)
Definition mk_token (ty : token_type) (position : IRange) (raw : jstring)
    (value : jsval) : token :=
  {| tok_type := ty; tok_position := position; tok_raw := raw;
     tok_value := value |}.

#[export] Instance token_type_eq_dec : EqDecision token_type.
Proof. solve_decision. Defined.

#[export] Instance token_eq_dec : EqDecision token.
Proof. solve_decision. Defined.

(** ** [JSON.parse] on a string literal *)

(** The value of a hexadecimal digit. *)
Definition hex_digit (c : code_unit) : option N :=
  if in_range "0" "9" c then Some (c - 48)%N
  else if in_range "a" "f" c then Some (c - 87)%N
  else if in_range "A" "F" c then Some (c - 55)%N
  else None.

Definition hex4 (h1 h2 h3 h4 : code_unit) : option code_unit :=
  a ← hex_digit h1; b ← hex_digit h2; c ← hex_digit h3; d ← hex_digit h4;
  Some (((a * 16 + b) * 16 + c) * 16 + d)%N.

(** The unit a one-letter escape stands for; JSON has eight of them: the
    double quote, the backslash, the slash, and the letters b f n r t. *)
Definition escape_char (e : code_unit) : option code_unit :=
  if decide (e = 34%N) then Some 34%N
  else if decide (e = 92%N) then Some 92%N
  else if decide (e = 47%N) then Some 47%N
  else if decide (e = 98%N) then Some 8%N
  else if decide (e = 102%N) then Some 12%N
  else if decide (e = 110%N) then Some 10%N
  else if decide (e = 114%N) then Some 13%N
  else if decide (e = 116%N) then Some 9%N
  else None.

(** JSON white space: tab, line feed, carriage return, space. *)
Definition is_json_ws (c : code_unit) : bool :=
  bool_decide (c ∈ [9; 10; 13; 32]%N).

(** The characters of a JSON string after its opening quote, up to the
    closing quote, which only white space may follow.  [None] is a syntax
    error: an escape JSON does not have, a bare control character, a missing
    closing quote, or text after it. *)
Fixpoint JSON_string_chars (s : jstring) : option jstring :=
  match s with
  | [] => None
  | c :: s1 =>
    if decide (c = 34%N) then
      if forallb is_json_ws s1 then Some [] else None
    else if decide (c = 92%N) then
      match s1 with
      | [] => None
      | e :: s2 =>
        if decide (e = 117%N) then
          match s2 with
          | h1 :: h2 :: h3 :: h4 :: s3 =>
            u ← hex4 h1 h2 h3 h4; (u ::.) <$> JSON_string_chars s3
          | _ => None
          end
        else u ← escape_char e; (u ::.) <$> JSON_string_chars s2
      end
    else if decide (c < 32)%N then None
    else (c ::.) <$> JSON_string_chars s1
  end.

(** [JSON.parse(text)] for a text whose first unit after white space is a
    double quote: the decoded string, or a SyntaxError.  The tokenizer calls
    it on such texts only; on a text that starts otherwise the model answers
    SyntaxError. *)
Definition JSON_parse (text : jstring) : outcome jsval :=
  match drop_while is_json_ws text with
  | c :: s =>
    if decide (c = 34%N) then
      match JSON_string_chars s with
      | Some v => Ok (VString v)
      | None => Throw SyntaxError
      end
    else Throw SyntaxError
  | [] => Throw SyntaxError
  end.

(** ** [JSON.stringify] on a string *)

(** The digit of a value below 16, in lower case. *)
Definition hex_of (d : N) : code_unit :=
  if (d <? 10)%N then (d + 48)%N else (d + 87)%N.

(** [\uXXXX] for a code unit. *)
Definition unicode_escape (u : code_unit) : jstring :=
  [92; 117; hex_of (u / 4096); hex_of (u / 256 mod 16);
   hex_of (u / 16 mod 16); hex_of (u mod 16)]%N.

Definition is_high_surrogate (c : code_unit) : bool :=
  (55296 <=? c)%N && (c <=? 56319)%N.
Definition is_low_surrogate (c : code_unit) : bool :=
  (56320 <=? c)%N && (c <=? 57343)%N.

(** The text that stands for one code unit that is no part of a surrogate
    pair: a two-character escape for the quote, the backslash and five
    control characters, [\uXXXX] for the other control characters and
    for a surrogate, and the unit itself otherwise. *)
Definition quote_unit (c : code_unit) : jstring :=
  if decide (c = 8%N) then [92; 98]%N
  else if decide (c = 9%N) then [92; 116]%N
  else if decide (c = 10%N) then [92; 110]%N
  else if decide (c = 12%N) then [92; 102]%N
  else if decide (c = 13%N) then [92; 114]%N
  else if decide (c = 34%N) then [92; 34]%N
  else if decide (c = 92%N) then [92; 92]%N
  else if (c <? 32)%N || is_high_surrogate c || is_low_surrogate c
  then unicode_escape c
  else [c].

(** The characters between the quotes of [JSON.stringify(s)]: a surrogate
    pair is kept, any other unit is quoted. *)
Fixpoint quote_chars (s : jstring) : jstring :=
  match s with
  | [] => []
  | c :: s1 =>
    match s1 with
    | c' :: s2 =>
      if is_high_surrogate c && is_low_surrogate c'
      then c :: c' :: quote_chars s2
      else quote_unit c ++ quote_chars s1
    | [] => quote_unit c
    end
  end.

(** [JSON.stringify(s)] for a string [s]. *)
Definition JSON_stringify (s : jstring) : jstring :=
  34%N :: quote_chars s ++ [34%N].

(** ** [+value] on a number literal *)

(** The number a run of decimal digits denotes. *)
Definition digits_value (ds : jstring) : N :=
  foldl (λ acc d, 10 * acc + (d - 48))%N 0%N ds.

(** The exponent part: [e] or [E], an optional sign, digits. *)
Definition exponent_value (s : jstring) : Z :=
  match s with
  | c :: s1 =>
    if one_of ["e"; "E"]%char c then
      match s1 with
      | sg :: s2 =>
        if decide (sg = 45%N) then (- Z.of_N (digits_value (take_while is_digit s2)))%Z
        else if decide (sg = 43%N) then Z.of_N (digits_value (take_while is_digit s2))
        else Z.of_N (digits_value (take_while is_digit s1))
      | [] => 0%Z
      end
    else 0%Z
  | [] => 0%Z
  end.

(** [+value] for a text the number expression of the tokenizer matched:
    sign, integer digits, fraction digits, exponent. *)
Definition to_number (s : jstring) : js_number :=
  let neg := bool_decide (head s = Some 45%N) in
  let s1 := if neg then drop 1 s else s in
  let int := take_while is_digit s1 in
  let s2 := drop_while is_digit s1 in
  let dot := bool_decide (head s2 = Some 46%N) in
  let frac := if dot then take_while is_digit (drop 1 s2) else [] in
  let s3 := if dot then drop_while is_digit (drop 1 s2) else s2 in
  {| num_neg := neg;
     num_mantissa := digits_value (int ++ frac);
     num_exp10 := exponent_value s3 - Z.of_nat (length frac) |}.

(** ** Lemmas *)

(** Goals on the order of positions, by linear arithmetic on their lines
    and columns. *)
Ltac solve_pos :=
  repeat match goal with p : IPosition |- _ => destruct p end;
  unfold pos_le, pos_lt, range_start, range_end in *; simpl in *;
  simplify_eq; lia.

Lemma pos_lt_le p q : pos_lt p q → pos_le p q.
Proof. solve_pos. Qed.

Lemma pos_le_lt_trans p q r : pos_le p q → pos_lt q r → pos_lt p r.
Proof. solve_pos. Qed.

Lemma pos_lt_le_trans p q r : pos_lt p q → pos_le q r → pos_lt p r.
Proof. solve_pos. Qed.

Lemma pos_lt_not_le p q : pos_lt p q ↔ ¬ pos_le q p.
Proof. solve_pos. Qed.

Lemma pos_le_antisym p q : pos_le p q → pos_le q p → p = q.
Proof. destruct p, q. unfold pos_le. simpl. intros. f_equal; lia. Qed.

Lemma pos_le_total p q : pos_le p q ∨ pos_lt q p.
Proof. solve_pos. Qed.

Lemma JSON_parse_cases text :
  (∃ v, JSON_parse text = Ok (VString v)) ∨ JSON_parse text = Throw SyntaxError.
Proof.
  unfold JSON_parse. destruct (drop_while is_json_ws text) as [|c s]; [by right|].
  case_decide; [|by right]. destruct (JSON_string_chars s); eauto.
Qed.

Lemma hex_digit_lt c v : hex_digit c = Some v → (v < 16)%N.
Proof.
  unfold hex_digit.
  destruct (in_range "0" "9" c) eqn:H1; [|
  destruct (in_range "a" "f" c) eqn:H2; [|
  destruct (in_range "A" "F" c) eqn:H3; [|done]]];
  intros [= <-];
  match goal with H : in_range _ _ _ = true |- _ =>
    apply in_range_spec in H; revert H end;
  change (N_of_ascii "0") with 48%N; change (N_of_ascii "9") with 57%N;
  change (N_of_ascii "a") with 97%N; change (N_of_ascii "f") with 102%N;
  change (N_of_ascii "A") with 65%N; change (N_of_ascii "F") with 70%N; lia.
Qed.

(** A [\uXXXX] escape denotes one UTF-16 code unit. *)
Lemma hex4_lt h1 h2 h3 h4 u : hex4 h1 h2 h3 h4 = Some u → (u < 65536)%N.
Proof.
  unfold hex4.
  destruct (hex_digit h1) as [a|] eqn:Ha; [|done].
  destruct (hex_digit h2) as [b|] eqn:Hb; [|done].
  destruct (hex_digit h3) as [c|] eqn:Hc; [|done].
  destruct (hex_digit h4) as [d|] eqn:Hd; [|done].
  apply hex_digit_lt in Ha, Hb, Hc, Hd. intros [= <-]. lia.
Qed.

(** ** Chains of ranges *)

Lemma chain_le start ranges end_ :
  chain start ranges = Some end_ → pos_le start end_.
Proof.
  revert start. induction ranges as [|r rs IH]; intros start; simpl.
  - by intros [= ->].
  - case_decide as Hr; [|done]. destruct Hr as [<- ?]. intros ?%IH.
    by etrans.
Qed.

(** A chain cut at one of its ranges: a chain up to the start of the range,
    the range, and a chain from its end. *)
Lemma chain_split start ranges end_ k r :
  chain start ranges = Some end_ → ranges !! k = Some r →
  chain start (take k ranges) = Some (range_start r)
  ∧ pos_le (range_start r) (range_end r)
  ∧ chain (range_end r) (drop (S k) ranges) = Some end_.
Proof.
  revert start k. induction ranges as [|r' rs IH]; intros start [|k]; simpl;
    try done.
  - case_decide as Hr; [|done]. destruct Hr as [<- ?]. by intros ? [= <-].
  - case_decide as Hr; [|done]. intros Hc Hk.
    by destruct (IH _ _ Hc Hk) as (? & ? & ?).
Qed.

Lemma chain_before start ranges end_ k k' r r' :
  chain start ranges = Some end_ →
  ranges !! k = Some r → ranges !! k' = Some r' → k' < k →
  pos_le (range_end r') (range_start r).
Proof.
  intros Hc Hk Hk' Hlt. destruct (chain_split _ _ _ _ _ Hc Hk) as (Ht & _ & _).
  rewrite <- (lookup_take_lt _ k) in Hk' by done.
  destruct (chain_split _ _ _ _ _ Ht Hk') as (_ & _ & ?%chain_le). done.
Qed.

Lemma chain_within start ranges end_ k r :
  chain start ranges = Some end_ → ranges !! k = Some r →
  pos_le start (range_start r) ∧ pos_le (range_end r) end_.
Proof.
  intros Hc Hk.
  destruct (chain_split _ _ _ _ _ Hc Hk) as (?%chain_le & _ & ?%chain_le). done.
Qed.

Lemma chain_app start ranges1 ranges2 end_ :
  chain start (ranges1 ++ ranges2) = Some end_
  ↔ ∃ mid, chain start ranges1 = Some mid ∧ chain mid ranges2 = Some end_.
Proof.
  revert start. induction ranges1 as [|r rs IH]; intros start; simpl.
  - naive_solver.
  - case_decide; [apply IH | naive_solver].
Qed.

Lemma chain_singleton start r end_ :
  chain start [r] = Some end_
  ↔ range_start r = start ∧ range_end r = end_
    ∧ pos_le (range_start r) (range_end r).
Proof. simpl. case_decide; naive_solver. Qed.

(** A chain that opens with [first] and closes with [last]. *)
Lemma chain_around s first mid last e :
  chain s (first :: mid ++ [last]) = Some e
  ↔ range_start first = s ∧ pos_le (range_start first) (range_end first)
    ∧ chain (range_end first) mid = Some (range_start last)
    ∧ pos_le (range_start last) (range_end last) ∧ range_end last = e.
Proof.
  cbn [chain]. case_decide; rewrite ?chain_app;
    try setoid_rewrite chain_singleton; naive_solver.
Qed.

(** ** The value of a string token *)

Lemma JSON_string_chars_plain s :
  Forall (λ c, c ≠ 34 ∧ c ≠ 92 ∧ 32 ≤ c)%N s →
  JSON_string_chars (s ++ [34%N]) = Some s.
Proof.
  induction 1 as [|c s (? & ? & ?) _ IH]; [done|]. cbn [app JSON_string_chars].
  rewrite !decide_False by lia. by rewrite IH.
Qed.

(** The value of a string literal without escapes is the text between
    its quotes: on a double quote, units that are neither a double quote
    nor a backslash nor control characters, and a double quote, [JSON.parse]
    returns those units. *)
Theorem JSON_parse_plain s :
  Forall (λ c, c ≠ 34 ∧ c ≠ 92 ∧ 32 ≤ c)%N s →
  JSON_parse (34%N :: s ++ [34%N]) = Ok (VString s).
Proof.
  intros Hs. unfold JSON_parse. cbn [drop_while].
  change (is_json_ws 34) with false. cbv iota.
  by rewrite decide_True, JSON_string_chars_plain.
Qed.

Lemma JSON_parse_plain_witness :
  JSON_parse (34%N :: js "foo" ++ [34%N]) = Ok (VString (js "foo")).
Proof.
  apply JSON_parse_plain. repeat (constructor; [by vm_compute|]). constructor.
Defined.

(** ** [JSON.parse] after [JSON.stringify] *)

Lemma hex_digit_hex_of d : (d < 16)%N → hex_digit (hex_of d) = Some d.
Proof.
  intros Hd. unfold hex_of, hex_digit, in_range.
  change (N_of_ascii "0") with 48%N; change (N_of_ascii "9") with 57%N;
  change (N_of_ascii "a") with 97%N; change (N_of_ascii "f") with 102%N;
  change (N_of_ascii "A") with 65%N; change (N_of_ascii "F") with 70%N.
  destruct (d <? 10)%N eqn:Hlt; [apply N.ltb_lt in Hlt|apply N.ltb_ge in Hlt].
  - rewrite (proj2 (N.leb_le 48 _)), (proj2 (N.leb_le _ 57)) by lia. simpl.
    f_equal. lia.
  - rewrite (proj2 (N.leb_gt _ 57)) by lia. rewrite andb_false_r.
    rewrite (proj2 (N.leb_le 97 _)), (proj2 (N.leb_le _ 102)) by lia. simpl.
    f_equal. lia.
Qed.

Lemma hex4_unicode_escape u s :
  (u < 65536)%N →
  JSON_string_chars (unicode_escape u ++ s) = (u ::.) <$> JSON_string_chars s.
Proof.
  intros Hu. unfold unicode_escape. cbn [app JSON_string_chars].
  rewrite decide_False, decide_True, decide_True by done. unfold hex4.
  assert (u / 4096 < 16)%N by (apply N.Div0.div_lt_upper_bound; lia).
  rewrite !hex_digit_hex_of by (done || by apply N.mod_lt). simpl.
  do 2 f_equal.
  replace (u / 4096)%N with (u / 16 / 16 / 16)%N
    by (by rewrite !N.Div0.div_div).
  replace (u / 256)%N with (u / 16 / 16)%N by (by rewrite !N.Div0.div_div).
  pose proof (N.div_mod u 16). pose proof (N.div_mod (u / 16) 16).
  pose proof (N.div_mod (u / 16 / 16) 16).
  pose proof (N.mod_small (u / 16 / 16 / 16) 16). lia.
Qed.

(** A quoted unit is read back as the unit. *)
Lemma JSON_string_chars_quote_unit c s :
  JSON_string_chars (quote_unit c ++ s) = (c ::.) <$> JSON_string_chars s.
Proof.
  unfold quote_unit.
  repeat (case_decide; [by subst|]).
  destruct ((c <? 32)%N || is_high_surrogate c || is_low_surrogate c) eqn:Hc.
  - apply hex4_unicode_escape.
    unfold is_high_surrogate, is_low_surrogate in Hc.
    repeat (apply orb_true_iff in Hc as [Hc|Hc]);
      [apply N.ltb_lt in Hc|apply andb_true_iff in Hc as [_ Hc%N.leb_le]..];
      lia.
  - apply orb_false_iff in Hc as [[Hc%N.ltb_ge _]%orb_false_iff _].
    cbn [app JSON_string_chars]. by rewrite !decide_False by lia.
Qed.

(** A unit from the range of the surrogates is read as it is. *)
Lemma JSON_string_chars_surrogate c s :
  (55296 ≤ c)%N → JSON_string_chars (c :: s) = (c ::.) <$> JSON_string_chars s.
Proof. intros Hc. cbn [JSON_string_chars]. by rewrite !decide_False by lia. Qed.

Lemma quote_chars_cons c c' s :
  quote_chars (c :: c' :: s)
  = if is_high_surrogate c && is_low_surrogate c'
    then c :: c' :: quote_chars s
    else quote_unit c ++ quote_chars (c' :: s).
Proof. done. Qed.

Lemma JSON_string_chars_quote s :
  JSON_string_chars (quote_chars s ++ [34%N]) = Some s.
Proof.
  remember (length s) as n eqn:Hn. revert s Hn.
  induction n as [n IH] using lt_wf_ind. intros [|c [|c' s]] ->; [done|..].
  - cbn [quote_chars]. by rewrite JSON_string_chars_quote_unit.
  - rewrite quote_chars_cons.
    destruct (is_high_surrogate c && is_low_surrogate c') eqn:Hp.
    + apply andb_true_iff in Hp as [[Hc%N.leb_le _]%andb_true_iff
                                      [Hc'%N.leb_le _]%andb_true_iff].
      cbn [app]. rewrite !JSON_string_chars_surrogate by lia.
      by rewrite (IH (length s) ltac:(simpl; lia) s eq_refl).
    + rewrite <- (assoc_L (++)), JSON_string_chars_quote_unit.
      by rewrite (IH (length (c' :: s)) ltac:(simpl; lia) (c' :: s) eq_refl).
Qed.

(** Round trip of a string through [JSON.stringify] and [JSON.parse]. *)
Theorem JSON_parse_stringify s :
  JSON_parse (JSON_stringify s) = Ok (VString s).
Proof.
  unfold JSON_parse, JSON_stringify. cbn [drop_while].
  change (is_json_ws 34) with false. cbv iota.
  by rewrite decide_True, JSON_string_chars_quote.
Qed.
