(* ===== verification/Tokenizer.v ===== *)
(** * Tokenizer: [tokenTypes] and [tokenize]

    The table of token types (a regular expression and a [create] function
    each), the update of the line/column cursor after a token, and the loop
    of [tokenize], which commits to the first expression of the table that
    matches the rest of the input and stops at the first position where none
    does.  The class [TokenType] states what the loop needs of an entry of
    the table; the lemmas on the loop are proved from it. *)

From S2P Require Import Prelude Regex Token.

Local Open Scope regex_scope.

(** ** The regular expressions *)

(** The double quote and the backslash. *)
Definition dquote : ascii := "034"%char.
Definition backslash : ascii := "092"%char.

(** [/^\/\/.*/] *)
Definition re_inlinecomment : regex :=
  Lit "/" ⨾ Lit "/" ⨾ (Chr is_dot)⋆.

(** [/^\/\*.*\*\//] *)
Definition re_multilinecomment : regex :=
  Lit "/" ⨾ Lit "*" ⨾ (Chr is_dot)⋆ ⨾ Lit "*" ⨾ Lit "/".

(** [/^\s+/] *)
Definition re_whitespace : regex :=
  Plus (Chr is_space).

(** A double quote, any number of units that are neither a double quote nor
    a backslash or of pairs of a backslash and a unit matched by the dot,
    and a double quote. *)
Definition re_string : regex :=
  Lit dquote
  ⨾ (Chr (none_of [dquote; backslash]) ∣ Lit backslash ⨾ Chr is_dot)⋆
  ⨾ Lit dquote.

(** [/^(true|false|null)/] *)
Definition re_literal : regex :=
  Word (list_ascii_of_string "true")
  ∣ Word (list_ascii_of_string "false")
  ∣ Word (list_ascii_of_string "null").

(** The JSON number: an optional minus; a zero, or a digit from 1 to 9
    and digits; an optional fraction (a dot and one digit or more); an
    optional exponent (e or E, an optional sign, one digit or more). *)
Definition re_number : regex :=
  Opt (Lit "-")
  ⨾ (Lit "0" ∣ Chr (in_range "1" "9") ⨾ (Chr is_digit)⋆)
  ⨾ Opt (Lit "." ⨾ Plus (Chr is_digit))
  ⨾ Opt (Chr (one_of ["e"; "E"]%char)
         ⨾ Opt (Chr (one_of ["+"; "-"]%char))
         ⨾ Plus (Chr is_digit)).

(** [/^([{}\[\]:,])/] *)
Definition re_punctuation : regex :=
  Chr (one_of ["{"; "}"; "["; "]"; ":"; ","]%char).

(** ** The [create] functions *)

Definition create_inlinecomment (value : jstring) (position : IRange)
    : outcome token :=
  Ok (mk_token T_inlinecomment position value (VString (substring 2 value))).

Definition create_multilinecomment (value : jstring) (position : IRange)
    : outcome token :=
  Ok (mk_token T_multilinecomment position value
        (VString (slice_neg 2 2 value))).

Definition create_whitespace (value : jstring) (position : IRange)
    : outcome token :=
  Ok (mk_token T_whitespace position value (VString value)).

Definition create_string (value : jstring) (position : IRange)
    : outcome token :=
  v ← JSON_parse value;
  Ok (mk_token T_string position value v).

Definition create_literal (value : jstring) (position : IRange)
    : outcome token :=
  Ok (mk_token T_literal position value
        (if decide (value = js "null") then VNull
         else VBool (bool_decide (value = js "true")))).

Definition create_number (value : jstring) (position : IRange)
    : outcome token :=
  Ok (mk_token T_number position value (VNumber (to_number value))).

Definition create_punctuation (value : jstring) (position : IRange)
    : outcome token :=
  Ok (mk_token T_punctuation position value (VString value)).

Record tokenType := {
  regexp : regex;
  create : jstring → IRange → outcome token
}.

Definition tokenTypes : list tokenType := [
  {| regexp := re_inlinecomment; create := create_inlinecomment |};
  {| regexp := re_multilinecomment; create := create_multilinecomment |};
  {| regexp := re_whitespace; create := create_whitespace |};
  {| regexp := re_string; create := create_string |};
  {| regexp := re_literal; create := create_literal |};
  {| regexp := re_number; create := create_number |};
  {| regexp := re_punctuation; create := create_punctuation |}
].

(** ** The loop *)

(** The variables of [tokenize]. *)
Record lexer := {
  position : IPosition;
  index : nat;
  tokens : list token
}.

(** The cursor after [rawToken]. *)
Definition advance (position : IPosition) (rawToken : jstring) : IPosition :=
  let numberOfNewLinesInToken := count_unit LF%js rawToken in
  if decide (1 ≤ numberOfNewLinesInToken) then
    {| lineNumber := lineNumber position + Z.of_nat numberOfNewLinesInToken;
       column := Z.of_nat (length rawToken) - lastIndexOf LF%js rawToken + 1 |}
  else
    {| lineNumber := lineNumber position;
       column := column position + Z.of_nat (length rawToken) |}.

(** The [for] loop over [tokenTypes]: the first type whose expression
    matches, with the text of the match. *)
Fixpoint first_match (types : list tokenType) (subjson : jstring)
    : option (tokenType * jstring) :=
  match types with
  | [] => None
  | tokenType :: types' =>
    match exec (regexp tokenType) subjson with
    | Some rawToken => Some (tokenType, rawToken)
    | None => first_match types' subjson
    end
  end.

Definition to_IRange (start end_ : IPosition) : IRange :=
  {| startLineNumber := lineNumber start; startColumn := column start;
     endLineNumber := lineNumber end_; endColumn := column end_ |}.

(** One pass of the [while] body: [None] when the loop is left, by its
    condition or by [break]. *)
Definition tokenize_step (json : jstring) (st : lexer)
    : outcome (option lexer) :=
  if decide (index st < length json) then
    match first_match tokenTypes (substring (index st) json) with
    | Some (tokenType, rawToken) =>
      let position' := advance (position st) rawToken in
      tok ← create tokenType rawToken (to_IRange (position st) position');
      Ok (Some {| position := position';
                  index := index st + length rawToken;
                  tokens := tokens st ++ [tok] |})
    | None => Ok None
    end
  else Ok None.

Fixpoint tokenize_loop (fuel : nat) (json : jstring) (st : lexer)
    : outcome (list token) :=
  match fuel with
  | 0 => OutOfFuel
  | S fuel' =>
    r ← tokenize_step json st;
    match r with
    | Some st' => tokenize_loop fuel' json st'
    | None => Ok (tokens st)
    end
  end.

(** [var position = {lineNumber: 1, column: 1}] *)
Definition start_position : IPosition := {| lineNumber := 1; column := 1 |}.

Definition lexer_init : lexer :=
  {| position := start_position; index := 0; tokens := [] |}.

Definition tokenize (json : jstring) : outcome (list token) :=
  tokenize_loop (S (length json)) json lexer_init.

(** ** Reference definitions *)

(** The cursor that reads a text unit by unit: a line feed starts a new
    line at column 1, any other unit is one column. *)
Definition walk (p : IPosition) (c : code_unit) : IPosition :=
  if decide (c = LF%js)
  then {| lineNumber := lineNumber p + 1; column := 1 |}
  else {| lineNumber := lineNumber p; column := column p + 1 |}.

(** [p], one column to the right when [b] holds. *)
Definition skew (b : bool) (p : IPosition) : IPosition :=
  {| lineNumber := lineNumber p;
     column := column p + (if b then 1 else 0) |}.

(** The ranges of [toks] as the loop assigns them from the cursor [p]: each
    token runs from the cursor to the cursor advanced over its raw text. *)
Fixpoint positioned (p : IPosition) (toks : list token) : Prop :=
  match toks with
  | [] => True
  | t :: toks' =>
    tok_position t = to_IRange p (advance p (tok_raw t))
    ∧ positioned (advance p (tok_raw t)) toks'
  end.

(** What the loop maintains: the raw texts of the tokens are the input read
    so far, none is empty, and the ranges are those [positioned] gives from
    1:1, the cursor being at the end of the last one. *)
Record lexer_inv (json : jstring) (st : lexer) : Prop := {
  inv_index : index st ≤ length json;
  inv_raw : mjoin (tok_raw <$> tokens st) = take (index st) json;
  inv_nonempty : Forall (λ t, tok_raw t ≠ []) (tokens st);
  inv_positioned : positioned (start_position) (tokens st);
  inv_position :
    position st = foldl advance (start_position) (tok_raw <$> tokens st)
}.

(** A cursor in a text of which [n] code units have been read: line and
    column count from 1, and the column is at most one more than [n]. *)
Definition within (n : nat) (p : IPosition) : Prop :=
  (1 ≤ lineNumber p ∧ 1 ≤ column p ∧ column p ≤ Z.of_nat n + 1)%Z.

(** A range of a text of [n] code units that ends on line [lines] at the
    latest. *)
Definition range_within (n : nat) (lines : Z) (r : IRange) : Prop :=
  (1 ≤ startLineNumber r ∧ startLineNumber r ≤ endLineNumber r
   ∧ endLineNumber r ≤ lines
   ∧ 1 ≤ startColumn r ∧ startColumn r ≤ Z.of_nat n + 1
   ∧ 1 ≤ endColumn r ∧ endColumn r ≤ Z.of_nat n + 1)%Z.

(** A token as a [create] function makes it: its raw text is not empty,
    and its value is the one its type computes from the raw text, a string
    for five of the types, a boolean or [null] for a literal and a number
    for a number. *)
Definition token_ok (t : token) : bool :=
  bool_decide (tok_raw t ≠ [])
  && match tok_type t, tok_value t with
     | T_inlinecomment, VString v => bool_decide (v = substring 2 (tok_raw t))
     | T_multilinecomment, VString v =>
       bool_decide (v = slice_neg 2 2 (tok_raw t))
     | T_whitespace, VString v => bool_decide (v = tok_raw t)
     | T_string, VString v => bool_decide (JSON_parse (tok_raw t) = Ok (VString v))
     | T_literal, VNull => bool_decide (tok_raw t = js "null")
     | T_literal, VBool b =>
       bool_decide (tok_raw t ≠ js "null"
                    ∧ b = bool_decide (tok_raw t = js "true"))
     | T_number, VNumber x => bool_decide (x = to_number (tok_raw t))
     | T_punctuation, VString v => bool_decide (v = tok_raw t)
     | _, _ => false
     end.

(** What the loop relies on of an entry of the table: its expression does
    not match the empty string; its [create] returns a token with the text
    and the range it is given, well typed, or throws a SyntaxError. *)
Class TokenType (t : tokenType) : Prop := {
  regexp_consumes : nullable (regexp t) = false;
  create_fields raw range tok :
    create t raw range = Ok tok → tok_raw tok = raw ∧ tok_position tok = range;
  create_throws raw range :
    (∃ tok, create t raw range = Ok tok)
    ∨ create t raw range = Throw SyntaxError;
  create_typed raw range tok :
    raw ≠ [] → create t raw range = Ok tok → token_ok tok = true
}.

(** A text with a line feed, and its tokens. *)
Definition sample_text : jstring :=
  jsq "{'a':1," ++ [LF%js] ++ jsq " 'b':null}".

Definition sample_lexed : list token :=
  Eval vm_compute in
    match tokenize sample_text with Ok toks => toks | _ => [] end.

(** ** The table *)

(** The seven entries keep the promises of a token type. *)
Ltac solve_TokenType :=
  split; [done|..]; simpl;
  unfold create_inlinecomment, create_multilinecomment, create_whitespace,
    create_string, create_literal, create_number, create_punctuation;
  [ intros raw range tok ?; by outcome_inv
  | intros raw range; try (left; by eexists)
  | intros raw range tok Hne ?; outcome_inv; unfold token_ok; simpl;
    rewrite (bool_decide_eq_true_2 (raw ≠ [])) by done; simpl;
    try by apply bool_decide_eq_true ].

#[export] Instance inlinecomment_TokenType :
  TokenType {| regexp := re_inlinecomment; create := create_inlinecomment |}.
Proof. solve_TokenType. Qed.

#[export] Instance multilinecomment_TokenType :
  TokenType {| regexp := re_multilinecomment;
               create := create_multilinecomment |}.
Proof. solve_TokenType. Qed.

#[export] Instance whitespace_TokenType :
  TokenType {| regexp := re_whitespace; create := create_whitespace |}.
Proof. solve_TokenType. Qed.

#[export] Instance string_TokenType :
  TokenType {| regexp := re_string; create := create_string |}.
Proof.
  solve_TokenType.
  - destruct (JSON_parse_cases raw) as [[v ->]| ->]; eauto.
  - match goal with H : JSON_parse raw = Ok _ |- _ =>
      destruct (JSON_parse_cases raw) as [[v Hv]|Hv]; rewrite Hv in H;
        [injection H as <-|done] end.
    by apply bool_decide_eq_true.
Qed.

#[export] Instance literal_TokenType :
  TokenType {| regexp := re_literal; create := create_literal |}.
Proof. solve_TokenType. case_decide; by apply bool_decide_eq_true. Qed.

#[export] Instance number_TokenType :
  TokenType {| regexp := re_number; create := create_number |}.
Proof. solve_TokenType. Qed.

#[export] Instance punctuation_TokenType :
  TokenType {| regexp := re_punctuation; create := create_punctuation |}.
Proof. solve_TokenType. Qed.

Lemma tokenTypes_TokenType : Forall TokenType tokenTypes.
Proof. unfold tokenTypes. repeat (constructor; [apply _|]). constructor. Qed.

Lemma elem_of_tokenTypes t : t ∈ tokenTypes → TokenType t.
Proof. apply Forall_forall, tokenTypes_TokenType. Qed.

Lemma tokenTypes_not_nullable :
  Forall (λ t, nullable (regexp t) = false) tokenTypes.
Proof.
  eapply Forall_impl; [apply tokenTypes_TokenType|]. by intros t [].
Qed.

(** The [for] loop over a table. *)
Lemma first_match_Some types s t raw :
  first_match types s = Some (t, raw) →
  t ∈ types ∧ exec (regexp t) s = Some raw.
Proof.
  induction types as [|t' types IH]; simpl; [done|].
  destruct (exec (regexp t') s) eqn:He.
  - intros [= <- <-]. split; [left | done].
  - intros [? ?]%IH. split; [by right | done].
Qed.

Lemma first_match_None types s :
  first_match types s = None ↔ Forall (λ t, exec (regexp t) s = None) types.
Proof.
  induction types as [|t types IH]; simpl; [by split|].
  rewrite Forall_cons. destruct (exec (regexp t) s); naive_solver.
Qed.

(** A match in a table of token types is a part of the input that is not
    empty. *)
Lemma first_match_consumes types s t raw :
  Forall TokenType types → first_match types s = Some (t, raw) →
  TokenType t ∧ raw ≠ [] ∧ ∃ rest, s = raw ++ rest.
Proof.
  intros Htypes [Ht He]%first_match_Some.
  apply (proj1 (Forall_forall _ _) Htypes) in Ht.
  split_and!; [done | by eapply exec_nonempty, He; apply Ht
              | by apply exec_prefix in He].
Qed.

(** The table of the tokenizer, through the promises of its entries. *)
Lemma first_match_token s t raw :
  first_match tokenTypes s = Some (t, raw) →
  t ∈ tokenTypes ∧ raw ≠ [] ∧ ∃ rest, s = raw ++ rest.
Proof.
  intros Hm. pose proof Hm as [Ht _]%first_match_Some.
  by apply (first_match_consumes _ _ _ _ tokenTypes_TokenType) in Hm as (_ & ? & ?).
Qed.

Lemma create_Ok t raw range tok :
  t ∈ tokenTypes → create t raw range = Ok tok →
  tok_raw tok = raw ∧ tok_position tok = range.
Proof. intros Ht%elem_of_tokenTypes. apply create_fields. Qed.

Lemma create_cases t raw range :
  t ∈ tokenTypes →
  (∃ tok, create t raw range = Ok tok) ∨ create t raw range = Throw SyntaxError.
Proof. intros Ht%elem_of_tokenTypes. apply create_throws. Qed.

(** ** The cursor *)

Lemma advance_le p raw : pos_le p (advance p raw).
Proof. unfold advance, pos_le. case_decide; simpl; lia. Qed.

Lemma foldl_walk p raw :
  foldl walk p raw =
  {| lineNumber := lineNumber p + Z.of_nat (count_unit LF%js raw);
     column := if decide (LF%js ∈ raw)
               then Z.of_nat (length raw) - lastIndexOf LF%js raw
               else column p + Z.of_nat (length raw) |}.
Proof.
  revert p. induction raw as [|c raw IH]; intros p.
  { destruct p. unfold count_unit. simpl. f_equal; lia. }
  simpl foldl. rewrite IH. unfold walk, count_unit. simpl lastIndexOf.
  rewrite filter_cons.
  destruct (decide (LF%js ∈ raw)) as [Hin|Hout];
    [apply lastIndexOf_present in Hin as Hl
    |apply lastIndexOf_absent in Hout as Hl];
    destruct (decide (c = LF%js)) as [->|]; simpl;
    repeat case_decide; try set_solver; f_equal; simpl; lia.
Qed.

(** [advance] against the reference cursor: the same line, and the same
    column unless the token (or the text before it) holds a line feed, in
    which case the column is one more. *)
Lemma advance_skew b p raw :
  advance (skew b p) raw
  = skew (b || bool_decide (LF%js ∈ raw)) (foldl walk p raw).
Proof.
  rewrite foldl_walk. unfold advance, skew. simpl.
  pose proof (count_unit_zero LF%js raw) as Hz.
  destruct (decide (LF%js ∈ raw)) as [Hin|Hout].
  - rewrite bool_decide_eq_true_2, orb_true_r by done.
    rewrite decide_True by (destruct (count_unit LF%js raw); [naive_solver | lia]).
    f_equal; lia.
  - rewrite bool_decide_eq_false_2, orb_false_r by done.
    apply Hz in Hout as ->. rewrite decide_False by lia. f_equal; lia.
Qed.

Lemma foldl_advance_skew b p raws :
  foldl advance (skew b p) raws
  = skew (b || bool_decide (LF%js ∈ mjoin raws)) (foldl walk p (mjoin raws)).
Proof.
  revert b p. induction raws as [|raw raws IH]; intros b p; simpl.
  { by rewrite orb_false_r. }
  by rewrite advance_skew, IH, foldl_app, bool_decide_elem_of_app, orb_assoc.
Qed.

(** ** The loop *)

Lemma positioned_snoc p toks t :
  positioned p toks →
  tok_position t
  = (let q := foldl advance p (tok_raw <$> toks) in
     to_IRange q (advance q (tok_raw t))) →
  positioned p (toks ++ [t]).
Proof.
  revert p. induction toks as [|t' toks IH]; intros p; simpl; [done|].
  intros [? ?] ?. split; [done | by apply IH].
Qed.

Lemma lexer_init_inv json : lexer_inv json lexer_init.
Proof. split; simpl; [lia | by rewrite take_0 | done | done | done]. Qed.

Lemma tokenize_step_Some json st st' :
  tokenize_step json st = Ok (Some st') →
  ∃ t raw tok rest,
    index st < length json ∧ t ∈ tokenTypes ∧ raw ≠ [] ∧
    drop (index st) json = raw ++ rest ∧
    tok_raw tok = raw ∧
    tok_position tok = to_IRange (position st) (advance (position st) raw) ∧
    st' = {| position := advance (position st) raw;
             index := index st + length raw;
             tokens := tokens st ++ [tok] |}.
Proof.
  unfold tokenize_step, substring. case_decide; [|done].
  destruct (first_match _ _) as [[t raw]|] eqn:Hm; [|done].
  apply first_match_token in Hm as (Ht & Hne & rest & Hrest).
  intros. outcome_inv.
  match goal with H : create _ _ _ = Ok _ |- _ =>
    apply create_Ok in H as [? ?]; [|done] end.
  by exists t, raw, x, rest.
Qed.

Lemma tokenize_step_cases json st :
  (∃ r, tokenize_step json st = Ok r)
  ∨ tokenize_step json st = Throw SyntaxError.
Proof.
  unfold tokenize_step. case_decide; [|eauto].
  destruct (first_match _ _) as [[t raw]|] eqn:Hm; [|eauto].
  apply first_match_token in Hm as (Ht & _).
  edestruct (create_cases t) as [[tok ->]| ->]; simpl; eauto.
Qed.

(** The invariant after one more token. *)
Lemma lexer_inv_push json st raw rest tok :
  lexer_inv json st → raw ≠ [] →
  drop (index st) json = raw ++ rest →
  tok_raw tok = raw →
  tok_position tok = to_IRange (position st) (advance (position st) raw) →
  lexer_inv json {| position := advance (position st) raw;
                    index := index st + length raw;
                    tokens := tokens st ++ [tok] |}.
Proof.
  intros [Hi Hr Hn Hp Hc] Hne Hd Hraw Hpos.
  assert (length raw + length rest = length json - index st) as Hlen
    by (by rewrite <- length_drop, Hd, length_app).
  split; simpl.
  - lia.
  - rewrite fmap_app, join_app, Hr. simpl. rewrite app_nil_r, Hraw.
    rewrite <- take_take_drop, Hd, take_app_length. done.
  - apply Forall_app. split; [done|]. constructor; [congruence | done].
  - apply positioned_snoc; [done|]. cbv zeta. by rewrite <- Hc, Hraw.
  - rewrite fmap_app, foldl_app, <- Hc. simpl. by rewrite Hraw.
Qed.

Lemma tokenize_step_inv json st st' :
  lexer_inv json st → tokenize_step json st = Ok (Some st') →
  lexer_inv json st'.
Proof.
  intros Hinv (t & raw & tok & rest & Hlt & Ht & Hne & Hd & Hraw
               & Hpos & ->)%tokenize_step_Some.
  by eapply lexer_inv_push.
Qed.

Lemma tokenize_loop_Ok fuel json st toks :
  lexer_inv json st → tokenize_loop fuel json st = Ok toks →
  ∃ st', lexer_inv json st' ∧ tokens st' = toks
         ∧ tokenize_step json st' = Ok None.
Proof.
  revert st. induction fuel as [|fuel IH]; intros st Hinv; simpl; [done|].
  destruct (tokenize_step json st) as [[st'|]| |] eqn:Hs; simpl; try done.
  - apply IH. by eapply tokenize_step_inv.
  - intros [= <-]. eauto.
Qed.

Lemma tokenize_loop_terminated fuel json st :
  length json - index st < fuel → terminated (tokenize_loop fuel json st).
Proof.
  revert st. induction fuel as [|fuel IH]; intros st Hf; simpl; [lia|].
  destruct (tokenize_step_cases json st) as [[[st'|] Hs]|Hs]; rewrite Hs; simpl;
    [|done..].
  apply tokenize_step_Some in Hs as (t & raw & tok & rest & ? & ? & Hne & ?
                                     & ? & ? & ->).
  apply IH. simpl. destruct raw; [done|]. simpl. lia.
Qed.

Lemma tokenize_loop_Throw fuel json st e :
  tokenize_loop fuel json st = Throw e → e = SyntaxError.
Proof.
  revert st. induction fuel as [|fuel IH]; intros st; simpl; [done|].
  destruct (tokenize_step_cases json st) as [[[st'|] Hs]|Hs]; rewrite Hs; simpl;
    [by apply IH | done | congruence].
Qed.

Lemma tokenize_inv json toks :
  tokenize json = Ok toks →
  ∃ st, lexer_inv json st ∧ tokens st = toks ∧ tokenize_step json st = Ok None.
Proof. apply tokenize_loop_Ok, lexer_init_inv. Qed.

Lemma positioned_lookup p toks k t :
  positioned p toks → toks !! k = Some t →
  tok_position t
  = (let q := foldl advance p (tok_raw <$> take k toks) in
     to_IRange q (advance q (tok_raw t))).
Proof.
  revert p k. induction toks as [|t' toks IH]; intros p [|k]; simpl; try done.
  - by intros [? _] [= <-].
  - intros [_ ?] ?. by apply IH.
Qed.

Lemma tokenize_Ok_positioned json toks :
  tokenize json = Ok toks → positioned start_position toks.
Proof. by intros (st & [] & <- & _)%tokenize_inv. Qed.

Lemma tokenize_Ok_prefix json toks :
  tokenize json = Ok toks →
  ∃ rest, json = mjoin (tok_raw <$> toks) ++ rest
          ∧ (rest = [] ∨ first_match tokenTypes rest = None).
Proof.
  intros (st & [Hi Hr _ _ _] & <- & Hs)%tokenize_inv.
  exists (drop (index st) json). rewrite Hr, take_drop. split; [done|].
  revert Hs. unfold tokenize_step, substring. case_decide.
  - destruct (first_match _ _) as [[t raw]|] eqn:Hm; [|by right].
    apply first_match_token in Hm as (Ht & _).
    by edestruct (create_cases t) as [[tok ->]| ->].
  - intros _. left. apply drop_ge. lia.
Qed.

Lemma range_start_to_IRange p q : range_start (to_IRange p q) = p.
Proof. by destruct p. Qed.

Lemma range_end_to_IRange p q : range_end (to_IRange p q) = q.
Proof. by destruct q. Qed.

(** The ranges of the tokens form a chain from the cursor. *)
Lemma positioned_chain p toks :
  positioned p toks →
  chain p (tok_position <$> toks) = Some (foldl advance p (tok_raw <$> toks)).
Proof.
  revert p. induction toks as [|t toks IH]; intros p; [done|].
  intros [Hpos Hrest]. cbn [fmap list_fmap chain foldl]. rewrite Hpos.
  rewrite range_start_to_IRange, range_end_to_IRange.
  rewrite decide_True by (split; [done | apply advance_le]). by apply IH.
Qed.

Lemma tokenize_Ok_nonempty json toks :
  tokenize json = Ok toks → Forall (λ t, tok_raw t ≠ []) toks.
Proof. by intros (st & [] & <- & _)%tokenize_inv. Qed.

Lemma tokenize_Ok_chain json toks :
  tokenize json = Ok toks →
  chain start_position (tok_position <$> toks)
  = Some (foldl advance start_position (tok_raw <$> toks)).
Proof. intros ?%tokenize_Ok_positioned. by apply positioned_chain. Qed.

(** ** Typed tokens *)

Lemma create_token_ok t raw range tok :
  t ∈ tokenTypes → raw ≠ [] → create t raw range = Ok tok →
  token_ok tok = true.
Proof. intros Ht%elem_of_tokenTypes. apply create_typed. Qed.

Lemma tokenize_step_created json st st' :
  tokenize_step json st = Ok (Some st') →
  ∃ t raw tok,
    t ∈ tokenTypes ∧ raw ≠ []
    ∧ create t raw (to_IRange (position st) (advance (position st) raw)) = Ok tok
    ∧ tokens st' = tokens st ++ [tok].
Proof.
  unfold tokenize_step. case_decide; [|done].
  destruct (first_match _ _) as [[t raw]|] eqn:Hm; [|done].
  apply first_match_token in Hm as (Ht & Hne & _).
  intros. outcome_inv. by exists t, raw, x.
Qed.

(** What holds of every token made from a match holds of every token of
    [tokenize]. *)
Lemma tokenize_step_matched json st st' :
  tokenize_step json st = Ok (Some st') →
  ∃ t s raw range tok,
    first_match tokenTypes s = Some (t, raw)
    ∧ create t raw range = Ok tok
    ∧ tokens st' = tokens st ++ [tok].
Proof.
  unfold tokenize_step. case_decide; [|done].
  destruct (first_match _ _) as [[t raw]|] eqn:Hm; [|done].
  intros. outcome_inv. by eexists t, _, raw, _, x.
Qed.

Lemma tokenize_Forall (P : token → Prop) json toks :
  (∀ t s raw range tok,
     first_match tokenTypes s = Some (t, raw) →
     create t raw range = Ok tok → P tok) →
  tokenize json = Ok toks → Forall P toks.
Proof.
  intros HP. unfold tokenize.
  assert (Forall P (tokens lexer_init)) as Hinit by constructor.
  revert Hinit. generalize lexer_init, (S (length json)). intros st fuel.
  revert st. induction fuel as [|fuel IH]; intros st Hst; simpl; [done|].
  destruct (tokenize_step json st) as [[st'|]| |] eqn:Hs; simpl; try done.
  - apply IH.
    apply tokenize_step_matched in Hs as (t & s & raw & rg & tok & ? & ? & ->).
    apply Forall_app. split; [done|]. apply Forall_singleton. by eapply HP.
  - by intros [= <-].
Qed.

Lemma tokenize_loop_typed fuel json st toks :
  forallb token_ok (tokens st) = true →
  tokenize_loop fuel json st = Ok toks → forallb token_ok toks = true.
Proof.
  revert st. induction fuel as [|fuel IH]; intros st Hok; simpl; [done|].
  destruct (tokenize_step json st) as [[st'|]| |] eqn:Hs; simpl; try done.
  - apply IH.
    apply tokenize_step_created in Hs as (t & raw & tok & ? & ? & ? & ->).
    rewrite forallb_app, Hok. simpl.
    by erewrite create_token_ok.
  - by intros [= <-].
Qed.

Lemma tokenize_Ok_typed json toks :
  tokenize json = Ok toks → forallb token_ok toks = true.
Proof. by apply tokenize_loop_typed. Qed.

Lemma token_ok_type t :
  token_ok t = true → ∀ name, tok_type t ≠ T_other name.
Proof.
  unfold token_ok. intros [_ H]%andb_true_iff name Hty. by rewrite Hty in H.
Qed.

(** ** Bounds *)

Lemma lastIndexOf_range c s : (-1 ≤ lastIndexOf c s < Z.of_nat (length s))%Z.
Proof.
  induction s as [|x s IH]; simpl; [lia|]. repeat case_decide; lia.
Qed.

Lemma lastIndexOf_count c s :
  1 ≤ count_unit c s → (0 ≤ lastIndexOf c s)%Z.
Proof.
  unfold count_unit. induction s as [|x s IH]; simpl; [lia|].
  rewrite filter_cons. repeat case_decide; simpl; lia.
Qed.

Lemma count_unit_take c n s : count_unit c (take n s) ≤ count_unit c s.
Proof.
  rewrite <- (take_drop n s) at 2. rewrite count_unit_app. lia.
Qed.

Lemma advance_within p raw n :
  within n p → within (n + length raw) (advance p raw)
  ∧ lineNumber (advance p raw)
    = (lineNumber p + Z.of_nat (count_unit LF%js raw))%Z.
Proof.
  unfold within, advance. intros (? & ? & ?).
  pose proof (lastIndexOf_range LF%js raw).
  case_decide as Hc; simpl.
  - apply lastIndexOf_count in Hc. lia.
  - lia.
Qed.

Lemma positioned_within p n toks :
  within n p → positioned p toks →
  Forall (λ t, range_within (n + length (mjoin (tok_raw <$> toks)))
                 (lineNumber p
                  + Z.of_nat (count_unit LF%js (mjoin (tok_raw <$> toks))))
                 (tok_position t)) toks.
Proof.
  revert p n. induction toks as [|t toks IH]; intros p n Hp; simpl; [done|].
  intros [Ht Hpos]. destruct (advance_within p (tok_raw t) n Hp) as [Hq Hl].
  rewrite length_app, count_unit_app. constructor.
  - rewrite Ht. unfold range_within, within, to_IRange in *. simpl. lia.
  - eapply Forall_impl; [apply (IH _ _ Hq Hpos)|]. intros t'. simpl.
    unfold range_within. rewrite Hl.
    change (list_fmap token (list N) tok_raw toks) with (tok_raw <$> toks). lia.
Qed.

Lemma length_join_nonempty (l : list jstring) :
  Forall (λ s, s ≠ []) l → length l ≤ length (mjoin l).
Proof.
  induction 1 as [|s l Hs _ IH]; simpl; [done|].
  rewrite length_app. destruct s; [done|]. simpl. lia.
Qed.

Lemma tokenize_Ok_bounds json toks :
  tokenize json = Ok toks →
  length toks ≤ length json
  ∧ Forall (λ t, range_within (length json)
                   (1 + Z.of_nat (count_unit LF%js json)) (tok_position t))
      toks.
Proof.
  intros (st & [Hi Hr Hn Hp Hc] & <- & _)%tokenize_inv.
  assert (length (mjoin (tok_raw <$> tokens st)) ≤ length json) as Hlen.
  { rewrite Hr, length_take. lia. }
  split.
  - etrans; [|exact Hlen]. rewrite <- (length_fmap tok_raw).
    apply length_join_nonempty. by apply Forall_fmap.
  - eapply Forall_impl; [apply (positioned_within start_position 0)|];
      [by unfold within|done|].
    intros t. unfold range_within. simpl.
    pose proof (count_unit_take LF%js (index st) json).
    rewrite Hr, length_take. lia.
Qed.

(** ** Theorems *)

(** C28. Every token [tokenize] returns is well typed: its raw text is not
    empty, its type is one of the seven, and its value is what the
    [create] function of its type computes from the raw text, a string but
    for a literal (a boolean or [null]) and a number (a number). *)
Theorem tokenize_typed json toks :
  tokenize json = Ok toks →
  Forall (λ t, token_ok t = true ∧ ∀ name, tok_type t ≠ T_other name) toks.
Proof.
  intros Hok%tokenize_Ok_typed. apply Forall_forall. intros t Ht.
  rewrite forallb_forall in Hok. setoid_rewrite <- list_elem_of_In in Hok.
  split; [by apply Hok|]. by apply token_ok_type, Hok.
Qed.

Lemma tokenize_typed_witness :
  Forall (λ t, token_ok t = true ∧ ∀ name, tok_type t ≠ T_other name)
    sample_lexed.
Proof. apply (tokenize_typed sample_text). by vm_compute. Defined.

(** C32. The numbers [tokenize] computes stay within the text: there are at
    most as many tokens as code units, every range starts and ends on a
    line between 1 and one more than the number of line feeds of the text,
    at a column between 1 and one more than its length. *)
Theorem tokenize_bounds json toks :
  tokenize json = Ok toks →
  length toks ≤ length json
  ∧ Forall (λ t, range_within (length json)
                   (1 + Z.of_nat (count_unit LF%js json)) (tok_position t))
      toks.
Proof. apply tokenize_Ok_bounds. Qed.

Lemma tokenize_bounds_witness :
  length sample_lexed ≤ length sample_text
  ∧ Forall (λ t, range_within (length sample_text)
                   (1 + Z.of_nat (count_unit LF%js sample_text))
                   (tok_position t))
      sample_lexed.
Proof. apply (tokenize_bounds sample_text). by vm_compute. Defined.

(** C26. [tokenize] returns or throws on every input: the fuel
    [S (length json)] its loop is given is never exhausted, because every
    expression of [tokenTypes] consumes at least one code unit. *)
Theorem tokenize_terminates json : terminated (tokenize json).
Proof. apply tokenize_loop_terminated. simpl. lia. Qed.

(** C2. When [tokenize] returns, the raw texts of the tokens, concatenated,
    are a prefix of the input, and the tokenizer stopped either at the end
    of the input or at the first position where no expression of
    [tokenTypes] matches. *)
Theorem tokenize_longest_prefix json toks :
  tokenize json = Ok toks →
  ∃ rest, json = mjoin (tok_raw <$> toks) ++ rest
          ∧ (rest = [] ∨ first_match tokenTypes rest = None).
Proof. apply tokenize_Ok_prefix. Qed.

Lemma tokenize_longest_prefix_witness :
  ∃ rest, jsq "{'a':1} x" = mjoin (tok_raw <$> [
      mk_token T_punctuation (to_IRange start_position (skew true start_position))
        (js "{") (VString (js "{"));
      mk_token T_string {| startLineNumber := 1; startColumn := 2;
                           endLineNumber := 1; endColumn := 5 |}
        (jsq "'a'") (VString (js "a"));
      mk_token T_punctuation {| startLineNumber := 1; startColumn := 5;
                                endLineNumber := 1; endColumn := 6 |}
        (js ":") (VString (js ":"));
      mk_token T_number {| startLineNumber := 1; startColumn := 6;
                           endLineNumber := 1; endColumn := 7 |}
        (js "1") (VNumber {| num_neg := false; num_mantissa := 1; num_exp10 := 0 |});
      mk_token T_punctuation {| startLineNumber := 1; startColumn := 7;
                                endLineNumber := 1; endColumn := 8 |}
        (js "}") (VString (js "}"));
      mk_token T_whitespace {| startLineNumber := 1; startColumn := 8;
                               endLineNumber := 1; endColumn := 9 |}
        (js " ") (VString (js " "))]) ++ rest
    ∧ (rest = [] ∨ first_match tokenTypes rest = None).
Proof. apply (tokenize_longest_prefix (jsq "{'a':1} x")). vm_compute. reflexivity. Defined.

(** The range of every token is a function of the raw texts before
    it: it runs from the cursor to the cursor advanced over the token's
    text, where the cursor starts at 1:1 and is advanced over the text of
    each token in turn. *)
Theorem tokenize_positioned json toks k t :
  tokenize json = Ok toks → toks !! k = Some t →
  let q := foldl advance start_position (tok_raw <$> take k toks) in
  tok_position t = to_IRange q (advance q (tok_raw t)).
Proof. intros Hp%tokenize_Ok_positioned Hk. by eapply positioned_lookup. Qed.

Lemma tokenize_positioned_witness :
  let q := foldl advance start_position (tok_raw <$> take 1 [
    mk_token T_whitespace {| startLineNumber := 1; startColumn := 1;
                             endLineNumber := 2; endColumn := 2 |}
      [LF%js] (VString [LF%js]);
    mk_token T_punctuation {| startLineNumber := 2; startColumn := 2;
                              endLineNumber := 2; endColumn := 3 |}
      (js "[") (VString (js "["))]) in
  {| startLineNumber := 2; startColumn := 2; endLineNumber := 2; endColumn := 3 |}
  = to_IRange q (advance q (js "[")).
Proof.
  apply (tokenize_positioned (LF%js :: js "[") _ 1
           (mk_token T_punctuation _ (js "[") (VString (js "[")))).
  - vm_compute. reflexivity.
  - reflexivity.
Defined.

(** C17. Where a token starts, against the position a reader that counts
    lines and columns from 1 reaches: the line is the same; the column is
    the same as long as no line feed came before the token, and one more
    than the reader's after the first line feed. *)
Theorem tokenize_start_skewed json toks k t :
  tokenize json = Ok toks → toks !! k = Some t →
  let before := mjoin (tok_raw <$> take k toks) in
  range_start (tok_position t)
  = skew (bool_decide (LF%js ∈ before)) (foldl walk start_position before).
Proof.
  intros Hp%tokenize_Ok_positioned Hk. rewrite (positioned_lookup _ _ _ _ Hp Hk).
  cbv zeta. change start_position with (skew false start_position) at 1.
  by rewrite foldl_advance_skew.
Qed.

Lemma tokenize_start_skewed_witness :
  let before := mjoin (tok_raw <$> take 1 [
    mk_token T_whitespace {| startLineNumber := 1; startColumn := 1;
                             endLineNumber := 2; endColumn := 2 |}
      [LF%js] (VString [LF%js]);
    mk_token T_punctuation {| startLineNumber := 2; startColumn := 2;
                              endLineNumber := 2; endColumn := 3 |}
      (js "[") (VString (js "["))]) in
  range_start {| startLineNumber := 2; startColumn := 2;
                 endLineNumber := 2; endColumn := 3 |}
  = skew (bool_decide (LF%js ∈ before)) (foldl walk start_position before).
Proof.
  apply (tokenize_start_skewed (LF%js :: js "[") _ 1
           (mk_token T_punctuation _ (js "[") (VString (js "[")))).
  - vm_compute. reflexivity.
  - reflexivity.
Defined.

(** The ranges of the tokens are ordered and contiguous: every token
    ends at or after its start, and the next token starts where it ends. *)
Theorem tokenize_ranges_chained json toks k t :
  tokenize json = Ok toks → toks !! k = Some t →
  pos_le (range_start (tok_position t)) (range_end (tok_position t))
  ∧ ∀ t', toks !! S k = Some t' →
          range_start (tok_position t') = range_end (tok_position t).
Proof.
  intros Hp%tokenize_Ok_positioned Hk.
  rewrite (positioned_lookup _ _ _ _ Hp Hk). cbv zeta. split.
  - destruct (foldl _ _ _) as [l c]. apply (advance_le {| lineNumber := l |}).
  - intros t' Hk'. rewrite (positioned_lookup _ _ _ _ Hp Hk').
    rewrite (take_S_r _ _ _ Hk), fmap_app, foldl_app. simpl.
    by destruct (foldl _ _ _), (advance _ _).
Qed.

Lemma tokenize_ranges_chained_witness :
  let t := mk_token T_whitespace {| startLineNumber := 1; startColumn := 1;
                                    endLineNumber := 2; endColumn := 2 |}
             [LF%js] (VString [LF%js]) in
  let toks := [t;
    mk_token T_punctuation {| startLineNumber := 2; startColumn := 2;
                              endLineNumber := 2; endColumn := 3 |}
      (js "[") (VString (js "["))] in
  pos_le (range_start (tok_position t)) (range_end (tok_position t))
  ∧ ∀ t', toks !! 1 = Some t' →
          range_start (tok_position t') = range_end (tok_position t).
Proof.
  apply (tokenize_ranges_chained (LF%js :: js "[") _ 0).
  - vm_compute. reflexivity.
  - reflexivity.
Defined.
