(* ===== verification/Prefix.v ===== *)
(** * Prefix: the tokenizer on the start of a text

    An editor hands [tokenize] the text up to the cursor, a part of the
    document.  This file follows the loop of [tokenize] pass by pass
    ([pass], [passes]) and compares its run on a text with its run on the
    start of that text: a pass that stays within the start is a pass on the
    start, because matching is local.  It follows that the tokens of the
    start of a text start with the tokens of the text that end before the
    cut, and where [tokenize] throws. *)

From stdpp Require Import relations.
From S2P Require Import Prelude Regex Token Tokenizer.

(** ** The passes of the loop *)

(** A pass of the [while] loop that pushes a token. *)
Definition pass (json : jstring) (st st' : lexer) : Prop :=
  tokenize_step json st = Ok (Some st').

(** The states the loop goes through from a state. *)
Definition passes (json : jstring) : relation lexer := rtc (pass json).

(** The text of the first [k] tokens: what the editor returns for the range
    from 1:1 to the end of the [k]-th token. *)
Definition textUntil (tokens : list token) (k : nat) : jstring :=
  mjoin (tok_raw <$> take k tokens).

(** The entry of the table for strings. *)
Definition string_type : tokenType :=
  {| regexp := re_string; create := create_string |}.

(** ** Matching and passes on a text that is cut *)

Lemma first_match_cut types ty raw rest t :
  first_match types (raw ++ rest ++ t) = Some (ty, raw) →
  first_match types (raw ++ rest) = Some (ty, raw).
Proof.
  induction types as [|ty' types IH]; simpl; [done|].
  destruct (exec (regexp ty') (raw ++ rest ++ t)) as [m|] eqn:He.
  - intros [= -> ->]. by rewrite (exec_cut _ _ _ _ He).
  - rewrite (assoc_L (++)) in He. by rewrite (exec_cut_None _ _ _ He).
Qed.

(** A pass that stays within the start of a text is a pass on the
    start. *)
Lemma pass_cut pre t st st' :
  pass (pre ++ t) st st' → index st' ≤ length pre → pass pre st st'.
Proof.
  unfold pass, tokenize_step, substring. case_decide as Hlt; [|done].
  destruct (first_match _ _) as [[ty raw]|] eqn:Hm; [|done].
  intros Hc Hi. outcome_inv. simpl in Hi.
  pose proof (first_match_token _ _ _ Hm) as (_ & Hne & rest & Hrest).
  assert (index st < length pre) by (destruct raw; [done | simpl in Hi; lia]).
  rewrite decide_True by done.
  rewrite drop_app_le in Hrest, Hm by lia.
  destruct (app_eq_le _ _ _ _ Hrest) as (rest' & Hd & ->).
  { rewrite length_drop. simpl in Hi. lia. }
  rewrite Hd, <- (assoc_L (++)) in Hm.
  rewrite Hd, (first_match_cut _ _ _ _ _ Hm). simpl.
  match goal with H : create _ _ _ = Ok _ |- _ => by rewrite H end.
Qed.

(** ** Passes *)

Lemma pass_deterministic json : deterministic (pass json).
Proof. unfold pass. intros st st1 st2 H1 H2. congruence. Qed.

(** A pass pushes one token and moves the index. *)
Lemma pass_grows json st st' :
  pass json st st' →
  index st < index st' ∧ ∃ tok, tokens st' = tokens st ++ [tok].
Proof.
  intros (? & raw & tok & ? & _ & _ & Hne & _ & _ & _ & ->)%tokenize_step_Some.
  simpl. split; [destruct raw; [done | simpl; lia] | by eexists].
Qed.

Lemma pass_index json st st' : pass json st st' → index st < length json.
Proof. by intros (? & ? & ? & ? & ? & _)%tokenize_step_Some. Qed.

Lemma passes_grow json st st' :
  passes json st st' →
  index st ≤ index st' ∧ tokens st `prefix_of` tokens st'.
Proof.
  induction 1 as [|st st1 st' [? [tok Htok]]%pass_grows _ [? ?]]; [done|].
  split; [lia|]. trans (tokens st1); [|done]. rewrite Htok.
  by apply prefix_app_r.
Qed.

Lemma passes_inv json st st' :
  lexer_inv json st → passes json st st' → lexer_inv json st'.
Proof. induction 2; eauto using tokenize_step_inv. Qed.

(** The index of the loop is the length of the text of its tokens. *)
Lemma lexer_inv_index json st :
  lexer_inv json st → index st = length (mjoin (tok_raw <$> tokens st)).
Proof. intros [Hi Hr _ _ _]. rewrite Hr, length_take. lia. Qed.

(** The loop goes through passes up to a state where its body returns
    with nothing pushed, or throws. *)
Lemma tokenize_loop_passes fuel json st r :
  tokenize_loop fuel json st = r → terminated r →
  ∃ st', passes json st st'
         ∧ r = (o ← tokenize_step json st';
                if o is None then Ok (tokens st') else OutOfFuel).
Proof.
  intros <-. revert st. induction fuel as [|fuel IH]; intros st; [done|].
  cbn [tokenize_loop].
  destruct (tokenize_step json st) as [[st1|]| |] eqn:Hs; simpl.
  - intros (st' & Hp & Hr)%IH. exists st'. split; [|done].
    by eapply rtc_l.
  - intros _. exists st. by rewrite Hs.
  - intros _. exists st. by rewrite Hs.
  - done.
Qed.

(** Passes, then a last run of the body, are a run of the loop. *)
Lemma passes_loop fuel json st st' :
  passes json st st' → length json - index st < fuel →
  (∀ st'', ¬ pass json st' st'') →
  tokenize_loop fuel json st
  = (o ← tokenize_step json st';
     if o is None then Ok (tokens st') else OutOfFuel).
Proof.
  intros Hp. revert fuel.
  induction Hp as [st|st st1 st' Hs _ IH]; intros [|fuel] Hf Hnf; try lia.
  - cbn [tokenize_loop].
    destruct (tokenize_step json st) as [[st1|]| |] eqn:Hs; try done.
    by destruct (Hnf st1).
  - cbn [tokenize_loop]. pose proof (pass_grows _ _ _ Hs) as [? _].
    pose proof (pass_index _ _ _ Hs). unfold pass in Hs. rewrite Hs. simpl. apply IH; [lia | done].
Qed.

(** The passes up to a state within the start of a text are passes on
    the start. *)
Lemma passes_cut pre t st st' :
  passes (pre ++ t) st st' → index st' ≤ length pre → passes pre st st'.
Proof.
  induction 1 as [|st st1 st' Hs Hp IH]; intros Hi; [done|].
  pose proof (passes_grow _ _ _ Hp) as [? _].
  eapply rtc_l; [apply (pass_cut _ _ _ _ Hs); lia | by apply IH].
Qed.

(** A run that pushes tokens goes through a state after each of them. *)
Lemma passes_take json st st' k :
  passes json st st' → length (tokens st) ≤ k →
  ∃ st_k, passes json st st_k ∧ passes json st_k st'
          ∧ tokens st_k = take k (tokens st').
Proof.
  induction 1 as [st|st st1 st' Hs Hp IH]; intros Hk.
  - exists st. by rewrite take_ge.
  - pose proof (pass_grows _ _ _ Hs) as [_ [tok Htok]].
    pose proof (passes_grow _ _ _ Hp) as [_ [more Hmore]].
    destruct (decide (k = length (tokens st))) as [->|].
    + exists st. split_and!; [done | by eapply rtc_l|].
      by rewrite Hmore, Htok, <- (assoc_L (++)), take_app_length.
    + destruct IH as (st_k & ? & ? & ?); [rewrite Htok, length_app; simpl; lia|].
      exists st_k. split_and!; [by eapply rtc_l | done..].
Qed.

(** ** Runs of [tokenize] *)

(** [tokenize] goes through passes from the initial state up to a state
    where the body of the loop returns with nothing pushed or throws. *)
Lemma tokenize_passes json :
  ∃ st, passes json lexer_init st ∧ lexer_inv json st
        ∧ tokenize json = (o ← tokenize_step json st;
                           if o is None then Ok (tokens st) else OutOfFuel).
Proof.
  destruct (tokenize_loop_passes (S (length json)) json lexer_init _ eq_refl)
    as (st & Hp & Hr); [apply tokenize_loop_terminated; simpl; lia|].
  exists st. split_and!; [done| |done].
  eapply passes_inv; [apply lexer_init_inv | done].
Qed.

(** The converse: passes from the initial state, then a last run of the
    body. *)
Lemma passes_tokenize json st o :
  passes json lexer_init st → tokenize_step json st = o →
  (∀ st', o ≠ Ok (Some st')) →
  tokenize json = (o' ← o; if o' is None then Ok (tokens st) else OutOfFuel).
Proof.
  intros Hp <- Hnf. apply passes_loop; [done | simpl; lia | apply Hnf].
Qed.

(** A text that is one token. *)
Lemma tokenize_one json t tok :
  first_match tokenTypes json = Some (t, json) →
  create t json (to_IRange start_position (advance start_position json))
  = Ok tok →
  tokenize json = Ok [tok].
Proof.
  intros Hm Hc. pose proof (first_match_token _ _ _ Hm) as (_ & Hne & _).
  set (st := {| position := advance start_position json;
                index := length json; tokens := [tok] |}).
  assert (pass json lexer_init st) as Hp.
  { unfold pass, tokenize_step, substring. cbn [index lexer_init position].
    rewrite decide_True by (destruct json; [done | simpl; lia]).
    by rewrite drop_0, Hm, Hc. }
  rewrite (passes_tokenize json st (Ok None)); [done|by apply rtc_once| |done].
  unfold tokenize_step. by rewrite decide_False by (simpl; lia).
Qed.

(** The state after the first [k] tokens of a text. *)
Lemma tokenize_Ok_take json toks k :
  tokenize json = Ok toks →
  ∃ st, passes json lexer_init st ∧ tokens st = take k toks
        ∧ index st = length (mjoin (tok_raw <$> take k toks)).
Proof.
  destruct (tokenize_passes json) as (st' & Hp & _ & ->). intros Hr.
  destruct (tokenize_step json st') as [[?|]| |]; simplify_eq/=.
  destruct (passes_take _ _ _ k Hp) as (st & Hst & _ & Htok); [simpl; lia|].
  exists st. split_and!; [done..|]. rewrite <- Htok.
  eapply lexer_inv_index, passes_inv; [apply lexer_init_inv | done].
Qed.

(** The tokens of a text cut after its [k]-th token, where no token
    starts in what is left, are its first [k] tokens. *)
Lemma tokenize_Ok_cut json toks k p q :
  tokenize json = Ok toks →
  json = (mjoin (tok_raw <$> take k toks) ++ p) ++ q →
  first_match tokenTypes p = None →
  tokenize (mjoin (tok_raw <$> take k toks) ++ p) = Ok (take k toks).
Proof.
  intros (st & Hp & Htok & Hi)%(tokenize_Ok_take _ _ k) Hjson Hnone.
  rewrite Hjson in Hp. apply passes_cut in Hp; [|rewrite length_app; lia].
  assert (tokenize_step (mjoin (tok_raw <$> take k toks) ++ p) st = Ok None)
    as Hs.
  { unfold tokenize_step, substring. rewrite Hi, drop_app_length, Hnone.
    by case_decide. }
  by rewrite (passes_tokenize _ _ _ Hp Hs), <- Htok.
Qed.

(** The tokens of a text cut anywhere after its [k]-th token start with
    its first [k] tokens. *)
Lemma tokenize_Ok_cut_within json toks k p q toks' :
  tokenize json = Ok toks →
  json = (mjoin (tok_raw <$> take k toks) ++ p) ++ q →
  tokenize (mjoin (tok_raw <$> take k toks) ++ p) = Ok toks' →
  take k toks `prefix_of` toks'.
Proof.
  intros (st & Hp & <- & Hi)%(tokenize_Ok_take _ _ k) Hjson.
  rewrite Hjson in Hp. apply passes_cut in Hp; [|rewrite length_app; lia].
  destruct (tokenize_passes (mjoin (tok_raw <$> tokens st) ++ p))
    as (st' & Hp' & _ & ->).
  destruct (tokenize_step _ st') as [[?|]| |] eqn:Hs; simpl; try done.
  intros [= <-]. eapply passes_grow, confluent_nf_r;
    [apply deterministic_confluent, pass_deterministic| |].
  - etrans; [by apply rtc_rtsc_lr|by apply rtc_rtsc_rl].
  - intros [st'' Hst'']. unfold pass in Hst''. congruence.
Qed.

(** The text before the index of a state of a run has the tokens of that
    state. *)
Lemma passes_take_tokenize json st :
  passes json lexer_init st → lexer_inv json st →
  tokenize (take (index st) json) = Ok (tokens st).
Proof.
  intros Hp [Hi _ _ _ _]. rewrite <- (take_drop (index st) json) in Hp at 1.
  apply passes_cut in Hp; [|rewrite length_take; lia].
  assert (tokenize_step (take (index st) json) st = Ok None) as Hs.
  { unfold tokenize_step. rewrite decide_False; [done|].
    rewrite length_take. lia. }
  by rewrite (passes_tokenize _ _ _ Hp Hs).
Qed.

(** [create] throws for a string literal that [JSON.parse] rejects, and
    for nothing else. *)
Lemma create_Throw t raw range e :
  t ∈ tokenTypes → create t raw range = Throw e →
  t = string_type ∧ JSON_parse raw = Throw e.
Proof.
  intros Ht. unfold tokenTypes in Ht.
  repeat (apply elem_of_cons in Ht as [->|Ht]);
    [..|by apply elem_of_nil in Ht]; try done.
  simpl. unfold create_string.
  destruct (JSON_parse raw); simpl; [done| |done]. by intros [= ->].
Qed.

(** ** Theorems *)

(** C10. Cutting the text: when a text has tokens, the text cut anywhere
    after its [k]-th token either has tokens that start with the first
    [k] tokens of the whole text, or makes [tokenize] throw a SyntaxError
    (a string literal that ends at the cut inside a comment of the whole
    text); and when no token starts in what the cut leaves after the
    [k]-th token, as at the end of that token or inside a string literal
    that is not closed yet, the tokens are the first [k] tokens exactly. *)
Theorem tokenize_cut json toks k p q :
  let cut_text := textUntil toks k ++ p in
  tokenize json = Ok toks → json = cut_text ++ q →
  (first_match tokenTypes p = None → tokenize cut_text = Ok (take k toks))
  ∧ (tokenize cut_text = Throw SyntaxError
     ∨ ∃ more, tokenize cut_text = Ok (take k toks ++ more)).
Proof.
  intros cut_text Htok Hjson. unfold textUntil in *.
  split; [by apply (tokenize_Ok_cut json toks k p q)|].
  destruct (tokenize cut_text) as [toks'|e|] eqn:Hcut.
  - right. destruct (tokenize_Ok_cut_within _ _ _ _ _ _ Htok Hjson Hcut)
      as [more ->]. by exists more.
  - left. f_equal. by eapply tokenize_loop_Throw.
  - by apply (tokenize_loop_terminated _ _ lexer_init) in Hcut; [|simpl; lia].
Qed.

Lemma tokenize_cut_witness :
  tokenize (jsq "{'a':1") = Ok (take 4 sample_lexed).
Proof.
  apply (tokenize_cut sample_text sample_lexed 4 []
           (jsq "," ++ [LF%js] ++ jsq " 'b':null}")); by vm_compute.
Defined.

(** The cut that makes [tokenize] throw: the string literal of a comment,
    when the cut ends the comment before it. *)
Example tokenize_cut_throws :
  (∃ toks, tokenize (jsq "/* a */ '\q' */") = Ok toks)
  ∧ tokenize (jsq "/* a */ '\q'") = Throw SyntaxError.
Proof. split; [eexists|]; by vm_compute. Qed.

(** C15. Where [tokenize] throws: exactly when its loop, after some
    passes, is at a string literal, the text the string expression matches
    at the index, that [JSON.parse] rejects; the error is the SyntaxError of
    [JSON.parse], and the text before the literal has the tokens pushed so
    far. *)
Theorem tokenize_throws json e :
  tokenize json = Throw e
  ↔ e = SyntaxError
    ∧ ∃ st raw,
        passes json lexer_init st
        ∧ first_match tokenTypes (drop (index st) json)
          = Some (string_type, raw)
        ∧ JSON_parse raw = Throw SyntaxError
        ∧ tokenize (take (index st) json) = Ok (tokens st).
Proof.
  split.
  - destruct (tokenize_passes json) as (st & Hp & Hinv & ->).
    unfold tokenize_step, substring. case_decide; [|done].
    destruct (first_match _ _) as [[t raw]|] eqn:Hm; [|done].
    pose proof Hm as [Ht _]%first_match_token.
    destruct (create t raw _) as [?|e'|] eqn:Hc; try done.
    intros [= <-]. apply create_Throw in Hc as [-> Hc]; [|done].
    destruct (JSON_parse_cases raw) as [[? ?]|He]; [congruence|].
    rewrite He in Hc. injection Hc as <-. split; [done|].
    exists st, raw. split_and!; [done..|]. by apply passes_take_tokenize.
  - intros (-> & st & raw & Hp & Hm & Hraw & _).
    assert (tokenize_step json st = Throw SyntaxError) as Hs.
    { unfold tokenize_step, substring.
      pose proof (first_match_token _ _ _ Hm) as (_ & Hne & rest & Hrest).
      rewrite Hm, decide_True; [simpl; unfold create_string; by rewrite Hraw|].
      apply (f_equal length) in Hrest.
      rewrite length_drop, length_app in Hrest. destruct raw; [done|].
      simpl in Hrest. lia. }
    by rewrite (passes_tokenize _ _ _ Hp Hs).
Qed.

Lemma tokenize_throws_witness :
  tokenize (N_of_ascii <$> [dquote; backslash; "x"; dquote]%char)
  = Throw SyntaxError.
Proof.
  apply tokenize_throws. split; [done|].
  exists lexer_init, (N_of_ascii <$> [dquote; backslash; "x"; dquote]%char).
  split_and!; [done|by vm_compute..].
Defined.
