(* ===== verification/Scanner.v ===== *)
(** * Scanner: the seven expressions against a scanner

    What each expression of the table matches, said without the matcher:
    a scanner that reads the input from the left and decides by the first
    code units which token starts there and where it ends.  The theorems
    say that [exec] on each expression, and the [for] loop over the table,
    return what the scanner returns; the backtracking of the matcher never
    finds another token. *)

From S2P Require Import Prelude Regex Token Tokenizer Prefix.

Local Open Scope regex_scope.

(** ** The scanners *)

(** The line [s] starts holds the two units that close a block comment:
    a star and a slash, with no line terminator before them. *)
Fixpoint closes (s : jstring) : bool :=
  match s with
  | c :: s' =>
    match s' with
    | c' :: _ => bool_decide (c = 42 ∧ c' = 47)%N || is_dot c && closes s'
    | [] => false
    end
  | [] => false
  end.

(** A scanner for the rest of a string literal after its opening quote:
    up to the first double quote that no backslash escapes, a backslash
    taking the unit after it along unless that is a line terminator.  The
    result is the input after the closing quote. *)
Fixpoint scan_string (s : jstring) : option jstring :=
  match s with
  | [] => None
  | c :: s' =>
    if decide (c = N_of_ascii dquote) then Some s'
    else if decide (c = N_of_ascii backslash) then
      match s' with
      | e :: s'' => if is_dot e then scan_string s'' else None
      | [] => None
      end
    else scan_string s'
  end.

(** The rest after the last pair of a star and a slash in the line [s]
    starts: where a block comment ends whose body starts at [s]. *)
Fixpoint scan_close (s : jstring) : option jstring :=
  match s with
  | c :: s' =>
    if is_dot c then
      match scan_close s' with
      | Some rest => Some rest
      | None =>
        match s' with
        | c' :: rest =>
          if decide (c = 42 ∧ c' = 47)%N then Some rest else None
        | [] => None
        end
      end
    else None
  | [] => None
  end.

(** One digit or more: the rest after the longest run of digits. *)
Definition scan_digits (s : jstring) : option jstring :=
  match s with
  | c :: s' => if is_digit c then Some (drop_while is_digit s') else None
  | [] => None
  end.

(** A zero, or a digit from 1 to 9 and the digits after it. *)
Definition scan_int (s : jstring) : option jstring :=
  match s with
  | c :: s' =>
    if decide (c = 48%N) then Some s'
    else if in_range "1" "9" c then Some (drop_while is_digit s')
    else None
  | [] => None
  end.

(** A fraction, when there is one: a dot and one digit or more. *)
Definition scan_frac (s : jstring) : jstring :=
  match s with
  | c :: s' => if decide (c = 46%N) then default s (scan_digits s') else s
  | [] => s
  end.

(** An exponent, when there is one: [e] or [E], a sign or none, and one
    digit or more. *)
Definition scan_exp (s : jstring) : jstring :=
  match s with
  | c :: s' =>
    if one_of ["e"; "E"]%char c then
      match s' with
      | sg :: s'' =>
        default s (if one_of ["+"; "-"]%char sg then scan_digits s''
                   else scan_digits s')
      | [] => s
      end
    else s
  | [] => s
  end.

(** A number: a minus or none, the integer part, and what follows of a
    fraction and an exponent. *)
Definition scan_number (s : jstring) : option jstring :=
  let s1 := match s with
            | c :: s' => if decide (c = 45%N) then s' else s
            | [] => s
            end in
  scan_exp ∘ scan_frac <$> scan_int s1.

(** One of the three literals. *)
Definition scan_literal (s : jstring) : option jstring :=
  if bool_decide (js "true" `prefix_of` s) then Some (drop 4 s)
  else if bool_decide (js "false" `prefix_of` s) then Some (drop 5 s)
  else if bool_decide (js "null" `prefix_of` s) then Some (drop 4 s)
  else None.

(** A punctuation unit. *)
Definition scan_punctuation (s : jstring) : option jstring :=
  match s with
  | c :: s' =>
    if one_of ["{"; "}"; "["; "]"; ":"; ","]%char c then Some s' else None
  | [] => None
  end.

(** Two slashes and the rest of the line. *)
Definition scan_inlinecomment (s : jstring) : option jstring :=
  match s with
  | c :: c' :: s' =>
    if decide (c = 47%N) then
      if decide (c' = 47%N) then Some (drop_while is_dot s') else None
    else None
  | _ => None
  end.

(** A slash and a star, and the line up to its last star and slash. *)
Definition scan_multilinecomment (s : jstring) : option jstring :=
  match s with
  | c :: c' :: s' =>
    if decide (c = 47%N) then
      if decide (c' = 42%N) then scan_close s' else None
    else None
  | _ => None
  end.

(** One white space unit or more. *)
Definition scan_whitespace (s : jstring) : option jstring :=
  match s with
  | c :: s' => if is_space c then Some (drop_while is_space s') else None
  | [] => None
  end.

(** A double quote and the rest of a string literal. *)
Definition scan_quoted (s : jstring) : option jstring :=
  match s with
  | c :: s' => if decide (c = N_of_ascii dquote) then scan_string s' else None
  | [] => None
  end.

(** The scanners, in the order of the table. *)
Definition scanners : list (jstring → option jstring) :=
  [scan_inlinecomment; scan_multilinecomment; scan_whitespace; scan_quoted;
   scan_literal; scan_number; scan_punctuation].

(** The first scanner that reads a token, with the entry of the table at
    its place and the text of the token. *)
Fixpoint first_scan (types : list tokenType)
    (scanners : list (jstring → option jstring)) (s : jstring)
    : option (tokenType * jstring) :=
  match types, scanners with
  | t :: types', scanner :: scanners' =>
    match scanner s with
    | Some rest => Some (t, take (length s - length rest) s)
    | None => first_scan types' scanners' s
    end
  | _, _ => None
  end.

(** The loop of the tokenizer with the scanners in the place of the
    expressions. *)
Definition scan (s : jstring) : option (tokenType * jstring) :=
  first_scan tokenTypes scanners s.

(** ** Comments *)

Lemma matches_close s :
  matches (Lit "*" ⨾ Lit "/") s
  = match s with
    | c :: c' :: s' => if decide (c = 42 ∧ c' = 47)%N then [s'] else []
    | _ => []
    end.
Proof.
  destruct s as [|c [|c' s]]; cbn [matches mbind list_bind];
    rewrite ?matches_Lit_cons.
  - done.
  - by case_decide.
  - change (N_of_ascii "*") with 42%N. change (N_of_ascii "/") with 47%N.
    destruct (decide (c = 42%N)); [|by rewrite decide_False by naive_solver].
    cbn [mbind list_bind]. rewrite matches_Lit_cons, app_nil_r.
    change (N_of_ascii "/") with 47%N.
    destruct (decide (c' = 47%N));
      [by rewrite decide_True | by rewrite decide_False by naive_solver].
Qed.

Lemma matches_open s :
  matches re_multilinecomment (47%N :: 42%N :: s)
  = matches ((Chr is_dot)⋆ ⨾ Lit "*" ⨾ Lit "/") s.
Proof.
  unfold re_multilinecomment.
  rewrite matches_Seq, matches_Lit_cons, decide_True by done.
  cbn [mbind list_bind]. rewrite matches_Seq, matches_Lit_cons, decide_True by done.
  cbn [mbind list_bind]. by rewrite !app_nil_r.
Qed.

(** On a line that does not close a comment, the matcher finds no closing
    pair wherever it backtracks to. *)
Lemma star_suffixes_close s :
  closes s = false →
  star_suffixes is_dot s ≫= matches (Lit "*" ⨾ Lit "/") = [].
Proof.
  induction s as [|c s IH]; [done|]. cbn [closes star_suffixes].
  destruct s as [|c' s].
  { intros _. destruct (is_dot c); cbn [star_suffixes app mbind list_bind];
      by rewrite !matches_close. }
  intros [Hc Hd]%orb_false_iff. apply bool_decide_eq_false in Hc.
  destruct (is_dot c); simpl in Hd.
  - rewrite bind_app, (IH Hd). cbn [mbind list_bind app].
    by rewrite matches_close, decide_False.
  - cbn [mbind list_bind app]. by rewrite matches_close, decide_False.
Qed.

(** A block comment is matched greedily within its line: the comment
    token ends at the last closing pair of the line, so it takes in a
    closing pair and the code after it when a second comment follows on the
    same line. *)
Theorem exec_multilinecomment_last body rest :
  Forall (λ c, is_dot c = true) body → closes rest = false →
  exec re_multilinecomment (js "/*" ++ body ++ js "*/" ++ rest)
  = Some (js "/*" ++ body ++ js "*/").
Proof.
  intros Hbody Hrest. apply exec_Some. exists rest.
  split; [|by rewrite <- !(assoc_L (++))].
  change (js "/*" ++ body ++ js "*/" ++ rest)
    with (47%N :: 42%N :: body ++ 42%N :: 47%N :: rest).
  rewrite matches_open, matches_Seq, matches_Star_Chr, star_suffixes_app by done.
  cbn [star_suffixes]. change (is_dot 42) with true. change (is_dot 47) with true.
  cbv iota. rewrite !bind_app, (star_suffixes_close _ Hrest).
  cbn [mbind list_bind app]. rewrite !matches_close.
  rewrite (decide_True (P := (42 = 42 ∧ 47 = 47)%N)) by done.
  by destruct rest as [|c' rest']; [|rewrite decide_False by naive_solver].
Qed.

Lemma exec_multilinecomment_last_witness :
  exec re_multilinecomment (js "/*" ++ js " a */ 1 /* b " ++ js "*/" ++ js " x")
  = Some (js "/*" ++ js " a */ 1 /* b " ++ js "*/").
Proof.
  apply exec_multilinecomment_last; [|done].
  repeat (constructor; [done|]). constructor.
Defined.

(** A block comment that its line does not close is no token: the
    dot of the expression does not go past a line terminator, no other
    expression matches a slash, and so [tokenize] on an input that starts
    with such a comment returns no token at all. *)
Theorem tokenize_unclosed_comment s :
  closes s = false → tokenize (js "/*" ++ s) = Ok [].
Proof.
  intros Hs. unfold tokenize.
  assert (first_match tokenTypes (js "/*" ++ s) = None) as Hm.
  { apply first_match_None.
    change (js "/*" ++ s) with (47%N :: 42%N :: s).
    repeat constructor; apply exec_None; try done. simpl regexp.
    by rewrite matches_open, matches_Seq, matches_Star_Chr, star_suffixes_close. }
  cbn [tokenize_loop]. unfold tokenize_step.
  rewrite decide_True by (simpl; lia). unfold substring. rewrite drop_0.
  cbn [index lexer_init]. by rewrite Hm.
Qed.

Lemma tokenize_unclosed_comment_witness :
  tokenize (js "/*" ++ js "a" ++ [LF%js] ++ js "*/ 1") = Ok [].
Proof. by apply tokenize_unclosed_comment. Defined.

(** ** Maximal munch *)

(** A white space token is the longest run of white space units at the
    start of the rest of the input, and there is none when the rest starts
    otherwise. *)
Theorem exec_whitespace s :
  exec re_whitespace s
  = match take_while is_space s with [] => None | m => Some m end.
Proof.
  unfold re_whitespace, Plus. destruct s as [|c s]; [done|].
  cbn [take_while]. destruct (is_space c) eqn:Hc.
  - apply (exec_Seq_app _ _ [c]); [cbn [app]; by rewrite matches_Chr_cons, Hc|].
    apply exec_Star_Chr.
  - apply exec_None. by rewrite matches_Seq, matches_Chr_cons, Hc.
Qed.

(** A line comment runs from its two slashes to the end of the line:
    the token is the two slashes and the longest run of units that are not
    line terminators. *)
Theorem exec_inlinecomment s :
  exec re_inlinecomment (js "//" ++ s) = Some (js "//" ++ take_while is_dot s).
Proof.
  unfold re_inlinecomment.
  apply (exec_Seq_app _ _ [47%N] (47%N :: s) (47%N :: take_while is_dot s));
    [cbn [app]; by rewrite matches_Lit_cons, decide_True|].
  apply (exec_Seq_app _ _ [47%N]);
    [cbn [app]; by rewrite matches_Lit_cons, decide_True|].
  apply exec_Star_Chr.
Qed.

(** ** String literals *)

(** One iteration of the body of the string expression: one unit that is
    neither a double quote nor a backslash, or a backslash and a unit the
    dot matches. *)
Lemma matches_string_body c s :
  matches (Chr (none_of [dquote; backslash]) ∣ Lit backslash ⨾ Chr is_dot)
    (c :: s)
  = if decide (c = N_of_ascii dquote) then []
    else if decide (c = N_of_ascii backslash) then
      match s with
      | e :: s' => if is_dot e then [s'] else []
      | [] => []
      end
    else [s].
Proof.
  cbn [matches]. rewrite matches_Lit_cons. unfold none_of, one_of.
  change (N_of_ascii <$> [dquote; backslash]) with [34%N; 92%N].
  change (N_of_ascii dquote) with 34%N. change (N_of_ascii backslash) with 92%N.
  destruct (decide (c = 34%N)) as [->|]; [done|].
  destruct (decide (c = 92%N)) as [->|].
  - simpl. by destruct s as [|e s]; [|rewrite app_nil_r].
  - rewrite bool_decide_eq_false_2 by set_solver. done.
Qed.

(** The matches of the body of a string literal followed by the closing
    quote: at most one, the one the scanner finds. *)
Lemma matches_string_rest s :
  matches ((Chr (none_of [dquote; backslash]) ∣ Lit backslash ⨾ Chr is_dot)⋆
           ⨾ Lit dquote) s
  = option_list (scan_string s).
Proof.
  remember (length s) as n eqn:Hn. revert s Hn.
  induction n as [n IH] using lt_wf_ind. intros s ->.
  rewrite matches_Seq, matches_Star. destruct s as [|c s]; [done|].
  rewrite matches_string_body. cbn [scan_string].
  assert (∀ t, length t < length (c :: s) →
    (([t] ≫= λ s',
        if decide (length s' < length (c :: s))
        then matches (Chr (none_of [dquote; backslash])
                      ∣ Lit backslash ⨾ Chr is_dot)⋆ s'
        else []) ++ [c :: s])
    ≫= matches (Lit dquote)
    = option_list (scan_string t)
      ++ (if decide (c = N_of_ascii dquote) then [s] else [])) as Hstep.
  { intros t Ht. cbn [mbind list_bind]. rewrite decide_True, app_nil_r by done.
    rewrite bind_app, <- matches_Seq, (IH _ Ht t eq_refl).
    cbn [mbind list_bind app]. by rewrite matches_Lit_cons, app_nil_r. }
  destruct (decide (c = N_of_ascii dquote)) as [->|Hq].
  { cbn [mbind list_bind app]. by rewrite matches_Lit_cons, decide_True. }
  destruct (decide (c = N_of_ascii backslash)) as [->|Hb].
  - destruct s as [|e s];
      [cbn [mbind list_bind app]; by rewrite matches_Lit_cons, decide_False|].
    destruct (is_dot e).
    + rewrite Hstep by (simpl; lia). by rewrite app_nil_r.
    + cbn [mbind list_bind app]. by rewrite matches_Lit_cons, decide_False.
  - rewrite Hstep by (simpl; lia). by rewrite app_nil_r.
Qed.

(** The string expression against a scanner: a string token starts
    with a double quote and ends with the first double quote after it that
    no backslash escapes; a backslash before a line terminator, or a
    missing closing quote, leaves no token.  The backtracking of the
    matcher never finds another end. *)
Theorem exec_string s :
  exec re_string s
  = match s with
    | c :: s' =>
      if decide (c = N_of_ascii dquote)
      then rest ← scan_string s'; Some (take (length s - length rest) s)
      else None
    | [] => None
    end.
Proof.
  unfold exec, re_string. rewrite matches_Seq. destruct s as [|c s]; [done|].
  rewrite matches_Lit_cons. case_decide; [|done].
  cbn [mbind list_bind]. rewrite app_nil_r, matches_string_rest.
  by destruct (scan_string s).
Qed.

(** ** Numbers *)

Lemma head_matches_int s :
  head (matches (Lit "0" ∣ Chr (in_range "1" "9") ⨾ (Chr is_digit)⋆) s)
  = scan_int s.
Proof.
  destruct s as [|c s]; [done|]. cbn [scan_int].
  rewrite matches_Alt, matches_Lit_cons, matches_Seq, matches_Chr_cons.
  change (N_of_ascii "0") with 48%N. case_decide; [done|]. cbn [app].
  destruct (in_range "1" "9" c); [|done]. cbn [mbind list_bind].
  rewrite app_nil_r. apply head_matches_Star_Chr.
Qed.

Lemma head_matches_frac s :
  head (matches (Opt (Lit "." ⨾ Plus (Chr is_digit))) s) = Some (scan_frac s).
Proof.
  rewrite matches_Opt. unfold scan_frac. destruct s as [|c s]; [done|].
  rewrite matches_Seq, matches_Lit_cons. change (N_of_ascii ".") with 46%N.
  case_decide; [|done]. cbn [mbind list_bind]. rewrite app_nil_r.
  pose proof (head_matches_Plus_Chr is_digit s) as Hd. fold (scan_digits s) in Hd.
  destruct (matches (Plus (Chr is_digit)) s); simpl in *; by rewrite <- Hd.
Qed.

Lemma head_matches_exp s :
  head (matches (Opt (Chr (one_of ["e"; "E"]%char)
                      ⨾ Opt (Chr (one_of ["+"; "-"]%char))
                      ⨾ Plus (Chr is_digit))) s)
  = Some (scan_exp s).
Proof.
  rewrite matches_Opt. unfold scan_exp. destruct s as [|c s]; [done|].
  rewrite matches_Seq, matches_Chr_cons.
  destruct (one_of ["e"; "E"]%char c); [|done].
  cbn [mbind list_bind]. rewrite app_nil_r, matches_Seq, matches_Opt.
  destruct s as [|sg s]; [done|]. rewrite matches_Chr_cons, bind_app.
  pose proof (head_matches_Plus_Chr is_digit s) as Hd.
  pose proof (head_matches_Plus_Chr is_digit (sg :: s)) as Hd'.
  fold (scan_digits s) in Hd.
  destruct (one_of ["+"; "-"]%char sg) eqn:Hsg; cbn [mbind list_bind app].
  - assert (is_digit sg = false) as Hnd.
    { apply bool_decide_eq_true in Hsg. apply not_true_is_false.
      intros ?%is_digit_spec.
      change (N_of_ascii <$> _) with [43%N; 45%N] in Hsg.
      set_unfold. lia. }
    rewrite !app_nil_r. cbv iota in Hd'. rewrite Hnd in Hd'.
    destruct (matches (Plus (Chr is_digit)) (sg :: s)); [|done].
    rewrite app_nil_r.
    destruct (matches (Plus (Chr is_digit)) s); simpl in *; by rewrite <- Hd.
  - rewrite app_nil_r.
    destruct (matches (Plus (Chr is_digit)) (sg :: s)); simpl in *;
      by rewrite <- Hd'.
Qed.

(** The number expression against the scanner. *)
Lemma head_matches_number s : head (matches re_number s) = scan_number s.
Proof.
  unfold re_number, scan_number.
  set (rest := _ ⨾ Opt (Lit "." ⨾ _) ⨾ _).
  assert (∀ t, head (matches rest t) = scan_exp ∘ scan_frac <$> scan_int t)
    as Hrest.
  { intros t. unfold rest. pose proof (head_matches_int t) as Hi.
    destruct (scan_int t) as [t1|] eqn:Ht.
    - eapply head_matches_Seq; [done|].
      eapply head_matches_Seq; [apply head_matches_frac|apply head_matches_exp].
    - rewrite matches_Seq_nil; [done|]. by destruct (matches _ t). }
  rewrite matches_Seq, matches_Opt. destruct s as [|c s].
  { change (matches (Lit "-") []) with (@nil jstring).
    cbn [app mbind list_bind]. rewrite app_nil_r. apply Hrest. }
  rewrite matches_Lit_cons. change (N_of_ascii "-") with 45%N.
  case_decide as Hc; cbn [app mbind list_bind]; rewrite app_nil_r;
    [subst c|apply Hrest].
  assert (matches rest (45%N :: s) = []) as ->.
  { specialize (Hrest (45%N :: s)). by destruct (matches rest _). }
  rewrite app_nil_r. apply Hrest.
Qed.


(** ** Literals and punctuation *)

Lemma matches_Word w s :
  matches (Word w) s
  = if bool_decide ((N_of_ascii <$> w) `prefix_of` s)
    then [drop (length w) s] else [].
Proof.
  revert s. induction w as [|a w IH]; intros s.
  { by rewrite bool_decide_eq_true_2 by apply prefix_nil. }
  cbn [Word]. rewrite matches_Seq. destruct s as [|c s].
  { rewrite fmap_cons. by rewrite bool_decide_eq_false_2 by apply prefix_nil_not. }
  rewrite matches_Lit_cons, fmap_cons. case_decide as Hc.
  - subst c. cbn [mbind list_bind]. rewrite app_nil_r, IH.
    by rewrite (bool_decide_ext _ (N_of_ascii a :: (N_of_ascii <$> w)
                                   `prefix_of` N_of_ascii a :: s))
      by (split; [apply prefix_cons | apply prefix_cons_inv_2]).
  - rewrite bool_decide_eq_false_2; [done|].
    by intros ?%prefix_cons_inv_1.
Qed.

Lemma head_matches_literal s : head (matches re_literal s) = scan_literal s.
Proof.
  unfold re_literal, scan_literal. rewrite !matches_Alt, !matches_Word.
  by repeat case_bool_decide.
Qed.

Lemma head_matches_punctuation s :
  head (matches re_punctuation s) = scan_punctuation s.
Proof.
  unfold re_punctuation. destruct s as [|c s]; [done|].
  rewrite matches_Chr_cons. simpl. by case_match.
Qed.

(** ** Comments, white space and strings *)

Lemma head_matches_inlinecomment s :
  head (matches re_inlinecomment s) = scan_inlinecomment s.
Proof.
  unfold re_inlinecomment, scan_inlinecomment.
  destruct s as [|c [|c' s]]; [done| |];
    rewrite matches_Seq, matches_Lit_cons; change (N_of_ascii "/") with 47%N;
    (case_decide; [|done]); cbn [mbind list_bind]; rewrite app_nil_r; [done|].
  rewrite matches_Seq, matches_Lit_cons. change (N_of_ascii "/") with 47%N.
  case_decide; [|done]. cbn [mbind list_bind]. rewrite app_nil_r.
  apply head_matches_Star_Chr.
Qed.

Lemma head_app {A} (l k : list A) :
  head (l ++ k) = match head l with Some x => Some x | None => head k end.
Proof. by destruct l. Qed.

Lemma head_matches_close s :
  head (matches ((Chr is_dot)⋆ ⨾ Lit "*" ⨾ Lit "/") s) = scan_close s.
Proof.
  rewrite matches_Seq, matches_Star_Chr.
  induction s as [|c s IH]; [done|]. cbn [star_suffixes scan_close].
  destruct (is_dot c) eqn:Hc.
  - rewrite bind_app, head_app, IH. destruct (scan_close s); [done|].
    cbn [mbind list_bind]. rewrite app_nil_r, matches_close.
    destruct s; [done|]. by case_decide.
  - cbn [mbind list_bind]. rewrite app_nil_r, matches_close.
    destruct s; [done|]. rewrite decide_False; [done|]. by intros [-> _].
Qed.

Lemma head_matches_multilinecomment s :
  head (matches re_multilinecomment s) = scan_multilinecomment s.
Proof.
  unfold scan_multilinecomment. destruct s as [|c [|c' s]];
    try (unfold re_multilinecomment;
         rewrite matches_Seq; try rewrite matches_Lit_cons;
         change (N_of_ascii "/") with 47%N; try case_decide; done).
  destruct (decide (c = 47%N)) as [->|];
    [destruct (decide (c' = 42%N)) as [->|]|].
  - rewrite matches_open. apply head_matches_close.
  - unfold re_multilinecomment.
    rewrite matches_Seq, matches_Lit_cons, decide_True by done.
    cbn [mbind list_bind]. rewrite app_nil_r, matches_Seq, matches_Lit_cons.
    by rewrite decide_False.
  - unfold re_multilinecomment.
    by rewrite matches_Seq, matches_Lit_cons, decide_False.
Qed.

Lemma head_matches_whitespace s :
  head (matches re_whitespace s) = scan_whitespace s.
Proof. apply head_matches_Plus_Chr. Qed.

Lemma head_matches_string s : head (matches re_string s) = scan_quoted s.
Proof.
  unfold re_string, scan_quoted. rewrite matches_Seq.
  destruct s as [|c s]; [done|]. rewrite matches_Lit_cons.
  case_decide; [|done]. cbn [mbind list_bind].
  rewrite app_nil_r, matches_string_rest. by destruct (scan_string s).
Qed.

(** ** The table against the scanners *)

(** Each expression of the table finds first what its scanner finds. *)
Lemma scanners_table :
  Forall2 (λ t scanner, ∀ s, head (matches (regexp t) s) = scanner s)
    tokenTypes scanners.
Proof.
  unfold tokenTypes, scanners.
  repeat (constructor;
          [intros s; cbn [regexp];
           first [ apply head_matches_inlinecomment
                 | apply head_matches_multilinecomment
                 | apply head_matches_whitespace | apply head_matches_string
                 | apply head_matches_literal | apply head_matches_number
                 | apply head_matches_punctuation ]|]).
  constructor.
Qed.

Lemma first_match_first_scan types scanners s :
  Forall2 (λ t scanner, ∀ s, head (matches (regexp t) s) = scanner s)
    types scanners →
  first_match types s = first_scan types scanners s.
Proof.
  induction 1 as [|t scanner types scanners' Ht _ IH]; [done|].
  cbn [first_match first_scan]. unfold exec. rewrite Ht, IH.
  by destruct (scanner s).
Qed.

(** ** Strings written by [JSON.stringify] *)

Lemma hex_of_plain d :
  (d < 16)%N → hex_of d ≠ N_of_ascii dquote ∧ hex_of d ≠ N_of_ascii backslash.
Proof.
  intros Hd. unfold hex_of. change (N_of_ascii dquote) with 34%N.
  change (N_of_ascii backslash) with 92%N.
  destruct (d <? 10)%N eqn:Hlt; [apply N.ltb_lt in Hlt|apply N.ltb_ge in Hlt];
    lia.
Qed.

Lemma scan_string_plain c s :
  c ≠ N_of_ascii dquote → c ≠ N_of_ascii backslash →
  scan_string (c :: s) = scan_string s.
Proof. intros. cbn [scan_string]. by rewrite !decide_False. Qed.

Lemma scan_string_escape e s :
  is_dot e = true → scan_string (92%N :: e :: s) = scan_string s.
Proof.
  intros He. cbn [scan_string]. rewrite decide_False, decide_True by done.
  by rewrite He.
Qed.

(** The scanner reads over a quoted unit. *)
Lemma scan_string_quote_unit c s :
  scan_string (quote_unit c ++ s) = scan_string s.
Proof.
  unfold quote_unit.
  repeat (case_decide; [done|]).
  destruct ((c <? 32)%N || is_high_surrogate c || is_low_surrogate c) eqn:Hc.
  - assert (c < 65536)%N as Hu.
    { unfold is_high_surrogate, is_low_surrogate in Hc.
      repeat (apply orb_true_iff in Hc as [Hc|Hc]);
        [apply N.ltb_lt in Hc|apply andb_true_iff in Hc as [_ Hc%N.leb_le]..];
        lia. }
    assert (c / 4096 < 16)%N by (apply N.Div0.div_lt_upper_bound; lia).
    unfold unicode_escape. cbn [app].
    rewrite scan_string_escape by done.
    rewrite !scan_string_plain; first [done | apply hex_of_plain];
      first [done | by apply N.mod_lt].
  - apply scan_string_plain; done.
Qed.

Lemma scan_string_quote_chars s rest :
  scan_string (quote_chars s ++ 34%N :: rest) = Some rest.
Proof.
  remember (length s) as n eqn:Hn. revert s Hn.
  induction n as [n IH] using lt_wf_ind. intros [|c [|c' s]] ->; [done|..].
  - cbn [quote_chars]. by rewrite scan_string_quote_unit.
  - rewrite quote_chars_cons.
    destruct (is_high_surrogate c && is_low_surrogate c') eqn:Hp.
    + apply andb_true_iff in Hp as [[Hc%N.leb_le _]%andb_true_iff
                                      [Hc'%N.leb_le _]%andb_true_iff].
      cbn [app]. rewrite !scan_string_plain
        by (change (N_of_ascii dquote) with 34%N;
            change (N_of_ascii backslash) with 92%N; lia).
      by apply (IH (length s) ltac:(simpl; lia) s).
    + rewrite <- (assoc_L (++)), scan_string_quote_unit.
      by apply (IH (length (c' :: s)) ltac:(simpl; lia) (c' :: s)).
Qed.

(** The table at a string literal the scanner reads to its end. *)
Lemma first_match_quoted body rest :
  scan_string body = Some rest →
  first_match tokenTypes (34%N :: body)
  = Some (string_type, take (S (length body) - length rest) (34%N :: body)).
Proof.
  intros Hs. rewrite (first_match_first_scan _ _ _ scanners_table).
  unfold tokenTypes, scanners.
  cbn [first_scan].
  assert (scan_inlinecomment (34%N :: body) = None) as -> by (by destruct body).
  assert (scan_multilinecomment (34%N :: body) = None) as ->
    by (by destruct body).
  assert (scan_whitespace (34%N :: body) = None) as -> by done.
  unfold scan_quoted. by rewrite decide_True, Hs by done.
Qed.

(** ** Theorems *)

(** C11. The table against the scanners: [exec] on each of the seven
    expressions, with the backtracking matcher, returns the text its
    scanner reads from the left, and at every place of the input the [for]
    loop over the table finds the token the scanners find: the same type
    and the same text, or no token. *)
Theorem first_match_scan s :
  first_match tokenTypes s = scan s
  ∧ Forall2 (λ t scanner,
       exec (regexp t) s
       = (rest ← scanner s; Some (take (length s - length rest) s)))
      tokenTypes scanners.
Proof.
  split; [apply first_match_first_scan, scanners_table|].
  eapply Forall2_impl; [apply scanners_table|].
  intros t scanner Ht. unfold exec. by rewrite Ht.
Qed.

(** Round trip of a string through [JSON.stringify] and the
    tokenizer: the text [JSON.stringify] writes for a string is one string
    token, whose value is the string. *)
Theorem tokenize_stringify s :
  tokenize (JSON_stringify s)
  = Ok [mk_token T_string
          (to_IRange start_position
             (advance start_position (JSON_stringify s)))
          (JSON_stringify s) (VString s)].
Proof.
  apply (tokenize_one _ string_type).
  - unfold JSON_stringify.
    rewrite (first_match_quoted _ []), Nat.sub_0_r
      by apply scan_string_quote_chars.
    by rewrite (take_ge (_ :: _)) by done.
  - simpl. unfold create_string. by rewrite JSON_parse_stringify.
Qed.
