(* ===== verification/Language.v ===== *)
(** * Language: the expressions as sets of texts

    What an expression matches, said without a matcher: [denotes r w]
    says that the text [w] belongs to the language of [r], by the rules
    of regular expressions.  The matcher of [Regex] explores the ways an
    expression matches the start of a text in the order of priority of
    [RegExp.prototype.exec]; the theorems say that it finds the starts
    of the text that belong to the language, all of them and no others,
    so that [exec] fails only where no start of the text is in the
    language.  For the tokenizer this means that every token is a text
    of the language of an expression of the table, and that what
    [tokenize] leaves unread has no start in any of the seven
    languages. *)

From S2P Require Import Prelude Regex Token Tokenizer.

(** ** The language of an expression *)

Inductive denotes : regex → jstring → Prop :=
| denotes_Eps :
    denotes Eps []
| denotes_Chr p c :
    p c = true → denotes (Chr p) [c]
| denotes_Seq r1 r2 w1 w2 :
    denotes r1 w1 → denotes r2 w2 → denotes (Seq r1 r2) (w1 ++ w2)
| denotes_Alt_l r1 r2 w :
    denotes r1 w → denotes (Alt r1 r2) w
| denotes_Alt_r r1 r2 w :
    denotes r2 w → denotes (Alt r1 r2) w
| denotes_Star_nil r :
    denotes (Star r) []
| denotes_Star_cons r w1 w2 :
    denotes r w1 → denotes (Star r) w2 → denotes (Star r) (w1 ++ w2).

(** A start of [s] in the language of [r], given by what follows it. *)
Definition starts (r : regex) (s s' : jstring) : Prop :=
  ∃ w, s = w ++ s' ∧ denotes r w.

(** ** The matcher finds texts of the language *)

Lemma starts_Seq r1 r2 s t s' :
  starts r1 s t → starts r2 t s' → starts (Seq r1 r2) s s'.
Proof.
  intros (w1 & -> & ?) (w2 & -> & ?). exists (w1 ++ w2).
  split; [by rewrite (assoc_L (++))|by constructor].
Qed.

Lemma starts_Star_cons r s t s' :
  starts r s t → starts (Star r) t s' → starts (Star r) s s'.
Proof.
  intros (w1 & -> & ?) (w2 & -> & ?). exists (w1 ++ w2).
  split; [by rewrite (assoc_L (++))|by constructor].
Qed.

Lemma star_iter_sound r n : ∀ s s',
  (∀ t t', t' ∈ matches r t → starts r t t') →
  s' ∈ star_iter (matches r) n s → starts (Star r) s s'.
Proof.
  induction n as [|n IH]; intros s s' Hr; simpl.
  - intros ->%list_elem_of_singleton. exists []. split; [done|constructor].
  - rewrite elem_of_app, list_elem_of_bind, list_elem_of_singleton.
    intros [(t & Hs' & Ht)| ->]; [|exists []; split; [done|constructor]].
    case_decide; [|by apply elem_of_nil in Hs'].
    eapply starts_Star_cons; eauto.
Qed.

Lemma matches_sound r : ∀ s s', s' ∈ matches r s → starts r s s'.
Proof.
  induction r as [|p|r1 IH1 r2 IH2|r1 IH1 r2 IH2|r IH]; intros s s'; simpl.
  - intros ->%list_elem_of_singleton. exists []. split; [done|constructor].
  - destruct s as [|c s]; [by intros ?%elem_of_nil|].
    destruct (p c) eqn:Hp; [|by intros ?%elem_of_nil].
    intros ->%list_elem_of_singleton. exists [c]. split; [done|by constructor].
  - rewrite list_elem_of_bind. intros (t & ? & ?).
    eapply starts_Seq; eauto.
  - rewrite elem_of_app.
    intros [(w & -> & ?)%IH1|(w & -> & ?)%IH2]; exists w;
      (split; [done|]); by constructor.
  - by apply star_iter_sound.
Qed.

(** ** The matcher finds every text of the language *)

Lemma matches_complete r w :
  denotes r w → ∀ s', s' ∈ matches r (w ++ s').
Proof.
  induction 1 as [|p c Hp|r1 r2 w1 w2 _ IH1 _ IH2|r1 r2 w _ IH|r1 r2 w _ IH
                 |r|r w1 w2 _ IH1 _ IH2]; intros s'.
  - by apply list_elem_of_singleton.
  - simpl. rewrite Hp. by apply list_elem_of_singleton.
  - simpl. rewrite <- (assoc_L (++)). apply list_elem_of_bind.
    exists (w2 ++ s'). split; [apply IH2 | apply IH1].
  - simpl. apply elem_of_app. left. apply IH.
  - simpl. apply elem_of_app. right. apply IH.
  - rewrite matches_Star. apply elem_of_app. right. by apply list_elem_of_singleton.
  - destruct w1 as [|c w1]; [apply IH2|].
    rewrite matches_Star. apply elem_of_app. left.
    rewrite <- (assoc_L (++)). apply list_elem_of_bind.
    exists (w2 ++ s'). split; [|apply IH1].
    rewrite decide_True; [apply IH2|]. simpl. rewrite !length_app. lia.
Qed.

(** The expressions that match the empty text. *)
Lemma nullable_denotes r : nullable r = true ↔ denotes r [].
Proof.
  split.
  - induction r as [|p|r1 IH1 r2 IH2|r1 IH1 r2 IH2|r IH]; simpl; try done.
    + constructor.
    + intros [? ?]%andb_true_iff. apply (denotes_Seq _ _ [] []); auto.
    + intros [?|?]%orb_true_iff; [apply denotes_Alt_l|apply denotes_Alt_r]; auto.
    + constructor.
  - intros Hd. remember [] as w eqn:Hw. revert Hw.
    induction Hd as [|p c Hp|r1 r2 w1 w2 _ IH1 _ IH2|r1 r2 w _ IH|r1 r2 w _ IH
                    |r|r w1 w2 _ IH1 _ IH2]; simpl; try done.
    + intros [-> ->]%app_eq_nil. by rewrite IH1, IH2.
    + intros ->. by rewrite IH.
    + intros ->. rewrite IH by done. apply orb_true_r.
Qed.

(** [matches r s] lists the texts that remain of [s] after a start that
    belongs to the language of [r]: every one of them, and no other
    text. *)
Lemma matches_denotes r s s' :
  s' ∈ matches r s ↔ ∃ w, s = w ++ s' ∧ denotes r w.
Proof.
  split; [apply matches_sound|].
  intros (w & -> & Hw). by apply matches_complete.
Qed.

(** ** Theorems *)

(** What [exec] returns is a text of the language, and [exec] fails
    exactly when no start of the text is in the language. *)
Theorem exec_denotes r s :
  match exec r s with
  | Some m => m `prefix_of` s ∧ denotes r m
  | None => ∀ w, w `prefix_of` s → ¬ denotes r w
  end.
Proof.
  destruct (exec r s) as [m|] eqn:He.
  - apply exec_Some in He as (s' & Hh%head_Some_elem_of & ->).
    split; [by eexists|].
    apply matches_sound in Hh as (w & ->%(inj (.++ s')) & Hw). done.
  - apply exec_None in He. intros w [s' ->] Hw.
    pose proof (matches_complete _ _ Hw s') as Hin.
    rewrite He in Hin. by apply elem_of_nil in Hin.
Qed.

(** Where the table selects no token, no start of the text is in the
    language of an expression of the table. *)
Lemma first_match_None_denotes types s t w :
  first_match types s = None → t ∈ types → w `prefix_of` s →
  ¬ denotes (regexp t) w.
Proof.
  rewrite first_match_None, Forall_forall. intros Hn Ht%Hn.
  pose proof (exec_denotes (regexp t) s) as Hex. rewrite Ht in Hex.
  apply Hex.
Qed.

(** C13. The tokens and the languages

    When [tokenize] returns, every token is a text of the language of
    an expression of the table, and the input is the texts of the tokens
    followed by a rest no start of which, the empty one included, is in
    the language of any of the seven expressions. *)
Theorem tokenize_denotes json toks :
  tokenize json = Ok toks →
  Forall (λ tok, ∃ t, t ∈ tokenTypes ∧ denotes (regexp t) (tok_raw tok)) toks
  ∧ ∃ rest, json = mjoin (tok_raw <$> toks) ++ rest
      ∧ ∀ t w, t ∈ tokenTypes → w `prefix_of` rest → ¬ denotes (regexp t) w.
Proof.
  intros Htok. split.
  - revert Htok. apply tokenize_Forall. intros t s raw range tok Hm Hc.
    apply first_match_Some in Hm as [Ht Hex]. exists t. split; [done|].
    apply (create_Ok _ _ _ _ Ht) in Hc as [-> _].
    pose proof (exec_denotes (regexp t) s) as Hd. rewrite Hex in Hd. apply Hd.
  - apply tokenize_Ok_prefix in Htok as (rest & -> & Hrest).
    exists rest. split; [done|]. destruct Hrest as [->|Hn].
    + intros t w Ht ->%prefix_nil_inv Hw%nullable_denotes.
      pose proof tokenTypes_not_nullable as Hn.
      rewrite Forall_forall in Hn. by rewrite (Hn _ Ht) in Hw.
    + intros t w. by apply first_match_None_denotes.
Qed.

Lemma tokenize_denotes_witness :
  Forall (λ tok, ∃ t, t ∈ tokenTypes ∧ denotes (regexp t) (tok_raw tok))
    sample_lexed
  ∧ ∃ rest, sample_text = mjoin (tok_raw <$> sample_lexed) ++ rest
      ∧ ∀ t w, t ∈ tokenTypes → w `prefix_of` rest → ¬ denotes (regexp t) w.
Proof. apply (tokenize_denotes sample_text sample_lexed). by vm_compute. Defined.
