(* ===== verification/Ast.v ===== *)
(** * Ast: the tree builder

    The nodes of the syntax tree, the recursive-descent builder
    ([parseTokens], [parseObject], [parseArray] and the leaf builders of
    [json-parse-ast.js]), and the two derived views of a container: the [raw]
    getter and [extractValues].

    A node is addressed by its path from the root, so the [parent]
    back-reference of the source is determined by the tree; what the tree
    keeps of it is whether the builder assigned the field ([has_parent]). *)

From S2P Require Import Prelude Token.

(** ** Nodes *)

Inductive leaf_type :=
| InlineComment
| MultilineComment
| Whitespace
| StringLiteral
| NumberLiteral
| LiteralLiteral
| Punctuation.

Inductive container_type :=
| Object
| Array.

#[local] Set Warnings "-register-all".

Inductive ast :=
| Leaf (type : leaf_type) (raw : jstring) (value : option jsval)
    (position : IRange) (has_parent : bool)
| Container (type : container_type) (children : list ast)
    (position : IRange) (has_parent : bool).

#[export] Instance leaf_type_eq_dec : EqDecision leaf_type.
Proof. solve_decision. Defined.

#[export] Instance container_type_eq_dec : EqDecision container_type.
Proof. solve_decision. Defined.

Definition ast_position (n : ast) : IRange :=
  match n with
  | Leaf _ _ _ position _ => position
  | Container _ _ position _ => position
  end.

Definition has_parent (n : ast) : bool :=
  match n with
  | Leaf _ _ _ _ b => b
  | Container _ _ _ b => b
  end.

Definition ast_children (n : ast) : list ast :=
  match n with
  | Leaf _ _ _ _ _ => []
  | Container _ children _ _ => children
  end.

(** [n.parent = result] *)
Definition set_parent (n : ast) : ast :=
  match n with
  | Leaf type raw value position _ => Leaf type raw value position true
  | Container type children position _ => Container type children position true
  end.

(** The [raw] property: a field of a leaf, and for a container the getter
    that appends the [raw] of every child to the empty string. *)
Fixpoint ast_raw (n : ast) : jstring :=
  match n with
  | Leaf _ raw _ _ _ => raw
  | Container _ children _ _ => foldl (λ s child, s ++ ast_raw child) [] children
  end.

(** ** The leaf builders *)

Definition leaf_of (type : leaf_type) (value : token → option jsval)
    (tokens : list token) (current : nat) : outcome (nat * ast) :=
  token ← defined (tokens !! current);
  Ok (current + 1,
      Leaf type (tok_raw token) (value token) (tok_position token) false).

Definition parseInlineComment := leaf_of InlineComment (λ _, None).
Definition parseMultilineComment := leaf_of MultilineComment (λ _, None).
Definition parseString := leaf_of StringLiteral (λ t, Some (tok_value t)).
Definition parseNumber := leaf_of NumberLiteral (λ t, Some (tok_value t)).
Definition parseLiteral := leaf_of LiteralLiteral (λ t, Some (tok_value t)).
Definition parseWhitespace := leaf_of Whitespace (λ t, Some (tok_value t)).
Definition parseToken := leaf_of Punctuation (λ t, Some (VString (tok_raw t))).

(** ** Containers *)

(** The range from the start of [first] to the end of [last]. *)
Definition span (first last : IRange) : IRange :=
  {| startLineNumber := startLineNumber first;
     startColumn := startColumn first;
     endLineNumber := endLineNumber last;
     endColumn := endColumn last |}.

Section containers.
(** The recursive call [parseTokens(tokens, curr)]. *)
Context (parseTokens : nat → outcome (option (nat * ast))).
Context (tokens : list token).

(** The [while] loop of [parseObject] and [parseArray]: until the token
    under the cursor has the raw text [close], parse a child there, move
    the cursor behind it, give the child its parent and push it. *)
Fixpoint parse_children (fuel : nat) (close : jstring) (curr : nat)
    (children : list ast) : outcome (nat * list ast) :=
  match fuel with
  | 0 => OutOfFuel
  | S fuel' =>
    token ← defined (tokens !! curr);
    if decide (tok_raw token ≠ close) then
      foo ← parseTokens curr;
      '(next, child) ← defined foo;
      parse_children fuel' close next (children ++ [set_parent child])
    else Ok (curr, children)
  end.

Definition container_position (current curr : nat) : outcome IRange :=
  first ← defined (tokens !! current);
  last ← defined (tokens !! curr);
  Ok (span (tok_position first) (tok_position last)).

Definition parseObject (fuel : nat) (current : nat) : outcome (nat * ast) :=
  '(_, start) ← parseToken tokens current;
  '(curr, children) ←
    parse_children fuel (js "}") (current + 1) [set_parent start];
  '(_, end_) ← parseToken tokens curr;
  position ← container_position current curr;
  Ok (curr + 1, Container Object (children ++ [end_]) position false).

Definition parseArray (fuel : nat) (current : nat) : outcome (nat * ast) :=
  '(_, startToken) ← parseToken tokens current;
  '(curr, children) ←
    parse_children fuel (js "]") (current + 1) [set_parent startToken];
  '(_, endToken) ← parseToken tokens curr;
  position ← container_position current curr;
  Ok (curr + 1,
      Container Array (children ++ [set_parent endToken]) position false).

End containers.

(** ** [parseTokens] *)

(** [parseTokens(tokens, current)]: the cursor behind the node and the node,
    or [None] for the calls that fall off the end of the function (a
    punctuation that opens nothing and is neither a colon nor a comma, and a
    token of an unknown type, which is also logged). *)
Fixpoint parseTokens (fuel : nat) (tokens : list token) (current : nat)
    : outcome (option (nat * ast)) :=
  match fuel with
  | 0 => OutOfFuel
  | S fuel' =>
    token ← defined (tokens !! current);
    match tok_type token with
    | T_inlinecomment => Some <$> parseInlineComment tokens current
    | T_multilinecomment => Some <$> parseMultilineComment tokens current
    | T_whitespace => Some <$> parseWhitespace tokens current
    | T_string => Some <$> parseString tokens current
    | T_literal => Some <$> parseLiteral tokens current
    | T_number => Some <$> parseNumber tokens current
    | T_punctuation =>
      if decide (tok_raw token = js "{") then
        Some <$> parseObject (parseTokens fuel' tokens) tokens fuel' current
      else if decide (tok_raw token = js "[") then
        Some <$> parseArray (parseTokens fuel' tokens) tokens fuel' current
      else if decide (tok_raw token = js ":" ∨ tok_raw token = js ",") then
        Some <$> parseToken tokens current
      else Ok None
    | T_other _ => Ok None
    end
  end.

(** The exported [parseTokens(tokens)]: [parseTokens(tokens, 0)[1]]. *)
Definition parseTokens_root (tokens : list token) : outcome ast :=
  r ← parseTokens (S (length tokens)) tokens 0;
  '(_, node) ← defined r;
  Ok node.

(** ** [extractValues] *)

(** The node types [extractValues] keeps. *)
Definition is_value (n : ast) : bool :=
  match n with
  | Leaf (StringLiteral | NumberLiteral | LiteralLiteral) _ _ _ _ => true
  | Leaf _ _ _ _ _ => false
  | Container _ _ _ _ => true
  end.

(** [extractValues] reads the [type] of each child and pushes the child
    itself, a reference.  The two functions are written over any
    representation [A] of a reference to a child, given the test on its
    type: the child itself in this file, the child with its index where
    the identity of nodes matters. *)
Section extractValues.
Context {A : Type} (keeps : A → bool).

(** [extractValues] of an array node. *)
Definition extractValues_Array (children : list A) : list A :=
  foldl (λ s child, if keeps child then s ++ [child] else s) [] children.

(** The variables [s], [isKey] and [currentKey] of [extractValues] of an
    object node. *)
Record pairing := {
  pairs : list (option A * A);
  isKey : bool;
  currentKey : option A
}.

Definition pairing_step (st : pairing) (child : A) : pairing :=
  if keeps child then
    if isKey st then
      {| pairs := pairs st; isKey := negb (isKey st); currentKey := Some child |}
    else
      {| pairs := pairs st ++ [(currentKey st, child)];
         isKey := negb (isKey st); currentKey := currentKey st |}
  else st.

Definition extractValues_Object (children : list A) : list (option A * A) :=
  pairs (foldl pairing_step
           {| pairs := []; isKey := true; currentKey := None |} children).

(** ** Reference definitions *)

(** The values of a list taken two by two; a last one left alone is
    dropped. *)
Fixpoint pair_up (l : list A) : list (option A * A) :=
  match l with
  | k :: v :: l' => (Some k, v) :: pair_up l'
  | _ => []
  end.

End extractValues.

Arguments pairing : clear implicits.
Arguments pair_up {A} l.

(** ** The specification of the builder

    [built tokens cur next n]: the node [n] is what the tokens from [cur]
    up to [next] (excluded) denote.  A leaf is one token; a container is an
    opening brace or bracket, children built from consecutive runs of
    tokens, none of which starts at a token whose raw text is the closing
    one, and the first token after them that has this raw text. *)

(** The leaf a token becomes, when it becomes one. *)
Definition leaf_kind (t : token) : option (leaf_type * option jsval) :=
  match tok_type t with
  | T_inlinecomment => Some (InlineComment, None)
  | T_multilinecomment => Some (MultilineComment, None)
  | T_whitespace => Some (Whitespace, Some (tok_value t))
  | T_string => Some (StringLiteral, Some (tok_value t))
  | T_literal => Some (LiteralLiteral, Some (tok_value t))
  | T_number => Some (NumberLiteral, Some (tok_value t))
  | T_punctuation =>
    if decide (tok_raw t = js ":" ∨ tok_raw t = js ",")
    then Some (Punctuation, Some (VString (tok_raw t)))
    else None
  | T_other _ => None
  end.

(** The punctuation leaf of a token. *)
Definition punct (t : token) (parent : bool) : ast :=
  Leaf Punctuation (tok_raw t) (Some (VString (tok_raw t))) (tok_position t)
    parent.

Definition open_raw (ty : container_type) : jstring :=
  match ty with Object => js "{" | Array => js "[" end.
Definition close_raw (ty : container_type) : jstring :=
  match ty with Object => js "}" | Array => js "]" end.

(** Whether the builder gives the closing token of a container its parent:
    [parseArray] does, [parseObject] does not. *)
Definition close_has_parent (ty : container_type) : bool :=
  match ty with Object => false | Array => true end.

Inductive built (tokens : list token) : nat → nat → ast → Prop :=
| built_leaf cur t ty v :
    tokens !! cur = Some t →
    leaf_kind t = Some (ty, v) →
    built tokens cur (S cur) (Leaf ty (tok_raw t) v (tok_position t) false)
| built_container cur curr topen tclose ty children :
    tokens !! cur = Some topen →
    tok_type topen = T_punctuation →
    tok_raw topen = open_raw ty →
    built_children tokens (close_raw ty) (S cur) curr children →
    tokens !! curr = Some tclose →
    tok_raw tclose = close_raw ty →
    built tokens cur (S curr)
      (Container ty
         (punct topen true :: (set_parent <$> children)
          ++ [punct tclose (close_has_parent ty)])
         (span (tok_position topen) (tok_position tclose)) false)
with built_children (tokens : list token) : jstring → nat → nat → list ast → Prop :=
| built_nil close cur :
    built_children tokens close cur cur []
| built_cons close cur mid next t child children :
    tokens !! cur = Some t →
    tok_raw t ≠ close →
    built tokens cur mid child →
    built_children tokens close mid next children →
    built_children tokens close cur next (child :: children).

Scheme built_mut := Minimality for built Sort Prop
  with built_children_mut := Minimality for built_children Sort Prop.

(** [parseObject] and [parseArray] as one function of the container type. *)
Definition parse_container (ty : container_type)
    (parseTokens : nat → outcome (option (nat * ast))) (tokens : list token)
    (fuel : nat) (current : nat) : outcome (nat * ast) :=
  '(_, start) ← parseToken tokens current;
  '(curr, children) ←
    parse_children parseTokens tokens fuel (close_raw ty) (current + 1)
      [set_parent start];
  '(_, end_) ← parseToken tokens curr;
  position ← container_position tokens current curr;
  Ok (curr + 1,
      Container ty
        (children ++ [if close_has_parent ty then set_parent end_ else end_])
        position false).

(** The parent flags the builder leaves in a tree: every child of a
    container has its parent, but for the last child of an object. *)
Fixpoint parents_ok (n : ast) : bool :=
  match n with
  | Leaf _ _ _ _ _ => true
  | Container ty children _ _ =>
    forallb parents_ok children
    && bool_decide (has_parent <$> children
                    = replicate (length children - 1) true
                      ++ [close_has_parent ty])
  end.

(** ** Sample data *)

(** The tokens of [[1,{}]] on one line, as [tokenize] gives them. *)
Definition sample_range (c : Z) : IRange :=
  {| startLineNumber := 1; startColumn := c;
     endLineNumber := 1; endColumn := c + 1 |}.

Definition sample_tokens : list token := [
  mk_token T_punctuation (sample_range 1) (js "[") (VString (js "["));
  mk_token T_number (sample_range 2) (js "1")
    (VNumber {| num_neg := false; num_mantissa := 1; num_exp10 := 0 |});
  mk_token T_punctuation (sample_range 3) (js ",") (VString (js ","));
  mk_token T_punctuation (sample_range 4) (js "{") (VString (js "{"));
  mk_token T_punctuation (sample_range 5) (js "}") (VString (js "}"));
  mk_token T_punctuation (sample_range 6) (js "]") (VString (js "]"))
].

(** The tree the builder makes of them. *)
Definition sample_ast : ast :=
  Container Array [
    Leaf Punctuation (js "[") (Some (VString (js "["))) (sample_range 1) true;
    Leaf NumberLiteral (js "1")
      (Some (VNumber {| num_neg := false; num_mantissa := 1; num_exp10 := 0 |}))
      (sample_range 2) true;
    Leaf Punctuation (js ",") (Some (VString (js ","))) (sample_range 3) true;
    Container Object [
      Leaf Punctuation (js "{") (Some (VString (js "{"))) (sample_range 4) true;
      Leaf Punctuation (js "}") (Some (VString (js "}"))) (sample_range 5) false
    ] (span (sample_range 4) (sample_range 5)) true;
    Leaf Punctuation (js "]") (Some (VString (js "]"))) (sample_range 6) true
  ] (span (sample_range 1) (sample_range 6)) false.

(** ** Lemmas on nodes *)

(** Induction on a tree, with the hypothesis for every child of a
    container. *)
Lemma ast_ind' (P : ast → Prop) :
  (∀ type raw value position b, P (Leaf type raw value position b)) →
  (∀ type children position b,
     Forall P children → P (Container type children position b)) →
  ∀ n, P n.
Proof.
  intros Hl Hc. fix IH 1. intros [ty raw v pos b|ty cs pos b]; [apply Hl|].
  apply Hc. induction cs as [|c cs IHcs]; constructor; [apply IH | apply IHcs].
Qed.

Lemma ast_raw_Container ty children position b :
  ast_raw (Container ty children position b) = mjoin (ast_raw <$> children).
Proof. simpl. by rewrite foldl_app_join. Qed.

Lemma ast_raw_set_parent n : ast_raw (set_parent n) = ast_raw n.
Proof. by destruct n. Qed.

Lemma has_parent_set_parent n : has_parent (set_parent n) = true.
Proof. by destruct n. Qed.

Lemma has_parent_fmap_set_parent ns :
  has_parent <$> (set_parent <$> ns) = replicate (length ns) true.
Proof.
  induction ns as [|n ns IH]; [done|].
  rewrite !fmap_cons, IH, has_parent_set_parent. done.
Qed.

Lemma parents_ok_set_parent n : parents_ok (set_parent n) = parents_ok n.
Proof. by destruct n. Qed.

Lemma ast_position_set_parent n : ast_position (set_parent n) = ast_position n.
Proof. by destruct n. Qed.

Lemma span_diag r : span r r = r.
Proof. by destruct r. Qed.

(** ** The builders against the specification *)

Lemma leaf_of_Ok ty v tokens cur r :
  leaf_of ty v tokens cur = Ok r ↔
  ∃ t, tokens !! cur = Some t
       ∧ r = (S cur, Leaf ty (tok_raw t) (v t) (tok_position t) false).
Proof.
  unfold leaf_of. destruct (tokens !! cur); simpl; [|naive_solver].
  rewrite Nat.add_1_r. naive_solver.
Qed.

Lemma leaf_of_terminated ty v tokens cur : terminated (leaf_of ty v tokens cur).
Proof. unfold leaf_of. by destruct (tokens !! cur). Qed.

Lemma parseObject_container rec tokens fuel cur :
  parseObject rec tokens fuel cur = parse_container Object rec tokens fuel cur.
Proof. done. Qed.

Lemma parseArray_container rec tokens fuel cur :
  parseArray rec tokens fuel cur = parse_container Array rec tokens fuel cur.
Proof. done. Qed.

Lemma built_lt tokens cur next n : built tokens cur next n → cur < next.
Proof.
  revert cur next n.
  apply (built_mut tokens (λ cur next _, cur < next)
           (λ _ cur next _, cur ≤ next)); intros; lia.
Qed.

Lemma built_children_le tokens close cur next ns :
  built_children tokens close cur next ns → cur ≤ next.
Proof.
  induction 1 as [|????????? Hb%built_lt]; lia.
Qed.

Lemma built_bound tokens cur next n : built tokens cur next n → next ≤ length tokens.
Proof.
  destruct 1 as [cur t ty v Ht%lookup_lt_Some _
                |cur curr topen tclose ty children _ _ _ _ Hc%lookup_lt_Some _];
    lia.
Qed.

Section loop.
Context (rec : nat → outcome (option (nat * ast))) (tokens : list token).

(** The loop builds what the specification says, when the calls it makes
    do. *)
Lemma parse_children_sound fuel close curr acc curr' children :
  (∀ cur next n, rec cur = Ok (Some (next, n)) → built tokens cur next n) →
  parse_children rec tokens fuel close curr acc = Ok (curr', children) →
  ∃ new tclose,
    children = acc ++ (set_parent <$> new)
    ∧ built_children tokens close curr curr' new
    ∧ tokens !! curr' = Some tclose ∧ tok_raw tclose = close.
Proof.
  intros Hrec. revert curr acc.
  induction fuel as [|fuel IH]; intros curr acc; simpl; [done|].
  destruct (tokens !! curr) as [t|] eqn:Ht; simpl; [|done].
  case_decide as Hc.
  - destruct (rec curr) as [[[next child]|]| |] eqn:Hr; simpl; try done.
    intros (new & tclose & -> & Hb & ? & ?)%IH.
    exists (child :: new), tclose. split; [by rewrite <- app_assoc|].
    split; [|done]. econstructor; eauto.
  - intros [= <- <-]. exists [], t. simpl. rewrite app_nil_r.
    split_and!; [done|apply built_nil|done|done].
Qed.

Lemma parse_container_sound ty fuel cur topen r :
  (∀ cur next n, rec cur = Ok (Some (next, n)) → built tokens cur next n) →
  tokens !! cur = Some topen → tok_type topen = T_punctuation →
  tok_raw topen = open_raw ty →
  parse_container ty rec tokens fuel cur = Ok r →
  built tokens cur r.1 r.2.
Proof.
  intros Hrec Ho Hty Hraw. unfold parse_container, parseToken, container_position.
  intros H. outcome_inv.
  repeat match goal with
  | H : leaf_of _ _ _ _ = Ok _ |- _ => apply leaf_of_Ok in H as (? & ? & ?)
  end; simplify_eq.
  match goal with H : parse_children _ _ _ _ _ _ = Ok _ |- _ =>
    apply (parse_children_sound _ _ _ _ _ _ Hrec) in H
      as (new & tclose & -> & Hb & ? & ?) end.
  simplify_eq/=. rewrite Nat.add_1_r in *.
  replace (if close_has_parent ty then _ else _)
    with (punct tclose (close_has_parent ty)) by (by destruct ty).
  by eapply built_container.
Qed.

(** The loop returns what the specification says, given fuel for the
    children that remain and calls that return what it says for them. *)
Lemma parse_children_complete close cur next ns :
  built_children tokens close cur next ns →
  ∀ fuel acc tclose,
    (∀ c mid n, cur ≤ c → mid ≤ next → built tokens c mid n →
                rec c = Ok (Some (mid, n))) →
    next - cur < fuel →
    tokens !! next = Some tclose → tok_raw tclose = close →
    parse_children rec tokens fuel close cur acc
    = Ok (next, acc ++ (set_parent <$> ns)).
Proof.
  induction 1 as [close cur|close cur mid next t child children Ht Hne Hb Hbs IH];
    intros fuel acc tclose Hrec Hf Hc Hraw;
    (destruct fuel as [|fuel]; [lia|]); simpl.
  - rewrite Hc. simpl. rewrite decide_False by (by intros ?).
    by rewrite app_nil_r.
  - pose proof (built_lt _ _ _ _ Hb). pose proof (built_children_le _ _ _ _ _ Hbs).
    rewrite Ht. simpl. rewrite decide_True by done.
    rewrite (Hrec cur mid child) by (done || lia). simpl.
    rewrite (IH fuel _ tclose); [by rewrite <- app_assoc| |lia|done..].
    intros. apply Hrec; [lia|done..].
Qed.

(** The loop terminates, given fuel for the tokens that remain and calls
    that terminate and move the cursor forward. *)
Lemma parse_children_terminated fuel close curr acc :
  (∀ c, curr ≤ c → terminated (rec c)) →
  (∀ c next n, rec c = Ok (Some (next, n)) → c < next) →
  length tokens - curr < fuel →
  terminated (parse_children rec tokens fuel close curr acc).
Proof.
  intros Hterm Hadv. revert curr acc Hterm.
  induction fuel as [|fuel IH]; intros curr acc Hterm Hf; simpl; [lia|].
  destruct (tokens !! curr) as [t|] eqn:Ht; simpl; [|done].
  apply lookup_lt_Some in Ht. case_decide; [|done].
  pose proof (Hterm curr (Nat.le_refl _)) as Hc.
  destruct (rec curr) as [[[next child]|]| |] eqn:Hr; simpl; try done.
  apply Hadv in Hr. apply IH; [|lia]. intros. apply Hterm. lia.
Qed.

Lemma parse_container_terminated ty fuel cur :
  (∀ c, cur < c → terminated (rec c)) →
  (∀ c next n, rec c = Ok (Some (next, n)) → c < next) →
  length tokens - cur ≤ fuel →
  terminated (parse_container ty rec tokens fuel cur).
Proof.
  intros Hterm Hadv Hf. unfold parse_container, parseToken, container_position.
  apply bind_terminated; [apply leaf_of_terminated|].
  intros [? start] (t & Ht%lookup_lt_Some & _)%leaf_of_Ok.
  apply bind_terminated.
  { apply parse_children_terminated; [|done|lia].
    intros. apply Hterm. lia. }
  intros [curr children] _.
  apply bind_terminated; [apply leaf_of_terminated|]. intros [_ end_] _.
  by destruct (tokens !! cur), (tokens !! curr).
Qed.

End loop.

Lemma leaf_built ty v tokens cur t next n :
  tokens !! cur = Some t → leaf_kind t = Some (ty, v t) →
  Some <$> leaf_of ty v tokens cur = Ok (Some (next, n)) →
  built tokens cur next n.
Proof.
  intros Ht Hk (r & (t' & ? & ->)%leaf_of_Ok & ?)%fmap_Ok_inv.
  simplify_eq. by apply built_leaf.
Qed.

Lemma parseTokens_sound fuel tokens cur next n :
  parseTokens fuel tokens cur = Ok (Some (next, n)) → built tokens cur next n.
Proof.
  revert cur next n.
  induction fuel as [|fuel IH]; intros cur next n; simpl; [done|].
  destruct (tokens !! cur) as [t|] eqn:Ht; simpl; [|done].
  destruct (tok_type t) eqn:Hty; try done;
    try (apply leaf_built with t; [done|by unfold leaf_kind; rewrite Hty]).
  repeat case_decide.
  - intros ([next' n'] & Hc & [= <- <-])%fmap_Ok_inv.
    by apply (parse_container_sound _ _ Object _ _ t) in Hc.
  - intros ([next' n'] & Hc & [= <- <-])%fmap_Ok_inv.
    by apply (parse_container_sound _ _ Array _ _ t) in Hc.
  - apply leaf_built with t; [done|].
    unfold leaf_kind. rewrite Hty. by rewrite decide_True.
  - done.
Qed.

Lemma parseTokens_advances fuel tokens cur next n :
  parseTokens fuel tokens cur = Ok (Some (next, n)) → cur < next.
Proof. intros ?%parseTokens_sound. by eapply built_lt. Qed.

Lemma leaf_kind_not_open t ty v kind :
  leaf_kind t = Some (ty, v) → tok_type t = T_punctuation →
  tok_raw t ≠ open_raw kind.
Proof.
  unfold leaf_kind. intros Hk Hty. rewrite Hty in Hk.
  case_decide as Hr; [|done]. intros He. rewrite He in Hr.
  by destruct kind, Hr.
Qed.

Lemma parseTokens_complete fuel tokens cur next n :
  built tokens cur next n → next - cur < fuel →
  parseTokens fuel tokens cur = Ok (Some (next, n)).
Proof.
  revert cur next n. induction fuel as [|fuel IH]; intros cur next n Hb Hf; [lia|].
  destruct Hb as [cur t ty v Ht Hk|cur curr topen tclose ty children Ho Hty Hraw
                                   Hbs Hc Hclose]; simpl.
  - rewrite Ht. simpl. unfold leaf_kind in Hk.
    destruct (tok_type t) eqn:Hty; simplify_eq;
      try (by unfold parseInlineComment, parseMultilineComment,
             parseWhitespace, parseString, parseLiteral, parseNumber, leaf_of;
           rewrite Ht; simpl; rewrite Nat.add_1_r).
    case_decide as Hr; simplify_eq.
    rewrite !decide_False by (by intros He; rewrite He in Hr; destruct Hr).
    unfold parseToken, leaf_of. rewrite Ht. simpl. by rewrite Nat.add_1_r.
  - pose proof (built_children_le _ _ _ _ _ Hbs).
    assert (parse_container ty (parseTokens fuel tokens) tokens fuel cur
            = Ok (S curr, Container ty
                   (punct topen true :: (set_parent <$> children)
                    ++ [punct tclose (close_has_parent ty)])
                   (span (tok_position topen) (tok_position tclose)) false))
      as Hpc.
    { unfold parse_container, parseToken, leaf_of, container_position.
      rewrite Ho. simpl. rewrite Nat.add_1_r.
      rewrite (parse_children_complete _ _ _ _ _ _ Hbs fuel _ tclose);
        [|intros; apply IH; [done|lia]|lia|done..].
      simpl. rewrite Hc. simpl. rewrite Nat.add_1_r. by destruct ty. }
    rewrite Ho. simpl. rewrite Hty.
    destruct ty; simpl in Hraw.
    + rewrite decide_True by done. rewrite parseObject_container, Hpc. done.
    + rewrite decide_False, decide_True by (done || by rewrite Hraw).
      rewrite parseArray_container, Hpc. done.
Qed.

Lemma parseTokens_terminated fuel tokens cur :
  length tokens - cur < fuel → terminated (parseTokens fuel tokens cur).
Proof.
  revert cur. induction fuel as [|fuel IH]; intros cur Hf; simpl; [lia|].
  destruct (tokens !! cur) as [t|] eqn:Ht; simpl; [|done].
  apply lookup_lt_Some in Ht.
  assert (∀ ty, terminated (parse_container ty (parseTokens fuel tokens)
                              tokens fuel cur)).
  { intros ty. apply parse_container_terminated; [|apply parseTokens_advances|lia].
    intros. apply IH. lia. }
  destruct (tok_type t); try done; repeat case_decide;
    rewrite ?fmap_terminated, ?parseObject_container, ?parseArray_container;
    first [done | apply leaf_of_terminated].
Qed.

(** ** Lemmas on the specification *)

Lemma built_raw tokens cur next n :
  built tokens cur next n →
  ast_raw n = mjoin (tok_raw <$> segment cur next tokens).
Proof.
  revert cur next n.
  apply (built_mut tokens
    (λ cur next n, ast_raw n = mjoin (tok_raw <$> segment cur next tokens))
    (λ _ cur next ns,
       cur ≤ next
       ∧ mjoin (ast_raw <$> ns) = mjoin (tok_raw <$> segment cur next tokens))).
  - intros cur t ty v Ht _. rewrite (segment_singleton _ _ _ Ht). simpl.
    by rewrite app_nil_r.
  - intros cur curr topen tclose ty children Ho _ _ Hbs [Hle IH] Hc _.
    rewrite ast_raw_Container.
    rewrite (segment_split cur (S cur) (S curr)) by lia.
    rewrite (segment_split (S cur) curr (S curr)) by lia.
    rewrite (segment_singleton _ _ _ Ho), (segment_singleton _ _ _ Hc).
    rewrite !fmap_app, !join_app, <- IH, fmap_cons, fmap_app, <- list_fmap_compose.
    simpl. rewrite join_app. simpl. rewrite !app_nil_r. do 3 f_equal.
    apply list_fmap_ext. intros; apply ast_raw_set_parent.
  - intros close cur. by rewrite segment_empty.
  - intros close cur mid next t child children _ _ Hb IH Hbs [Hle IHs].
    apply built_lt in Hb. split; [lia|].
    rewrite (segment_split cur mid next) by lia.
    by rewrite fmap_app, join_app, <- IH, <- IHs.
Qed.

Lemma built_position tokens cur next n :
  built tokens cur next n →
  ∃ first last, tokens !! cur = Some first ∧ tokens !! (next - 1) = Some last
    ∧ ast_position n = span (tok_position first) (tok_position last).
Proof.
  destruct 1 as [cur t ty v Ht _
                |cur curr topen tclose ty children Ho _ _ _ Hc _]; simpl;
    rewrite Nat.sub_0_r.
  - exists t, t. by rewrite span_diag.
  - by exists topen, tclose.
Qed.

Lemma built_parents tokens cur next n :
  built tokens cur next n → has_parent n = false ∧ parents_ok n = true.
Proof.
  revert cur next n.
  apply (built_mut tokens
    (λ _ _ n, has_parent n = false ∧ parents_ok n = true)
    (λ _ _ _ ns, forallb parents_ok ns = true)); try done.
  - intros cur curr topen tclose ty children _ _ _ _ IH _ _. split; [done|].
    simpl. rewrite forallb_app. simpl. rewrite andb_true_r.
    apply andb_true_iff. split.
    + revert IH. induction children as [|c cs IHc]; simpl; [done|].
      rewrite parents_ok_set_parent. intros [-> ?]%andb_true_iff. auto.
    + apply bool_decide_eq_true. rewrite length_app, length_fmap. simpl.
      rewrite fmap_app, has_parent_fmap_set_parent.
      by replace (length children + 1 - 0) with (S (length children)) by lia.
  - intros close cur mid next t child children _ _ _ [_ Hc] _ Hcs.
    simpl. by rewrite Hc, Hcs.
Qed.

(** ** Errors *)

(** A call that, when it throws, throws a TypeError. *)
Definition throws_TypeError {A} (m : outcome A) : Prop :=
  ∀ e, m = Throw e → e = TypeError.

Lemma bind_throws_TypeError {A B} (m : outcome A) (f : A → outcome B) :
  throws_TypeError m → (∀ a, throws_TypeError (f a)) →
  throws_TypeError (m ≫= f).
Proof.
  intros Hm Hf e [?|(a & _ & ?)]%bind_Throw_inv; [by apply Hm | by eapply Hf].
Qed.

Lemma fmap_throws_TypeError {A B} (g : A → B) (m : outcome A) :
  throws_TypeError m → throws_TypeError (g <$> m).
Proof. intros Hm e. destruct m; simpl; [done| |done]. intros [= <-]. by apply Hm. Qed.

Lemma defined_throws_TypeError {A} (o : option A) : throws_TypeError (defined o).
Proof. intros e. destruct o; simpl; congruence. Qed.

Lemma Ok_throws_TypeError {A} (a : A) : throws_TypeError (Ok a).
Proof. done. Qed.

Lemma leaf_of_throws_TypeError ty v tokens cur :
  throws_TypeError (leaf_of ty v tokens cur).
Proof.
  apply bind_throws_TypeError; [apply defined_throws_TypeError | done].
Qed.

#[export] Hint Resolve defined_throws_TypeError Ok_throws_TypeError
  leaf_of_throws_TypeError fmap_throws_TypeError : js.

Ltac throws_TypeError :=
  repeat first
    [ apply bind_throws_TypeError; [|intros]
    | match goal with |- context [match ?x with pair _ _ => _ end] =>
        destruct x end
    | solve [eauto with js] ].

Lemma parse_children_throws_TypeError rec tokens fuel close curr acc :
  (∀ c, throws_TypeError (rec c)) →
  throws_TypeError (parse_children rec tokens fuel close curr acc).
Proof.
  intros Hrec. revert curr acc.
  induction fuel as [|fuel IH]; intros curr acc; simpl; [done|].
  apply bind_throws_TypeError; [eauto with js|]. intros t.
  case_decide; [|done]. throws_TypeError; apply IH.
Qed.

Lemma parse_container_throws_TypeError ty rec tokens fuel cur :
  (∀ c, throws_TypeError (rec c)) →
  throws_TypeError (parse_container ty rec tokens fuel cur).
Proof.
  intros Hrec. unfold parse_container, parseToken, container_position.
  throws_TypeError; by apply parse_children_throws_TypeError.
Qed.

Lemma parseTokens_throws_TypeError fuel tokens cur :
  throws_TypeError (parseTokens fuel tokens cur).
Proof.
  revert cur. induction fuel as [|fuel IH]; intros cur; simpl; [done|].
  apply bind_throws_TypeError; [eauto with js|]. intros t.
  destruct (tok_type t); repeat case_decide;
    rewrite ?parseObject_container, ?parseArray_container;
    first [ done
          | apply fmap_throws_TypeError;
            first [ apply leaf_of_throws_TypeError
                  | by apply parse_container_throws_TypeError ] ].
Qed.

(** ** [extractValues] *)

Section extractValues_lemmas.
Context {A : Type} (keeps : A → bool).

Lemma extractValues_Array_filter children :
  extractValues_Array keeps children = filter (λ n, keeps n = true) children.
Proof. apply (foldl_filter_snoc keeps []). Qed.

Lemma foldl_pairing_step st children :
  pairs (foldl (pairing_step keeps) st children)
  = pairs st
    ++ (if isKey st then pair_up (filter (λ n, keeps n = true) children)
        else match filter (λ n, keeps n = true) children with
             | v :: vs => (currentKey st, v) :: pair_up vs
             | [] => []
             end).
Proof.
  revert st. induction children as [|c cs IH]; intros [ps k ck]; simpl.
  { destruct k; simpl; by rewrite app_nil_r. }
  rewrite IH, filter_cons. unfold pairing_step. simpl.
  destruct (keeps c) eqn:Hv; simpl; [|done].
  destruct k; simpl.
  - destruct (filter _ cs); simpl; [done|]. done.
  - by rewrite <- app_assoc.
Qed.

Lemma extractValues_Object_pair_up children :
  extractValues_Object keeps children
  = pair_up (filter (λ n, keeps n = true) children).
Proof. unfold extractValues_Object. by rewrite foldl_pairing_step. Qed.

(** The pair at index [i] is made of the elements at [2 * i] and
    [2 * i + 1]. *)
Lemma pair_up_lookup (l : list A) i kv :
  pair_up l !! i = Some kv
  ↔ ∃ k v, kv = (Some k, v) ∧ l !! (2 * i) = Some k ∧ l !! (2 * i + 1) = Some v.
Proof.
  revert l. induction i as [|i IH]; intros [|k [|v l]]; simpl;
    try (split; [done | by intros (? & ? & ? & ? & ?)]).
  - split; [intros [= <-]; by eauto | by intros (? & ? & -> & [= ->] & [= ->])].
  - rewrite IH. replace (i + S (i + 0)) with (S (2 * i)) by lia.
    replace (i + S (i + 0) + 1) with (S (2 * i + 1)) by lia. done.
Qed.

Lemma pair_up_NoDup {K} (key : A → K) (l : list A) :
  NoDup (key <$> l) → NoDup ((λ kv, key kv.2) <$> pair_up l).
Proof.
  rewrite !NoDup_alt. intros Hnd i j x.
  rewrite !list_lookup_fmap, !fmap_Some.
  intros ([? ?] & (k1 & v1 & [= -> ->] & _ & H1)%pair_up_lookup & ->)
         ([? ?] & (k2 & v2 & [= -> ->] & _ & H2)%pair_up_lookup & Heq).
  simpl in Heq. assert (2 * i + 1 = 2 * j + 1); [|lia].
  apply (Hnd _ _ (key v1)); rewrite list_lookup_fmap; [by rewrite H1|].
  by rewrite H2, Heq.
Qed.

End extractValues_lemmas.

(** Related lists, taken two by two. *)
Lemma Forall2_pair_up {A B} (R : A → B → Prop) l k :
  Forall2 R l k →
  Forall2 (λ a r, option_Forall2 R a.1 r.1 ∧ R a.2 r.2) (pair_up l) (pair_up k).
Proof.
  intros H.
  cut (Forall2 (λ a r, option_Forall2 R a.1 r.1 ∧ R a.2 r.2)
         (pair_up l) (pair_up k)
       ∧ ∀ x y, R x y →
           Forall2 (λ a r, option_Forall2 R a.1 r.1 ∧ R a.2 r.2)
             (pair_up (x :: l)) (pair_up (y :: k))); [by intros []|].
  induction H as [|a b l k Hab _ [IH1 IH2]]; simpl.
  - by split; [|intros]; constructor.
  - split; [by apply IH2|]. intros x y Hxy.
    constructor; [|done]. split; [by constructor|done].
Qed.

(** The exported function: what it returns, and that it returns or throws. *)
Lemma parseTokens_root_Ok tokens n :
  parseTokens_root tokens = Ok n ↔ ∃ next, built tokens 0 next n.
Proof.
  unfold parseTokens_root. split.
  - intros H. outcome_inv. eexists. by eapply parseTokens_sound.
  - intros [next Hb]. pose proof (built_bound _ _ _ _ Hb).
    rewrite (parseTokens_complete _ _ _ _ _ Hb) by lia. done.
Qed.

Lemma parseTokens_root_cases tokens :
  (∃ n, parseTokens_root tokens = Ok n) ∨ parseTokens_root tokens = Throw TypeError.
Proof.
  assert (terminated (parseTokens_root tokens)) as Hterm.
  { unfold parseTokens_root.
    apply bind_terminated; [apply parseTokens_terminated; lia|].
    by intros [[? ?]|] _. }
  destruct (parseTokens_root tokens) as [n|e|] eqn:Hp; [by eauto| |done].
  right. f_equal. revert Hp. unfold parseTokens_root.
  apply bind_throws_TypeError; [apply parseTokens_throws_TypeError|].
  intros [[? ?]|] ?; simpl; congruence.
Qed.

(** The grammar is not ambiguous: the tokens from a cursor on denote at
    most one node, ending at one cursor. *)
Lemma built_deterministic tokens cur next next' n n' :
  built tokens cur next n → built tokens cur next' n' → next = next' ∧ n = n'.
Proof.
  intros Hb Hb'. pose proof (built_bound _ _ _ _ Hb).
  pose proof (built_bound _ _ _ _ Hb').
  apply (parseTokens_complete (S (length tokens))) in Hb, Hb'; try lia.
  rewrite Hb in Hb'. by injection Hb' as <- <-.
Qed.

(** ** Theorems *)

(** C1. Refinement: with fuel above the number of tokens, the recursive
    descent [parseTokens(tokens, current)] returns the cursor [next] and the
    node [n] exactly when the tokens from [current] up to [next] denote [n]
    according to the grammar [built] of the specification. *)
Theorem parseTokens_refines fuel tokens cur next n :
  length tokens < fuel →
  parseTokens fuel tokens cur = Ok (Some (next, n)) ↔ built tokens cur next n.
Proof.
  intros Hf. split; [apply parseTokens_sound|].
  intros Hb. pose proof (built_bound _ _ _ _ Hb).
  apply parseTokens_complete; [done | lia].
Qed.

Lemma parseTokens_refines_witness :
  parseTokens 7 sample_tokens 0 = Ok (Some (6, sample_ast))
  ↔ built sample_tokens 0 6 sample_ast.
Proof. apply parseTokens_refines. simpl. lia. Defined.

(** The exported [parseTokens] returns or throws on every token list,
    balanced or not: the descent never exhausts the fuel
    [S (length tokens)], because every call moves the cursor forward. *)
Theorem parseTokens_root_terminates tokens :
  terminated (parseTokens_root tokens).
Proof. by destruct (parseTokens_root_cases tokens) as [[n ->]| ->]. Qed.

(** C24. Round trip of the builder: the [raw] text of the node
    [parseTokens(tokens, current)] returns is the concatenation of the raw
    texts of the tokens from [current] up to the returned cursor, which is
    past [current] and within the list. *)
Theorem parseTokens_raw fuel tokens cur next n :
  parseTokens fuel tokens cur = Ok (Some (next, n)) →
  cur < next ≤ length tokens
  ∧ ast_raw n = mjoin (tok_raw <$> segment cur next tokens).
Proof.
  intros Hb%parseTokens_sound.
  split_and!; eauto using built_lt, built_bound, built_raw.
Qed.

Lemma parseTokens_raw_witness :
  0 < 6 ≤ length sample_tokens
  ∧ ast_raw sample_ast = mjoin (tok_raw <$> segment 0 6 sample_tokens).
Proof. apply (parseTokens_raw 7 sample_tokens 0 6 sample_ast). by vm_compute. Defined.

(** The range of a built node runs from the start of the first token
    it was built from to the end of the last one. *)
Theorem parseTokens_position fuel tokens cur next n :
  parseTokens fuel tokens cur = Ok (Some (next, n)) →
  ∃ first last,
    tokens !! cur = Some first ∧ tokens !! (next - 1) = Some last
    ∧ ast_position n = span (tok_position first) (tok_position last).
Proof. intros Hb%parseTokens_sound. by apply built_position. Qed.

Lemma parseTokens_position_witness :
  ∃ first last,
    sample_tokens !! 0 = Some first ∧ sample_tokens !! (6 - 1) = Some last
    ∧ ast_position sample_ast = span (tok_position first) (tok_position last).
Proof. apply (parseTokens_position 7 sample_tokens 0 6 sample_ast). by vm_compute. Defined.

(** C36. The [parent] fields of a built tree: the node returned has none
    (it is the root until a caller pushes it), and inside it every child of
    a container has one, except the closing brace of an object, which
    [parseObject] pushes without assigning its parent. *)
Theorem parseTokens_parents fuel tokens cur next n :
  parseTokens fuel tokens cur = Ok (Some (next, n)) →
  has_parent n = false ∧ parents_ok n = true.
Proof. intros Hb%parseTokens_sound. by eapply built_parents. Qed.

Lemma parseTokens_parents_witness :
  has_parent sample_ast = false ∧ parents_ok sample_ast = true.
Proof. apply (parseTokens_parents 7 sample_tokens 0 6 sample_ast). by vm_compute. Defined.

(** C35. The exported [parseTokens] fails exactly on the token lists that
    denote no node, and then with a TypeError (a read of a field of
    [undefined]): an empty list, a container that is never closed, a first
    or child token that opens nothing and is no leaf. *)
Theorem parseTokens_root_fails tokens :
  parseTokens_root tokens = Throw TypeError ↔ ¬ ∃ next n, built tokens 0 next n.
Proof.
  split.
  - intros Ht (next & n & Hb).
    assert (parseTokens_root tokens = Ok n) as Hok
      by (apply parseTokens_root_Ok; eauto).
    congruence.
  - intros Hn. destruct (parseTokens_root_cases tokens) as [[n Hp]|]; [|done].
    destruct Hn. apply parseTokens_root_Ok in Hp as [next ?]. eauto.
Qed.

(** A container that is never closed makes the builder fail: when the
    first token opens an object or an array and no token of the list has
    the closing brace or bracket as its raw text, the exported [parseTokens]
    throws a TypeError. *)
Theorem parseTokens_unterminated tokens topen ty :
  tokens !! 0 = Some topen → tok_type topen = T_punctuation →
  tok_raw topen = open_raw ty →
  (∀ t, t ∈ tokens → tok_raw t ≠ close_raw ty) →
  parseTokens_root tokens = Throw TypeError.
Proof.
  intros Ho Hty Hraw Hnone.
  destruct (parseTokens_root_cases tokens) as [[n Hp]|]; [exfalso|done].
  apply parseTokens_root_Ok in Hp as [next Hb].
  inversion Hb as [? t ? ? Ht Hk|? curr ? tclose ty' ? ? ? Hraw' ? Hc Hclose];
    simplify_eq.
  - by eapply leaf_kind_not_open.
  - assert (ty' = ty) as -> by (rewrite Hraw' in Hraw; by destruct ty, ty').
    by eapply Hnone; [eapply list_elem_of_lookup_2|].
Qed.

Lemma parseTokens_unterminated_witness :
  parseTokens_root (take 5 sample_tokens) = Throw TypeError.
Proof.
  apply (parseTokens_unterminated _
           (mk_token T_punctuation (sample_range 1) (js "[") (VString (js "[")))
           Array); [done..|].
  intros t Ht. repeat (apply elem_of_cons in Ht as [->|Ht]); try done.
  by apply elem_of_nil in Ht.
Defined.

(** A token list whose first token is a leaf (white space, a comment,
    a string, a number, a literal, a colon or a comma) parses to that leaf
    alone: the exported [parseTokens] reads one value and ignores the
    tokens after it. *)
Theorem parseTokens_root_leaf tokens t ty v :
  tokens !! 0 = Some t → leaf_kind t = Some (ty, v) →
  parseTokens_root tokens = Ok (Leaf ty (tok_raw t) v (tok_position t) false).
Proof.
  intros Ht Hk. apply parseTokens_root_Ok. exists 1. by apply built_leaf.
Qed.

Lemma parseTokens_root_leaf_witness :
  parseTokens_root (drop 1 sample_tokens)
  = Ok (Leaf NumberLiteral (js "1")
          (Some (VNumber {| num_neg := false; num_mantissa := 1; num_exp10 := 0 |}))
          (sample_range 2) false).
Proof.
  by apply (parseTokens_root_leaf (drop 1 sample_tokens)
              (mk_token T_number (sample_range 2) (js "1")
                 (VNumber {| num_neg := false; num_mantissa := 1; num_exp10 := 0 |}))).
Defined.

(** [extractValues] of an object node pairs the value children two by
    two in order: the loop with its [isKey] flag and [currentKey] variable
    returns the pairs (first, second), (third, fourth), ... of the children
    that are strings, numbers, literals, objects or arrays, and drops a
    last one left without a partner. *)
Theorem extractValues_Object_pairs {A} (keeps : A → bool) children :
  extractValues_Object keeps children
  = pair_up (filter (λ n, keeps n = true) children).
Proof. unfold extractValues_Object. by rewrite foldl_pairing_step. Qed.
