(* ===== verification/PathAt.v ===== *)
(** * PathAt: the path inference on a token prefix

    [getPathInObject] and [getPositionOfKeys] of [json-parse-ast.js]: one
    pass over the tokens with a stack of open keys and the flag
    [nextStringWillBeKey].  The stack of the source is an array of values in
    which the string ["["] marks an open array; the specification speaks of
    frames that are either a key or a marker distinct from every key.  Both
    machines are here, with the simulation between them. *)

From S2P Require Import Prelude Token.

(** ** [getPathInObject] *)

(** [var LIST_MARKER = "["] *)
Definition LIST_MARKER : jsval := VString (js "[").

(** The variables [stack] and [nextStringWillBeKey]; the top of the stack
    is the last element. *)
Record path_state := {
  stack : list jsval;
  nextStringWillBeKey : bool
}.

(** [token.type === "punctuation" && token.raw === c] *)
Definition is_punct (token : token) (c : string) : bool :=
  bool_decide (tok_type token = T_punctuation) && bool_decide (tok_raw token = js c).

(** [stack.pop()], which leaves an empty stack empty. *)
Definition pop (stack : list jsval) : list jsval := removelast stack.

(** The body of the loop. *)
Definition path_step (st : path_state) (token : token) : path_state :=
  if is_punct token "{" then
    {| stack := stack st; nextStringWillBeKey := true |}
  else if is_punct token "}" then
    {| stack := pop (stack st); nextStringWillBeKey := true |}
  else if is_punct token "[" then
    {| stack := stack st ++ [LIST_MARKER]; nextStringWillBeKey := false |}
  else if is_punct token "]" then
    {| stack := pop (stack st); nextStringWillBeKey := true |}
  else if bool_decide (tok_type token = T_string) then
    if nextStringWillBeKey st then
      {| stack := stack st ++ [tok_value token]; nextStringWillBeKey := false |}
    else
      {| stack := pop (stack st); nextStringWillBeKey := true |}
  else if bool_decide (tok_type token = T_literal)
          || bool_decide (tok_type token = T_number) then
    {| stack := pop (stack st); nextStringWillBeKey := true |}
  else st.

Definition path_init : path_state :=
  {| stack := []; nextStringWillBeKey := true |}.

(** The second loop: the entries of the stack that are not the marker. *)
Definition path_of_stack (stack : list jsval) : list jsval :=
  foldl (λ path v, if bool_decide (v ≠ LIST_MARKER) then path ++ [v] else path)
    [] stack.

Definition getPathInObject (tokens : list token) : list jsval * bool :=
  let st := foldl path_step path_init tokens in
  (path_of_stack (stack st), negb (nextStringWillBeKey st)).

(** ** [getPositionOfKeys] *)

(** The variables [highlights] and [nextStringWillBeKey]. *)
Record keys_state := {
  highlights : list IRange;
  keys_nextStringWillBeKey : bool
}.

Definition keys_step (st : keys_state) (token : token) : keys_state :=
  if is_punct token "{" then
    {| highlights := highlights st; keys_nextStringWillBeKey := true |}
  else if is_punct token "}" then
    {| highlights := highlights st; keys_nextStringWillBeKey := true |}
  else if bool_decide (tok_type token = T_string) then
    if keys_nextStringWillBeKey st then
      {| highlights := highlights st ++ [tok_position token];
         keys_nextStringWillBeKey := false |}
    else
      {| highlights := highlights st; keys_nextStringWillBeKey := true |}
  else if bool_decide (tok_type token = T_literal)
          || bool_decide (tok_type token = T_number) then
    {| highlights := highlights st; keys_nextStringWillBeKey := true |}
  else st.

Definition getPositionOfKeys (tokens : list token) : list IRange :=
  highlights (foldl keys_step
                {| highlights := []; keys_nextStringWillBeKey := true |} tokens).

(** ** The machine of the specification *)

(** A frame is an open key or the marker of an open array. *)
Inductive frame :=
| Key (k : jsval)
| Marker.

Record spec_state := {
  frames : list frame;
  nextStringIsKey : bool
}.

(** The classes of tokens the transition table distinguishes. *)
Inductive token_class :=
| OpenObject
| CloseObject
| OpenArray
| CloseArray
| AString (v : jsval)
| AValue
| Ignored.

Definition classify (token : token) : token_class :=
  match tok_type token with
  | T_punctuation =>
    if decide (tok_raw token = js "{") then OpenObject
    else if decide (tok_raw token = js "}") then CloseObject
    else if decide (tok_raw token = js "[") then OpenArray
    else if decide (tok_raw token = js "]") then CloseArray
    else Ignored
  | T_string => AString (tok_value token)
  | T_literal | T_number => AValue
  | _ => Ignored
  end.

(** The transition table. *)
Definition spec_step (st : spec_state) (token : token) : spec_state :=
  match classify token with
  | OpenObject => {| frames := frames st; nextStringIsKey := true |}
  | CloseObject | CloseArray | AValue =>
    {| frames := removelast (frames st); nextStringIsKey := true |}
  | OpenArray => {| frames := frames st ++ [Marker]; nextStringIsKey := false |}
  | AString v =>
    if nextStringIsKey st
    then {| frames := frames st ++ [Key v]; nextStringIsKey := false |}
    else {| frames := removelast (frames st); nextStringIsKey := true |}
  | Ignored => st
  end.

Definition spec_init : spec_state :=
  {| frames := []; nextStringIsKey := true |}.

(** The keys of the frames, outermost first. *)
Definition keys_of (fs : list frame) : list jsval :=
  omap (λ f, match f with Key k => Some k | Marker => None end) fs.

Definition pathAt (tokens : list token) : list jsval * bool :=
  let st := foldl spec_step spec_init tokens in
  (keys_of (frames st), negb (nextStringIsKey st)).

(** The stack of the source that stands for a list of frames: the marker
    becomes the string of an opening bracket. *)
Definition erase (fs : list frame) : list jsval :=
  (λ f, match f with Key k => k | Marker => LIST_MARKER end) <$> fs.

(** A token that is a comment or white space. *)
Definition is_trivia (token : token) : bool :=
  bool_decide (tok_type token ∈ [T_inlinecomment; T_multilinecomment; T_whitespace]).

(** No string token carries the text of the marker as its value. *)
Definition no_marker_key (tokens : list token) : Prop :=
  Forall (λ t, tok_type t = T_string → tok_value t ≠ LIST_MARKER) tokens.

#[export] Instance no_marker_key_dec tokens : Decision (no_marker_key tokens).
Proof. unfold no_marker_key. apply _. Defined.

(** The state of the source that stands for a state of the specification. *)
Definition erase_state (sp : spec_state) : path_state :=
  {| stack := erase (frames sp); nextStringWillBeKey := nextStringIsKey sp |}.

(** Every key frame is the value of a string token read so far. *)
Definition key_of_tokens (tokens : list token) (f : frame) : Prop :=
  match f with
  | Key k => ∃ t, t ∈ tokens ∧ tok_type t = T_string ∧ tok_value t = k
  | Marker => True
  end.

(** Sample data: the tokens of the prefix [{"[":] ([any_range] stands for
    the ranges, which the path inference does not read), and a comment. *)
Definition any_range : IRange :=
  {| startLineNumber := 1; startColumn := 1; endLineNumber := 1; endColumn := 2 |}.

Definition bracket_key_tokens : list token :=
  [ mk_token T_punctuation any_range (js "{") (VString (js "{"));
    mk_token T_string any_range (jsq "'['") (VString (js "["));
    mk_token T_punctuation any_range (js ":") (VString (js ":")) ].

Definition sample_comment : token :=
  mk_token T_inlinecomment any_range (js "//x") (VString (js "//x")).

(** No token opens or closes an array. *)
Definition no_array (tokens : list token) : Prop :=
  Forall (λ t, classify t ≠ OpenArray ∧ classify t ≠ CloseArray) tokens.

(** The tokens of the prefix [{"a":1,"b":] up to the second key. *)
Definition flat_tokens : list token :=
  [ mk_token T_punctuation any_range (js "{") (VString (js "{"));
    mk_token T_string any_range (jsq "'a'") (VString (js "a"));
    mk_token T_punctuation any_range (js ":") (VString (js ":"));
    mk_token T_number any_range (js "1") (VNumber (to_number (js "1")));
    mk_token T_punctuation any_range (js ",") (VString (js ",")) ].

Definition flat_key : token :=
  mk_token T_string any_range (jsq "'b'") (VString (js "b")).

(** ** The source's loop body, by class of token *)

Lemma path_step_classify st token :
  path_step st token =
  match classify token with
  | OpenObject => {| stack := stack st; nextStringWillBeKey := true |}
  | CloseObject | CloseArray | AValue =>
    {| stack := pop (stack st); nextStringWillBeKey := true |}
  | OpenArray =>
    {| stack := stack st ++ [LIST_MARKER]; nextStringWillBeKey := false |}
  | AString v =>
    if nextStringWillBeKey st
    then {| stack := stack st ++ [v]; nextStringWillBeKey := false |}
    else {| stack := pop (stack st); nextStringWillBeKey := true |}
  | Ignored => st
  end.
Proof.
  unfold path_step, classify, is_punct.
  destruct (tok_type token); simpl; try done.
  repeat case_decide; simplify_eq; rewrite ?bool_decide_eq_true_2 by done;
    rewrite ?bool_decide_eq_false_2 by done; done.
Qed.

Lemma classify_trivia token : is_trivia token = true → classify token = Ignored.
Proof.
  unfold is_trivia, classify. intros H%bool_decide_eq_true.
  destruct (tok_type token); try done; exfalso; set_solver.
Qed.

(** ** Stacks and frames *)

Lemma path_of_stack_filter st :
  path_of_stack st = filter (λ v, v ≠ LIST_MARKER) st.
Proof.
  unfold path_of_stack. rewrite foldl_filter_snoc. simpl.
  apply list_filter_iff. intros v. by rewrite bool_decide_eq_true.
Qed.

Lemma removelast_snoc {A} (l : list A) x : removelast (l ++ [x]) = l.
Proof. by rewrite removelast_last. Qed.

Lemma removelast_fmap {A B} (f : A → B) l :
  removelast (f <$> l) = f <$> removelast l.
Proof.
  induction l as [|x [|y l] IH]; [done..|].
  change (f x :: removelast (f <$> y :: l) = f x :: (f <$> removelast (y :: l))).
  by rewrite IH.
Qed.

Lemma elem_of_removelast {A} (l : list A) x : x ∈ removelast l → x ∈ l.
Proof.
  destruct l as [|y l _] using rev_ind; [done|].
  rewrite removelast_snoc. set_solver.
Qed.

Lemma Forall_removelast {A} (P : A → Prop) l : Forall P l → Forall P (removelast l).
Proof. rewrite !Forall_forall. eauto using elem_of_removelast. Qed.

Lemma erase_snoc fs f :
  erase (fs ++ [f]) = erase fs ++ [match f with Key k => k | Marker => LIST_MARKER end].
Proof. unfold erase. by rewrite fmap_app. Qed.

(** What the second loop of the source keeps of an erased list of frames:
    the keys, but for those that are the text of the marker. *)
Lemma filter_erase fs :
  filter (λ v, v ≠ LIST_MARKER) (erase fs)
  = filter (λ v, v ≠ LIST_MARKER) (keys_of fs).
Proof.
  induction fs as [|[k|] fs IH]; simpl; [done| |].
  - rewrite !filter_cons. case_decide; by rewrite IH.
  - rewrite filter_cons, decide_False by (by intros []). done.
Qed.

(** ** The simulation *)

Lemma path_step_erase sp token :
  path_step (erase_state sp) token = erase_state (spec_step sp token).
Proof.
  rewrite path_step_classify. unfold spec_step, erase_state, pop, erase.
  destruct (classify token); simpl; rewrite ?removelast_fmap, ?fmap_app; try done.
  destruct (nextStringIsKey sp); simpl; by rewrite ?removelast_fmap, ?fmap_app.
Qed.

Lemma foldl_path_step_erase sp tokens :
  foldl path_step (erase_state sp) tokens = erase_state (foldl spec_step sp tokens).
Proof.
  revert sp. induction tokens as [|t tokens IH]; intros sp; simpl; [done|].
  by rewrite path_step_erase, IH.
Qed.

Lemma classify_AString token v :
  classify token = AString v → tok_type token = T_string ∧ tok_value token = v.
Proof.
  unfold classify. destruct (tok_type token); try done;
    repeat case_decide; naive_solver.
Qed.

Lemma spec_step_keys tokens sp token :
  Forall (key_of_tokens tokens) (frames sp) →
  Forall (key_of_tokens (tokens ++ [token])) (frames (spec_step sp token)).
Proof.
  intros H.
  assert (Forall (key_of_tokens (tokens ++ [token])) (frames sp)) as H'.
  { eapply Forall_impl; [done|]. intros [k|]; simpl; [|done].
    intros (t & ? & ?). exists t. set_solver. }
  unfold spec_step. destruct (classify token) eqn:Hc; simpl;
    auto using Forall_removelast.
  - apply Forall_app; split; [done|]. by repeat constructor.
  - destruct (nextStringIsKey sp); simpl; auto using Forall_removelast.
    apply Forall_app; split; [done|]. repeat constructor.
    apply classify_AString in Hc. exists token. set_solver.
Qed.

Lemma foldl_spec_step_keys tokens0 sp tokens :
  Forall (key_of_tokens tokens0) (frames sp) →
  Forall (key_of_tokens (tokens0 ++ tokens)) (frames (foldl spec_step sp tokens)).
Proof.
  revert tokens0 sp. induction tokens as [|t tokens IH]; intros tokens0 sp H; simpl.
  - by rewrite app_nil_r.
  - rewrite (assoc_L _ tokens0 [t] tokens : tokens0 ++ t :: tokens = _).
    by apply IH, spec_step_keys.
Qed.

Lemma keys_of_elem_of fs k : k ∈ keys_of fs ↔ Key k ∈ fs.
Proof.
  unfold keys_of. rewrite list_elem_of_omap. split.
  - intros ([k'|] & ? & ?); naive_solver.
  - intros ?. by exists (Key k).
Qed.

(** ** The key positions *)

Lemma keys_step_classify st token :
  keys_step st token =
  match classify token with
  | OpenObject | CloseObject | AValue =>
    {| highlights := highlights st; keys_nextStringWillBeKey := true |}
  | AString _ =>
    if keys_nextStringWillBeKey st
    then {| highlights := highlights st ++ [tok_position token];
            keys_nextStringWillBeKey := false |}
    else {| highlights := highlights st; keys_nextStringWillBeKey := true |}
  | OpenArray | CloseArray | Ignored => st
  end.
Proof.
  unfold keys_step, classify, is_punct.
  destruct (tok_type token); simpl; try done.
  repeat case_decide; simplify_eq; rewrite ?bool_decide_eq_true_2 by done;
    rewrite ?bool_decide_eq_false_2 by done; done.
Qed.

Lemma foldl_flags_agree ks ps tokens :
  no_array tokens →
  keys_nextStringWillBeKey ks = nextStringWillBeKey ps →
  keys_nextStringWillBeKey (foldl keys_step ks tokens)
  = nextStringWillBeKey (foldl path_step ps tokens).
Proof.
  intros Hno. revert ks ps.
  induction Hno as [|t tokens [? ?] _ IH]; intros ks ps Hflag; simpl; [done|].
  apply IH. rewrite keys_step_classify, path_step_classify.
  destruct (classify t); try done. rewrite Hflag.
  by destruct (nextStringWillBeKey ps).
Qed.

Lemma highlights_sublist ks tokens :
  ∃ k, highlights (foldl keys_step ks tokens) = highlights ks ++ k
     ∧ k `sublist_of` tok_position <$> filter (λ t, tok_type t = T_string) tokens.
Proof.
  revert ks. induction tokens as [|t tokens IH]; intros ks; simpl.
  { exists []. by rewrite app_nil_r. }
  destruct (IH (keys_step ks t)) as (k & -> & Hk).
  rewrite keys_step_classify, filter_cons.
  destruct (classify t) eqn:Hc;
    try (exists k; split; [done|]; case_decide; [by apply sublist_cons | done]).
  apply classify_AString in Hc as [Hty _]. rewrite decide_True by done.
  destruct (keys_nextStringWillBeKey ks); simpl.
  - exists (tok_position t :: k). rewrite <- (assoc_L _). split; [done|].
    by apply sublist_skip.
  - exists k. split; [done|]. by apply sublist_cons.
Qed.

(** [getPathInObject] in terms of the frames of the specification's
    machine: the shared step of the theorems below. *)
Lemma getPathInObject_frames tokens :
  getPathInObject tokens
  = let sp := foldl spec_step spec_init tokens in
    (filter (λ k, k ≠ LIST_MARKER) (keys_of (frames sp)),
     negb (nextStringIsKey sp)).
Proof.
  unfold getPathInObject. change path_init with (erase_state spec_init).
  rewrite foldl_path_step_erase, path_of_stack_filter. simpl.
  by rewrite filter_erase.
Qed.

Lemma pathAt_keys tokens k :
  k ∈ (pathAt tokens).1 →
  ∃ t, t ∈ tokens ∧ tok_type t = T_string ∧ tok_value t = k.
Proof.
  intros Hin%keys_of_elem_of.
  pose proof (foldl_spec_step_keys [] spec_init tokens (Forall_nil_2 _)) as Hkeys.
  rewrite Forall_forall in Hkeys. apply (Hkeys _ Hin).
Qed.

(** ** Theorems *)

(** C4. [getPathInObject] against the stack machine of the specification
    ([pathAt]), on every token list: the flag is the same, and the path is
    the path of the specification without the keys whose text is an opening
    bracket, which the source cannot tell from its array marker. *)
Theorem getPathInObject_pathAt tokens :
  getPathInObject tokens
  = (filter (λ k, k ≠ LIST_MARKER) (pathAt tokens).1, (pathAt tokens).2).
Proof. by rewrite getPathInObject_frames. Qed.

(** Refinement: on a token list in which no string token has the value
    of an opening bracket, [getPathInObject] returns what the stack machine
    of the specification returns. *)
Theorem getPathInObject_refines tokens :
  no_marker_key tokens → getPathInObject tokens = pathAt tokens.
Proof.
  intros Hno. rewrite getPathInObject_frames. unfold pathAt. cbv zeta. f_equal.
  apply filter_Forall_id, Forall_forall.
  intros k (t & Ht & Hty & Hv)%(pathAt_keys tokens) ->.
  unfold no_marker_key in Hno. rewrite Forall_forall in Hno. naive_solver.
Qed.

Lemma getPathInObject_refines_witness :
  getPathInObject (flat_tokens ++ [flat_key]) = pathAt (flat_tokens ++ [flat_key]).
Proof. apply getPathInObject_refines. by apply (bool_decide_unpack _). Defined.

(** The converse: a key whose text is an opening bracket is taken for
    the array marker and filtered out of the path. *)
Corollary getPathInObject_drops_marker_key tokens :
  LIST_MARKER ∈ (pathAt tokens).1 → getPathInObject tokens ≠ pathAt tokens.
Proof.
  rewrite getPathInObject_frames. unfold pathAt. cbv zeta. simpl.
  intros Hin [= Hpath]. rewrite <- Hpath in Hin.
  apply list_elem_of_filter in Hin as [? _]. done.
Qed.

Lemma getPathInObject_drops_marker_key_witness :
  getPathInObject bracket_key_tokens ≠ pathAt bracket_key_tokens.
Proof. apply getPathInObject_drops_marker_key. vm_compute. by left. Defined.

(** Comments and white space do not change the result of
    [getPathInObject]: a token list with such a token inserted anywhere
    gives the path and the flag of the list without it. *)
Theorem getPathInObject_trivia tokens1 token tokens2 :
  is_trivia token = true →
  getPathInObject (tokens1 ++ token :: tokens2) = getPathInObject (tokens1 ++ tokens2).
Proof.
  intros Hc%classify_trivia. unfold getPathInObject.
  rewrite !foldl_app. simpl. by rewrite path_step_classify, Hc.
Qed.

Lemma getPathInObject_trivia_witness :
  getPathInObject (flat_tokens ++ sample_comment :: [flat_key])
  = getPathInObject (flat_tokens ++ [flat_key]).
Proof. by apply getPathInObject_trivia. Defined.

(** Every element of the path [getPathInObject] returns is the value of
    a string token of the list, and never the text of the array marker. *)
Theorem getPathInObject_keys tokens k :
  k ∈ (getPathInObject tokens).1 →
  k ≠ LIST_MARKER ∧ ∃ t, t ∈ tokens ∧ tok_type t = T_string ∧ tok_value t = k.
Proof.
  rewrite getPathInObject_frames. simpl.
  intros [Hk Hin]%list_elem_of_filter. split; [done|]. by apply pathAt_keys.
Qed.

Lemma getPathInObject_keys_witness :
  VString (js "b") ≠ LIST_MARKER
  ∧ ∃ t, t ∈ flat_tokens ++ [flat_key]
       ∧ tok_type t = T_string ∧ tok_value t = VString (js "b").
Proof. apply getPathInObject_keys. vm_compute. by left. Defined.

(** The ranges [getPositionOfKeys] returns are ranges of string tokens
    of the list, in the order of the list. *)
Theorem getPositionOfKeys_sublist tokens :
  getPositionOfKeys tokens
  `sublist_of` tok_position <$> filter (λ t, tok_type t = T_string) tokens.
Proof.
  unfold getPositionOfKeys.
  destruct (highlights_sublist
    {| highlights := []; keys_nextStringWillBeKey := true |} tokens) as (k & -> & ?).
  done.
Qed.

(** [getPositionOfKeys] and [getPathInObject] agree on what a key is
    where no array is involved: after a prefix without brackets, a string
    token is added to the key positions exactly when [getPathInObject] on
    the prefix says that the next string is a key. *)
Theorem getPositionOfKeys_next_key tokens token :
  no_array tokens → tok_type token = T_string →
  getPositionOfKeys (tokens ++ [token])
  = if (getPathInObject tokens).2 then getPositionOfKeys tokens
    else getPositionOfKeys tokens ++ [tok_position token].
Proof.
  intros Hno Hty. unfold getPositionOfKeys, getPathInObject.
  rewrite foldl_app. simpl. rewrite keys_step_classify.
  unfold classify at 1. rewrite Hty.
  rewrite (foldl_flags_agree _ path_init) by done.
  by destruct (nextStringWillBeKey _).
Qed.

Lemma getPositionOfKeys_next_key_witness :
  getPositionOfKeys (flat_tokens ++ [flat_key])
  = if (getPathInObject flat_tokens).2 then getPositionOfKeys flat_tokens
    else getPositionOfKeys flat_tokens ++ [tok_position flat_key].
Proof. apply getPositionOfKeys_next_key; [|done]. by vm_compute; repeat constructor. Defined.

(** Comments and white space do not change the result of
    [getPositionOfKeys]. *)
Theorem getPositionOfKeys_trivia tokens1 token tokens2 :
  is_trivia token = true →
  getPositionOfKeys (tokens1 ++ token :: tokens2) = getPositionOfKeys (tokens1 ++ tokens2).
Proof.
  intros Hc%classify_trivia. unfold getPositionOfKeys.
  rewrite !foldl_app. simpl. by rewrite keys_step_classify, Hc.
Qed.

Lemma getPositionOfKeys_trivia_witness :
  getPositionOfKeys (flat_tokens ++ sample_comment :: [flat_key])
  = getPositionOfKeys (flat_tokens ++ [flat_key]).
Proof. by apply getPositionOfKeys_trivia. Defined.
