(* ===== verification/Query.v ===== *)
(** * Query: the node at a position, and the key of a node in its parent

    [findAtPosition], [getKeyInParent] and [isKeyInParent] of
    [json-parse-ast.js].  The three functions take and return references to
    nodes and compare them by identity.  A reference is here the path of
    the node from the root of its tree, the list of child indices; the
    parent of the node at [path ++ [j]] is the node at [path], when the
    field [parent] of the node is set.  [findAtPosition] has three results:
    a node, [null] when the position is outside the range of the node it is
    given, and [undefined] when it falls off its end, a container in range
    none of whose children is. *)

From S2P Require Import Prelude Token Ast.

(** ** [findAtPosition] *)

(** The inner function [inRange]. *)
Definition inRange (position : IPosition) (range : IRange) : bool :=
  if decide (lineNumber position < startLineNumber range
             ∨ lineNumber position > endLineNumber range)%Z then false
  else if decide (lineNumber position = startLineNumber range
                  ∧ column position < startColumn range)%Z then false
  else if decide (lineNumber position = endLineNumber range
                  ∧ column position > endColumn range)%Z then false
  else true.

(** What [findAtPosition] returns: [null], [undefined], or a node, given by
    its path from the node the function was called on. *)
Inductive found :=
| Null
| Undefined
| Found (path : list nat).

#[export] Instance found_eq_dec : EqDecision found.
Proof. solve_decision. Defined.

Section find_children.
(** The recursive call [findAtPosition(ast.children[i], position)]. *)
Context (find : ast → found).

(** The [for] loop over the children, from index [i]: the first result that
    is not [null] is returned; past the last child the function ends
    without a [return]. *)
Fixpoint find_children (i : nat) (children : list ast) : found :=
  match children with
  | [] => Undefined
  | child :: rest =>
    match find child with
    | Null => find_children (S i) rest
    | Undefined => Undefined
    | Found path => Found (i :: path)
    end
  end.

End find_children.

Fixpoint findAtPosition (ast : ast) (position : IPosition) : found :=
  if inRange position (ast_position ast) then
    match ast with
    | Container _ children _ _ =>
      find_children (λ child, findAtPosition child position) 0 children
    | Leaf _ _ _ _ _ => Found []
    end
  else Null.

(** ** References *)

(** The node a path leads to. *)
Fixpoint node_at (root : ast) (path : list nat) : option ast :=
  match path with
  | [] => Some root
  | i :: path' => child ← ast_children root !! i; node_at child path'
  end.

(** [path] without its last index, and that index. *)
Definition unsnoc (path : list nat) : option (list nat * nat) :=
  j ← last path; Some (removelast path, j).

(** The children of a node as references: each with its index. *)
Definition refs (children : list ast) : list (nat * ast) :=
  imap pair children.

(** The test of [extractValues] on a reference. *)
Definition ref_is_value (r : nat * ast) : bool := is_value r.2.

(** ** [getKeyInParent] and [isKeyInParent] *)

(** What [getKeyInParent] returns: [undefined], an index, or the value of
    a key. *)
Inductive key_result :=
| NoKey
| Index (i : nat)
| KeyValue (v : jsval).

#[export] Instance key_result_eq_dec : EqDecision key_result.
Proof. solve_decision. Defined.

(** [key.value], which is [undefined] on a container and on a comment. *)
Definition key_value (key : ast) : key_result :=
  match key with
  | Leaf _ _ (Some v) _ _ => KeyValue v
  | _ => NoKey
  end.

(** The message of [new Error("invalid parent.type " + parent.type)]. *)
Definition invalid_parent : js_error :=
  GenericError (js "invalid parent.type").

(** [getKeyInParent] on the node at [path] of the tree [root]. *)
Definition getKeyInParent (root : ast) (path : list nat) : outcome key_result :=
  ast ← defined (node_at root path);
  match (if has_parent ast then unsnoc path else None) with
  | None => Ok NoKey
  | Some (parent_path, j) =>
    parent ← defined (node_at root parent_path);
    match parent with
    | Container Array children _ _ =>
      let values := extractValues_Array ref_is_value (refs children) in
      match list_find (λ value, value.1 = j) values with
      | Some (i, _) => Ok (Index i)
      | None => Ok NoKey
      end
    | Container Object children _ _ =>
      let values := extractValues_Object ref_is_value (refs children) in
      match list_find (λ kv, (kv.2).1 = j) values with
      | Some (_, (key, _)) => key ← defined key; Ok (key_value key.2)
      | None => Ok NoKey
      end
    | Leaf _ _ _ _ _ => Throw invalid_parent
    end
  end.

(** [isKeyInParent] on the node at [path] of the tree [root]. *)
Definition isKeyInParent (root : ast) (path : list nat) : outcome bool :=
  ast ← defined (node_at root path);
  match ast with
  | Leaf StringLiteral _ _ _ _ =>
    match (if has_parent ast then unsnoc path else None) with
    | None => Ok false
    | Some (parent_path, j) =>
      parent ← defined (node_at root parent_path);
      match parent with
      | Container Array _ _ _ => Ok false
      | Container Object children _ _ =>
        let values := extractValues_Object ref_is_value (refs children) in
        match list_find (λ kv, (kv.2).1 = j) values with
        | Some _ => Ok false
        | None => Ok true
        end
      | Leaf _ _ _ _ _ => Throw invalid_parent
      end
    end
  | _ => Ok false
  end.

(** ** Reference definitions *)

(** A tree whose ranges are laid out as those of a tree built from the
    tokens of a text: a leaf ends at or after its start; the children of a
    container follow one another and together span its range. *)
Fixpoint chained (n : ast) : bool :=
  match n with
  | Leaf _ _ _ position _ =>
    bool_decide (pos_le (range_start position) (range_end position))
  | Container _ children position _ =>
    forallb chained children
    && bool_decide (children ≠ []
                    ∧ chain (range_start position) (ast_position <$> children)
                      = Some (range_end position))
  end.

(** ** [inRange] *)

Lemma inRange_spec position range :
  inRange position range = true
  ↔ pos_le (range_start range) position ∧ pos_le position (range_end range).
Proof.
  unfold inRange, pos_le. destruct position, range. simpl.
  repeat case_decide; split; try done; lia.
Qed.

Lemma inRange_false position range :
  inRange position range = false
  ↔ pos_lt position (range_start range) ∨ pos_lt (range_end range) position.
Proof.
  rewrite <- not_true_iff_false, inRange_spec, !pos_lt_not_le.
  destruct (decide (pos_le (range_start range) position));
    destruct (decide (pos_le position (range_end range))); naive_solver.
Qed.

(** ** The loop over the children *)

Section find_children_lemmas.
Context (find : ast → found).

Lemma find_children_not_Null i children : find_children find i children ≠ Null.
Proof.
  revert i. induction children as [|c cs IH]; intros i; simpl; [done|].
  destruct (find c); [apply IH | done..].
Qed.

(** The loop returns the result of the first child whose result is not
    [null]. *)
Lemma find_children_Found i children path :
  find_children find i children = Found path
  ↔ ∃ k child path',
      path = (i + k) :: path' ∧ children !! k = Some child
      ∧ find child = Found path'
      ∧ Forall (λ c, find c = Null) (take k children).
Proof.
  revert i. induction children as [|c cs IH]; intros i; simpl.
  { split; [done|]. by intros (k & ? & ? & _ & ? & _). }
  destruct (find c) as [| |p] eqn:Hc.
  - rewrite IH. split.
    + intros (k & child & p' & -> & ? & ? & ?). exists (S k), child, p'.
      split_and!; [f_equal; lia|done..|by constructor].
    + intros ([|k] & child & p' & -> & ? & ? & Hall); simplify_eq/=; [congruence|].
      apply Forall_cons in Hall as [_ ?]. exists k, child, p'.
      split_and!; [f_equal; lia|done..].
  - split; [done|].
    intros ([|k] & child & p' & _ & ? & ? & Hall); simplify_eq/=; [congruence|].
    apply Forall_cons in Hall as [? _]. congruence.
  - split.
    + intros [= <-]. exists 0, c, p. by rewrite Nat.add_0_r.
    + intros ([|k] & child & p' & -> & ? & ? & Hall); simplify_eq/=.
      * rewrite Nat.add_0_r. congruence.
      * apply Forall_cons in Hall as [? _]. congruence.
Qed.

(** The loop ends without a result when every child answers [null], or
    when the first that does not answers [undefined]. *)
Lemma find_children_Undefined i children :
  find_children find i children = Undefined
  ↔ Forall (λ c, find c = Null) children
    ∨ ∃ k child, children !! k = Some child ∧ find child = Undefined
                 ∧ Forall (λ c, find c = Null) (take k children).
Proof.
  revert i. induction children as [|c cs IH]; intros i; simpl.
  { split; [by left|done]. }
  destruct (find c) as [| |p] eqn:Hc.
  - rewrite IH. split.
    + intros [?|(k & child & ? & ? & ?)]; [left; by constructor|].
      right. exists (S k), child. split_and!; [done..|by constructor].
    + intros [[_ ?]%Forall_cons|([|k] & child & ? & ? & Hall)];
        simplify_eq/=; [by left|congruence|].
      apply Forall_cons in Hall as [_ ?]. right. by exists k, child.
  - split; [intros _|done]. right. exists 0, c. by split_and!.
  - split; [done|].
    intros [[? _]%Forall_cons|([|k] & child & ? & ? & Hall)];
      simplify_eq/=; [congruence..|].
    apply Forall_cons in Hall as [? _]. congruence.
Qed.

End find_children_lemmas.

(** ** Chains of ranges *)

(** A position within a chain that is not empty is in one of its ranges. *)
Lemma chain_cover start ranges end_ position :
  chain start ranges = Some end_ → ranges ≠ [] →
  pos_le start position → pos_le position end_ →
  ∃ r, r ∈ ranges ∧ inRange position r = true.
Proof.
  revert start. induction ranges as [|r rs IH]; intros start; simpl; [done|].
  case_decide as Hr; [|done]. destruct Hr as [<- Hle]. intros Hc _ Hs He.
  destruct (pos_le_total position (range_end r)) as [?|Hlt].
  - exists r. split; [by left|]. by apply inRange_spec.
  - destruct rs as [|r2 rs].
    + simplify_eq/=. apply pos_lt_not_le in Hlt. done.
    + destruct (IH _ Hc) as (r' & ? & ?); [done|by apply pos_lt_le|done|].
      exists r'. split; [by right|done].
Qed.

(** ** Trees with chained ranges *)

Lemma chained_le n :
  chained n = true →
  pos_le (range_start (ast_position n)) (range_end (ast_position n)).
Proof.
  destruct n as [ty raw v pos b|ty cs pos b]; simpl.
  - by intros ?%bool_decide_eq_true.
  - intros [_ [_ ?%chain_le]%bool_decide_eq_true]%andb_true_iff. done.
Qed.

Lemma chained_Container type children position b :
  chained (Container type children position b) = true
  ↔ Forall (λ c, chained c = true) children ∧ children ≠ []
    ∧ chain (range_start position) (ast_position <$> children)
      = Some (range_end position).
Proof.
  simpl. rewrite andb_true_iff, forallb_forall, bool_decide_eq_true, Forall_forall.
  setoid_rewrite <- list_elem_of_In. naive_solver.
Qed.

(** A node of a chained tree is chained, and its range is within the range
    of the root. *)
Lemma chained_node_at root path n :
  chained root = true → node_at root path = Some n →
  chained n = true
  ∧ pos_le (range_start (ast_position root)) (range_start (ast_position n))
  ∧ pos_le (range_end (ast_position n)) (range_end (ast_position root)).
Proof.
  revert root. induction path as [|i path IH]; intros root Hch; simpl.
  { by intros [= <-]. }
  destruct root as [|ty cs pos b]; simpl; [done|].
  destruct (cs !! i) as [c|] eqn:Hi; simpl; [|done]. intros Hn.
  apply chained_Container in Hch as (Hall & _ & Hc).
  rewrite Forall_forall in Hall.
  destruct (IH c (Hall _ (list_elem_of_lookup_2 _ _ _ Hi)) Hn) as (? & ? & ?).
  destruct (chain_within _ _ _ i (ast_position c) Hc) as [? ?].
  { by rewrite list_lookup_fmap, Hi. }
  split_and!; [done|by etrans..].
Qed.

(** ** [findAtPosition] *)

Lemma findAtPosition_eq_Null n position :
  findAtPosition n position = Null ↔ inRange position (ast_position n) = false.
Proof.
  destruct n as [ty raw v pos b|ty cs pos b]; simpl;
    destruct (inRange position pos) eqn:Hin; split; try done.
  intros ?%find_children_not_Null. done.
Qed.

Lemma findAtPosition_eq_Found n position path :
  findAtPosition n position = Found path →
  ∃ type raw value range b,
    node_at n path = Some (Leaf type raw value range b)
    ∧ inRange position range = true.
Proof.
  revert path. induction n as [ty raw v pos b|ty cs pos b IH] using ast_ind';
    intros path; simpl; destruct (inRange position pos) eqn:Hin; try done.
  - intros [= <-]. by exists ty, raw, v, pos, b.
  - intros (k & child & p' & -> & Hk & Hf & _)%find_children_Found. simpl.
    rewrite Hk. simpl. rewrite Forall_forall in IH.
    eapply IH; [by eapply list_elem_of_lookup_2|done].
Qed.

Lemma findAtPosition_not_Undefined n position :
  chained n = true → findAtPosition n position ≠ Undefined.
Proof.
  induction n as [ty raw v pos b|ty cs pos b IH] using ast_ind'; simpl.
  { by destruct (inRange position pos). }
  intros [Hall [Hne Hc]%bool_decide_eq_true]%andb_true_iff.
  destruct (inRange position pos) eqn:Hin; [|done].
  rewrite forallb_forall in Hall. setoid_rewrite <- list_elem_of_In in Hall.
  rewrite Forall_forall in IH. apply inRange_spec in Hin as [? ?].
  intros [Hnull|(k & child & Hk & Hu & _)]%find_children_Undefined.
  - destruct (chain_cover _ _ _ position Hc) as (r & Hr & Hrin); [by destruct cs|done..|].
    apply list_elem_of_fmap in Hr as (c & -> & Hcin).
    rewrite Forall_forall in Hnull.
    apply Hnull, findAtPosition_eq_Null in Hcin. congruence.
  - apply list_elem_of_lookup_2 in Hk. by eapply IH; eauto.
Qed.

(** The leaf a position belongs to: the position is after the start of the
    leaf and at or before its end. *)
Lemma findAtPosition_at root path type raw value range b position :
  chained root = true →
  node_at root path = Some (Leaf type raw value range b) →
  pos_lt (range_start range) position → pos_le position (range_end range) →
  findAtPosition root position = Found path.
Proof.
  revert root. induction path as [|i path IH]; intros root Hch; simpl.
  { intros [= ->] Hs He. simpl.
    rewrite (proj2 (inRange_spec _ _)); [done|]. split; [by apply pos_lt_le|done]. }
  destruct root as [|ty cs pos b']; [done|]. simpl.
  destruct (cs !! i) as [c|] eqn:Hi; [|done]. simpl. intros Hn Hs He.
  pose proof Hch as (Hall & _ & Hc)%chained_Container.
  rewrite Forall_forall in Hall.
  pose proof (Hall _ (list_elem_of_lookup_2 _ _ _ Hi)) as Hcc.
  destruct (chained_node_at c path _ Hcc Hn) as (_ & Hcs & Hce). simpl in Hcs, Hce.
  assert ((ast_position <$> cs) !! i = Some (ast_position c)) as Hri
    by (by rewrite list_lookup_fmap, Hi).
  destruct (chain_within _ _ _ _ _ Hc Hri) as [? ?].
  rewrite (proj2 (inRange_spec _ _)).
  2:{ split; [apply pos_lt_le; eapply pos_le_lt_trans; [|done]; by etrans
             |etrans; [done|]; by etrans]. }
  apply find_children_Found. exists i, c, path.
  split_and!; [done|done|by apply IH|].
  apply Forall_forall. intros c' (k' & Hk')%list_elem_of_lookup.
  apply lookup_take_Some in Hk' as [Hk' ?].
  apply findAtPosition_eq_Null, inRange_false. right.
  eapply pos_le_lt_trans; [|done]. etrans; [|done].
  eapply (chain_before _ _ _ i k' _ (ast_position c')); [done..| |done].
  by rewrite list_lookup_fmap, Hk'.
Qed.

(** A witness tree: the node of [[1,{}]], and the position of its number. *)
Definition sample_position : IPosition := {| lineNumber := 1; column := 3 |}.

(** ** Theorems on [findAtPosition] *)

(** Containment: in a tree with chained ranges, for a leaf and a
    position after the start of the range of the leaf and at or before its
    end, [findAtPosition] on the root returns that leaf.  The end of a range
    is included and its start is not: the position where two tokens meet
    belongs to the first of them. *)
Theorem findAtPosition_leaf root path type raw value range b position :
  chained root = true →
  node_at root path = Some (Leaf type raw value range b) →
  pos_lt (range_start range) position → pos_le position (range_end range) →
  findAtPosition root position = Found path.
Proof. apply findAtPosition_at. Qed.

Lemma findAtPosition_leaf_witness :
  findAtPosition sample_ast sample_position = Found [1].
Proof.
  by apply (findAtPosition_leaf sample_ast [1] NumberLiteral (js "1")
              (Some (VNumber {| num_neg := false; num_mantissa := 1; num_exp10 := 0 |}))
              (sample_range 2) true);
    [vm_compute|vm_compute|unfold pos_lt; simpl; lia|unfold pos_le; simpl; lia].
Defined.

(** C19. On a tree with chained ranges [findAtPosition] answers [null]
    when the position is outside the range of the root, and otherwise a
    leaf of the tree whose range holds the position; it never falls off its
    end. *)
Theorem findAtPosition_total root position :
  chained root = true →
  if inRange position (ast_position root) then
    ∃ path type raw value range b,
      findAtPosition root position = Found path
      ∧ node_at root path = Some (Leaf type raw value range b)
      ∧ inRange position range = true
  else findAtPosition root position = Null.
Proof.
  intros Hch. destruct (inRange position _) eqn:Hin;
    [|by apply findAtPosition_eq_Null].
  destruct (findAtPosition root position) as [| |path] eqn:Hf.
  - apply findAtPosition_eq_Null in Hf. congruence.
  - by apply findAtPosition_not_Undefined in Hf.
  - destruct (findAtPosition_eq_Found _ _ _ Hf) as (ty & raw & v & r & b & ? & ?).
    by exists path, ty, raw, v, r, b.
Qed.

Lemma findAtPosition_total_witness :
  ∃ path type raw value range b,
    findAtPosition sample_ast sample_position = Found path
    ∧ node_at sample_ast path = Some (Leaf type raw value range b)
    ∧ inRange sample_position range = true.
Proof. by apply (findAtPosition_total sample_ast sample_position). Defined.

(** C38. [findAtPosition] falls off its end on a container whose range
    holds the position while the range of none of its children does: the
    result is [undefined], not [null]. Since the loop of an enclosing call
    tests [result !== null], it returns this [undefined] at once and does
    not look at the children that follow. *)
Theorem findAtPosition_falls_through type children range b position before after outer ro bo :
  inRange position range = true →
  Forall (λ c, inRange position (ast_position c) = false) children →
  inRange position ro = true →
  Forall (λ c, inRange position (ast_position c) = false) before →
  findAtPosition (Container type children range b) position = Undefined
  ∧ findAtPosition
      (Container outer (before ++ Container type children range b :: after) ro bo)
      position = Undefined.
Proof.
  intros Hin Hall Hout Hbefore.
  assert (findAtPosition (Container type children range b) position = Undefined)
    as Hf.
  { simpl. rewrite Hin. apply find_children_Undefined. left.
    eapply Forall_impl; [done|]. intros c. by rewrite findAtPosition_eq_Null. }
  split; [done|]. cbn [findAtPosition ast_position]. rewrite Hout.
  apply find_children_Undefined. right.
  exists (length before), (Container type children range b).
  rewrite list_lookup_middle by done. rewrite take_app_length.
  split_and!; [done..|].
  eapply Forall_impl; [done|]. intros c. by rewrite findAtPosition_eq_Null.
Qed.

Lemma findAtPosition_falls_through_witness :
  findAtPosition (Container Array [] (sample_range 2) true) sample_position
  = Undefined
  ∧ findAtPosition
      (Container Array
         ([] ++ Container Array [] (sample_range 2) true :: [sample_ast])
         (sample_range 2) false)
      sample_position = Undefined.
Proof.
  apply findAtPosition_falls_through; [by vm_compute|done|by vm_compute|done].
Defined.

(** ** References and their identity *)

Lemma refs_lookup children j r :
  refs children !! j = Some r ↔ ∃ c, children !! j = Some c ∧ r = (j, c).
Proof. apply list_lookup_imap_Some. Qed.

Lemma refs_elem_of children j c :
  (j, c) ∈ refs children ↔ children !! j = Some c.
Proof.
  rewrite list_elem_of_lookup. setoid_rewrite refs_lookup. naive_solver.
Qed.

(** The references to the children of a node are distinct. *)
Lemma refs_NoDup children : NoDup (refs children).*1.
Proof.
  unfold refs. rewrite fmap_imap.
  rewrite (imap_ext _ (λ j _, id j)) by done.
  rewrite (imap_seq_0 children id), list_fmap_id. apply NoDup_seq.
Qed.

Lemma values_NoDup children :
  NoDup (filter (λ r, ref_is_value r = true) (refs children)).*1.
Proof.
  eapply sublist_NoDup; [apply refs_NoDup|]. apply fmap_sublist, sublist_filter.
Qed.

Lemma values_elem_of children j c :
  (j, c) ∈ filter (λ r, ref_is_value r = true) (refs children) →
  children !! j = Some c ∧ is_value c = true.
Proof. rewrite list_elem_of_filter, refs_elem_of. naive_solver. Qed.

Lemma values_elem_of_Array children j c :
  (j, c) ∈ extractValues_Array ref_is_value (refs children) →
  children !! j = Some c ∧ is_value c = true.
Proof. rewrite extractValues_Array_filter. apply values_elem_of. Qed.

(** In a list whose elements have distinct keys, the search for the key of
    an element finds that element. *)
Lemma list_find_key {A} (key : A → nat) (l : list A) i x j :
  NoDup (key <$> l) → l !! i = Some x → key x = j →
  list_find (λ y, key y = j) l = Some (i, x).
Proof.
  intros Hnd Hi <-. apply list_find_Some. split_and!; [done..|].
  intros i' y Hi' Hlt Heq. rewrite NoDup_alt in Hnd.
  assert (i' = i); [|lia].
  apply (Hnd _ _ (key x)); rewrite list_lookup_fmap; [|by rewrite Hi].
  by rewrite Hi', <- Heq.
Qed.

Lemma node_at_snoc root path n j :
  node_at root path = Some n →
  node_at root (path ++ [j]) = ast_children n !! j.
Proof.
  revert root. induction path as [|i path IH]; intros root; simpl.
  - intros [= ->]. by destruct (ast_children n !! j).
  - destruct (ast_children root !! i); simpl; [apply IH | done].
Qed.

Lemma unsnoc_snoc path j : unsnoc (path ++ [j]) = Some (path, j).
Proof. unfold unsnoc. by rewrite last_snoc, removelast_last. Qed.

(** The first steps of both queries on a child of a container: the node is
    found, and so is its parent. *)
Lemma query_child root path type children range b j c :
  node_at root path = Some (Container type children range b) →
  children !! j = Some c →
  node_at root (path ++ [j]) = Some c
  ∧ (if has_parent c then unsnoc (path ++ [j]) else None)
    = (if has_parent c then Some (path, j) else None).
Proof.
  intros Hp Hj. by rewrite (node_at_snoc _ _ _ _ Hp), unsnoc_snoc.
Qed.

Lemma unsnoc_Some path parent_path j :
  unsnoc path = Some (parent_path, j) → path = parent_path ++ [j].
Proof.
  unfold unsnoc. destruct path as [|i path _] using rev_ind; [done|].
  rewrite last_snoc, removelast_last. by intros [= <- <-].
Qed.

(** A node that is not the root is a child of a container. *)
Lemma node_at_parent root path j n :
  node_at root (path ++ [j]) = Some n →
  ∃ type children range b,
    node_at root path = Some (Container type children range b)
    ∧ children !! j = Some n.
Proof.
  revert root. induction path as [|i path IH]; intros root; simpl.
  - destruct root as [|ty cs pos b]; simpl; [done|].
    destruct (cs !! j) eqn:Hj; simpl; [|done]. intros [= <-]. by eauto 6.
  - destruct (ast_children root !! i); simpl; [apply IH | done].
Qed.

(** The pairs of an object, read in the list of its value children. *)
Lemma pairs_lookup children i kv :
  extractValues_Object ref_is_value (refs children) !! i = Some kv
  ↔ ∃ k v, kv = (Some k, v)
      ∧ extractValues_Array ref_is_value (refs children) !! (2 * i) = Some k
      ∧ extractValues_Array ref_is_value (refs children) !! (2 * i + 1) = Some v.
Proof.
  rewrite extractValues_Object_pair_up, extractValues_Array_filter.
  apply pair_up_lookup.
Qed.

Lemma pairs_NoDup children :
  NoDup ((λ kv, (kv.2).1)
         <$> extractValues_Object ref_is_value (refs children)).
Proof.
  rewrite extractValues_Object_pair_up.
  apply (pair_up_NoDup fst), values_NoDup.
Qed.

(** The search of [getKeyInParent] and [isKeyInParent] among the pairs of
    an object, by the place [m] of the node among the value children: a
    node at an odd place is the value of the pair [m / 2]; a node at an
    even place is the value of no pair. *)
Lemma list_find_pairs children m j c :
  extractValues_Array ref_is_value (refs children) !! m = Some (j, c) →
  list_find (λ kv, (kv.2).1 = j)
    (extractValues_Object ref_is_value (refs children))
  = if Nat.odd m
    then kv ← extractValues_Object ref_is_value (refs children) !! (m / 2);
         Some (m / 2, kv)
    else None.
Proof.
  intros Hm. pose proof (values_NoDup children) as Hnd.
  rewrite <- extractValues_Array_filter, NoDup_alt in Hnd.
  destruct (Nat.odd m) eqn:Hodd.
  - apply Nat.odd_spec in Hodd as [i ->].
    replace ((2 * i + 1) / 2) with i by (apply Nat.div_unique with 1; lia).
    assert (is_Some (extractValues_Array ref_is_value (refs children) !! (2 * i)))
      as [k Hk] by (apply lookup_lt_is_Some; apply lookup_lt_Some in Hm; lia).
    assert (extractValues_Object ref_is_value (refs children) !! i
            = Some (Some k, (j, c))) as Hi by (apply pairs_lookup; eauto).
    rewrite Hi. simpl.
    by apply (list_find_key (λ kv, (kv.2).1)); [apply pairs_NoDup|..].
  - apply list_find_None, Forall_forall.
    intros kv (i & (k & v & -> & _ & Hv)%pairs_lookup)%list_elem_of_lookup Heq.
    simpl in Heq. assert (2 * i + 1 = m) as <-.
    { apply (Hnd _ _ j); rewrite list_lookup_fmap; [by rewrite Hv, <- Heq|].
      by rewrite Hm. }
    rewrite Nat.odd_add, Nat.odd_mul in Hodd. done.
Qed.

(** Both queries on a child of a container whose [parent] is set, after
    the node and its parent have been read. *)
Lemma getKeyInParent_child root path type children range b j c :
  node_at root path = Some (Container type children range b) →
  children !! j = Some c → has_parent c = true →
  getKeyInParent root (path ++ [j]) =
  match type with
  | Array =>
    match list_find (λ value, value.1 = j)
            (extractValues_Array ref_is_value (refs children)) with
    | Some (i, _) => Ok (Index i)
    | None => Ok NoKey
    end
  | Object =>
    match list_find (λ kv, (kv.2).1 = j)
            (extractValues_Object ref_is_value (refs children)) with
    | Some (_, (key, _)) => key ← defined key; Ok (key_value key.2)
    | None => Ok NoKey
    end
  end.
Proof.
  intros Hp Hj Hpar. destruct (query_child _ _ _ _ _ _ _ _ Hp Hj) as [Hn Hu].
  unfold getKeyInParent. rewrite Hn. simpl. rewrite Hu, Hpar. simpl.
  rewrite Hp. simpl. by destruct type.
Qed.

Lemma isKeyInParent_child root path type children range b j raw v pos :
  node_at root path = Some (Container type children range b) →
  children !! j = Some (Leaf StringLiteral raw v pos true) →
  isKeyInParent root (path ++ [j]) =
  match type with
  | Array => Ok false
  | Object =>
    match list_find (λ kv, (kv.2).1 = j)
            (extractValues_Object ref_is_value (refs children)) with
    | Some _ => Ok false
    | None => Ok true
    end
  end.
Proof.
  intros Hp Hj. destruct (query_child _ _ _ _ _ _ _ _ Hp Hj) as [Hn Hu].
  unfold isKeyInParent. rewrite Hn. simpl. simpl in Hu. rewrite Hu. simpl.
  rewrite Hp. simpl. by destruct type.
Qed.

Lemma odd_succ_double i : Nat.odd (2 * i + 1) = true.
Proof. apply Nat.odd_spec. by exists i. Qed.

Lemma odd_double i : Nat.odd (2 * i) = false.
Proof. by rewrite Nat.odd_mul. Qed.

Lemma div2_succ_double i : (2 * i + 1) / 2 = i.
Proof. symmetry. apply Nat.div_unique with 1; lia. Qed.

(** A witness tree: the node of [{"k":1}] as the builder returns it. *)
Definition sample_key : ast :=
  Leaf StringLiteral (jsq "'k'") (Some (VString (js "k")))
    {| startLineNumber := 1; startColumn := 2;
       endLineNumber := 1; endColumn := 5 |} true.

Definition sample_value : ast :=
  Leaf NumberLiteral (js "1")
    (Some (VNumber {| num_neg := false; num_mantissa := 1; num_exp10 := 0 |}))
    (sample_range 6) true.

Definition sample_object : ast :=
  Container Object
    [ Leaf Punctuation (js "{") (Some (VString (js "{"))) (sample_range 1) true;
      sample_key;
      Leaf Punctuation (js ":") (Some (VString (js ":"))) (sample_range 5) true;
      sample_value;
      Leaf Punctuation (js "}") (Some (VString (js "}"))) (sample_range 7) false ]
    {| startLineNumber := 1; startColumn := 1;
       endLineNumber := 1; endColumn := 8 |} false.

(** ** Theorems on [getKeyInParent] and [isKeyInParent] *)

(** C39. Array indexing: for an array node of a tree, the element at index
    [i] of its [extractValues], a child whose [parent] is set, has the key
    [i]: [getKeyInParent] returns the index. *)
Theorem getKeyInParent_Array root path children range b i j value :
  node_at root path = Some (Container Array children range b) →
  extractValues_Array ref_is_value (refs children) !! i = Some (j, value) →
  has_parent value = true →
  getKeyInParent root (path ++ [j]) = Ok (Index i).
Proof.
  intros Hp Hi Hpar.
  pose proof Hi as [Hj _]%list_elem_of_lookup_2%values_elem_of_Array.
  rewrite (getKeyInParent_child _ _ _ _ _ _ _ _ Hp Hj Hpar).
  rewrite (list_find_key fst _ i (j, value) j); [done| |done..].
  rewrite extractValues_Array_filter. apply values_NoDup.
Qed.

Lemma getKeyInParent_Array_witness :
  getKeyInParent sample_ast ([] ++ [1]) = Ok (Index 0).
Proof.
  by eapply (getKeyInParent_Array sample_ast [] _ _ _ 0 1
               (Leaf NumberLiteral (js "1") _ (sample_range 2) true)).
Defined.

(** C25. Parent and key: for a pair of key and value of the [extractValues]
    of an object node, [getKeyInParent] on the value returns the [value] of
    the key, and on the key it returns [undefined]. *)
Theorem getKeyInParent_Object root path children range b i jk key jv value :
  node_at root path = Some (Container Object children range b) →
  extractValues_Object ref_is_value (refs children) !! i
  = Some (Some (jk, key), (jv, value)) →
  has_parent key = true → has_parent value = true →
  getKeyInParent root (path ++ [jv]) = Ok (key_value key)
  ∧ getKeyInParent root (path ++ [jk]) = Ok NoKey.
Proof.
  intros Hp Hi Hpk Hpv.
  pose proof Hi as (? & ? & [= <- <-] & Hk & Hv)%pairs_lookup.
  pose proof Hk as [Hjk _]%list_elem_of_lookup_2%values_elem_of_Array.
  pose proof Hv as [Hjv _]%list_elem_of_lookup_2%values_elem_of_Array.
  rewrite (getKeyInParent_child _ _ _ _ _ _ _ _ Hp Hjv Hpv).
  rewrite (getKeyInParent_child _ _ _ _ _ _ _ _ Hp Hjk Hpk).
  rewrite (list_find_pairs _ _ _ _ Hv), (list_find_pairs _ _ _ _ Hk).
  by rewrite odd_succ_double, odd_double, div2_succ_double, Hi.
Qed.

Lemma getKeyInParent_Object_witness :
  getKeyInParent sample_object ([] ++ [3]) = Ok (KeyValue (VString (js "k")))
  ∧ getKeyInParent sample_object ([] ++ [1]) = Ok NoKey.
Proof.
  by eapply (getKeyInParent_Object sample_object [] _ _ _ 0 1 sample_key 3
               sample_value).
Defined.

(** Keys and values: for a pair of key and value of the
    [extractValues] of an object node, [isKeyInParent] is true on the key,
    when it is a string whose [parent] is set, and false on the value. *)
Theorem isKeyInParent_Object root path children range b i jk raw v pos jv value :
  node_at root path = Some (Container Object children range b) →
  extractValues_Object ref_is_value (refs children) !! i
  = Some (Some (jk, Leaf StringLiteral raw v pos true), (jv, value)) →
  isKeyInParent root (path ++ [jk]) = Ok true
  ∧ isKeyInParent root (path ++ [jv]) = Ok false.
Proof.
  intros Hp Hi.
  pose proof Hi as (? & ? & [= <- <-] & Hk & Hv)%pairs_lookup.
  pose proof Hk as [Hjk _]%list_elem_of_lookup_2%values_elem_of_Array.
  pose proof Hv as [Hjv _]%list_elem_of_lookup_2%values_elem_of_Array.
  split.
  - rewrite (isKeyInParent_child _ _ _ _ _ _ _ _ _ _ Hp Hjk).
    by rewrite (list_find_pairs _ _ _ _ Hk), odd_double.
  - destruct value as [[] raw' v' pos' []|]; try
      (unfold isKeyInParent; by rewrite (node_at_snoc _ _ _ _ Hp); simpl; rewrite Hjv).
    rewrite (isKeyInParent_child _ _ _ _ _ _ _ _ _ _ Hp Hjv).
    by rewrite (list_find_pairs _ _ _ _ Hv), odd_succ_double, div2_succ_double, Hi.
Qed.

Lemma isKeyInParent_Object_witness :
  isKeyInParent sample_object ([] ++ [1]) = Ok true
  ∧ isKeyInParent sample_object ([] ++ [3]) = Ok false.
Proof.
  by eapply (isKeyInParent_Object sample_object [] _ _ _ 0 1 _ _ _ 3
               sample_value).
Defined.

(** The error for an invalid parent type is never raised on a tree:
    on every node of a tree, whatever its [parent] fields, [getKeyInParent]
    and [isKeyInParent] return, since a node that has children is an object
    or an array. *)
Theorem queries_return root path :
  is_Some (node_at root path) →
  (∃ r, getKeyInParent root path = Ok r) ∧ (∃ b, isKeyInParent root path = Ok b).
Proof.
  intros [n Hn].
  assert (∀ q j, unsnoc path = Some (q, j) →
    ∃ type children range b,
      node_at root q = Some (Container type children range b)) as Hparent.
  { intros q j ->%unsnoc_Some.
    apply node_at_parent in Hn as (ty & cs & r & b & ? & _). by eauto. }
  unfold getKeyInParent, isKeyInParent. rewrite Hn. simpl. split.
  - destruct (if has_parent n then _ else _) as [[q j]|] eqn:Hu; [|by eauto].
    destruct (has_parent n); [|done].
    destruct (Hparent _ _ Hu) as ([] & cs & r & b & ->); simpl.
    + destruct (list_find _ _) as [[i [key v]]|] eqn:Hf; [|by eauto].
      apply list_find_Some in Hf as [(? & ? & [= -> ->] & _)%pairs_lookup _].
      by eauto.
    + destruct (list_find _ _) as [[i ?]|]; by eauto.
  - destruct n as [[] raw v pos hp|]; try by eauto.
    destruct (if has_parent _ then _ else _) as [[q j]|] eqn:Hu; [|by eauto].
    destruct hp; [|done].
    destruct (Hparent _ _ Hu) as ([] & cs & r & b & ->); simpl; [|by eauto].
    destruct (list_find _ _); by eauto.
Qed.

Lemma queries_return_witness :
  (∃ r, getKeyInParent sample_object [3] = Ok r)
  ∧ (∃ b, isKeyInParent sample_object [3] = Ok b).
Proof. by apply queries_return. Defined.

Lemma chained_set_parent n : chained (set_parent n) = chained n.
Proof. by destruct n. Qed.

(** ** The parents in a built tree *)

Lemma built_children_Forall tokens close cur next children :
  built_children tokens close cur next children →
  Forall (λ c, ∃ a b, built tokens a b c) children.
Proof. induction 1; constructor; eauto. Qed.

Lemma node_at_set_parent_Container root path type children range b :
  node_at (set_parent root) path = Some (Container type children range b) →
  ∃ b', node_at root path = Some (Container type children range b').
Proof.
  destruct path as [|i path]; simpl.
  - destruct root; intros [= <- <- <- <-]; eauto.
  - destruct root; eauto.
Qed.

(** In a built tree every child of a container that [extractValues] keeps
    has its [parent] set: the one child without is the closing brace of an
    object. *)
Lemma built_value_parent tokens path :
  ∀ cur next root type children range b j c,
    built tokens cur next root →
    node_at root path = Some (Container type children range b) →
    children !! j = Some c → is_value c = true → has_parent c = true.
Proof.
  induction path as [|i path IH]; intros cur next root ty cs pos b j c Hb; simpl.
  - destruct Hb as [|cur curr topen tclose ty' children' _ _ _ _ _ _]; [done|].
    intros [= -> <- <- <-]. destruct j as [|j]; simpl; [by intros [= <-]|].
    intros [Hj|[_ Hj]]%lookup_app_Some.
    + apply list_lookup_fmap_Some in Hj as (c' & -> & _).
      intros _. apply has_parent_set_parent.
    + destruct (j - _); simpl in Hj; [|done]. by injection Hj as <-.
  - destruct Hb as [|cur curr topen tclose ty' children' _ _ _ Hbs _ _]; [done|].
    simpl. destruct i as [|i]; simpl.
    { by destruct path. }
    destruct (_ !! i) as [child|] eqn:Hi; simpl; [|done].
    apply lookup_app_Some in Hi as [Hi|[_ Hi]].
    + apply list_lookup_fmap_Some in Hi as (c' & -> & Hc').
      intros (b' & Hn)%node_at_set_parent_Container.
      apply built_children_Forall in Hbs. rewrite Forall_forall in Hbs.
      destruct (Hbs c' (list_elem_of_lookup_2 _ _ _ Hc')) as (a' & b'' & Hb').
      by eapply IH.
    + destruct (i - _); simpl in Hi; [|done]. injection Hi as <-. by destruct path.
Qed.

(** In a parsed tree every child of a container that [extractValues]
    keeps has its [parent] set, so the key queries reach the container:
    for an element of an array they return its index, for the value of a
    pair of an object the [value] of its key. *)
Theorem parse_value_parents toks root path type children range b i j c :
  parseTokens_root toks = Ok root →
  node_at root path = Some (Container type children range b) →
  extractValues_Array ref_is_value (refs children) !! i = Some (j, c) →
  has_parent c = true
  ∧ getKeyInParent root (path ++ [j]) =
    match type with
    | Array => Ok (Index i)
    | Object =>
      if Nat.odd i
      then key ← defined (extractValues_Array ref_is_value (refs children)
                            !! (i - 1));
           Ok (key_value key.2)
      else Ok NoKey
    end.
Proof.
  intros [next Hb]%parseTokens_root_Ok Hp Hi.
  pose proof Hi as [Hj Hv]%list_elem_of_lookup_2%values_elem_of_Array.
  pose proof (built_value_parent _ _ _ _ _ _ _ _ _ _ _ Hb Hp Hj Hv) as Hpar.
  split; [done|]. rewrite (getKeyInParent_child _ _ _ _ _ _ _ _ Hp Hj Hpar).
  destruct type.
  - rewrite (list_find_pairs _ _ _ _ Hi). destruct (Nat.odd i) eqn:Hodd; [|done].
    apply Nat.odd_spec in Hodd as [k ->]. rewrite div2_succ_double.
    replace (2 * k + 1 - 1) with (2 * k) by lia.
    destruct (extractValues_Array _ _ !! (2 * k)) as [key|] eqn:Hk.
    + by rewrite (proj2 (pairs_lookup _ _ _) (ex_intro _ key (ex_intro _ (j, c)
                   (conj eq_refl (conj Hk Hi))))).
    + apply lookup_lt_Some in Hi. apply lookup_ge_None in Hk. lia.
  - rewrite (list_find_key fst _ i (j, c) j); [done| |done..].
    rewrite extractValues_Array_filter. apply values_NoDup.
Qed.

Lemma parse_value_parents_witness :
  has_parent (Leaf NumberLiteral (js "1")
                (Some (VNumber {| num_neg := false; num_mantissa := 1;
                                  num_exp10 := 0 |}))
                (sample_range 2) true) = true
  ∧ getKeyInParent sample_ast ([] ++ [1]) = Ok (Index 0).
Proof.
  by eapply (parse_value_parents sample_tokens sample_ast [] Array _ _ _ 0 1).
Defined.
