(* ===== verification/Pipeline.v ===== *)
(** * Pipeline: tokenizer, builder and queries composed

    What a caller gets who runs [parseTokens] on the result of [tokenize]
    and then queries the tree: the text of the tree against the input, and
    the layout of its ranges, which makes [findAtPosition] find every leaf
    and the key queries answer by position in the parent. *)

From S2P Require Import Prelude Regex Token Tokenizer Ast PathAt Query.

(** ** The composition *)

(** [parseTokens(tokenize(json))] *)
Definition parse_text (json : jstring) : outcome ast :=
  toks ← tokenize json; parseTokens_root toks.

(** The text [{"foo":"bar","foo2":{"hallo":"welt"}}], its tokens and its
    tree. *)
Definition doc : jstring := jsq "{'foo':'bar','foo2':{'hallo':'welt'}}".

Definition doc_tokens : list token :=
  Eval vm_compute in match tokenize doc with Ok toks => toks | _ => [] end.

Definition doc_tree : ast :=
  Eval vm_compute in
    match parseTokens_root doc_tokens with
    | Ok n => n
    | _ => Container Object [] (to_IRange start_position start_position) false
    end.

Lemma parse_text_Ok json root :
  parse_text json = Ok root
  ↔ ∃ toks, tokenize json = Ok toks ∧ parseTokens_root toks = Ok root.
Proof. apply bind_Ok_inv. Qed.

(** ** The ranges of a built tree *)

(** The children of a container between its two punctuation leaves are
    chained when the values among them are. *)
Lemma chained_around topen tclose b children :
  pos_le (range_start (tok_position topen)) (range_end (tok_position topen)) →
  pos_le (range_start (tok_position tclose)) (range_end (tok_position tclose)) →
  Forall (λ c, chained c = true) children →
  Forall (λ c, chained c = true)
    (punct topen true :: (set_parent <$> children) ++ [punct tclose b]).
Proof.
  intros Ho Hc Hall.
  constructor; [by apply bool_decide_eq_true|]. apply Forall_app. split.
  - apply Forall_fmap. eapply Forall_impl; [done|].
    intros c ?. simpl. by rewrite chained_set_parent.
  - repeat constructor. by apply bool_decide_eq_true.
Qed.

(** A built tree takes over the chain of the ranges of its tokens: its range
    runs from the start to the end of the chain, and the ranges of the
    children of every container follow one another. *)
Lemma built_chained tokens cur next n :
  built tokens cur next n →
  ∀ s e, chain s (tok_position <$> segment cur next tokens) = Some e →
  chained n = true
  ∧ range_start (ast_position n) = s ∧ range_end (ast_position n) = e.
Proof.
  revert cur next n.
  apply (built_mut tokens
    (λ cur next n, ∀ s e,
       chain s (tok_position <$> segment cur next tokens) = Some e →
       chained n = true
       ∧ range_start (ast_position n) = s ∧ range_end (ast_position n) = e)
    (λ _ cur next ns, cur ≤ next ∧ ∀ s e,
       chain s (tok_position <$> segment cur next tokens) = Some e →
       Forall (λ c, chained c = true) ns
       ∧ chain s (ast_position <$> ns) = Some e)).
  - intros cur t ty v Ht _ s e. rewrite (segment_singleton _ _ _ Ht).
    intros (? & ? & ?)%chain_singleton. simpl.
    split_and!; [by apply bool_decide_eq_true|done..].
  - intros cur curr topen tclose ty children Ho _ _ Hbs [Hle IH] Hc _ s e.
    rewrite (segment_around _ _ _ _ _ Ho Hc), fmap_cons, fmap_app by lia.
    intros (Hs & Hle1 & Hmid & Hle2 & He)%chain_around.
    destruct (IH _ _ Hmid) as [Hall Hch].
    split_and!; [|done..]. apply chained_Container. split_and!; [|done|].
    + by apply chained_around.
    + rewrite fmap_cons, fmap_app, <- list_fmap_compose.
      rewrite (list_fmap_ext _ ast_position)
        by (intros; apply ast_position_set_parent).
      by apply chain_around.
  - intros close cur. split; [done|]. intros s e. rewrite segment_empty.
    by intros [= ->].
  - intros close cur mid next t child children _ _ Hb IH Hbs [Hle IHs].
    apply built_lt in Hb. split; [lia|]. intros s e.
    rewrite (segment_split cur mid next), fmap_app by lia.
    intros (m & H1 & H2)%chain_app.
    destruct (IH _ _ H1) as (? & Hs & He), (IHs _ _ H2) as [? Hch].
    split; [by constructor|]. cbn [fmap list_fmap chain].
    rewrite decide_True by (split; [done | rewrite Hs, He; by eapply chain_le]).
    by rewrite He.
Qed.

(** What is said of the tokens of [json] is said of the token list
    [tokenize] returned. *)
Lemma exists_tokens json toks (P : list token → Prop) :
  tokenize json = Ok toks →
  P toks ↔ ∃ toks', tokenize json = Ok toks' ∧ P toks'.
Proof.
  intros Htok. split; [by eauto|]. intros (toks' & Htok' & HP).
  rewrite Htok in Htok'. by injection Htok' as <-.
Qed.

(** A built value whose raw text is the whole input spans all the tokens,
    and the tokenizer read all the input. *)
Lemma built_spans toks next n rest json :
  Forall (λ t, tok_raw t ≠ []) toks →
  built toks 0 next n →
  json = mjoin (tok_raw <$> toks) ++ rest →
  ast_raw n = json →
  next = length toks ∧ rest = [].
Proof.
  intros Hne Hb Hjson Heq.
  pose proof (built_raw _ _ _ _ Hb) as Hraw. pose proof (built_bound _ _ _ _ Hb).
  unfold segment in Hraw. rewrite Nat.sub_0_r, drop_0 in Hraw.
  rewrite <- (take_drop next toks), fmap_app, join_app in Hjson.
  rewrite <- Hraw, Heq, <- (assoc_L (++)) in Hjson.
  apply (f_equal length) in Hjson. rewrite !length_app in Hjson.
  destruct (drop next toks) as [|t ts] eqn:Hd.
  - apply (f_equal length) in Hd. rewrite length_drop in Hd. simpl in Hd.
    split; [lia|]. destruct rest; [done|simpl in Hjson; lia].
  - assert (t ∈ toks) as Hin
      by (rewrite <- (take_drop next toks), Hd; set_solver).
    rewrite Forall_forall in Hne. specialize (Hne _ Hin).
    simpl in Hjson. rewrite length_app in Hjson. destruct (tok_raw t); [done|].
    simpl in Hjson. lia.
Qed.

(** ** Theorems *)

(** The text of a parsed document against the input: the input is the
    [raw] text of the tree, then the raw texts of the tokens the builder
    did not read, then the rest the tokenizer stopped at. *)
Theorem parse_tokenize_text json root :
  parse_text json = Ok root →
  ∃ toks next rest,
    tokenize json = Ok toks ∧ 0 < next ≤ length toks
    ∧ json = ast_raw root ++ mjoin (tok_raw <$> drop next toks) ++ rest
    ∧ (rest = [] ∨ first_match tokenTypes rest = None).
Proof.
  intros (toks & Htok & [next Hb]%parseTokens_root_Ok)%parse_text_Ok.
  pose proof Htok as (rest & Hjson & Hrest)%tokenize_Ok_prefix.
  exists toks, next, rest.
  split_and!; [done|by eapply built_lt|by eapply built_bound| |done].
  rewrite (built_raw _ _ _ _ Hb), (assoc_L (++)), <- join_app, <- fmap_app.
  unfold segment. by rewrite Nat.sub_0_r, drop_0, take_drop.
Qed.

Lemma parse_tokenize_text_witness :
  ∃ toks next rest,
    tokenize doc = Ok toks ∧ 0 < next ≤ length toks
    ∧ doc = ast_raw doc_tree ++ mjoin (tok_raw <$> drop next toks) ++ rest
    ∧ (rest = [] ∨ first_match tokenTypes rest = None).
Proof. apply parse_tokenize_text. by vm_compute. Defined.

(** C5. Round trip: the [raw] text of the parsed tree is the input exactly
    when the value the builder read spans all the tokens and the tokenizer
    read the whole input.  Leading or trailing white space or comments, a
    second value, or a character no token starts with break it. *)
Theorem parse_tokenize_round_trip json root :
  parse_text json = Ok root →
  ast_raw root = json
  ↔ ∃ toks, tokenize json = Ok toks ∧ built toks 0 (length toks) root
            ∧ mjoin (tok_raw <$> toks) = json.
Proof.
  intros (toks & Htok & Hroot)%parse_text_Ok.
  rewrite <- (exists_tokens json toks) by done.
  pose proof (tokenize_Ok_nonempty _ _ Htok) as Hne.
  apply tokenize_Ok_prefix in Htok as (rest & Hjson & _).
  apply parseTokens_root_Ok in Hroot as [next Hb].
  split.
  - intros Heq.
    destruct (built_spans toks next root rest json) as [-> ->]; try done.
    by rewrite app_nil_r in Hjson.
  - intros [Hb' Hall]. rewrite (built_raw _ _ _ _ Hb'), segment_all. done.
Qed.

Lemma parse_tokenize_round_trip_witness :
  ast_raw doc_tree = doc
  ↔ ∃ toks, tokenize doc = Ok toks ∧ built toks 0 (length toks) doc_tree
            ∧ mjoin (tok_raw <$> toks) = doc.
Proof. apply parse_tokenize_round_trip. by vm_compute. Defined.

(** The tree of a tokenized text has chained ranges. *)
Lemma parse_tokenize_chained json root :
  parse_text json = Ok root → chained root = true.
Proof.
  intros (toks & Hc%tokenize_Ok_chain & [next Hb]%parseTokens_root_Ok)%parse_text_Ok.
  rewrite <- (take_drop next toks), fmap_app in Hc.
  apply chain_app in Hc as (mid & Hc & _).
  eapply (built_chained _ _ _ _ Hb). unfold segment.
  by rewrite Nat.sub_0_r, drop_0.
Qed.

(** C33. Containment, for a parsed document: [findAtPosition] on the tree
    of a tokenized text returns, for a position after the start of a leaf
    and at or before its end, that leaf; the first column of a token
    belongs to the token before it. *)
Theorem parse_tokenize_findAtPosition json root path type raw value range b position :
  parse_text json = Ok root →
  node_at root path = Some (Leaf type raw value range b) →
  pos_lt (range_start range) position → pos_le position (range_end range) →
  findAtPosition root position = Found path.
Proof.
  intros Hroot. eapply findAtPosition_at. by eapply parse_tokenize_chained.
Qed.

Lemma parse_tokenize_findAtPosition_witness :
  findAtPosition doc_tree {| lineNumber := 1; column := 23 |} = Found [7; 1].
Proof.
  apply (parse_tokenize_findAtPosition doc doc_tree [7; 1]
           StringLiteral (jsq "'hallo'") (Some (VString (js "hallo")))
           {| startLineNumber := 1; startColumn := 22;
              endLineNumber := 1; endColumn := 29 |} true);
    [by vm_compute..|unfold pos_lt; simpl; lia|unfold pos_le; simpl; lia].
Defined.
