(* ===== verification/PathTree.v ===== *)
(** * PathTree: the inferred path against the tree

    [getPathInObject] reads a prefix of the tokens of a document and
    reports the keys of the objects that are open there.  This file says
    what those keys are in the syntax tree of the document, without a
    stack: [locate n k] descends from the root [n] to the place after the
    first [k] tokens, and collects in every object on the way the key of
    the member the place lies in.  The theorems say that on a document
    whose containers are objects with string keys, [getPathInObject] on
    the first [k] tokens returns [locate n k], but for the keys that are
    the text of the array marker.

    The proof reads the tokens of a tree off its leaves ([classes]), which
    are the tokens the tree was built from when every closing token is
    punctuation, as the closing tokens of the tokenizer are; it then
    follows the path inference through a value ([value_steps]) and
    through the members of an object ([members_steps]).  Arrays are left
    out: inside an array of scalars the path inference loses the keys of
    the objects around it. *)

From S2P Require Import Prelude Regex Token Tokenizer Ast PathAt Pipeline.

(** ** The tokens of a tree, as the path inference reads them *)

(** The class of the token a leaf was built from. *)
Definition leaf_class (type : leaf_type) (raw : jstring)
    (value : option jsval) : token_class :=
  match type with
  | Punctuation =>
    if decide (raw = js "{") then OpenObject
    else if decide (raw = js "}") then CloseObject
    else if decide (raw = js "[") then OpenArray
    else if decide (raw = js "]") then CloseArray
    else Ignored
  | StringLiteral => AString (default (VString raw) value)
  | NumberLiteral | LiteralLiteral => AValue
  | InlineComment | MultilineComment | Whitespace => Ignored
  end.

(** The classes of the tokens of a tree, in order. *)
Fixpoint classes (n : ast) : list token_class :=
  match n with
  | Leaf type raw value _ _ => [leaf_class type raw value]
  | Container _ children _ _ => mjoin (classes <$> children)
  end.

(** What the loops over the tokens read of a token, its class and its
    range, and the same for the leaves of a tree, in order. *)
Definition reading (t : token) : token_class * IRange :=
  (classify t, tok_position t).

Fixpoint readings (n : ast) : list (token_class * IRange) :=
  match n with
  | Leaf type raw value position _ => [(leaf_class type raw value, position)]
  | Container _ children _ _ => mjoin (readings <$> children)
  end.

(** The number of tokens of a tree. *)
Definition width (n : ast) : nat := length (classes n).

(** The body of the loop of [getPathInObject], on the class of the
    token. *)
Definition class_step (st : path_state) (c : token_class) : path_state :=
  match c with
  | OpenObject => {| stack := stack st; nextStringWillBeKey := true |}
  | CloseObject | CloseArray | AValue =>
    {| stack := pop (stack st); nextStringWillBeKey := true |}
  | OpenArray =>
    {| stack := stack st ++ [LIST_MARKER]; nextStringWillBeKey := false |}
  | AString v =>
    if nextStringWillBeKey st
    then {| stack := stack st ++ [v]; nextStringWillBeKey := false |}
    else {| stack := pop (stack st); nextStringWillBeKey := true |}
  | Ignored => st
  end.

(** The tokens whose text closes a container are punctuation. *)
Definition closers_punct (tokens : list token) : Prop :=
  Forall (λ t, tok_raw t = js "}" ∨ tok_raw t = js "]" →
               tok_type t = T_punctuation) tokens.

(** ** The keys around a place of a tree *)

(** The value of a key. *)
Definition key_of (c : ast) : jsval :=
  match c with
  | Leaf _ _ (Some v) _ _ => v
  | _ => VString []
  end.

(** The key that is open after the child [c] of an object, [key] being
    open before it: a value child opens a key when none is open, and
    closes the one that is. *)
Definition next_key (c : ast) (key : option jsval) : option jsval :=
  if is_value c then
    match key with
    | None => Some (key_of c)
    | Some _ => None
    end
  else key.

(** The place after [k] tokens of the children [cs] of an object, the
    key [key] being open before them: the keys around the place, from
    this object inwards, and whether a value is expected there. *)
Fixpoint members (locate : ast → nat → list jsval * bool) (cs : list ast)
    (k : nat) (key : option jsval) : list jsval * bool :=
  match cs with
  | [] => (option_list key, bool_decide (is_Some key))
  | c :: cs' =>
    if decide (k = 0) then (option_list key, bool_decide (is_Some key))
    else if decide (width c ≤ k) then
      members locate cs' (k - width c) (next_key c key)
    else
      let r := locate c k in (option_list key ++ r.1, r.2)
  end.

(** The place after the first [k] tokens of the tree [n]. *)
Fixpoint locate (n : ast) (k : nat) : list jsval * bool :=
  match n with
  | Leaf _ _ _ _ _ => ([], false)
  | Container _ children _ _ => members locate children k None
  end.

(** ** Documents *)

(** A leaf the path inference ignores: a colon, a comma, a comment or
    white space. *)
Definition ignored_leaf (c : ast) : bool :=
  match c with
  | Leaf type raw value _ _ =>
    match leaf_class type raw value with
    | Ignored => true
    | _ => false
    end
  | Container _ _ _ _ => false
  end.

Definition string_leaf (c : ast) : bool :=
  match c with
  | Leaf StringLiteral _ (Some _) _ _ => true
  | _ => false
  end.

(** The punctuation leaf with the text [raw]. *)
Definition brace (raw : string) (c : ast) : bool :=
  match c with
  | Leaf Punctuation r _ _ _ => bool_decide (r = js raw)
  | _ => false
  end.

(** The children of an object after the opening brace: keys that are
    strings alternate with values, between them leaves that are ignored,
    and the closing brace comes when no key is open. *)
Fixpoint wf_members (wf : ast → bool) (cs : list ast) (key : option jsval)
    : bool :=
  match cs with
  | [] => false
  | c :: cs' =>
    match cs' with
    | [] => brace "}" c && bool_decide (key = None)
    | _ :: _ =>
      (if is_value c then
         match key with
         | None => string_leaf c
         | Some _ => wf c
         end
       else ignored_leaf c)
      && wf_members wf cs' (next_key c key)
    end
  end.

(** A value of a document without arrays: a string, a number, a literal,
    or an object. *)
Fixpoint wf_value (n : ast) : bool :=
  match n with
  | Leaf (StringLiteral | NumberLiteral | LiteralLiteral) _ _ _ _ => true
  | Leaf _ _ _ _ _ => false
  | Container Object (c :: cs) _ _ => brace "{" c && wf_members wf_value cs None
  | Container _ _ _ _ => false
  end.

(** A document: an object. *)
Definition wf_document (n : ast) : bool :=
  match n with
  | Container _ _ _ _ => wf_value n
  | Leaf _ _ _ _ _ => false
  end.

(** [getPathInObject], from its meaning on the tree: the keys around
    the place, without those that are the text of the array marker. *)
Definition path_in (n : ast) (k : nat) : list jsval * bool :=
  (filter (λ v, v ≠ LIST_MARKER) (locate n k).1, (locate n k).2).

(** ** The states of the path inference on a tree *)

(** The state in an object whose opening brace was read with the stack
    [base]: the open key, if any, lies on the stack, and a string is a
    key when no key is open. *)
Definition open_state (base : list jsval) (key : option jsval) : path_state :=
  {| stack := base ++ option_list key;
     nextStringWillBeKey := bool_decide (key = None) |}.

(** The state after the first [k] tokens of a value, read from the state
    [st] in which its key is open: unchanged before the value, the key
    closed after it, and inside it the keys around the place on top of
    the stack. *)
Definition after_value (n : ast) (k : nat) (st : path_state) : path_state :=
  if decide (k = 0) then st
  else if decide (width n ≤ k) then
    {| stack := pop (stack st); nextStringWillBeKey := true |}
  else
    {| stack := stack st ++ (locate n k).1;
       nextStringWillBeKey := negb (locate n k).2 |}.

(** The state after the first [k] tokens of the children of an object
    that follow the opening brace. *)
Definition after_members (cs : list ast) (k : nat) (base : list jsval)
    (key : option jsval) : path_state :=
  if decide (sum_list_with width cs ≤ k) then
    {| stack := pop base; nextStringWillBeKey := true |}
  else
    {| stack := base ++ (members locate cs k key).1;
       nextStringWillBeKey := negb (members locate cs k key).2 |}.

(** What the theorems say of a value [n]. *)
Definition value_spec (n : ast) : Prop :=
  wf_value n = true → ∀ st k, nextStringWillBeKey st = false →
  foldl class_step st (take k (classes n)) = after_value n k st.

(** ** The tokens of a built tree *)

Lemma path_step_class st t : path_step st t = class_step st (classify t).
Proof. apply path_step_classify. Qed.

Lemma foldl_path_step_classes toks : ∀ st,
  foldl path_step st toks = foldl class_step st (classify <$> toks).
Proof.
  induction toks as [|t toks IH]; intros st; [done|]. simpl.
  by rewrite path_step_class, IH.
Qed.

Lemma classes_set_parent n : classes (set_parent n) = classes n.
Proof. by destruct n. Qed.

Lemma classify_leaf t ty v :
  leaf_kind t = Some (ty, v) → classify t = leaf_class ty (tok_raw t) v.
Proof.
  unfold leaf_kind, classify, leaf_class.
  destruct (tok_type t); try by intros [= <- <-].
  case_decide as Hr; [|done]. intros [= <- <-].
  by destruct Hr as [-> | ->].
Qed.

Lemma classify_punct t :
  tok_type t = T_punctuation →
  classify t = leaf_class Punctuation (tok_raw t) (Some (VString (tok_raw t))).
Proof. unfold classify. by intros ->. Qed.

Lemma readings_set_parent n : readings (set_parent n) = readings n.
Proof. by destruct n. Qed.

Lemma classes_readings n : classes n = (readings n).*1.
Proof.
  induction n as [|type children position hp IH] using ast_ind'; [done|].
  cbn [classes readings]. induction IH as [|c cs Hc _ IH]; [done|].
  change (classes c ++ mjoin (classes <$> cs)
          = (readings c ++ mjoin (readings <$> cs)).*1).
  rewrite fmap_app. by f_equal.
Qed.

(** The tokens a tree was built from read as its leaves do, when the
    closing tokens are punctuation, as those of the tokenizer are: the
    builder looks at the text of a closing token, the loops over the
    tokens at its type as well. *)
Lemma built_readings tokens cur next n :
  closers_punct tokens →
  built tokens cur next n →
  reading <$> segment cur next tokens = readings n.
Proof.
  intros Hp. revert cur next n.
  apply (built_mut tokens
    (λ cur next n, reading <$> segment cur next tokens = readings n)
    (λ _ cur next ns,
       cur ≤ next
       ∧ reading <$> segment cur next tokens = mjoin (readings <$> ns))).
  - intros cur t ty v Ht Hk. rewrite (segment_singleton _ _ _ Ht).
    unfold reading. simpl. by rewrite (classify_leaf _ _ _ Hk).
  - intros cur curr topen tclose ty children Ho Hty _ Hbs [Hle IH] Hc Hraw.
    rewrite (segment_split cur (S cur) (S curr)) by lia.
    rewrite (segment_split (S cur) curr (S curr)) by lia.
    rewrite (segment_singleton _ _ _ Ho), (segment_singleton _ _ _ Hc).
    rewrite !fmap_app, IH. simpl.
    rewrite fmap_app, join_app, <- list_fmap_compose.
    rewrite (list_fmap_ext (readings ∘ set_parent) readings children)
      by (intros; apply readings_set_parent).
    unfold reading. simpl. rewrite (classify_punct _ Hty). do 4 f_equal.
    apply classify_punct. eapply Forall_lookup_1 in Hp; [|exact Hc].
    apply Hp. rewrite Hraw. destruct ty; auto.
  - intros close cur. by rewrite segment_empty.
  - intros close cur mid next t child children _ _ Hb IH Hbs [Hle IHs].
    apply built_lt in Hb. split; [lia|].
    rewrite (segment_split cur mid next) by lia.
    by rewrite fmap_app, IH, IHs.
Qed.

Lemma built_classes tokens cur next n :
  closers_punct tokens →
  built tokens cur next n →
  classify <$> segment cur next tokens = classes n.
Proof.
  intros Hp Hb. rewrite classes_readings, <- (built_readings _ _ _ _ Hp Hb).
  by rewrite <- list_fmap_compose.
Qed.

(** ** The path inference on a tree *)

Lemma width_Container type children position hp :
  width (Container type children position hp) = sum_list_with width children.
Proof.
  unfold width. cbn [classes]. induction children as [|c cs IH]; [done|].
  change (length (classes c ++ mjoin (classes <$> cs))
          = length (classes c) + sum_list_with width cs).
  rewrite length_app. by f_equal.
Qed.

Lemma wf_members_width wf cs key :
  wf_members wf cs key = true → 0 < sum_list_with width cs.
Proof.
  revert key. induction cs as [|c [|c' cs] IH]; intros key; simpl; [done| |].
  - intros [Hc _]%andb_true_iff. destruct c as [[] ? ? ? ?|]; try done.
    unfold width. simpl. lia.
  - intros [_ Hcs]%andb_true_iff. specialize (IH _ Hcs). simpl in IH. lia.
Qed.

Lemma wf_value_width n : wf_value n = true → 0 < width n.
Proof.
  destruct n as [|[] [|c cs] ? ?]; try done; [unfold width; simpl; lia|].
  simpl. intros [_ Hcs%wf_members_width]%andb_true_iff.
  rewrite width_Container. simpl. lia.
Qed.

Lemma open_state_None base :
  open_state base None = {| stack := base; nextStringWillBeKey := true |}.
Proof. unfold open_state. simpl. by rewrite app_nil_r. Qed.

Lemma open_state_Some base key :
  open_state base (Some key)
  = {| stack := base ++ [key]; nextStringWillBeKey := false |}.
Proof. done. Qed.

Lemma after_members_0 cs base key :
  0 < sum_list_with width cs →
  after_members cs 0 base key = open_state base key.
Proof.
  intros Hw. unfold after_members. rewrite decide_False by lia.
  unfold open_state. destruct cs, key; simpl; try done.
Qed.

(** A child that is read whole. *)
Lemma after_members_cons c cs k base key :
  0 < width c → width c ≤ k →
  after_members (c :: cs) k base key
  = after_members cs (k - width c) base (next_key c key).
Proof.
  intros Hc Hk. unfold after_members. simpl.
  rewrite (decide_False (P := k = 0)), (decide_True (P := width c ≤ k)) by lia.
  destruct (decide (sum_list_with width cs ≤ k - width c));
    [rewrite decide_True by lia|rewrite decide_False by lia]; done.
Qed.

(** A child in which the place lies. *)
Lemma after_members_in c cs k base key :
  0 < k → k < width c →
  after_members (c :: cs) k base (Some key)
  = {| stack := (base ++ [key]) ++ (locate c k).1;
       nextStringWillBeKey := negb (locate c k).2 |}.
Proof.
  intros Hk Hc. unfold after_members. simpl.
  rewrite !decide_False by lia. simpl. by rewrite <- app_assoc.
Qed.

Lemma take_classes_cons c cs k :
  width c ≤ k →
  take k (mjoin (classes <$> c :: cs))
  = classes c ++ take (k - width c) (mjoin (classes <$> cs)).
Proof.
  intros Hk.
  change (mjoin (classes <$> c :: cs))
    with (classes c ++ mjoin (classes <$> cs)).
  by rewrite take_app_ge.
Qed.

Lemma take_classes_in c cs k :
  k ≤ width c →
  take k (mjoin (classes <$> c :: cs)) = take k (classes c).
Proof.
  intros Hk.
  change (mjoin (classes <$> c :: cs))
    with (classes c ++ mjoin (classes <$> cs)).
  by rewrite take_app_le.
Qed.

(** The closing brace. *)
Lemma close_steps c base k :
  brace "}" c = true →
  foldl class_step (open_state base None) (take k (mjoin (classes <$> [c])))
  = after_members [c] k base None.
Proof.
  destruct c as [[] raw value position has_parent|]; try done. simpl.
  intros ->%bool_decide_eq_true.
  destruct k as [|k]; [by rewrite after_members_0 by (simpl; lia)|].
  rewrite open_state_None. unfold after_members. simpl. by destruct k.
Qed.

(** A child that is not a value, a key, and a value, read whole. *)
Lemma child_steps c base key :
  match key with
  | None => if is_value c then string_leaf c else ignored_leaf c
  | Some _ => if is_value c then wf_value c else ignored_leaf c
  end = true →
  (is_value c = true → value_spec c) →
  0 < width c
  ∧ foldl class_step (open_state base key) (classes c)
    = open_state base (next_key c key).
Proof.
  intros Hc IH. unfold next_key. destruct (is_value c) eqn:Hv.
  - destruct key as [key|].
    + pose proof (wf_value_width _ Hc) as Hw. split; [done|].
      specialize (IH eq_refl Hc (open_state base (Some key)) (width c) eq_refl).
      unfold width at 1 in IH. rewrite firstn_all in IH. rewrite IH.
      unfold after_value. rewrite decide_False, decide_True by lia.
      rewrite open_state_Some, open_state_None. simpl.
      unfold pop. by rewrite removelast_last.
    + destruct c as [[] raw [v|] ? ?|]; try done.
      split; [unfold width; simpl; lia|]. by rewrite open_state_None.
  - assert (ignored_leaf c = true) as Hi by (by destruct key).
    destruct c as [ty raw v ? ?|]; [|done]. split; [unfold width; simpl; lia|].
    simpl in *. by destruct (leaf_class ty raw v).
Qed.

Lemma members_steps cs :
  Forall value_spec cs →
  ∀ key base k, wf_members wf_value cs key = true →
  foldl class_step (open_state base key) (take k (mjoin (classes <$> cs)))
  = after_members cs k base key.
Proof.
  induction cs as [|c [|c' cs] IH]; intros Hcs key base k; [done| |].
  { simpl. intros [Hc ->%bool_decide_eq_true]%andb_true_iff.
    by apply close_steps. }
  cbn [wf_members]. intros [Hc Hwf]%andb_true_iff.
  change (wf_members wf_value (c' :: cs) (next_key c key) = true) in Hwf.
  apply Forall_cons in Hcs as [Hspec Hcs].
  destruct (child_steps c base key) as [Hw Hstep].
  { by destruct key, (is_value c). }
  { done. }
  destruct (decide (k = 0)) as [->|Hk].
  { rewrite after_members_0; [done|]. simpl.
    pose proof (wf_members_width _ _ _ Hwf). simpl in *. lia. }
  destruct (decide (width c ≤ k)) as [Hle|Hgt].
  - rewrite take_classes_cons, foldl_app, Hstep, after_members_cons by done.
    by apply IH.
  - rewrite take_classes_in by lia.
    destruct key as [key|].
    + rewrite after_members_in by lia.
      destruct (is_value c) eqn:Hv.
      * rewrite (Hspec Hc (open_state base (Some key)) k eq_refl).
        unfold after_value.
        by rewrite !decide_False by lia.
      * destruct c as [ty raw v ? ?|]; [|done]. unfold width in Hgt. simpl in *. lia.
    + assert (width c = 1) as Hw1; [|lia].
      destruct (is_value c); destruct c as [[] raw [v|] ? ?|]; done.
Qed.

Lemma object_steps type c0 cs position hp :
  wf_value (Container type (c0 :: cs) position hp) = true →
  Forall value_spec cs →
  ∀ st k,
    foldl class_step st
      (take k (classes (Container type (c0 :: cs) position hp)))
    = after_value (Container type (c0 :: cs) position hp) k st.
Proof.
  destruct type; [|done]. cbn [wf_value].
  intros [Hb Hwf]%andb_true_iff Hcs st k.
  destruct c0 as [[] raw value pos b|]; try done.
  apply bool_decide_eq_true in Hb as ->.
  unfold after_value. destruct (decide (k = 0)) as [->|Hk]; [done|].
  rewrite width_Container. cbn [classes locate members sum_list_with].
  assert (width (Leaf Punctuation (js "{") value pos b) = 1) as Hw by done.
  rewrite take_classes_cons, foldl_app by lia.
  rewrite (decide_False (P := k = 0)),
    (decide_True (P := width (Leaf _ _ _ _ _) ≤ k)) by lia.
  change (foldl class_step st (classes (Leaf Punctuation (js "{") value pos b)))
    with {| stack := stack st; nextStringWillBeKey := true |}.
  rewrite <- open_state_None, members_steps by done.
  unfold after_members, next_key. cbn [is_value].
  destruct (decide (sum_list_with width cs ≤ k - width _));
    [rewrite decide_True by lia|rewrite decide_False by lia]; done.
Qed.

Lemma value_steps n : value_spec n.
Proof.
  induction n as [type raw value position hp|type children position hp IH]
    using ast_ind'; intros Hwf st k Hst.
  - unfold after_value. destruct k as [|k]; [done|].
    rewrite decide_False, decide_True by (unfold width; simpl; lia).
    destruct type; try done; simpl; by rewrite take_nil, ?Hst.
  - destruct children as [|c0 cs]; [by destruct type|].
    apply Forall_cons in IH as [_ IH]. by apply object_steps.
Qed.

(** After its last token a document leaves no key open. *)
Lemma members_end cs : ∀ key,
  wf_members wf_value cs key = true →
  members locate cs (sum_list_with width cs) key = ([], false).
Proof.
  induction cs as [|c [|c' cs] IH]; intros key; [done| |].
  - simpl. intros [Hc ->%bool_decide_eq_true]%andb_true_iff.
    destruct c as [[] raw ? ? ?|]; try done.
  - cbn [wf_members]. intros [Hc Hwf]%andb_true_iff.
    change (wf_members wf_value (c' :: cs) (next_key c key) = true) in Hwf.
    pose proof (wf_members_width _ _ _ Hwf) as Hw.
    specialize (IH _ Hwf). revert Hw IH.
    change (sum_list_with width (c :: c' :: cs))
      with (width c + sum_list_with width (c' :: cs)).
    generalize (c' :: cs). intros l Hw IH.
    cbn [members]. rewrite decide_False, decide_True by lia.
    by replace (width c + sum_list_with width l - width c)
      with (sum_list_with width l) by lia.
Qed.

Lemma locate_end n :
  wf_document n = true → locate n (width n) = ([], false).
Proof.
  destruct n as [|[] [|c0 cs] ? ?]; try done. simpl.
  intros [Hb Hwf]%andb_true_iff. rewrite width_Container.
  destruct c0 as [[] raw value pos b|]; try done.
  pose proof (wf_members_width _ _ _ Hwf) as Hw.
  pose proof (members_end _ _ Hwf) as Hend. revert Hw Hend.
  cbn [sum_list_with]. generalize (sum_list_with width cs). intros w Hw Hend.
  assert (width (Leaf Punctuation raw value pos b) = 1) as -> by done.
  rewrite decide_False, decide_True by lia.
  by replace (1 + w - 1) with w by lia.
Qed.

(** The path inference on the first [k] tokens of a tree, from the
    initial state. *)
Lemma document_steps n k :
  wf_document n = true → k ≤ width n →
  (let st := foldl class_step path_init (take k (classes n)) in
   (path_of_stack (stack st), negb (nextStringWillBeKey st)))
  = path_in n k.
Proof.
  intros Hwf Hk. unfold path_in. cbv zeta.
  destruct n as [|type [|c0 cs] position hp]; [done|by destruct type|].
  rewrite object_steps;
    [|done|apply Forall_forall; intros; apply value_steps].
  unfold after_value. destruct (decide (k = 0)) as [->|Hk0]; [done|].
  destruct (decide (width _ ≤ k)) as [Hle|Hgt].
  - assert (k = width (Container type (c0 :: cs) position hp)) as -> by lia.
    by rewrite locate_end.
  - cbn [stack nextStringWillBeKey path_init app].
    by rewrite path_of_stack_filter, negb_involutive.
Qed.

(** ** The tokens of the tokenizer *)

(** A token of the tokenizer whose text is a closing brace or bracket
    is punctuation: no other expression matches at such a unit. *)
Lemma tokenize_closers_punct json toks :
  tokenize json = Ok toks → closers_punct toks.
Proof.
  apply tokenize_Forall. intros t s raw range tok Hm Hc Hraw.
  pose proof Hm as [Ht Hex]%first_match_Some.
  apply first_match_token in Hm as (_ & _ & rest & ->).
  destruct (create_Ok _ _ _ _ Ht Hc) as [Hr _]. rewrite Hr in Hraw.
  revert Hex Hc. unfold tokenTypes in Ht.
  set_unfold; destruct Hraw as [->| ->];
    repeat (destruct Ht as [->|Ht]); try done; simpl;
    first [ by intros _ [= <-] | intros Hex; by cbv in Hex ].
Qed.

Lemma built_width tokens cur next n :
  closers_punct tokens → built tokens cur next n → next = cur + width n.
Proof.
  intros Hp Hb. pose proof (built_lt _ _ _ _ Hb).
  pose proof (built_bound _ _ _ _ Hb).
  unfold width. rewrite <- (built_classes _ _ _ _ Hp Hb), length_fmap.
  unfold segment. rewrite length_take, length_drop. lia.
Qed.

(** The path inference on the first [k] tokens of a built document. *)
Lemma built_path tokens next n k :
  closers_punct tokens → built tokens 0 next n →
  wf_document n = true → k ≤ width n →
  getPathInObject (take k tokens) = path_in n k.
Proof.
  intros Hp Hb Hwf Hk.
  pose proof (built_width _ _ _ _ Hp Hb) as Hnext. simpl in Hnext.
  rewrite <- (document_steps n k) by done. unfold getPathInObject.
  rewrite foldl_path_step_classes, <- (built_classes _ _ _ _ Hp Hb).
  unfold segment. rewrite Nat.sub_0_r, drop_0, <- !fmap_take, take_take.
  by rewrite Nat.min_l by lia.
Qed.

(** ** Theorems *)

(** The path inference against the tree: on a document of objects
    with string keys, [getPathInObject] on the first [k] tokens of the
    text returns the keys of the members around the place after these
    tokens, from the root inwards, without the keys that are the text of
    the array marker, and says whether the place is after a key. *)
Theorem getPathInObject_locate json toks n k :
  tokenize json = Ok toks → parseTokens_root toks = Ok n →
  wf_document n = true → k ≤ width n →
  getPathInObject (take k toks) = path_in n k.
Proof.
  intros Hp%tokenize_closers_punct [next Hb]%parseTokens_root_Ok.
  by apply built_path with next.
Qed.

Lemma getPathInObject_locate_witness :
  getPathInObject (take 9 doc_tokens) = path_in doc_tree 9.
Proof.
  apply (getPathInObject_locate doc doc_tokens doc_tree 9);
    [by vm_compute..|vm_compute; lia].
Defined.

(** Arrays are outside these theorems for a reason: in [{"a":[1,2] the
    second number pops the key of the array, and the path is empty
    although the place is in the value of [a]. *)
Example getPathInObject_array_of_scalars :
  ∃ toks, tokenize (jsq "{'a':[1,2") = Ok toks
        ∧ getPathInObject toks = ([], false)
        ∧ getPathInObject (take 5 toks) = ([VString (js "a")], false).
Proof. eexists. by vm_compute. Qed.
