(* ===== verification/KeyRanges.v ===== *)
(** * KeyRanges: the key positions against the tree

    [getPositionOfKeys] reads the tokens of a document and collects the
    ranges of the strings it takes for keys, with the flag
    [nextStringWillBeKey] and without a stack.  This file says which
    ranges these are in the syntax tree of the document: [key_ranges n]
    walks the tree as [extractValues] walks the children of an object,
    the values alternately a key and a value, and collects the range of
    every key, in the order of the text.  The theorems say that on a
    document whose containers are objects with string keys
    [getPositionOfKeys] returns [key_ranges], and that these are the
    ranges of the keys of the pairs [extractValues] returns, object by
    object. *)

From S2P Require Import Prelude Regex Token Tokenizer Ast PathAt Pipeline.
From S2P Require Import PathTree.

(** ** The keys of a tree *)

(** The ranges of the keys among the children [cs] of an object and in
    the values among them; [isKey] is the variable of that name of
    [extractValues], which tells whether the next value child is a key. *)
Fixpoint key_members (key_ranges : ast → list IRange) (cs : list ast)
    (isKey : bool) : list IRange :=
  match cs with
  | [] => []
  | c :: cs' =>
    if is_value c then
      (if isKey then [ast_position c] else key_ranges c)
      ++ key_members key_ranges cs' (negb isKey)
    else key_members key_ranges cs' isKey
  end.

(** The ranges of the keys of a tree, in the order of the text. *)
Fixpoint key_ranges (n : ast) : list IRange :=
  match n with
  | Leaf _ _ _ _ _ => []
  | Container _ children _ _ => key_members key_ranges children true
  end.

(** The ranges of the keys of a list of pairs of [extractValues], each
    followed by the ranges of the keys in its value. *)
Definition pair_ranges (l : list (option ast * ast)) : list IRange :=
  p ← l; (ast_position <$> option_list p.1) ++ key_ranges p.2.

(** ** The loop on what it reads *)

(** The body of the loop of [getPositionOfKeys], on the class and the
    range of the token. *)
Definition keys_reading_step (st : keys_state) (r : token_class * IRange)
    : keys_state :=
  match r.1 with
  | OpenObject | CloseObject | AValue =>
    {| highlights := highlights st; keys_nextStringWillBeKey := true |}
  | AString _ =>
    if keys_nextStringWillBeKey st
    then {| highlights := highlights st ++ [r.2];
            keys_nextStringWillBeKey := false |}
    else {| highlights := highlights st; keys_nextStringWillBeKey := true |}
  | OpenArray | CloseArray | Ignored => st
  end.

(** The state after a value, read with its key open: the keys in it
    collected, and the next string a key. *)
Definition after_keys (st : keys_state) (keys : list IRange) : keys_state :=
  {| highlights := highlights st ++ keys; keys_nextStringWillBeKey := true |}.

(** What the theorems say of a value [n]. *)
Definition keys_spec (n : ast) : Prop :=
  wf_value n = true → ∀ st, keys_nextStringWillBeKey st = false →
  foldl keys_reading_step st (readings n) = after_keys st (key_ranges n).

(** ** The loop on a tree *)

Lemma keys_step_reading st t :
  keys_step st t = keys_reading_step st (reading t).
Proof. apply keys_step_classify. Qed.

Lemma foldl_keys_step_readings toks : ∀ st,
  foldl keys_step st toks = foldl keys_reading_step st (reading <$> toks).
Proof.
  induction toks as [|t toks IH]; intros st; [done|]. simpl.
  by rewrite keys_step_reading, IH.
Qed.

Lemma after_keys_nil st :
  keys_nextStringWillBeKey st = true → after_keys st [] = st.
Proof. destruct st. unfold after_keys. simpl. intros ->. by rewrite app_nil_r. Qed.

Lemma after_keys_app st k1 k2 :
  after_keys (after_keys st k1) k2 = after_keys st (k1 ++ k2).
Proof. unfold after_keys. simpl. by rewrite (assoc_L (++)). Qed.

Lemma key_members_next f c cs key :
  key_members f (c :: cs) (bool_decide (key = None))
  = key_members f [c] (bool_decide (key = None))
    ++ key_members f cs (bool_decide (next_key c key = None)).
Proof.
  unfold next_key. cbn [key_members]. destruct (is_value c); [|done].
  rewrite app_nil_r. by destruct key.
Qed.

(** A child of an object, read whole: a leaf that is ignored, a key, or
    a value. *)
Lemma child_keys c key st :
  match key with
  | None => if is_value c then string_leaf c else ignored_leaf c
  | Some _ => if is_value c then wf_value c else ignored_leaf c
  end = true →
  (is_value c = true → keys_spec c) →
  keys_nextStringWillBeKey st = bool_decide (key = None) →
  ∃ st', foldl keys_reading_step st (readings c) = st'
    ∧ keys_nextStringWillBeKey st' = bool_decide (next_key c key = None)
    ∧ ∀ keys, after_keys st' keys
        = after_keys st
            (key_members key_ranges [c] (bool_decide (key = None)) ++ keys).
Proof.
  intros Hc IH Hst. eexists. split; [done|].
  unfold next_key. cbn [key_members]. destruct (is_value c) eqn:Hv.
  - destruct key as [key|]; simpl in Hst.
    + rewrite (IH eq_refl Hc st Hst). split; [done|]. intros keys.
      by rewrite after_keys_app, app_nil_r.
    + destruct c as [[] raw [v|] ? ?|]; try done. simpl.
      unfold keys_reading_step. simpl. rewrite Hst. split; [done|].
      intros keys. unfold after_keys. simpl. by rewrite <- (assoc_L (++)).
  - assert (ignored_leaf c = true) as Hi by (by destruct key).
    destruct c as [ty raw v ? ?|]; [|done]. simpl in *.
    unfold keys_reading_step. simpl. by destruct (leaf_class ty raw v).
Qed.

Lemma members_keys cs :
  Forall keys_spec cs →
  ∀ key st, wf_members wf_value cs key = true →
  keys_nextStringWillBeKey st = bool_decide (key = None) →
  foldl keys_reading_step st (mjoin (readings <$> cs))
  = after_keys st (key_members key_ranges cs (bool_decide (key = None))).
Proof.
  induction cs as [|c [|c' cs] IH]; intros Hcs key st; [done| |].
  { simpl. intros [Hc ->%bool_decide_eq_true]%andb_true_iff _.
    destruct c as [[] raw value position has_parent|]; try done.
    apply bool_decide_eq_true in Hc as ->. unfold after_keys. simpl.
    by rewrite app_nil_r. }
  cbn [wf_members]. intros [Hc Hwf]%andb_true_iff Hst.
  change (wf_members wf_value (c' :: cs) (next_key c key) = true) in Hwf.
  apply Forall_cons in Hcs as [Hspec Hcs].
  destruct (child_keys c key st) as (st' & Hstep & Hflag & Hkeys).
  { by destruct key, (is_value c). }
  { done. }
  { done. }
  change (mjoin (readings <$> c :: c' :: cs))
    with (readings c ++ mjoin (readings <$> c' :: cs)).
  by rewrite foldl_app, Hstep, (IH Hcs _ _ Hwf Hflag), Hkeys,
    <- key_members_next.
Qed.

Lemma object_keys type children position hp st :
  wf_value (Container type children position hp) = true →
  Forall keys_spec children →
  foldl keys_reading_step st (readings (Container type children position hp))
  = after_keys st (key_ranges (Container type children position hp)).
Proof.
  destruct type, children as [|c0 cs]; try done. cbn [wf_value].
  intros [Hb Hwf]%andb_true_iff [_ Hcs]%Forall_cons.
  destruct c0 as [[] raw value pos b|]; try done.
  apply bool_decide_eq_true in Hb as ->.
  cbn [readings key_ranges key_members is_value].
  change (mjoin (readings <$> Leaf Punctuation (js "{") value pos b :: cs))
    with ([(OpenObject, pos)] ++ mjoin (readings <$> cs)).
  rewrite foldl_app. by rewrite (members_keys cs Hcs None _ Hwf).
Qed.

Lemma value_keys n : keys_spec n.
Proof.
  induction n as [type raw value position hp|type children position hp IH]
    using ast_ind'; intros Hwf st Hst.
  - destruct type; try done; simpl; unfold keys_reading_step; simpl;
      rewrite ?Hst; unfold after_keys; simpl; by rewrite app_nil_r.
  - by apply object_keys.
Qed.

(** Comments and white space after the document change nothing. *)
Lemma foldl_keys_step_trivia toks : ∀ st,
  Forall (λ t, is_trivia t = true) toks → foldl keys_step st toks = st.
Proof.
  induction toks as [|t toks IH]; intros st; [done|].
  intros [Ht%classify_trivia Htoks]%Forall_cons. simpl.
  by rewrite keys_step_classify, Ht, IH.
Qed.

(** The key positions of the tokens a document was built from. *)
Lemma built_keys tokens next n :
  closers_punct tokens → built tokens 0 next n → wf_document n = true →
  getPositionOfKeys (take next tokens) = key_ranges n.
Proof.
  intros Hp Hb Hwf. unfold getPositionOfKeys.
  rewrite foldl_keys_step_readings.
  pose proof (built_readings _ _ _ _ Hp Hb) as Hr.
  unfold segment in Hr. rewrite Nat.sub_0_r, drop_0 in Hr. rewrite Hr.
  destruct n as [|type children position hp]; [done|].
  rewrite object_keys; [done..|].
  apply Forall_forall. intros. apply value_keys.
Qed.

(** ** The keys of [extractValues] *)

Lemma key_members_filter f cs : ∀ isKey,
  key_members f cs isKey = key_members f (filter (λ c, is_value c = true) cs) isKey.
Proof.
  induction cs as [|c cs IH]; intros isKey; [done|].
  rewrite filter_cons. cbn [key_members]. case_decide as Hv.
  - cbn [key_members]. rewrite Hv. by rewrite IH.
  - apply not_true_is_false in Hv. by rewrite Hv.
Qed.

(** The values of the children of a well-formed object come in pairs. *)
Lemma wf_members_even cs : ∀ key,
  wf_members wf_value cs key = true →
  Nat.Even (length (filter (λ c, is_value c = true) cs)
            + (if key is Some _ then 1 else 0)).
Proof.
  induction cs as [|c [|c' cs] IH]; intros key; [done| |].
  - simpl. intros [Hc ->%bool_decide_eq_true]%andb_true_iff.
    destruct c as [[] ? ? ? ?|]; try done. by exists 0.
  - cbn [wf_members]. intros [_ Hwf]%andb_true_iff.
    change (wf_members wf_value (c' :: cs) (next_key c key) = true) in Hwf.
    apply IH in Hwf. revert Hwf. rewrite (filter_cons _ c). unfold next_key.
    generalize (filter (λ c, is_value c = true) (c' :: cs)). intros l.
    destruct (is_value c); [|by rewrite decide_False by done].
    rewrite decide_True by done. simpl.
    destruct key; simpl; rewrite ?Nat.add_0_r;
      intros [m Hm]; [exists (S m)|exists m]; lia.
Qed.

Lemma key_members_pairs m : ∀ vs,
  length vs = 2 * m → Forall (λ c, is_value c = true) vs →
  key_members key_ranges vs true = pair_ranges (pair_up vs).
Proof.
  induction m as [|m IH]; intros [|k [|v vs]] Hlen Hvs; simpl in Hlen;
    try done; try lia.
  apply Forall_cons in Hvs as [Hk [Hv Hvs]%Forall_cons].
  cbn [key_members pair_up]. rewrite Hk, Hv. simpl.
  by rewrite IH by (done || lia).
Qed.

(** ** Theorems *)

(** The keys of an object of a document are the keys of the pairs its
    [extractValues] returns: [key_ranges] collects the range of the key
    of each pair and the key ranges of its value. *)
Theorem key_ranges_extractValues type children position hp :
  wf_value (Container type children position hp) = true →
  key_ranges (Container type children position hp)
  = pair_ranges (extractValues_Object is_value children).
Proof.
  destruct type, children as [|c0 cs]; try done. cbn [wf_value key_ranges].
  intros [Hb [m Hm]%wf_members_even]%andb_true_iff.
  destruct c0 as [[] raw value pos b|]; try done.
  rewrite extractValues_Object_pair_up, key_members_filter.
  apply (key_members_pairs m).
  - rewrite filter_cons, decide_False by done. lia.
  - apply Forall_forall. by intros c [Hc _]%list_elem_of_filter.
Qed.

(** C23. The key positions against the tree

    On the tokens of a text that parses to a document of objects with
    string keys, [getPositionOfKeys] returns the ranges of the keys of
    the objects of the tree, in the order of the text: on the tokens of
    the document, and on all tokens when only comments and white space
    follow the document. *)
Theorem getPositionOfKeys_keys json toks n :
  tokenize json = Ok toks → parseTokens_root toks = Ok n →
  wf_document n = true →
  getPositionOfKeys (take (width n) toks) = key_ranges n
  ∧ (Forall (λ t, is_trivia t = true) (drop (width n) toks) →
     getPositionOfKeys toks = key_ranges n).
Proof.
  intros Hp%tokenize_closers_punct [next Hb]%parseTokens_root_Ok Hwf.
  pose proof (built_width _ _ _ _ Hp Hb) as ->. simpl.
  pose proof (built_keys _ _ _ Hp Hb Hwf) as Hk. split; [done|].
  intros Ht. rewrite <- Hk. unfold getPositionOfKeys.
  rewrite <- (take_drop (width n) toks) at 1.
  by rewrite foldl_app, foldl_keys_step_trivia.
Qed.

Lemma getPositionOfKeys_keys_witness :
  getPositionOfKeys (take (width doc_tree) doc_tokens) = key_ranges doc_tree
  ∧ (Forall (λ t, is_trivia t = true) (drop (width doc_tree) doc_tokens) →
     getPositionOfKeys doc_tokens = key_ranges doc_tree).
Proof.
  apply (getPositionOfKeys_keys doc doc_tokens doc_tree); by vm_compute.
Defined.

(** In an array the flag alternates as in an object: of the strings of
    the array [["a","b","c"]] the first and the third are reported as
    keys. *)
Example getPositionOfKeys_array :
  (toks ← tokenize (jsq "['a','b','c']"); Ok (getPositionOfKeys toks))
  = Ok [ {| startLineNumber := 1; startColumn := 2;
            endLineNumber := 1; endColumn := 5 |};
         {| startLineNumber := 1; startColumn := 10;
            endLineNumber := 1; endColumn := 13 |} ].
Proof. by vm_compute. Qed.
