(* ===== verification/Completion.v ===== *)
(** * Completion: the path at the cursor of an editor

    The use [json-parse-ast.js] documents for [getPathInObject]: an editor
    hands the text from the start of the document to the cursor to
    [tokenize], the tokens to [getPathInObject], and offers suggestions
    when a value is expected in the member of a given key.  The text is
    cut where the cursor is, so the tokenizer does not see the document but
    a part of it; the theorems say when its tokens are those of the
    document, and what the path then is in the syntax tree of the
    document. *)

From S2P Require Import Prelude Regex Token Tokenizer Scanner Prefix Ast.
From S2P Require Import PathAt Pipeline PathTree.

(** ** The example of the documentation *)

(** [getPathInObject(tokenize(textUntilPosition))] *)
Definition pathOfText (textUntilPosition : jstring)
    : outcome (list jsval * bool) :=
  tokens ← tokenize textUntilPosition; Ok (getPathInObject tokens).

(** [willBeValue && jsonPath[jsonPath.length-1] === key]; the last element
    of an empty path is [undefined], which is no key. *)
Definition suggests (key : jstring) (r : list jsval * bool) : bool :=
  r.2 && bool_decide (last r.1 = Some (VString key)).

(** The condition of the completion provider, for the key [key]. *)
Definition provideCompletionItems (key textUntilPosition : jstring)
    : outcome bool :=
  r ← pathOfText textUntilPosition; Ok (suggests key r).

(** ** Places where the tokenizer stops *)

(** A string literal that is not closed: after its quote, no double quote
    but escaped ones. *)
Lemma first_match_open_string s :
  scan_string s = None → first_match tokenTypes (N_of_ascii dquote :: s) = None.
Proof.
  intros Hs. apply first_match_None. repeat constructor; try done.
  apply exec_None. unfold regexp, tokenTypes, re_string.
  rewrite matches_Seq, matches_Lit_cons, decide_True by done.
  cbn [mbind list_bind]. by rewrite app_nil_r, matches_string_rest, Hs.
Qed.

Lemma scan_string_open s :
  Forall (λ c, c ≠ N_of_ascii dquote ∧ c ≠ N_of_ascii backslash) s →
  scan_string s = None.
Proof.
  induction 1 as [|c s [? ?] _ IH]; [done|]. cbn [scan_string].
  by rewrite !decide_False.
Qed.

(** ** The path on a text that is cut *)

(** The composition on a text cut after the [k]-th token of a built
    document, where no token starts in what is left. *)
Lemma pathOfText_built json toks next n k p q :
  tokenize json = Ok toks → built toks 0 next n →
  wf_document n = true → k ≤ width n →
  json = (textUntil toks k ++ p) ++ q → first_match tokenTypes p = None →
  pathOfText (textUntil toks k ++ p) = Ok (path_in n k).
Proof.
  intros Htok Hb Hwf Hk Hjson Hp. unfold pathOfText, textUntil in *.
  rewrite (tokenize_Ok_cut _ _ _ _ _ Htok Hjson Hp). simpl. f_equal.
  apply built_path with next; [by eapply tokenize_closers_punct|done..].
Qed.

(** ** Theorems *)

(** C7. The path at the cursor: in a document of objects with string
    keys, with the cursor after the [k]-th token where no token starts
    in the text up to the cursor (at the end of that token, or inside a
    string literal that is not closed before the cursor), the documented
    composition of [tokenize] and [getPathInObject] on the text up to the
    cursor returns the keys of the members around the cursor in the
    syntax tree of the whole document, and whether a value is expected
    there. *)
Theorem pathOfText_cursor json toks n k p q :
  tokenize json = Ok toks → parseTokens_root toks = Ok n →
  wf_document n = true → k ≤ width n →
  json = (textUntil toks k ++ p) ++ q → first_match tokenTypes p = None →
  pathOfText (textUntil toks k ++ p) = Ok (path_in n k).
Proof.
  intros Htok [next Hb]%parseTokens_root_Ok Hwf Hk Hjson Hp.
  by apply pathOfText_built with json next q.
Qed.

Lemma pathOfText_cursor_witness :
  pathOfText (textUntil doc_tokens 8 ++ jsq "'ha") = Ok (path_in doc_tree 8).
Proof.
  apply (pathOfText_cursor doc doc_tokens doc_tree 8 (jsq "'ha")
           (jsq "llo':'welt'}}")); [by vm_compute..| |by vm_compute|].
  - vm_compute. lia.
  - apply first_match_open_string, scan_string_open.
    repeat constructor; by vm_compute.
Defined.

(** The completion provider of the example offers its suggestions when
    the cursor is in the value of a member with the key it looks for,
    according to the syntax tree of the whole document. *)
Corollary provideCompletionItems_cursor key json toks n k p q :
  tokenize json = Ok toks → parseTokens_root toks = Ok n →
  wf_document n = true → k ≤ width n →
  json = (textUntil toks k ++ p) ++ q → first_match tokenTypes p = None →
  provideCompletionItems key (textUntil toks k ++ p)
  = Ok (suggests key (path_in n k)).
Proof.
  intros Htok [next Hb]%parseTokens_root_Ok Hwf Hk Hjson Hp.
  unfold provideCompletionItems.
  by rewrite (pathOfText_built json toks next n k p q).
Qed.

(** The cursor in the key [hallo] of the document: the path is the key of
    the object around it, and a key is expected. *)
Example pathOfText_in_key :
  pathOfText (jsq "{'foo':'bar','foo2':{'ha") = Ok ([VString (js "foo2")], false).
Proof. by vm_compute. Qed.
