(* ===== verification/Shape.v ===== *)
(** * Shape: what does not depend on the ranges

    The ranges of the tokens come from the cursor of the tokenizer, whose
    column is off by one after a line feed.  This file says which results
    do not read the ranges: tokens and trees are compared up to their
    ranges ([≡]), and the path inference, the builder, the text of a tree
    and the key queries respect that equivalence.  [reposition] gives the
    tokens the ranges a reader of the text counts; what respects the
    equivalence returns on the tokens of [tokenize] what it returns on the
    repositioned ones.  [findAtPosition] does read the ranges, and the
    last example shows a position it attributes to another node. *)

From S2P Require Import Prelude Regex Token Tokenizer Ast PathAt Query.
From S2P Require Import Pipeline.

(** ** Tokens and trees without their ranges *)

Definition no_range : IRange :=
  {| startLineNumber := 0; startColumn := 0;
     endLineNumber := 0; endColumn := 0 |}.

(** A token with its range erased. *)
Definition bare (t : token) : token :=
  mk_token (tok_type t) no_range (tok_raw t) (tok_value t).

(** A tree with the ranges of its nodes erased. *)
Fixpoint shape (n : ast) : ast :=
  match n with
  | Leaf type raw value _ hp => Leaf type raw value no_range hp
  | Container type children _ hp =>
    Container type (shape <$> children) no_range hp
  end.

(** Equal up to ranges. *)
#[export] Instance token_equiv : Equiv token := λ t1 t2, bare t1 = bare t2.
#[export] Instance ast_equiv : Equiv ast := λ n1 n2, shape n1 = shape n2.

(** Two calls that return equivalent results or throw the same error. *)
#[export] Instance outcome_equiv `{Equiv A} : Equiv (outcome A) := λ o1 o2,
  match o1, o2 with
  | Ok a1, Ok a2 => a1 ≡ a2
  | Throw e1, Throw e2 => e1 = e2
  | OutOfFuel, OutOfFuel => True
  | _, _ => False
  end.

(** The tokens with the ranges a reader of their texts counts from the
    cursor [p]: a line feed starts a line at column 1, any other unit is
    one column. *)
Fixpoint reposition (p : IPosition) (tokens : list token) : list token :=
  match tokens with
  | [] => []
  | t :: tokens' =>
    let q := foldl walk p (tok_raw t) in
    mk_token (tok_type t) (to_IRange p q) (tok_raw t) (tok_value t)
    :: reposition q tokens'
  end.

(** The shape of a returned cursor and node, and of a cursor and children. *)
Definition shaped (r : nat * ast) : nat * ast := (r.1, shape r.2).
Definition shaped_list (r : nat * list ast) : nat * list ast :=
  (r.1, shape <$> r.2).

(** References to equivalent children, with the same index. *)
Definition ref_equiv (r1 r2 : nat * ast) : Prop := r1.1 = r2.1 ∧ r1.2 ≡ r2.2.

(** The tree of a text, built from the tokens with the ranges of a
    reader. *)
Definition parse_text_reader (json : jstring) : outcome ast :=
  toks ← tokenize json; parseTokens_root (reposition start_position toks).

(** ** The equivalences *)

#[export] Instance token_equivalence : Equivalence (≡@{token}).
Proof.
  unfold equiv, token_equiv. split; [by intros ?|by intros ? ?|].
  intros ? ? ?. apply eq_trans.
Qed.

#[export] Instance ast_equivalence : Equivalence (≡@{ast}).
Proof.
  unfold equiv, ast_equiv. split; [by intros ?|by intros ? ?|].
  intros ? ? ?. apply eq_trans.
Qed.

#[export] Instance outcome_equivalence `{Equiv A, !Equivalence (≡@{A})} :
  Equivalence (≡@{outcome A}).
Proof.
  split.
  - intros [a| |]; [change (a ≡ a); reflexivity | by cbv..].
  - intros [a| |] [b| |]; try by cbv.
    change (a ≡ b → b ≡ a). by symmetry.
  - intros [a|e|] [b|e'|] [c|e''|]; try by cbv.
    + change (a ≡ b → b ≡ c → a ≡ c). by etrans.
    + change (e = e' → e' = e'' → e = e''). apply eq_trans.
Qed.

(** Lists of tokens are equivalent when their bare tokens are equal. *)
Lemma list_equiv_bare (l k : list token) : l ≡ k ↔ bare <$> l = bare <$> k.
Proof.
  split.
  - induction 1 as [|t1 t2 l k Ht _ IH]; [done|]. rewrite !fmap_cons.
    f_equal; [exact Ht | exact IH].
  - revert k. induction l as [|t l IH]; intros [|t' k]; simpl; try done.
    intros [Ht Hl]%(inj2 cons).
    constructor; [exact Ht | by apply IH].
Qed.

(** Equivalent tokens have the same type, text and value. *)
Lemma token_equiv_fields t1 t2 :
  t1 ≡ t2
  ↔ tok_type t1 = tok_type t2 ∧ tok_raw t1 = tok_raw t2
    ∧ tok_value t1 = tok_value t2.
Proof.
  unfold equiv, token_equiv, bare, mk_token. destruct t1, t2; simpl.
  naive_solver.
Qed.

Lemma bare_equiv t : bare t ≡ t.
Proof. reflexivity. Qed.

#[export] Instance tok_type_proper : Proper ((≡) ==> (=)) tok_type.
Proof. intros t1 t2 Ht. by apply (f_equal tok_type) in Ht. Qed.
#[export] Instance tok_raw_proper : Proper ((≡) ==> (=)) tok_raw.
Proof. intros t1 t2 Ht. by apply (f_equal tok_raw) in Ht. Qed.
#[export] Instance tok_value_proper : Proper ((≡) ==> (=)) tok_value.
Proof. intros t1 t2 Ht. by apply (f_equal tok_value) in Ht. Qed.

(** The repositioned tokens are the tokens, up to ranges. *)
Lemma reposition_equiv p tokens : reposition p tokens ≡ tokens.
Proof.
  revert p. induction tokens as [|t tokens IH]; intros p; [done|].
  by constructor.
Qed.

(** ** The path inference *)

#[export] Instance is_punct_proper : Proper ((≡) ==> (=) ==> (=)) is_punct.
Proof.
  intros t1 t2 (Hty & Hraw & _)%token_equiv_fields c ? <-. unfold is_punct.
  by rewrite Hty, Hraw.
Qed.

#[export] Instance path_step_proper : Proper ((=) ==> (≡) ==> (=)) path_step.
Proof.
  intros st ? <- t1 t2 Ht. unfold path_step.
  rewrite !(is_punct_proper _ _ Ht _ _ eq_refl).
  apply token_equiv_fields in Ht as (-> & _ & ->). done.
Qed.

#[export] Instance getPathInObject_proper :
  Proper ((≡) ==> (=)) getPathInObject.
Proof.
  intros l k Hlk. unfold getPathInObject. cbv zeta.
  enough (∀ st, foldl path_step st l = foldl path_step st k) as -> by done.
  induction Hlk as [|t1 t2 l k Ht _ IH]; intros st; [done|].
  simpl. rewrite (path_step_proper _ _ eq_refl _ _ Ht). apply IH.
Qed.

(** ** The builder *)

Lemma shape_set_parent n : shape (set_parent n) = set_parent (shape n).
Proof. by destruct n. Qed.

Lemma leaf_of_bare ty v tokens cur :
  (∀ t, v (bare t) = v t) →
  leaf_of ty v (bare <$> tokens) cur = shaped <$> leaf_of ty v tokens cur.
Proof.
  intros Hv. unfold leaf_of. rewrite list_lookup_fmap.
  destruct (tokens !! cur) as [t|]; [|done]. simpl. by rewrite Hv.
Qed.

Section containers.
Context (rec rec' : nat → outcome (option (nat * ast))).
Context (tokens : list token).
Context (Hrec : ∀ cur, rec' cur = option_map shaped <$> rec cur).

Lemma parse_children_bare fuel close curr children :
  parse_children rec' (bare <$> tokens) fuel close curr (shape <$> children)
  = shaped_list <$> parse_children rec tokens fuel close curr children.
Proof.
  revert curr children. induction fuel as [|fuel IH]; intros curr children;
    [done|].
  cbn [parse_children]. rewrite list_lookup_fmap, Hrec.
  destruct (tokens !! curr) as [t|]; [|done]. simpl.
  case_decide; [|done].
  destruct (rec curr) as [[[next child]|]| |]; try done. simpl.
  rewrite <- IH, fmap_app. simpl. by rewrite shape_set_parent.
Qed.

Lemma parse_container_bare ty fuel cur :
  parse_container ty rec' (bare <$> tokens) fuel cur
  = shaped <$> parse_container ty rec tokens fuel cur.
Proof.
  unfold parse_container, parseToken, container_position.
  rewrite leaf_of_bare by done. unfold leaf_of.
  rewrite !list_lookup_fmap.
  destruct (tokens !! cur) as [topen|]; [|done]. simpl.
  pose proof (parse_children_bare fuel (close_raw ty) (cur + 1)
                [Leaf Punctuation (tok_raw topen)
                   (Some (VString (tok_raw topen))) (tok_position topen) true])
    as Hc. simpl in Hc. rewrite Hc. clear Hc.
  destruct (parse_children rec tokens _ _ _ _) as [[curr children]| |];
    try done.
  simpl. rewrite list_lookup_fmap.
  destruct (tokens !! curr) as [tclose|]; [|done]. simpl.
  unfold shaped. simpl. rewrite fmap_app. by destruct (close_has_parent ty).
Qed.

End containers.

Lemma fmap_Some_fmap {A B} (f : A → B) (m : outcome A) :
  Some <$> (f <$> m) = option_map f <$> (Some <$> m).
Proof. by destruct m. Qed.

(** The builder on bare tokens builds the shape of the tree. *)
Lemma parseTokens_bare fuel tokens cur :
  parseTokens fuel (bare <$> tokens) cur
  = option_map shaped <$> parseTokens fuel tokens cur.
Proof.
  revert cur. induction fuel as [|fuel IH]; intros cur; [done|].
  cbn [parseTokens]. rewrite list_lookup_fmap.
  destruct (tokens !! cur) as [t|] eqn:Ht; [|done]. simpl.
  unfold parseInlineComment, parseMultilineComment, parseWhitespace,
    parseString, parseLiteral, parseNumber, parseToken.
  rewrite !parseObject_container, !parseArray_container.
  rewrite !(parse_container_bare _ _ _ IH), !leaf_of_bare by done.
  destruct (tok_type t); try done; repeat case_decide; try done;
    apply fmap_Some_fmap.
Qed.

Lemma parseTokens_root_bare tokens :
  parseTokens_root (bare <$> tokens) = shape <$> parseTokens_root tokens.
Proof.
  unfold parseTokens_root. rewrite length_fmap, parseTokens_bare.
  by destruct (parseTokens _ _ _) as [[[]|]| |].
Qed.

#[export] Instance parseTokens_root_proper :
  Proper ((≡) ==> (≡)) parseTokens_root.
Proof.
  intros l k Hlk%list_equiv_bare.
  pose proof (parseTokens_root_bare l) as Hl.
  rewrite Hlk, parseTokens_root_bare in Hl.
  destruct (parseTokens_root l), (parseTokens_root k); simplify_eq/=; done.
Qed.

(** ** Trees *)

(** Equivalent trees are leaves with the same fields, or containers of the
    same type with equivalent children. *)
Lemma ast_equiv_Leaf type raw value position hp n :
  Leaf type raw value position hp ≡ n
  ↔ ∃ position', n = Leaf type raw value position' hp.
Proof.
  unfold equiv, ast_equiv. destruct n; simpl; [|by split; [|intros []]].
  split; [intros [= -> -> -> ->]; by eauto | by intros [? [= -> -> -> _ ->]]].
Qed.

Lemma ast_equiv_Container type children position hp n :
  Container type children position hp ≡ n
  ↔ ∃ children' position',
      n = Container type children' position' hp ∧ children ≡ children'.
Proof.
  unfold equiv at 1, ast_equiv. destruct n as [|type' children' position' hp'];
    simpl; [by split; [|intros (? & ? & ? & ?)]|].
  split.
  - intros [= -> Hc ->]. eexists _, _. split; [done|].
    revert children' Hc. induction children as [|c cs IH];
      intros [|c' cs'] Hc; try done; [constructor|].
    apply (inj2 cons) in Hc as [Hc Hcs]. constructor; [exact Hc | by apply IH].
  - intros (? & ? & [= -> -> _ ->] & Hc). f_equal.
    induction Hc as [|c c' cs cs' Hc _ IH]; [done|].
    simpl. f_equal; [exact Hc | exact IH].
Qed.

#[export] Instance has_parent_proper : Proper ((≡) ==> (=)) has_parent.
Proof.
  intros [] n2; [intros [? ->]%ast_equiv_Leaf
                |intros (? & ? & -> & _)%ast_equiv_Container]; done.
Qed.

#[export] Instance is_value_proper : Proper ((≡) ==> (=)) is_value.
Proof.
  intros [] n2; [intros [? ->]%ast_equiv_Leaf
                |intros (? & ? & -> & _)%ast_equiv_Container]; done.
Qed.

#[export] Instance key_value_proper : Proper ((≡) ==> (=)) key_value.
Proof.
  intros [] n2; [intros [? ->]%ast_equiv_Leaf
                |intros (? & ? & -> & _)%ast_equiv_Container]; done.
Qed.

#[export] Instance ast_children_proper : Proper ((≡) ==> (≡)) ast_children.
Proof.
  intros [] n2; [intros [? ->]%ast_equiv_Leaf
                |intros (? & ? & -> & ?)%ast_equiv_Container]; done.
Qed.

#[export] Instance set_parent_proper : Proper ((≡) ==> (≡)) set_parent.
Proof.
  intros n1 n2 Hn. unfold equiv, ast_equiv. rewrite !shape_set_parent.
  by f_equal.
Qed.

(** The text of a tree. *)
#[export] Instance ast_raw_proper : Proper ((≡) ==> (=)) ast_raw.
Proof.
  intros n1. induction n1 as [|type children position hp IH] using ast_ind';
    intros n2; [by intros [? ->]%ast_equiv_Leaf|].
  intros (children' & ? & -> & Hc)%ast_equiv_Container.
  rewrite !ast_raw_Container. f_equal.
  induction Hc as [|c c' cs cs' Hc _ IHc]; [done|].
  apply Forall_cons in IH as [Hh Ht]. rewrite !fmap_cons.
  f_equal; [by apply Hh | by apply IHc].
Qed.

(** The node at a path. *)
#[export] Instance node_at_proper : Proper ((≡) ==> (=) ==> (≡)) node_at.
Proof.
  intros n1 n2 Hn path ? <-. revert n1 n2 Hn.
  induction path as [|i path IH]; intros n1 n2 Hn; simpl; [by constructor|].
  pose proof (ast_children_proper _ _ Hn) as Hc.
  pose proof (list_lookup_proper i _ _ Hc) as Hi.
  destruct Hi as [c1 c2 Hcc|]; simpl; [by apply IH | constructor].
Qed.

(** ** The key queries *)

Lemma refs_equiv children1 children2 :
  children1 ≡ children2 → Forall2 ref_equiv (refs children1) (refs children2).
Proof.
  intros Hc. apply Forall2_lookup. intros i. unfold refs.
  rewrite !list_lookup_imap.
  by destruct (list_lookup_proper i _ _ Hc); constructor.
Qed.

Lemma ref_is_value_equiv r1 r2 :
  ref_equiv r1 r2 → ref_is_value r1 = true ↔ ref_is_value r2 = true.
Proof. intros [_ Hr]. unfold ref_is_value. by rewrite (is_value_proper _ _ Hr). Qed.

(** The values of equivalent arrays, and the reference found among them. *)
Lemma find_value_equiv children1 children2 j :
  children1 ≡ children2 →
  option_Forall2 (λ a r, a.1 = r.1 ∧ ref_equiv a.2 r.2)
    (list_find (λ value, value.1 = j)
       (extractValues_Array ref_is_value (refs children1)))
    (list_find (λ value, value.1 = j)
       (extractValues_Array ref_is_value (refs children2))).
Proof.
  intros Hc. rewrite !extractValues_Array_filter.
  apply list_find_Forall2; [by intros ? ? [-> _]|].
  apply Forall2_filter; [apply ref_is_value_equiv | by apply refs_equiv].
Qed.

(** The pairs of equivalent objects, and the pair found among them. *)
Lemma find_pair_equiv children1 children2 j :
  children1 ≡ children2 →
  option_Forall2
    (λ a r, a.1 = r.1
            ∧ option_Forall2 ref_equiv (a.2).1 (r.2).1
            ∧ ref_equiv (a.2).2 (r.2).2)
    (list_find (λ kv, (kv.2).1 = j)
       (extractValues_Object ref_is_value (refs children1)))
    (list_find (λ kv, (kv.2).1 = j)
       (extractValues_Object ref_is_value (refs children2))).
Proof.
  intros Hc. rewrite !extractValues_Object_pair_up.
  apply (list_find_Forall2
           (λ a r, option_Forall2 ref_equiv a.1 r.1 ∧ ref_equiv a.2 r.2));
    [by intros ? ? [_ [-> _]]|].
  apply Forall2_pair_up, Forall2_filter;
    [apply ref_is_value_equiv | by apply refs_equiv].
Qed.

#[export] Instance getKeyInParent_proper :
  Proper ((≡) ==> (=) ==> (=)) getKeyInParent.
Proof.
  intros r1 r2 Hr path ? <-. unfold getKeyInParent.
  destruct (node_at_proper _ _ Hr path path eq_refl) as [n1 n2 Hn|];
    simpl; [|done].
  rewrite (has_parent_proper _ _ Hn).
  destruct (if has_parent n2 then unsnoc path else None) as [[pp j]|]; [|done].
  destruct (node_at_proper _ _ Hr pp pp eq_refl) as [p1 p2 Hp|];
    simpl; [|done].
  destruct p1 as [|[] cs1 ? ?];
    [apply ast_equiv_Leaf in Hp as [? ->]; done|..];
    apply ast_equiv_Container in Hp as (cs2 & ? & -> & Hc).
  - destruct (find_pair_equiv cs1 cs2 j Hc)
      as [[? [k1 ?]] [? [k2 ?]] (_ & Hk & _)|]; simpl in *; [|done].
    destruct Hk as [? ? [_ Hk]|]; simpl; [|done].
    by rewrite (key_value_proper _ _ Hk).
  - destruct (find_value_equiv cs1 cs2 j Hc) as [[] [] [? _]|];
      simpl in *; [by subst | done].
Qed.

#[export] Instance isKeyInParent_proper :
  Proper ((≡) ==> (=) ==> (=)) isKeyInParent.
Proof.
  intros r1 r2 Hr path ? <-. unfold isKeyInParent.
  destruct (node_at_proper _ _ Hr path path eq_refl) as [n1 n2 Hn|];
    simpl; [|done].
  rewrite (has_parent_proper _ _ Hn).
  destruct n1 as [ty ? ? ? ?|];
    [apply ast_equiv_Leaf in Hn as [? ->]
    |apply ast_equiv_Container in Hn as (? & ? & -> & _); done].
  destruct ty; try done. simpl.
  match goal with |- context [if ?b then unsnoc path else None] =>
    destruct (if b then unsnoc path else None) as [[pp j]|] end; [|done].
  destruct (node_at_proper _ _ Hr pp pp eq_refl) as [p1 p2 Hp|];
    simpl; [|done].
  destruct p1 as [|[] cs1 ? ?];
    [apply ast_equiv_Leaf in Hp as [? ->]; done|..];
    apply ast_equiv_Container in Hp as (cs2 & ? & -> & Hc); [|done].
  by destruct (find_pair_equiv cs1 cs2 j Hc).
Qed.

(** ** The ranges of a reader *)

Lemma skew_false p : skew false p = p.
Proof. destruct p. unfold skew. simpl. f_equal. lia. Qed.

(** Tokens without a line feed that the loop positioned have the ranges of
    a reader. *)
Lemma reposition_positioned p toks :
  positioned p toks → LF%js ∉ mjoin (tok_raw <$> toks) →
  reposition p toks = toks.
Proof.
  revert p. induction toks as [|t toks IH]; intros p; [done|].
  cbn [positioned reposition fmap list_fmap mjoin list_join].
  rewrite not_elem_of_app. intros [Hpos Hp] [Hraw Hrest].
  assert (advance p (tok_raw t) = foldl walk p (tok_raw t)) as Hadv.
  { rewrite <- (skew_false p) at 1. rewrite advance_skew.
    by rewrite bool_decide_eq_false_2, skew_false. }
  rewrite Hadv in Hpos, Hp. rewrite (IH _ Hp Hrest), <- Hpos. by destruct t.
Qed.

(** A line feed in a token puts the end of that token one column to the
    right of where a reader is. *)
Lemma reposition_skewed p toks :
  positioned p toks → reposition p toks = toks →
  LF%js ∉ mjoin (tok_raw <$> toks).
Proof.
  revert p. induction toks as [|t toks IH]; intros p; [by intros _ _ ?%elem_of_nil|].
  cbn [positioned reposition fmap list_fmap mjoin list_join].
  intros [Hpos Hp] [Ht Hrest]%(inj2 cons).
  assert (LF%js ∉ tok_raw t) as Hraw.
  { apply (f_equal (λ t, column (range_end (tok_position t)))) in Ht.
    rewrite Hpos in Ht. simpl in Ht.
    rewrite <- (skew_false p) in Ht at 2. rewrite advance_skew in Ht.
    simpl in Ht. case_bool_decide; [lia | done]. }
  rewrite not_elem_of_app. split; [done|]. apply (IH (advance p (tok_raw t)));
    [done|].
  rewrite <- (skew_false p) at 1. rewrite advance_skew.
  by rewrite bool_decide_eq_false_2, skew_false.
Qed.

(** ** Theorems *)

(** C12. The ranges [tokenize] assigns are the ranges a reader of the
    text counts (lines and columns from 1, a line feed starting a line at
    column 1) exactly when no token holds a line feed. *)
Theorem tokenize_ranges_reader json toks :
  tokenize json = Ok toks →
  reposition start_position toks = toks
  ↔ LF%js ∉ mjoin (tok_raw <$> toks).
Proof.
  intros Hp%tokenize_Ok_positioned.
  split; [by apply reposition_skewed | by apply reposition_positioned].
Qed.

Lemma tokenize_ranges_reader_witness :
  reposition start_position sample_lexed = sample_lexed
  ↔ LF%js ∉ mjoin (tok_raw <$> sample_lexed).
Proof. apply (tokenize_ranges_reader sample_text). by vm_compute. Defined.

(** C18. The column error after a line feed stays in the ranges: the tree
    [parseTokens(tokenize(json))] is, up to the ranges of its nodes, the
    tree built from the tokens with the ranges of a reader; it has the
    same text, and [getKeyInParent] and [isKeyInParent] answer the same at
    every path; and the two trees are equal when the text has no line
    feed in a token. *)
Theorem parse_text_ranges json n :
  parse_text json = Ok n →
  ∃ n', parse_text_reader json = Ok n' ∧ n' ≡ n
        ∧ ast_raw n' = ast_raw n
        ∧ (∀ path, getKeyInParent n' path = getKeyInParent n path
                   ∧ isKeyInParent n' path = isKeyInParent n path)
        ∧ (LF%js ∉ json → n' = n).
Proof.
  intros (toks & Htok & Hroot)%parse_text_Ok.
  unfold parse_text_reader. rewrite Htok. simpl.
  pose proof (parseTokens_root_proper _ _ (reposition_equiv start_position toks))
    as Hn. rewrite Hroot in Hn.
  destruct (parseTokens_root (reposition _ _)) as [n'| |] eqn:Hr; try done.
  exists n'. change (n' ≡ n) in Hn. split_and!; [done|done|by rewrite Hn| |].
  - intros path. by rewrite Hn.
  - intros Hlf. enough (reposition start_position toks = toks) as Heq
      by (rewrite Heq in Hr; congruence).
    apply reposition_positioned; [by eapply tokenize_Ok_positioned|].
    apply tokenize_Ok_prefix in Htok as (rest & -> & _). set_solver.
Qed.

Lemma parse_text_ranges_witness :
  ∃ n', parse_text_reader doc = Ok n' ∧ n' ≡ doc_tree
        ∧ ast_raw n' = ast_raw doc_tree
        ∧ (∀ path, getKeyInParent n' path = getKeyInParent doc_tree path
                   ∧ isKeyInParent n' path = isKeyInParent doc_tree path)
        ∧ (LF%js ∉ doc → n' = doc_tree).
Proof. apply parse_text_ranges. by vm_compute. Defined.

(** [findAtPosition] reads the ranges: in the text of a bracket, a line
    feed, a digit and a bracket, the position 2:2 is in the digit for a
    reader and in the white space for the tree of [tokenize]. *)
Example findAtPosition_ranges :
  let json := js "[" ++ [LF%js] ++ js "1]" in
  let position := {| lineNumber := 2; column := 2 |} in
  (n ← parse_text json; Ok (findAtPosition n position)) = Ok (Found [1])
  ∧ (n ← parse_text_reader json; Ok (findAtPosition n position))
    = Ok (Found [2]).
Proof. by vm_compute. Qed.
