(* ===== verification/Json.v ===== *)
(** * Json: values, their texts, and the tokens of these texts

    A JSON value and the texts that stand for it: the compact text
    [JSON.stringify] writes (no white space, members and elements
    separated by commas), the indented text of [JSON.stringify] with an
    indentation, and any text that puts white space and comments between
    the tokens.  A [text_layout] says which white space and comments
    stand at each place of the text; the class [Spacing] says what makes
    them harmless.  The theorem of this file says that [tokenize] reads the
    text of a value in a layout as exactly the tokens it was made of: no
    token ends early or runs into the next one.  [Document] builds the
    tree of these tokens and reads the value back. *)

From S2P Require Import Prelude Regex Token Tokenizer Prefix Scanner PathAt.
From S2P Require Import Shape.

(** ** Values *)

#[local] Set Warnings "-register-all".

(** A value: a string, a natural number, [true], [false], [null], an
    object as the list of its members, or an array. *)
Inductive json :=
| JString (s : jstring)
| JNumber (n : N)
| JBool (b : bool)
| JNull
| JObject (members : list (jstring * json))
| JArray (elements : list json).

(** A value without arrays: the documents the path inference is
    written for. *)
Fixpoint objects_only (v : json) : bool :=
  match v with
  | JObject members => forallb (λ m, objects_only m.2) members
  | JArray _ => false
  | _ => true
  end.

(** The keys of the objects of a value, in the order of its text. *)
Fixpoint keys_in (v : json) : list jstring :=
  match v with
  | JObject members => m ← members; m.1 :: keys_in m.2
  | JArray elements => elements ≫= keys_in
  | _ => []
  end.

(** ** Decimal numbers *)

(** The decimal digits of [n], the most significant first; [fuel] bounds
    their number. *)
Fixpoint decimal_digits (fuel : nat) (n : N) : jstring :=
  match fuel with
  | 0 => []
  | S fuel' =>
    if (n <? 10)%N then [48 + n]%N
    else decimal_digits fuel' (n / 10) ++ [48 + n mod 10]%N
  end.

(** The decimal text of [n], which is what [String(n)] gives for the
    integers JavaScript holds exactly; a number has no more decimal
    digits than binary ones. *)
Definition decimal (n : N) : jstring :=
  decimal_digits (S (N.to_nat (N.size n))) n.

(** ** The words of a text *)

(** A word is a token without its range: the type, the text and the
    value. *)
Definition word (type : token_type) (raw : jstring) (value : jsval) : token :=
  mk_token type no_range raw value.

Definition punctuation_word (c : string) : token :=
  word T_punctuation (js c) (VString (js c)).

(** The lists [ls] with [sep] between them, [first] before them and
    [last] after them; nothing when there is no list. *)
Definition enclosed {A} (first sep last : list A) (ls : list (list A))
    : list A :=
  match ls with
  | [] => []
  | l :: ls' => first ++ l ++ mjoin ((λ k, sep ++ k) <$> ls') ++ last
  end.

(** The number the tokenizer makes of the decimal text of [n]. *)
Definition natural (n : N) : jsval :=
  VNumber {| num_neg := false; num_mantissa := n; num_exp10 := 0 |}.

(** ** Layouts *)

(** The places of a text where white space and comments may stand:
    after the opening brace or bracket of a container that is not empty,
    after a key, after the colon, before and after a comma, and before
    the closing brace or bracket. *)
Inductive place :=
| AfterOpen | AfterKey | AfterColon | BeforeComma | AfterComma | BeforeClose.

(** A layout gives the words that stand at a place of a container, given
    the number of containers around it. *)
Definition text_layout : Type := nat → place → list token.

(** The layout of [JSON.stringify(v)]: nothing anywhere. *)
Definition compact : text_layout := λ _ _, [].

Definition whitespace_word (s : jstring) : token :=
  word T_whitespace s (VString s).

(** A line feed and the indentation of [depth] levels of two spaces. *)
Definition newline (depth : nat) : list token :=
  [whitespace_word (10%N :: replicate (2 * depth) 32%N)].

(** A line comment and a block comment with the text [body], after a
    space and before the end of the line. *)
Definition line_comment (body : jstring) : list token :=
  [whitespace_word (js " ");
   word T_inlinecomment (js "//" ++ body) (VString body);
   whitespace_word [10%N]].

Definition block_comment (body : jstring) : list token :=
  [whitespace_word (js " ");
   word T_multilinecomment (js "/*" ++ body ++ js "*/") (VString body);
   whitespace_word [10%N]].

(** A layout with comments: a block comment after every key and before
    every comma, a line comment at every other place. *)
Definition commented (body : jstring) : text_layout := λ _ p,
  match p with
  | AfterKey | BeforeComma => block_comment body
  | _ => line_comment body
  end.

(** The layout of [JSON.stringify(v, null, 2)]: every member and
    element on a line of its own, indented by two spaces for each
    container around it, a space after the colon, the closing brace or
    bracket on a line of its own. *)
Definition indented : text_layout := λ depth p,
  match p with
  | AfterOpen | AfterComma => newline (S depth)
  | AfterColon => [whitespace_word (js " ")]
  | BeforeClose => newline depth
  | AfterKey | BeforeComma => []
  end.

(** A comma with what stands before and after it. *)
Definition comma (gap : text_layout) (depth : nat) : list token :=
  gap depth BeforeComma ++ punctuation_word "," :: gap depth AfterComma.

(** The words of the text of a value in the layout [gap], [depth]
    containers deep. *)
Fixpoint words (gap : text_layout) (depth : nat) (v : json) : list token :=
  match v with
  | JString s => [word T_string (JSON_stringify s) (VString s)]
  | JNumber n => [word T_number (decimal n) (natural n)]
  | JBool b =>
    [word T_literal (js (if b then "true" else "false")) (VBool b)]
  | JNull => [word T_literal (js "null") VNull]
  | JObject members =>
    punctuation_word "{"
    :: enclosed (gap depth AfterOpen) (comma gap depth) (gap depth BeforeClose)
         ((λ m, word T_string (JSON_stringify m.1) (VString m.1)
                :: gap depth AfterKey
                ++ punctuation_word ":" :: gap depth AfterColon
                ++ words gap (S depth) m.2) <$> members)
    ++ [punctuation_word "}"]
  | JArray elements =>
    punctuation_word "["
    :: enclosed (gap depth AfterOpen) (comma gap depth) (gap depth BeforeClose)
         (words gap (S depth) <$> elements)
    ++ [punctuation_word "]"]
  end.

(** The text of a value in a layout. *)
Definition text (gap : text_layout) (v : json) : jstring :=
  mjoin (tok_raw <$> words gap 0 v).

(** [JSON.stringify(v)]: the compact text of a value. *)
Definition stringify (v : json) : jstring := text compact v.

(** ** Words that the tokenizer reads *)

(** The entries of the table for literals, numbers and punctuation. *)
Definition literal_type : tokenType :=
  {| regexp := re_literal; create := create_literal |}.
Definition number_type : tokenType :=
  {| regexp := re_number; create := create_number |}.
Definition punctuation_type : tokenType :=
  {| regexp := re_punctuation; create := create_punctuation |}.
Definition whitespace_type : tokenType :=
  {| regexp := re_whitespace; create := create_whitespace |}.
Definition inlinecomment_type : tokenType :=
  {| regexp := re_inlinecomment; create := create_inlinecomment |}.
Definition multilinecomment_type : tokenType :=
  {| regexp := re_multilinecomment; create := create_multilinecomment |}.

(** The tokenizer reads the word [w] at the start of its text followed
    by [rest]. *)
Definition lexes (w : token) (rest : jstring) : Prop :=
  ∃ t, first_match tokenTypes (tok_raw w ++ rest) = Some (t, tok_raw w)
     ∧ ∀ range, create t (tok_raw w) range
                = Ok (mk_token (tok_type w) range (tok_raw w) (tok_value w)).

(** It reads the words [ws], one after the other, when [rest] follows
    them. *)
Fixpoint lexable (ws : list token) (rest : jstring) : Prop :=
  match ws with
  | [] => True
  | w :: ws' => lexes w (mjoin (tok_raw <$> ws') ++ rest) ∧ lexable ws' rest
  end.

(** A text that ends a number: empty, or one that starts with no digit,
    dot or letter of an exponent. *)
Definition delimited (rest : jstring) : Prop :=
  match rest with
  | [] => True
  | c :: _ => is_digit c = false ∧ c ∉ [46; 69; 101]%N
  end.

(** A text that ends white space: empty, or one that starts with no
    white space. *)
Definition solid (rest : jstring) : Prop :=
  match rest with
  | [] => True
  | c :: _ => is_space c = false
  end.

(** A text that ends a line: empty, or one that starts with a line
    terminator. *)
Definition ends_line (rest : jstring) : Prop :=
  match rest with
  | [] => True
  | c :: _ => is_dot c = false
  end.

(** A text that ends a member or an element: empty, or one that starts
    with a comma or a closing brace or bracket. *)
Definition closing (rest : jstring) : Prop :=
  match rest with
  | [] => True
  | c :: _ => c ∈ [44; 93; 125]%N
  end.

(** Words that may stand at a place of a text: white space and comments
    that the tokenizer reads one by one when no white space follows
    them, and that end a number that stands before them. *)
Class Gap (g : list token) : Prop := {
  gap_trivia : Forall (λ w, is_trivia w = true) g;
  gap_lexable rest : solid rest → lexable g rest;
  gap_delimited rest :
    delimited rest → delimited (mjoin (tok_raw <$> g) ++ rest)
}.

(** An item of a container: words that are read one by one when a
    delimited text follows them, and that start with no white space. *)
Definition spaced_item (l : list token) : Prop :=
  (∀ rest, delimited rest → lexable l rest)
  ∧ (∀ rest, solid (mjoin (tok_raw <$> l) ++ rest)).

(** A layout all places of which hold such words. *)
Class Spacing (gap : text_layout) : Prop :=
  spacing_gap depth p :: Gap (gap depth p).

(** ** Lemmas on decimal numbers *)

(** Arithmetic on a number, its last decimal digit and the number
    without it. *)
Ltac decimal_lia n :=
  pose proof (N.div_mod n 10 ltac:(done));
  pose proof (N.mod_upper_bound n 10 ltac:(done));
  generalize dependent (n `mod` 10)%N; generalize dependent (n / 10)%N;
  intros; lia.

Lemma digits_value_snoc ds d :
  digits_value (ds ++ [d]) = (10 * digits_value ds + (d - 48))%N.
Proof. unfold digits_value. by rewrite foldl_app. Qed.

(** With enough fuel the digits are those of the number: they are
    digits, the first is no zero unless the number is, and their value
    is the number. *)
Lemma decimal_digits_spec fuel : ∀ n,
  (n < 2 ^ N.of_nat fuel)%N →
  let ds := decimal_digits (S fuel) n in
  Forall (λ d, is_digit d = true) ds
  ∧ digits_value ds = n
  ∧ ∃ d ds', ds = d :: ds' ∧ (d = 48%N → n = 0%N).
Proof.
  induction fuel as [|fuel IH]; intros n Hn; cbn [decimal_digits].
  - assert (n = 0%N) as -> by (simpl in Hn; lia). simpl.
    split_and!; [by repeat constructor|done|by exists 48%N, []].
  - destruct (N.ltb_spec n 10) as [Hlt|Hge].
    + split_and!.
      * repeat constructor. apply is_digit_spec. lia.
      * unfold digits_value. simpl. lia.
      * exists (48 + n)%N, []. split; [done|lia].
    + assert (n / 10 < 2 ^ N.of_nat fuel)%N as Hdiv.
      { apply N.Div0.div_lt_upper_bound.
        rewrite Nat2N.inj_succ, N.pow_succ_r' in Hn. lia. }
      destruct (IH _ Hdiv) as (Hds & Hv & d & ds' & Heq & Hd).
      cbn [decimal_digits] in Hds, Hv, Heq. split_and!.
      * apply Forall_app. split; [done|]. repeat constructor.
        apply is_digit_spec. clear -n. decimal_lia n.
      * rewrite digits_value_snoc, Hv. clear -n. decimal_lia n.
      * exists d, (ds' ++ [48 + n mod 10]%N). rewrite Heq. split; [done|].
        intros Hd0%Hd. clear -Hd0 Hge. decimal_lia n.
Qed.

Lemma decimal_spec n :
  Forall (λ d, is_digit d = true) (decimal n)
  ∧ digits_value (decimal n) = n
  ∧ ∃ d ds, decimal n = d :: ds ∧ (d = 48%N → n = 0%N).
Proof.
  apply decimal_digits_spec. rewrite N2Nat.id. apply N.size_gt.
Qed.

Lemma decimal_0 : decimal 0 = [48%N].
Proof. done. Qed.

Lemma take_while_all p s : Forall (λ c, p c = true) s → take_while p s = s.
Proof. induction 1 as [|c s Hc _ IH]; simpl; [done|]. by rewrite Hc, IH. Qed.

Lemma drop_while_app p s rest :
  Forall (λ c, p c = true) s → drop_while p (s ++ rest) = drop_while p rest.
Proof. induction 1 as [|c s Hc _ IH]; simpl; [done|]. by rewrite Hc. Qed.

Lemma drop_while_all p s : Forall (λ c, p c = true) s → drop_while p s = [].
Proof. induction 1 as [|c s Hc _ IH]; simpl; [done|]. by rewrite Hc. Qed.

(** The unary plus on the decimal text of a natural number. *)
Lemma to_number_decimal n : VNumber (to_number (decimal n)) = natural n.
Proof.
  destruct (decimal_spec n) as (Hds & Hv & d & ds & Heq & _).
  unfold to_number, natural. rewrite Heq in *.
  apply Forall_cons in Hds as Hd. destruct Hd as [Hd%is_digit_spec _].
  rewrite bool_decide_eq_false_2 by (simpl; intros [= ->]; lia).
  rewrite (take_while_all _ _ Hds), (drop_while_all _ _ Hds). simpl.
  by rewrite app_nil_r, Hv.
Qed.

(** ** Which entry of the table reads a word *)

Lemma first_scan_at i : ∀ types scanners t scanner raw rest,
  types !! i = Some t → scanners !! i = Some scanner →
  Forall (λ sc : jstring → option jstring, sc (raw ++ rest) = None)
    (take i scanners) →
  scanner (raw ++ rest) = Some rest →
  first_scan types scanners (raw ++ rest) = Some (t, raw).
Proof.
  induction i as [|i IH]; intros [|t' types] [|sc scanners] t scanner raw rest;
    try done; simpl.
  - intros [= ->] [= ->] _ ->.
    by rewrite length_app, Nat.add_sub, take_app_length.
  - intros Ht Hsc [-> Hall]%Forall_cons Hs. by apply (IH _ _ _ scanner).
Qed.

(** The entry [i] of the table reads [raw] at the start of a text when
    its scanner does and the scanners before it read nothing. *)
Lemma first_match_at i t scanner raw rest :
  tokenTypes !! i = Some t → scanners !! i = Some scanner →
  Forall (λ sc : jstring → option jstring, sc (raw ++ rest) = None)
    (take i scanners) →
  scanner (raw ++ rest) = Some rest →
  first_match tokenTypes (raw ++ rest) = Some (t, raw).
Proof.
  rewrite (first_match_first_scan _ _ _ scanners_table). apply first_scan_at.
Qed.

Lemma lexes_punctuation c rest :
  c ∈ ["{"; "}"; "["; "]"; ":"; ","]%string → lexes (punctuation_word c) rest.
Proof.
  intros Hc. exists punctuation_type. split; [|done].
  apply (first_match_at 6 _ scan_punctuation); [done..| |];
    set_unfold in Hc; destruct_or!; subst; try done;
    repeat constructor; by destruct rest.
Qed.

Lemma lexes_string s rest :
  lexes (word T_string (JSON_stringify s) (VString s)) rest.
Proof.
  exists string_type. split.
  - apply (first_match_at 3 _ scan_quoted); [done..| |].
    + unfold JSON_stringify. simpl.
      generalize ((quote_chars s ++ [34%N]) ++ rest).
      intros l. repeat constructor; by destruct l.
    + unfold JSON_stringify. simpl. rewrite <- (assoc_L (++)).
      apply scan_string_quote_chars.
  - intros range. simpl. unfold create_string.
    by rewrite JSON_parse_stringify.
Qed.

Lemma lexes_literal raw value rest :
  (raw, value) ∈ [(js "true", VBool true); (js "false", VBool false);
                  (js "null", VNull)] →
  lexes (word T_literal raw value) rest.
Proof.
  intros Hw. exists literal_type. split.
  - apply (first_match_at 4 _ scan_literal); [done..| |];
      set_unfold in Hw; destruct_or!; simplify_eq; try done;
      repeat constructor; by destruct rest.
  - intros range. set_unfold in Hw. by destruct_or!; simplify_eq.
Qed.

(** After the digits of a number the number scanner reads no more of a
    delimited text. *)
Lemma scan_tail_delimited rest :
  delimited rest →
  drop_while is_digit rest = rest ∧ scan_exp (scan_frac rest) = rest.
Proof.
  destruct rest as [|c rest]; [done|]. simpl. intros [-> Hc].
  split; [done|]. rewrite decide_False by set_solver. simpl.
  unfold one_of. rewrite bool_decide_eq_false_2; [done|]. set_solver.
Qed.

Lemma is_space_digit d : is_digit d = true → is_space d = false.
Proof.
  intros Hd%is_digit_spec. unfold is_space. apply orb_false_iff. split.
  - apply bool_decide_eq_false. set_unfold. lia.
  - apply andb_false_iff. left. apply N.leb_gt. lia.
Qed.

Lemma scan_number_decimal n rest :
  delimited rest → scan_number (decimal n ++ rest) = Some rest.
Proof.
  intros [Hdrop Htail]%scan_tail_delimited.
  destruct (decimal_spec n) as (Hds & _ & d & ds & Heq & Hd0).
  rewrite Heq in *. apply Forall_cons in Hds as [Hd Hds].
  pose proof Hd as Hd'%is_digit_spec. unfold scan_number. simpl.
  rewrite decide_False by lia. simpl. case_decide as H0.
  - pose proof (Hd0 H0) as ->. rewrite decimal_0 in Heq.
    injection Heq as _ <-. simpl. by rewrite Htail.
  - assert (in_range "1" "9" d = true) as ->.
    { apply in_range_spec. simpl. lia. }
    simpl. by rewrite (drop_while_app _ _ _ Hds), Hdrop, Htail.
Qed.

Lemma lexes_number n rest :
  delimited rest → lexes (word T_number (decimal n) (natural n)) rest.
Proof.
  intros Hrest. exists number_type. split.
  - apply (first_match_at 5 _ scan_number);
      [done..| |by apply scan_number_decimal].
    destruct (decimal_spec n) as (Hds & _ & d & ds & Heq & _). simpl.
    rewrite Heq in *. apply Forall_cons in Hds as [Hd%is_digit_spec _].
    simpl. repeat constructor.
    + destruct (ds ++ rest); simpl; [done|]. by rewrite decide_False by lia.
    + destruct (ds ++ rest); simpl; [done|]. by rewrite decide_False by lia.
    + unfold scan_whitespace.
      by rewrite is_space_digit by (apply is_digit_spec; lia).
    + unfold scan_quoted. by rewrite decide_False by (simpl; lia).
    + unfold scan_literal.
      rewrite !bool_decide_eq_false_2; [done|..];
        intros [k Hk]; simplify_eq/=; lia.
  - intros range. simpl. unfold create_number. by rewrite to_number_decimal.
Qed.

(** ** White space and comments *)

Lemma lexes_whitespace c s rest :
  Forall (λ c, is_space c = true) (c :: s) → solid rest →
  lexes (whitespace_word (c :: s)) rest.
Proof.
  intros [Hc Hs]%Forall_cons Hrest. exists whitespace_type. split; [|done].
  assert (c ∉ [47; 34]%N) as Hne.
  { intros Hin. set_unfold in Hin. by destruct_or!; subst. }
  apply (first_match_at 2 _ scan_whitespace); [done..| |].
  - simpl. repeat constructor; simpl;
      destruct (s ++ rest); try done; rewrite decide_False; set_solver.
  - simpl. rewrite Hc, (drop_while_app _ _ _ Hs).
    destruct rest as [|c' rest]; [done|]. simpl in *. by rewrite Hrest.
Qed.

Lemma drop_while_ends_line rest :
  ends_line rest → drop_while is_dot rest = rest.
Proof. destruct rest; [done|]. simpl. by intros ->. Qed.

Lemma lexes_inlinecomment body rest :
  Forall (λ c, is_dot c = true) body → ends_line rest →
  lexes (word T_inlinecomment (js "//" ++ body) (VString body)) rest.
Proof.
  intros Hbody Hrest. exists inlinecomment_type. split; [|done].
  apply (first_match_at 0 _ scan_inlinecomment); [done..|].
  simpl. by rewrite (drop_while_app _ _ _ Hbody), drop_while_ends_line.
Qed.

Lemma scan_close_ends_line rest : ends_line rest → scan_close rest = None.
Proof. destruct rest; [done|]. simpl. by intros ->. Qed.

(** The body of a block comment, its end and the end of the line. *)
Lemma scan_close_body body rest :
  Forall (λ c, is_dot c = true) body → ends_line rest →
  scan_close (body ++ js "*/" ++ rest) = Some rest.
Proof.
  intros Hbody Hrest. induction Hbody as [|c body Hc _ IH]; simpl in *.
  - by rewrite (scan_close_ends_line _ Hrest); destruct rest.
  - by rewrite Hc, IH.
Qed.

Lemma slice_neg_body (body : jstring) :
  slice_neg 2 2 (js "/*" ++ body ++ js "*/") = body.
Proof.
  change (js "/*" ++ body ++ js "*/") with (47 :: 42 :: body ++ [42; 47])%N.
  unfold slice_neg. cbn [length drop]. rewrite length_app.
  replace (S (S (length body + _)) - 2 - 2) with (length body)
    by (simpl; lia).
  apply take_app_length.
Qed.

Lemma lexes_multilinecomment body rest :
  Forall (λ c, is_dot c = true) body → ends_line rest →
  lexes (word T_multilinecomment (js "/*" ++ body ++ js "*/") (VString body))
    rest.
Proof.
  intros Hbody Hrest. exists multilinecomment_type. split.
  - apply (first_match_at 1 _ scan_multilinecomment); [done..| |].
    + by repeat constructor.
    + simpl. rewrite <- (assoc_L (++)). by apply scan_close_body.
  - intros range.
    exact (f_equal (λ b, Ok (mk_token _ range _ (VString b)))
             (slice_neg_body body)).
Qed.

(** ** Induction on values *)

(** Induction on a value, with the hypothesis for the values of the
    members of an object and for the elements of an array. *)
Lemma json_ind' (P : json → Prop) :
  (∀ s, P (JString s)) → (∀ n, P (JNumber n)) → (∀ b, P (JBool b)) →
  P JNull →
  (∀ members, Forall (λ m, P m.2) members → P (JObject members)) →
  (∀ elements, Forall P elements → P (JArray elements)) →
  ∀ v, P v.
Proof.
  intros Hs Hn Hb Hnull Ho Ha. fix IH 1. intros [s|n|b| |members|elements];
    [apply Hs|apply Hn|apply Hb|apply Hnull|apply Ho|apply Ha].
  - induction members as [|[k v] members IHm]; constructor;
      [apply IH | apply IHm].
  - induction elements as [|v elements IHe]; constructor;
      [apply IH | apply IHe].
Qed.

(** ** The words of a value are read one by one *)

Lemma lexable_app ws1 ws2 rest :
  lexable (ws1 ++ ws2) rest
  ↔ lexable ws1 (mjoin (tok_raw <$> ws2) ++ rest) ∧ lexable ws2 rest.
Proof.
  induction ws1 as [|w ws1 IH]; simpl; [naive_solver|].
  rewrite IH, fmap_app, join_app, <- (assoc_L (++)). naive_solver.
Qed.

Lemma lexes_comma rest : lexes (punctuation_word ",") rest.
Proof. apply lexes_punctuation. set_solver. Qed.

Lemma raws_app (ws1 ws2 : list token) (rest : jstring) :
  mjoin (tok_raw <$> ws1 ++ ws2) ++ rest
  = mjoin (tok_raw <$> ws1) ++ mjoin (tok_raw <$> ws2) ++ rest.
Proof. by rewrite fmap_app, join_app, <- (assoc_L (++)). Qed.

Lemma closing_delimited rest : closing rest → delimited rest.
Proof.
  destruct rest as [|c rest]; [done|]. simpl. intros Hc.
  set_unfold in Hc. destruct_or!; subst; (split; [done|set_solver]).
Qed.

Lemma closing_solid rest : closing rest → solid rest.
Proof.
  destruct rest as [|c rest]; [done|]. simpl. intros Hc.
  set_unfold in Hc. by destruct_or!; subst.
Qed.

(** ** Layouts that space a text *)

(** The text of a comment or of white space that the tokenizer reads
    is no closing brace or bracket. *)
Lemma lexes_trivia w rest :
  lexes w rest → is_trivia w = true → tok_raw w ∉ [js "]"; js "}"].
Proof.
  intros (t & Hm & Hc) Hw Hin.
  assert (∃ c, c ∈ ["]"; "}"]%string ∧ tok_raw w = js c) as (c & Hcin & Hraw).
  { set_unfold in Hin.
    destruct_or!; [exists "]"%string|exists "}"%string];
      (split; [set_solver|done]). }
  destruct (lexes_punctuation c rest) as (t' & Hm' & Hc'); [set_solver|].
  specialize (Hc no_range). specialize (Hc' no_range).
  change (tok_raw (punctuation_word c)) with (js c) in *.
  rewrite Hraw, Hm' in Hm. injection Hm as <-. rewrite Hraw, Hc' in Hc.
  injection Hc as Hty _. unfold is_trivia in Hw. by rewrite <- Hty in Hw.
Qed.

Lemma is_space_delimiter c :
  is_space c = true → is_digit c = false ∧ c ∉ [46; 69; 101]%N.
Proof.
  intros Hc. split.
  - destruct (is_digit c) eqn:Hd; [|done].
    by rewrite (is_space_digit c Hd) in Hc.
  - intros Hin. set_unfold in Hin. by destruct_or!; subst.
Qed.

#[export] Instance gap_nil : Gap [].
Proof. by split. Qed.

Lemma gap_whitespace c s :
  Forall (λ c, is_space c = true) (c :: s) → Gap [whitespace_word (c :: s)].
Proof.
  intros Hs. split.
  - by repeat constructor.
  - intros rest Hrest. split; [by apply lexes_whitespace|done].
  - intros rest _. apply Forall_cons in Hs as [Hc _]. simpl.
    by apply is_space_delimiter.
Qed.

#[export] Instance gap_newline depth : Gap (newline depth).
Proof.
  apply gap_whitespace. constructor; [done|]. by apply Forall_replicate.
Qed.

#[export] Instance gap_space : Gap [whitespace_word (js " ")].
Proof. apply (gap_whitespace 32 []). by repeat constructor. Qed.

(** A comment between a space and the end of the line. *)
Lemma gap_comment w s :
  is_trivia w = true → tok_raw w = 47%N :: s →
  (∀ rest, ends_line rest → lexes w rest) →
  Gap [whitespace_word (js " "); w; whitespace_word [10%N]].
Proof.
  intros Hw Hraw Hlex. split.
  - by repeat constructor.
  - intros rest Hrest. repeat split;
      [| |apply lexes_whitespace; [by repeat constructor|done]].
    + apply (lexes_whitespace 32 []); [by repeat constructor|].
      simpl. by rewrite Hraw.
    + by apply Hlex.
  - intros rest _. simpl. split; [done|set_solver].
Qed.

Lemma commented_spacing body :
  Forall (λ c, is_dot c = true) body → Spacing (commented body).
Proof.
  intros Hbody depth []; eapply gap_comment; try done; intros rest Hrest;
    by (apply lexes_inlinecomment || apply lexes_multilinecomment).
Qed.

#[export] Instance compact_spacing : Spacing compact.
Proof. intros depth p. apply gap_nil. Qed.

#[export] Instance indented_spacing : Spacing indented.
Proof. intros depth []; simpl; apply _. Qed.

(** ** The words of a value are read one by one *)

(** The first word of a value starts with no white space and is no
    closing brace or bracket. *)
Lemma words_head gap depth v :
  ∃ w ws c s, words gap depth v = w :: ws ∧ tok_raw w = c :: s
      ∧ is_space c = false ∧ c ∉ [93; 125]%N.
Proof.
  destruct v as [s|n|[]| |members|elements];
    try (eexists _, _, _, _; split_and!; [done..|set_solver]).
  destruct (decimal_spec n) as (Hds & _ & d & ds & Heq & _).
  exists (word T_number (decimal n) (natural n)), [], d, ds.
  rewrite Heq in Hds. apply Forall_cons in Hds as [Hd _].
  split_and!; [done|done|by apply is_space_digit|].
  apply is_digit_spec in Hd. set_unfold. lia.
Qed.

Lemma words_solid gap depth v rest :
  solid (mjoin (tok_raw <$> words gap depth v) ++ rest).
Proof.
  destruct (words_head gap depth v) as (w & ws & c & s & -> & Hraw & Hc & _).
  simpl. by rewrite Hraw.
Qed.

(** What follows the members of an object or the elements of an array:
    the closing brace or bracket. *)
Lemma lexable_container c1 c2 ws rest :
  c1 ∈ ["{"; "["]%string → c2 ∈ ["}"; "]"]%string →
  (∀ rest, closing rest → lexable ws rest) →
  lexable (punctuation_word c1 :: ws ++ [punctuation_word c2]) rest.
Proof.
  intros H1 H2 Hws. split; [apply lexes_punctuation; set_solver|].
  apply lexable_app. split.
  - apply Hws. set_unfold in H2. destruct_or!; subst; simpl; set_solver.
  - split; [apply lexes_punctuation; set_solver|done].
Qed.

Section spacing.
Context (gap : text_layout) `{!Spacing gap}.

Lemma lexable_gap depth p ws rest :
  solid (mjoin (tok_raw <$> ws) ++ rest) → lexable ws rest →
  lexable (gap depth p ++ ws) rest.
Proof. intros. apply lexable_app. split; [by apply gap_lexable|done]. Qed.

(** What follows an item of a container: a comma or the end of the
    container, with what stands before it. *)
Lemma delimited_tail depth (ls : list (list token)) rest :
  closing rest →
  delimited
    (mjoin (tok_raw <$> mjoin ((λ k, comma gap depth ++ k) <$> ls)
                        ++ gap depth BeforeClose) ++ rest).
Proof.
  intros Hrest. destruct ls as [|l ls]; simpl.
  - by apply gap_delimited, closing_delimited.
  - unfold comma. rewrite <- !(assoc_L (++)), raws_app.
    apply gap_delimited. simpl. split; [done|set_solver].
Qed.

Lemma lexable_tail depth (ls : list (list token)) rest :
  Forall spaced_item ls → closing rest →
  lexable (mjoin ((λ k, comma gap depth ++ k) <$> ls) ++ gap depth BeforeClose)
    rest.
Proof.
  intros Hls Hrest. induction Hls as [|l ls [Hl Hsolid] _ IH]; simpl.
  - by apply gap_lexable, closing_solid.
  - unfold comma at 1. rewrite <- !(assoc_L (++)).
    apply lexable_gap; [done|]. split; [apply lexes_comma|].
    apply lexable_gap; [rewrite raws_app; apply Hsolid|].
    apply lexable_app. split; [by apply Hl, delimited_tail|done].
Qed.

Lemma lexable_enclosed depth (ls : list (list token)) rest :
  Forall spaced_item ls → closing rest →
  lexable
    (enclosed (gap depth AfterOpen) (comma gap depth) (gap depth BeforeClose)
       ls) rest.
Proof.
  intros Hls Hrest. destruct Hls as [|l ls [Hl Hsolid] Hls]; [done|].
  cbn [enclosed]. apply lexable_gap; [rewrite raws_app; apply Hsolid|].
  apply lexable_app. split; [by apply Hl, delimited_tail|by apply lexable_tail].
Qed.

Lemma words_lexable v : ∀ depth rest,
  delimited rest → lexable (words gap depth v) rest.
Proof.
  induction v as [s|n|b| |members IH|elements IH] using json_ind';
    intros depth rest Hrest; cbn [words].
  - split; [apply lexes_string|done].
  - split; [by apply lexes_number|done].
  - split; [|done]. apply lexes_literal. destruct b; set_solver.
  - split; [|done]. apply lexes_literal. set_solver.
  - apply lexable_container; [set_solver..|]. intros rest'.
    apply lexable_enclosed, Forall_fmap, (Forall_impl _ _ _ IH).
    intros [k v] Hv. split; [|done]. intros rest'' Hd.
    split; [apply lexes_string|]. apply lexable_gap; [done|].
    split; [apply lexes_punctuation; set_solver|].
    apply lexable_gap; [apply words_solid|]. by apply Hv.
  - apply lexable_container; [set_solver..|]. intros rest'.
    apply lexable_enclosed, Forall_fmap, (Forall_impl _ _ _ IH).
    intros v Hv. split; [apply Hv|apply words_solid].
Qed.

End spacing.

(** ** The tokenizer on a list of words *)

(** One pass of the loop over a word that the tokenizer reads. *)
Lemma pass_lexes json st pre w rest :
  json = pre ++ tok_raw w ++ rest → index st = length pre → lexes w rest →
  ∃ st', pass json st st'
       ∧ index st' = length (pre ++ tok_raw w)
       ∧ tokens st' ≡ tokens st ++ [w].
Proof.
  intros -> Hi (t & Hm & Hc).
  pose proof (first_match_token _ _ _ Hm) as (_ & Hne & _).
  assert (index st < length (pre ++ tok_raw w ++ rest)) as Hlt.
  { rewrite !length_app, Hi. destruct (tok_raw w); [done|simpl; lia]. }
  eexists. split_and!.
  - unfold pass, tokenize_step, substring. rewrite decide_True by done.
    assert (drop (index st) (pre ++ tok_raw w ++ rest) = tok_raw w ++ rest)
      as -> by (by rewrite Hi, drop_app_length).
    by rewrite Hm, Hc.
  - simpl. rewrite length_app. lia.
  - apply list_equiv_bare. simpl. by rewrite !fmap_app.
Qed.

Lemma passes_lexable ws : ∀ json st pre rest,
  json = pre ++ mjoin (tok_raw <$> ws) ++ rest → index st = length pre →
  lexable ws rest →
  ∃ st', passes json st st'
       ∧ index st' = length (pre ++ mjoin (tok_raw <$> ws))
       ∧ tokens st' ≡ tokens st ++ ws.
Proof.
  induction ws as [|w ws IH]; intros json st pre rest Hjson Hi.
  - intros _. exists st. by rewrite !app_nil_r.
  - intros [Hw Hws]. simpl in Hjson. rewrite <- (assoc_L (++)) in Hjson.
    destruct (pass_lexes _ _ _ _ _ Hjson Hi Hw) as (st1 & Hp & Hi1 & Ht1).
    destruct (IH json st1 (pre ++ tok_raw w) rest) as (st' & Hps & Hi' & Ht');
      [by rewrite <- (assoc_L (++))|done..|].
    exists st'. split; [by eapply rtc_l|]. simpl. split.
    + by rewrite Hi', <- (assoc_L (++)).
    + by rewrite Ht', Ht1, <- (assoc_L (++)).
Qed.

(** A text made of words the tokenizer reads one by one is tokenized
    into these words. *)
Lemma tokenize_lexable ws :
  lexable ws [] → tokenize (mjoin (tok_raw <$> ws)) ≡ Ok ws.
Proof.
  intros Hws.
  destruct (passes_lexable ws (mjoin (tok_raw <$> ws)) lexer_init [] [])
    as (st & Hp & Hi & Ht); [by rewrite app_nil_r|done..|].
  rewrite (passes_tokenize _ st (Ok None)); [done|done| |done].
  unfold tokenize_step. rewrite decide_False; [done|]. simpl in Hi. lia.
Qed.

(** ** Theorems *)

(** C14. The tokens of the text of a value

    [tokenize] reads the text of a value in a layout of white space and
    comments as the words the text was made of, up to their ranges: one
    token for each brace, bracket, colon and comma, one for each string
    with the string as its value, one for each number and literal, and
    one for each word of the layout. *)
Theorem tokenize_text gap `{!Spacing gap} v :
  tokenize (text gap v) ≡ Ok (words gap 0 v).
Proof. by apply tokenize_lexable, words_lexable. Qed.

Lemma tokenize_text_witness :
  tokenize (text indented (JArray [JNumber 1; JObject [(js "a", JNull)]]))
  ≡ Ok (words indented 0 (JArray [JNumber 1; JObject [(js "a", JNull)]])).
Proof. apply (tokenize_text indented). Defined.

(** The compact text of [JSON.stringify]. *)
Theorem tokenize_stringify_value v :
  tokenize (stringify v) ≡ Ok (words compact 0 v).
Proof. by apply tokenize_lexable, words_lexable; [apply _|]. Qed.
