(* ===== verification/Double.v ===== *)
(** * Double: the number that [+value] stores

    [create] of a number token stores [+value], the double nearest to
    the decimal the text denotes.  [Token] keeps the decimal
    ([to_number]); this file rounds it ([Numeric] has the unary plus
    on any text): [to_double] gives the binary64
    number, with the rounding, the infinities and the signed zeros of
    the language, in the terms of the specification of floating-point
    arithmetic of the standard library ([binary_round] for an integer,
    [SFdiv] of two integers for a fraction).

    Four groups of theorems.  An integer of at most 53 bits is stored
    exactly ([to_double_integer], [to_double_decimal]), so that on
    such literals the equality of the decimals is the equality of the
    language ([strict_equal_integer]).  Every result is a double: a
    number of the format or an infinity, never a NaN
    ([to_double_is_double]).  A finite result is the double nearest to
    the number the decimal denotes, the even one of two that are as
    near ([nearest], [to_double_nearest]).  A zero is the double of a
    number of at most [2 ^ -1075], half the least double, and an
    infinity the double of a number half way between the greatest
    double and [2 ^ 1024], or beyond ([to_double_zero],
    [to_double_infinity]).  The flags of the shifts and of the
    division are followed through the rounding by the invariant
    [shifted]; [rounds] is what the rounding establishes
    ([binary_round_aux_rounds]).  The theorems on the number tokens
    of [tokenize] carry this over to the values of the tokens.  The
    examples show where the decimal and the double part: a fraction,
    two texts of one number, an integer beyond 2^53, an exponent out
    of range. *)

From Stdlib Require Import SpecFloat.
From S2P Require Import Prelude Regex Token Tokenizer Json.

Local Open Scope Z_scope.

(** ** Rounding *)

(** The format of a [Number]: 53 bits of mantissa, exponents below
    1024. *)
Definition double_prec : Z := 53.
Definition double_emax : Z := 1024.

(** [Number.MAX_SAFE_INTEGER] *)
Definition MAX_SAFE_INTEGER : Z := 2 ^ 53 - 1.

(** The double nearest to [m * 10 ^ e10], ties to even: an integer is
    rounded as it is, a fraction as the quotient of two integers. *)
Definition round_decimal (neg : bool) (m : positive) (e10 : Z) : spec_float :=
  match e10 with
  | Z0 => binary_round double_prec double_emax neg m 0
  | Zpos k => binary_round double_prec double_emax neg (m * 10 ^ k) 0
  | Zneg k =>
    SFdiv double_prec double_emax
      (S754_finite neg m 0) (S754_finite false (10 ^ k) 0)
  end.

(** The double of a decimal; a zero keeps its sign. *)
Definition to_double (x : js_number) : spec_float :=
  match num_mantissa x with
  | N0 => S754_zero (num_neg x)
  | Npos m => round_decimal (num_neg x) m (num_exp10 x)
  end.

(** The double a value is stored as, when it is a number. *)
Definition double_of (v : jsval) : option spec_float :=
  match v with
  | VNumber x => Some (to_double x)
  | _ => None
  end.

(** [x === y] on numbers. *)
Definition strict_equal (x y : js_number) : bool :=
  SFeqb (to_double x) (to_double y).

(** The integer a double is, when it is one. *)
Definition integer_of (f : spec_float) : option Z :=
  match f with
  | S754_zero _ => Some 0
  | S754_finite s m (Zneg k) =>
    if decide (Zpos m mod 2 ^ Zpos k = 0)
    then Some (cond_Zopp s (Zpos m / 2 ^ Zpos k)) else None
  | S754_finite s m e => Some (cond_Zopp s (Zpos m * 2 ^ e))
  | _ => None
  end.

(** A double: a number of the format, or an infinity; not a NaN. *)
Definition is_double (f : spec_float) : Prop :=
  f ≠ S754_nan ∧ valid_binary double_prec double_emax f = true.

(** The decimal of an integer. *)
Definition integer_number (neg : bool) (n : N) : js_number :=
  {| num_neg := neg; num_mantissa := n; num_exp10 := 0 |}.

(** The number a decimal denotes, as a fraction of two integers. *)
Definition numerator (x : js_number) : Z :=
  match num_exp10 x with
  | Zpos k => Z.of_N (num_mantissa x) * 10 ^ Zpos k
  | _ => Z.of_N (num_mantissa x)
  end.

Definition denominator (x : js_number) : Z :=
  match num_exp10 x with
  | Zneg k => 10 ^ Zpos k
  | _ => 1
  end.

(** The double [m * 2 ^ e] is nearest to the fraction [n / d]: within
    half a unit of its last place, with an even mantissa when it is
    half a unit away; and within a quarter of a unit when it is a
    power of two above the fraction, where the doubles below are twice
    as dense.  The inequalities are cleared of their denominators. *)
Definition nearest (n d : Z) (m : positive) (e : Z) : Prop :=
  let a := 2 ^ Z.max e 0 in
  let b := 2 ^ Z.max (- e) 0 in
  2 * Z.abs (Zpos m * a * d - n * b) ≤ a * d
  ∧ (2 * Z.abs (Zpos m * a * d - n * b) = a * d → Z.even (Zpos m) = true)
  ∧ (0 < Zpos m * a * d - n * b → Zpos m = 2 ^ 52 → -1074 < e →
     4 * (Zpos m * a * d - n * b) ≤ a * d).

(** What the rounding returns for a mantissa and an exponent: a zero,
    a finite number, or an infinity when the exponent is beyond the
    format. *)
Definition rounded (s : bool) (m e : Z) : spec_float :=
  match m with
  | Z0 => S754_zero s
  | Zpos p =>
    if e <=? double_emax - double_prec then S754_finite s p e
    else S754_infinity s
  | Zneg _ => S754_nan
  end.

(** The mantissa [m] at the exponent [e] is what a number [x], in units
    of [w] at the exponent [e0], is rounded to: [m] is at the exponent
    of its format, within half a unit of [x], even when half a unit
    away, and within a quarter when it is a power of two above [x]. *)
Definition rounds (x w e0 m e : Z) : Prop :=
  0 ≤ m ∧ e0 ≤ e
  ∧ (if decide (m = 0) then e = -1074
     else fexp double_prec double_emax (Zdigits2 m + e) = e)
  ∧ 2 * Z.abs (m * (2 ^ (e - e0) * w) - x) ≤ 2 ^ (e - e0) * w
  ∧ (2 * Z.abs (m * (2 ^ (e - e0) * w) - x) = 2 ^ (e - e0) * w
     → Z.even m = true)
  ∧ (0 < m * (2 ^ (e - e0) * w) - x → m = 2 ^ 52 → -1074 < e →
     4 * (m * (2 ^ (e - e0) * w) - x) ≤ 2 ^ (e - e0) * w).

(** A text with an integer beyond [MAX_SAFE_INTEGER], and its number
    token. *)
Definition unsafe_text : jstring := js "[9007199254740993]".

Definition unsafe_token : token :=
  mk_token T_number
    {| startLineNumber := 1; startColumn := 2;
       endLineNumber := 1; endColumn := 18 |}
    (js "9007199254740993")
    (VNumber (integer_number false 9007199254740993)).

Definition unsafe_tokens : list token :=
  Eval vm_compute in
    match tokenize unsafe_text with Ok toks => toks | _ => [] end.

(** What a record holds of a number [x], in units of [w]: the quotient
    of [x] by [w], whether the remainder is at least half of [w], and
    whether it is none of zero and half of [w]. *)
Definition shifted (x w : Z) (mrs : shr_record) : Prop :=
  0 ≤ shr_m mrs
  ∧ 0 ≤ x - shr_m mrs * w < w
  ∧ (shr_r mrs = true ↔ w ≤ 2 * (x - shr_m mrs * w))
  ∧ (shr_s mrs = true
     ↔ x - shr_m mrs * w ≠ 0 ∧ 2 * (x - shr_m mrs * w) ≠ w).

(** Hypotheses and goals on the two flags of a record, as facts on
    numbers. *)
Ltac flags :=
  repeat match goal with
  | H : true = true ↔ _ |- _ => apply proj1 in H; specialize (H eq_refl)
  | H : false = true ↔ ?P |- _ =>
    assert (¬ P) by (intros ?%H; done); clear H
  | |- _ ∧ _ => split
  | |- true = true ↔ _ => split; [intros _|done]
  | |- false = true ↔ _ => split; [done|intros ?; exfalso]
  end.

Local Notation fexp64 := (fexp double_prec double_emax).

(** ** Digits *)

Lemma digits2_pos_size m : digits2_pos m = Pos.size m.
Proof. induction m; simpl; congruence. Qed.

Lemma iter_xO_value m k : Zpos (Pos.iter xO m k) = Zpos m * 2 ^ Zpos k.
Proof.
  induction k as [|k IH] using Pos.peano_ind; [simpl; lia|].
  rewrite Pos.iter_succ, Pos2Z.inj_xO, IH, Pos2Z.inj_succ, Z.pow_succ_r; lia.
Qed.

Lemma iter_xO_size m k :
  Zpos (Pos.size (Pos.iter xO m k)) = Zpos (Pos.size m) + Zpos k.
Proof.
  induction k as [|k IH] using Pos.peano_ind; [simpl; lia|].
  rewrite Pos.iter_succ. simpl. lia.
Qed.

Lemma size_bound m : Zpos m < 2 ^ 53 → Zpos (Pos.size m) ≤ 53.
Proof.
  intros Hm. pose proof (Pos2Z.pos_le_pos _ _ (Pos.size_le m)) as Hs.
  rewrite Pos2Z.inj_pow, Pos2Z.inj_xO in Hs. change (2 * 1) with 2 in Hs.
  apply Z.lt_succ_r, (Z.pow_lt_mono_r_iff 2); [lia..|].
  change (2 ^ Z.succ 53) with (2 * 2 ^ 53). lia.
Qed.

Lemma fexp64_eq e : fexp64 e = Z.max (e - 53) (-1074).
Proof. done. Qed.

Lemma Zdigits2_log2 m : 0 < m → Zdigits2 m = Z.log2 m + 1.
Proof.
  destruct m as [|p|p]; [lia| |lia]. intros _. simpl Zdigits2.
  rewrite digits2_pos_size. destruct p; simpl; lia.
Qed.

Lemma Zdigits2_nonneg m : 0 ≤ Zdigits2 m.
Proof. destruct m; simpl; lia. Qed.

Lemma Zdigits2_le a b : 0 ≤ a ≤ b → Zdigits2 a ≤ Zdigits2 b.
Proof.
  intros Hab. destruct (decide (a = 0)) as [->|].
  - apply Zdigits2_nonneg.
  - rewrite !Zdigits2_log2 by lia. pose proof (Z.log2_le_mono a b). lia.
Qed.

Lemma Zdigits2_bounds m :
  0 < m → 2 ^ (Zdigits2 m - 1) ≤ m < 2 ^ Zdigits2 m.
Proof.
  intros Hm. rewrite Zdigits2_log2 by done.
  replace (Z.log2 m + 1 - 1) with (Z.log2 m) by lia. by apply Z.log2_spec.
Qed.

Lemma Zdigits2_lower q k : 0 ≤ k → 2 ^ k ≤ q → k + 1 ≤ Zdigits2 q.
Proof.
  intros Hk Hq. assert (0 < q) by lia.
  rewrite Zdigits2_log2 by done. apply Z.log2_le_pow2 in Hq; lia.
Qed.

Lemma Zdigits2_unique m d :
  0 < m → 2 ^ (d - 1) ≤ m < 2 ^ d → Zdigits2 m = d.
Proof.
  intros Hm Hd. rewrite Zdigits2_log2 by done.
  assert (0 ≤ d - 1).
  { destruct (decide (0 ≤ d - 1)); [done|]. destruct Hd as [_ Hd].
    destruct (decide (d = 0)) as [->|]; [change (2 ^ 0) with 1 in Hd; lia|].
    rewrite Z.pow_neg_r in Hd by lia. lia. }
  rewrite (Z.log2_unique m (d - 1)); [lia..|].
  by replace (Z.succ (d - 1)) with d by lia.
Qed.

Lemma Zdigits2_mul_pow2 m n :
  0 < m → 0 ≤ n → Zdigits2 (m * 2 ^ n) = Zdigits2 m + n.
Proof.
  intros Hm Hn. assert (0 < m * 2 ^ n) by (apply Z.mul_pos_pos; lia).
  rewrite !Zdigits2_log2, Z.log2_mul_pow2 by lia. lia.
Qed.

(** The digits of a number without its [n] low bits. *)
Lemma Zdigits2_div_pow2 m n :
  0 ≤ m → 0 ≤ n →
  if decide (m / 2 ^ n = 0) then Zdigits2 m ≤ n
  else Zdigits2 (m / 2 ^ n) = Zdigits2 m - n.
Proof.
  intros Hm Hn. assert (0 < 2 ^ n) as Hp by lia.
  destruct (decide (m = 0)) as [->|]; [by rewrite Z.div_0_l by lia|].
  case_decide as Hq.
  - apply Z.div_small_iff in Hq as [[_ Hq]|]; [|lia..].
    rewrite Zdigits2_log2 by lia. apply Z.log2_lt_pow2 in Hq; lia.
  - assert (0 < m / 2 ^ n) by (pose proof (Z.div_pos m (2 ^ n)); lia).
    rewrite !Zdigits2_log2, <- Z.shiftr_div_pow2, Z.log2_shiftr by lia.
    assert (2 ^ n ≤ m) as Hle.
    { destruct (decide (2 ^ n ≤ m)); [done|].
      rewrite Z.div_small in Hq; lia. }
    apply Z.log2_le_pow2 in Hle; lia.
Qed.

(** A quotient has at least as many digits as the dividend has more
    than the divisor. *)
Lemma Zdigits2_quotient a b q r :
  0 < a → 0 < b → a = b * q + r → 0 ≤ r < b →
  0 ≤ q ∧ Zdigits2 a - Zdigits2 b ≤ Zdigits2 q.
Proof.
  intros Ha Hb Heq Hr. assert (0 ≤ q) as Hq by nia. split; [done|].
  pose proof (Zdigits2_nonneg q). pose proof (Zdigits2_nonneg b).
  destruct (decide (Zdigits2 a - Zdigits2 b ≤ 0)) as [|Hk]; [lia|].
  pose proof (Zdigits2_bounds a Ha) as [Hla _].
  pose proof (Zdigits2_bounds b Hb) as [_ Hub].
  set (k := Zdigits2 a - Zdigits2 b - 1).
  assert (2 ^ (Zdigits2 a - 1) = 2 ^ Zdigits2 b * 2 ^ k) as Hpow.
  { rewrite <- Z.pow_add_r by (unfold k; lia). f_equal. unfold k. lia. }
  enough (2 ^ k ≤ q) as Hk2.
  { apply Zdigits2_lower in Hk2; unfold k in *; lia. }
  assert (0 < 2 ^ k) by (apply Z.pow_pos_nonneg; unfold k; lia).
  nia.
Qed.

(** The digits of a mantissa after rounding: one more only when the
    mantissa has become a power of two. *)
Lemma Zdigits2_carry m1 m2 :
  0 ≤ m1 → m1 ≤ m2 ≤ m1 + 1 →
  Zdigits2 m2 = Zdigits2 m1
  ∨ (m2 = 2 ^ Zdigits2 m1 ∧ Zdigits2 m2 = Zdigits2 m1 + 1).
Proof.
  intros H1 H2. destruct (decide (m2 = m1)) as [->|]; [by left|].
  assert (m2 = m1 + 1) as -> by lia.
  destruct (decide (m1 = 0)) as [->|]; [by right|].
  pose proof (Zdigits2_bounds m1 ltac:(lia)) as [Hl Hu].
  pose proof (Zdigits2_nonneg m1).
  destruct (decide (m1 + 1 = 2 ^ Zdigits2 m1)) as [Heq|].
  - right. split; [done|]. apply Zdigits2_unique; [lia|].
    rewrite Heq, Z.pow_add_r by lia.
    replace (Zdigits2 m1 + 1 - 1) with (Zdigits2 m1) by lia. lia.
  - left. apply Zdigits2_unique; lia.
Qed.

(** ** Shifts *)

(** What [shl_align] returns when it has to shift. *)
Lemma shl_align_spec m e e' :
  e' ≤ e →
  ∃ mz, shl_align m e e' = (mz, e')
      ∧ Zpos mz = Zpos m * 2 ^ (e - e')
      ∧ Zpos (Pos.size mz) = Zpos (Pos.size m) + (e - e').
Proof.
  intros He. unfold shl_align. destruct (e' - e) as [|d|d] eqn:Hd; [|lia|].
  - assert (e' = e) as -> by lia. exists m. rewrite Z.sub_diag.
    split_and!; [done|lia..].
  - exists (Pos.iter xO m d). replace (e - e') with (Zpos d) by lia.
    by rewrite iter_xO_value, iter_xO_size.
Qed.

(** [shr_1] halves. *)
Lemma shr_1_m mrs : 0 ≤ shr_m mrs → shr_m (shr_1 mrs) = shr_m mrs / 2.
Proof.
  destruct mrs as [[|[p|p|]|p] r s]; simpl; intros Hm; try done; try lia.
  - rewrite (Pos2Z.inj_xI p). apply (Z.div_unique _ _ _ 1); lia.
  - rewrite (Pos2Z.inj_xO p). apply (Z.div_unique _ _ _ 0); lia.
Qed.

Lemma iter_shr_1_m p : ∀ mrs,
  0 ≤ shr_m mrs →
  shr_m (SpecFloat.iter_pos shr_1 p mrs) = shr_m mrs / 2 ^ Zpos p.
Proof.
  assert (∀ m k, 0 ≤ m → 0 ≤ m / 2 ^ Zpos k) as Hpos.
  { intros. apply Z.div_pos; lia. }
  assert (∀ m, 0 ≤ m → 0 ≤ m / 2) as Hpos2
    by (intros; apply Z.div_pos; lia).
  induction p as [p IH|p IH|]; intros mrs Hm; simpl SpecFloat.iter_pos.
  - assert (0 ≤ shr_m (shr_1 mrs)) as H1 by (rewrite shr_1_m; auto).
    assert (0 ≤ shr_m (SpecFloat.iter_pos shr_1 p (shr_1 mrs))) as H2
      by (rewrite IH; auto).
    rewrite (IH _ H2), (IH _ H1), shr_1_m, !Z.div_div by lia. f_equal.
    replace (Zpos p~1) with (1 + Zpos p + Zpos p) by lia.
    rewrite !Z.pow_add_r by lia. ring.
  - assert (0 ≤ shr_m (SpecFloat.iter_pos shr_1 p mrs)) as H2
      by (rewrite IH; auto).
    rewrite (IH _ H2), (IH _ Hm), !Z.div_div by lia. f_equal.
    replace (Zpos p~0) with (Zpos p + Zpos p) by lia.
    by rewrite !Z.pow_add_r by lia.
  - by apply shr_1_m.
Qed.

(** [shr] drops the [n] low bits of the mantissa and adds [n] to the
    exponent. *)
Lemma shr_spec mrs e n :
  0 ≤ shr_m mrs → 0 ≤ n →
  ∃ mrs', shr mrs e n = (mrs', e + n) ∧ shr_m mrs' = shr_m mrs / 2 ^ n.
Proof.
  intros Hm Hn. destruct n as [|p|p]; [| |lia]; simpl shr.
  - exists mrs. by rewrite Z.add_0_r, Z.div_1_r.
  - eexists. split; [done|]. by apply iter_shr_1_m.
Qed.

Lemma shr_record_of_loc_m m l : shr_m (shr_record_of_loc m l) = m.
Proof. by destruct l as [|[]]. Qed.

Lemma round_nearest_even_bounds m l :
  m ≤ round_nearest_even m l ≤ m + 1.
Proof. destruct l as [|[]]; simpl; try case_match; lia. Qed.

(** What [shr_fexp] returns on a mantissa that is not below the
    exponent of its format. *)
Lemma shr_fexp_spec m e l :
  0 ≤ m → e ≤ fexp64 (Zdigits2 m + e) →
  ∃ mrs, shr_fexp double_prec double_emax m e l
         = (mrs, fexp64 (Zdigits2 m + e))
       ∧ shr_m mrs = m / 2 ^ (fexp64 (Zdigits2 m + e) - e).
Proof.
  intros Hm He. unfold shr_fexp.
  destruct (shr_spec (shr_record_of_loc m l) e (fexp64 (Zdigits2 m + e) - e))
    as (mrs & -> & Hmrs); [by rewrite shr_record_of_loc_m|lia|].
  exists mrs. rewrite shr_record_of_loc_m in Hmrs. split; [f_equal; lia|done].
Qed.

Lemma iter_pos_iter {A} (f : A → A) p : ∀ x,
  SpecFloat.iter_pos f p x = Pos.iter f x p.
Proof.
  induction p as [p IH|p IH|]; intros x; simpl; [|by rewrite !IH|done].
  by rewrite !IH, <- !Pos.iter_swap.
Qed.

Lemma shifted_exact x :
  0 ≤ x → shifted x 1 (shr_record_of_loc x loc_Exact).
Proof. unfold shifted. simpl. intros. flags; lia. Qed.

Lemma shifted_step x w mrs :
  0 < w → shifted x w mrs → shifted x (2 * w) (shr_1 mrs).
Proof.
  unfold shifted. intros Hw (Hm & Hrem & Hr & Hs). revert Hm Hrem Hr Hs.
  destruct mrs as [[|[p|p|]|p] [] []]; simpl shr_m;
    simpl shr_r; simpl shr_s; simpl orb; intros ????.
  all: try rewrite (Pos2Z.inj_xI p) in *; try rewrite (Pos2Z.inj_xO p) in *.
  all: flags; lia.
Qed.

Lemma shifted_iter x w p mrs :
  0 < w → shifted x w mrs →
  shifted x (2 ^ Zpos p * w) (SpecFloat.iter_pos shr_1 p mrs).
Proof.
  intros Hw Hx. rewrite iter_pos_iter.
  induction p as [|p IH] using Pos.peano_ind.
  - by apply shifted_step.
  - rewrite Pos.iter_succ, Pos2Z.inj_succ, Z.pow_succ_r, <- Z.mul_assoc
      by lia.
    apply shifted_step; [lia|done].
Qed.

(** [shr] drops the [n] low bits of the mantissa, adds [n] to the
    exponent, and keeps in its flags where the number lies between two
    mantissas. *)
Lemma shr_shifted mrs e n x w :
  0 ≤ n → 0 < w → shifted x w mrs →
  ∃ mrs', shr mrs e n = (mrs', e + n)
        ∧ shr_m mrs' = shr_m mrs / 2 ^ n
        ∧ shifted x (2 ^ n * w) mrs'.
Proof.
  intros Hn Hw Hx. destruct n as [|p|p]; [| |lia]; simpl shr.
  - exists mrs. rewrite Z.add_0_r, Z.div_1_r, Z.mul_1_l. done.
  - eexists. split_and!; [done| |by apply shifted_iter].
    apply iter_shr_1_m, Hx.
Qed.

(** The mantissa rounded to nearest, ties to even. *)
Lemma round_shifted x w mrs :
  0 < w → shifted x w mrs →
  let m := round_nearest_even (shr_m mrs) (loc_of_shr_record mrs) in
  shr_m mrs ≤ m ≤ shr_m mrs + 1
  ∧ shr_m mrs * w ≤ x
  ∧ 2 * Z.abs (m * w - x) ≤ w
  ∧ (2 * Z.abs (m * w - x) = w → Z.even m = true).
Proof.
  unfold shifted. intros Hw (Hm & Hrem & Hr & Hs).
  destruct mrs as [m [] []]; simpl in *; flags; try lia.
  all: destruct (Z.even m) eqn:Hev; try lia; intros _; try done.
  by rewrite Z.add_1_r, Z.even_succ, <- Z.negb_even, Hev.
Qed.

(** ** Integers of at most 53 bits are exact *)

(** A mantissa at the exponent of its format is returned as it is. *)
Lemma binary_round_aux_canonical s m e :
  canonical_mantissa double_prec double_emax m e = true →
  e ≤ double_emax - double_prec →
  binary_round_aux double_prec double_emax s (Zpos m) e loc_Exact
  = S754_finite s m e.
Proof.
  unfold canonical_mantissa. intros He%Z.eqb_eq Hmax.
  unfold binary_round_aux, shr_fexp. cbn [Zdigits2 shr_record_of_loc].
  rewrite He, Z.sub_diag. cbn [shr shr_m loc_of_shr_record round_nearest_even].
  cbn [Zdigits2 shr_record_of_loc]. rewrite He, Z.sub_diag.
  cbn [shr shr_m]. by apply Z.leb_le in Hmax as ->.
Qed.

(** An integer whose digits fit the format is shifted to the exponent
    of the format. *)
Lemma binary_round_exact s m :
  fexp64 (Zpos (Pos.size m)) ≤ 0 →
  ∃ mz, binary_round double_prec double_emax s m 0
        = S754_finite s mz (fexp64 (Zpos (Pos.size m)))
      ∧ Zpos mz = Zpos m * 2 ^ (- fexp64 (Zpos (Pos.size m))).
Proof.
  intros He. unfold binary_round. rewrite digits2_pos_size, Z.add_0_r.
  destruct (shl_align_spec m 0 _ He) as (mz & -> & Hmz & Hsz).
  exists mz. rewrite Z.sub_0_l in *. split; [|done].
  apply binary_round_aux_canonical.
  - apply Z.eqb_eq. rewrite digits2_pos_size, Hsz. f_equal. lia.
  - rewrite fexp64_eq in *. unfold double_prec, double_emax. lia.
Qed.

(** The integer of a mantissa that is a multiple of the weight of its
    exponent. *)
Lemma integer_of_finite s m e n :
  e ≤ 0 → Zpos m = n * 2 ^ (- e) →
  integer_of (S754_finite s m e) = Some (cond_Zopp s n).
Proof.
  intros He Hm. destruct e as [|k|k]; [|lia|]; simpl integer_of.
  - f_equal. f_equal. simpl in Hm. lia.
  - change (- Z.neg k) with (Z.pos k) in Hm. rewrite Hm.
    rewrite decide_True by (apply Z.mod_mul; lia).
    by rewrite Z.div_mul by lia.
Qed.

(** An integer of at most 53 bits is rounded to itself. *)
Lemma binary_round_small s m :
  Zpos m < 2 ^ 53 →
  integer_of (binary_round double_prec double_emax s m 0)
  = Some (cond_Zopp s (Zpos m)).
Proof.
  intros Hm%size_bound.
  assert (fexp64 (Zpos (Pos.size m)) ≤ 0) as He by (rewrite fexp64_eq; lia).
  destruct (binary_round_exact s m He) as (mz & -> & Hmz).
  by apply integer_of_finite.
Qed.

(** The double of an integer of at most 53 bits is that integer. *)
Theorem to_double_integer neg n :
  Z.of_N n ≤ MAX_SAFE_INTEGER →
  integer_of (to_double (integer_number neg n))
  = Some (cond_Zopp neg (Z.of_N n)).
Proof.
  unfold MAX_SAFE_INTEGER. intros Hn.
  destruct n as [|m]; unfold to_double; simpl.
  - by destruct neg.
  - apply binary_round_small. lia.
Qed.

(** Two doubles that are equal are the same integer, or none. *)
Lemma SFeqb_integer_of f g :
  SFeqb f g = true → integer_of f = integer_of g.
Proof.
  unfold SFeqb.
  destruct f as [s1|s1| |s1 m1 e1], g as [s2|s2| |s2 m2 e2];
    repeat match goal with b : bool |- _ => destruct b end; try done; simpl;
    destruct (Z.compare_spec e1 e2) as [->| |]; try done;
    change (Pos.compare_cont Eq m1 m2) with (m1 ?= m2)%positive;
    by destruct (Pos.compare_spec m1 m2) as [->| |].
Qed.

(** A double that is an integer is equal to itself. *)
Lemma SFeqb_refl f : is_Some (integer_of f) → SFeqb f f = true.
Proof.
  unfold SFeqb. destruct f as [s|s| |s m e]; intros [n Hn]; try done.
  simpl. rewrite Z.compare_refl.
  change (Pos.compare_cont Eq m m) with (m ?= m)%positive.
  rewrite Pos.compare_refl. by destruct s.
Qed.

(** On integers of at most 53 bits the equality of the language is the
    equality of the decimals. *)
Theorem strict_equal_integer n1 n2 :
  Z.of_N n1 ≤ MAX_SAFE_INTEGER → Z.of_N n2 ≤ MAX_SAFE_INTEGER →
  strict_equal (integer_number false n1) (integer_number false n2) = true
  ↔ n1 = n2.
Proof.
  intros H1 H2. split; [|intros ->].
  - intros Heq%SFeqb_integer_of.
    rewrite !to_double_integer in Heq by done. simpl in Heq. by simplify_eq.
  - apply SFeqb_refl. by rewrite to_double_integer.
Qed.

(** The decimal of the decimal text of a natural number. *)
Lemma decimal_number n : to_number (decimal n) = integer_number false n.
Proof.
  pose proof (to_number_decimal n) as Hd.
  unfold natural, integer_number in *. congruence.
Qed.

(** The double of the decimal text of a natural number of at most 53
    bits is that number. *)
Theorem to_double_decimal n :
  Z.of_N n ≤ MAX_SAFE_INTEGER →
  integer_of (to_double (to_number (decimal n))) = Some (Z.of_N n).
Proof.
  intros Hn. rewrite decimal_number.
  apply (to_double_integer false n Hn).
Qed.

(** ** Every result is a double *)

(** [binary_round_aux] returns a double, whatever the mantissa, when
    the exponent is not above the one of the format. *)
Lemma binary_round_aux_double s m e l :
  0 ≤ m → e ≤ fexp64 (Zdigits2 m + e) →
  is_double (binary_round_aux double_prec double_emax s m e l).
Proof.
  intros Hm He. unfold binary_round_aux.
  destruct (shr_fexp_spec m e l Hm He) as (mrs1 & -> & Hm1).
  set (e1 := fexp64 (Zdigits2 m + e)) in *.
  set (m2 := round_nearest_even (shr_m mrs1) (loc_of_shr_record mrs1)).
  assert (0 ≤ shr_m mrs1) by (rewrite Hm1; apply Z.div_pos; lia).
  pose proof (round_nearest_even_bounds (shr_m mrs1) (loc_of_shr_record mrs1)).
  assert (e1 ≤ fexp64 (Zdigits2 m2 + e1)) as He1.
  { pose proof (Zdigits2_div_pow2 m (e1 - e) Hm ltac:(lia)) as Hd.
    rewrite <- Hm1 in Hd.
    pose proof (Zdigits2_le (shr_m mrs1) m2 ltac:(lia)).
    pose proof (Zdigits2_nonneg m2).
    unfold e1 in *. rewrite !fexp64_eq in *. case_decide; lia. }
  destruct (shr_fexp_spec m2 e1 loc_Exact) as (mrs2 & -> & Hm2); [lia|done|].
  set (e2 := fexp64 (Zdigits2 m2 + e1)) in *.
  pose proof (Zdigits2_div_pow2 m2 (e2 - e1) ltac:(lia) ltac:(lia)) as Hd.
  rewrite <- Hm2 in Hd.
  destruct (shr_m mrs2) as [|m3|m3] eqn:Hm3; [done| |].
  - case_decide; [done|]. case_match eqn:Hmax; [|done]. split; [done|].
    simpl. unfold bounded, canonical_mantissa. rewrite Hmax, andb_true_r.
    apply Z.eqb_eq. simpl in Hd. rewrite Hd. unfold e2. f_equal. lia.
  - assert (0 ≤ m2 / 2 ^ (e2 - e1)) by (apply Z.div_pos; lia). lia.
Qed.

(** [binary_round] returns a double. *)
Lemma binary_round_double s m e :
  is_double (binary_round double_prec double_emax s m e).
Proof.
  unfold binary_round. rewrite digits2_pos_size.
  set (e' := fexp _ _ _).
  destruct (decide (e' ≤ e)) as [He|He].
  - destruct (shl_align_spec m e e' He) as (mz & -> & _ & Hsz).
    apply binary_round_aux_double; [lia|]. simpl.
    rewrite digits2_pos_size, Hsz. unfold e'. apply Z.eq_le_incl. f_equal. lia.
  - unfold shl_align. destruct (e' - e) eqn:Hd; [lia| |lia].
    apply binary_round_aux_double; [lia|]. simpl.
    rewrite digits2_pos_size. fold e'. lia.
Qed.

(** The flags of a quotient say where the fraction lies between two
    quotients. *)
Lemma shifted_new_location q r d :
  0 ≤ q → 0 ≤ r < d →
  shifted (d * q + r) d (shr_record_of_loc q (new_location d r)).
Proof.
  intros Hq Hr. unfold new_location, new_location_even, new_location_odd.
  assert (Z.even d = false → 2 * r + 1 ≠ d → 2 * r ≠ d) as Hodd.
  { intros Hev _ <-. by rewrite Z.even_mul in Hev. }
  destruct (Z.even d) eqn:Hev; destruct (Z.eqb_spec r 0) as [->|];
    try destruct (Z.compare_spec (2 * r) d);
    try destruct (Z.compare_spec (2 * r + 1) d);
    unfold shifted; simpl; flags; lia.
Qed.

(** The quotient [SFdiv_core_binary] returns is at an exponent that is
    not above the one of the format, and its flags say where the
    fraction lies. *)
Lemma SFdiv_core_binary_spec m1 e1 m2 e2 :
  0 < m1 → 0 < m2 →
  ∃ q e l, SFdiv_core_binary double_prec double_emax m1 e1 m2 e2 = (q, e, l)
         ∧ 0 ≤ q ∧ e ≤ fexp64 (Zdigits2 q + e) ∧ e ≤ e1 - e2
         ∧ shifted (m1 * 2 ^ (e1 - e2 - e)) m2 (shr_record_of_loc q l).
Proof.
  intros H1 H2. unfold SFdiv_core_binary.
  set (d1 := Zdigits2 m1). set (d2 := Zdigits2 m2).
  set (e' := Z.min _ _). set (s := e1 - e2 - e').
  assert (0 ≤ s) as Hs by (unfold s, e'; lia).
  set (m' := match s with Z.pos _ => Z.shiftl m1 s | 0 => m1 | _ => 0 end).
  assert (m' = m1 * 2 ^ s) as Hm'.
  { unfold m'. destruct s; [lia| |lia]. by rewrite Z.shiftl_mul_pow2. }
  pose proof (Z.div_eucl_eq m' m2 ltac:(lia)) as Heq.
  pose proof (Z.mod_pos_bound m' m2 H2) as Hr. unfold Z.modulo in Hr.
  destruct (Z.div_eucl m' m2) as [q r] eqn:Hqr.
  exists q, e', (new_location m2 r). split; [done|].
  assert (0 < m') as Hpos by (rewrite Hm'; apply Z.mul_pos_pos; lia).
  destruct (Zdigits2_quotient m' m2 q r) as [Hq Hd]; [done..|].
  split_and!; [done| |lia|].
  - rewrite Hm', Zdigits2_mul_pow2 in Hd by done.
    unfold s, e', d1, d2 in *. rewrite !fexp64_eq in *. lia.
  - fold s. rewrite <- Hm', Heq. by apply shifted_new_location.
Qed.

(** The double of a decimal is a double. *)
Theorem to_double_is_double x : is_double (to_double x).
Proof.
  unfold to_double. destruct (num_mantissa x) as [|m]; [done|].
  unfold round_decimal. destruct (num_exp10 x) as [|k|k];
    [apply binary_round_double..|].
  unfold SFdiv.
  destruct (SFdiv_core_binary_spec (Zpos m) 0 (Zpos (10 ^ k)) 0)
    as (q & e & l & -> & Hq & He & _); [done..|].
  by apply binary_round_aux_double.
Qed.

(** ** The result is nearest *)

(** After the first shift the mantissa is at the exponent of its
    format, or it is zero at the least exponent. *)
Lemma first_shift m e m1 :
  0 ≤ m → e ≤ fexp64 (Zdigits2 m + e) →
  m1 = m / 2 ^ (fexp64 (Zdigits2 m + e) - e) →
  if decide (m1 = 0) then fexp64 (Zdigits2 m + e) = -1074
  else fexp64 (Zdigits2 m1 + fexp64 (Zdigits2 m + e))
       = fexp64 (Zdigits2 m + e).
Proof.
  intros Hm He ->. set (e1 := fexp64 _) in *.
  pose proof (Zdigits2_div_pow2 m (e1 - e) Hm ltac:(lia)) as Hd.
  unfold e1 in *. rewrite !fexp64_eq in *. repeat case_decide; lia.
Qed.

(** The second shift is by one bit at most, and then of a power of
    two. *)
Lemma second_shift m1 m2 e1 :
  0 ≤ m1 → m1 ≤ m2 ≤ m1 + 1 →
  (if decide (m1 = 0) then e1 = -1074
   else fexp64 (Zdigits2 m1 + e1) = e1) →
  fexp64 (Zdigits2 m2 + e1) - e1 = 0
  ∨ (fexp64 (Zdigits2 m2 + e1) - e1 = 1 ∧ ∃ h, m2 = 2 * h).
Proof.
  intros H1 H2 He1. rewrite !fexp64_eq in *.
  destruct (Zdigits2_carry m1 m2 H1 H2) as [->|[Hm2 ->]];
    case_decide; subst; simpl Zdigits2 in *; try lia.
  pose proof (Zdigits2_bounds m1 ltac:(lia)) as [_ Hu].
  destruct (decide (Zdigits2 m1 ≤ 0)) as [Hd|Hd].
  { pose proof (Z.pow_le_mono_r 2 _ 0 ltac:(lia) Hd). simpl in *. lia. }
  destruct (decide (Z.max (Zdigits2 m1 + 1 + e1 - 53) (-1074) - e1 = 0));
    [by left|right]. split; [lia|].
  exists (2 ^ (Zdigits2 m1 - 1)). rewrite <- Z.pow_succ_r by lia.
  f_equal. lia.
Qed.

(** The last step of the rounding: the rounded mantissa [m2], in units
    of [w], after the second shift, which is by [n] bits. *)
Lemma nearest_shift x w m1 m2 n m3 e1 :
  0 < w → m1 ≤ m2 ≤ m1 + 1 → m1 * w ≤ x →
  2 * Z.abs (m2 * w - x) ≤ w →
  (2 * Z.abs (m2 * w - x) = w → Z.even m2 = true) →
  (if decide (m1 = 0) then e1 = -1074
   else fexp64 (Zdigits2 m1 + e1) = e1) →
  n = 0 ∨ (n = 1 ∧ ∃ h, m2 = 2 * h) →
  0 ≤ m2 - m3 * (2 ^ n * 1) < 2 ^ n * 1 →
  2 * Z.abs (m3 * (2 ^ n * w) - x) ≤ 2 ^ n * w
  ∧ (2 * Z.abs (m3 * (2 ^ n * w) - x) = 2 ^ n * w → Z.even m3 = true)
  ∧ (0 < m3 * (2 ^ n * w) - x → m3 = 2 ^ 52 → -1074 < e1 + n →
     4 * (m3 * (2 ^ n * w) - x) ≤ 2 ^ n * w).
Proof.
  intros Hw Hb Hlow Hnear Htie Hfirst [->|[-> [h ->]]] Hrem.
  - change (2 ^ 0) with 1 in *. rewrite !Z.mul_1_l in *.
    assert (m2 = m3) as -> by lia. split_and!; [done..|].
    intros Hlt H52 He1. exfalso. assert (m1 = 2 ^ 52 - 1) as -> by nia.
    rewrite fexp64_eq in Hfirst. simpl in Hfirst. lia.
  - change (2 ^ 1) with 2 in *. assert (m3 = h) as -> by lia.
    replace (h * (2 * w)) with (2 * h * w) by lia. lia.
Qed.

(** After the second shift the mantissa is at the exponent of its
    format, or it is zero at the least exponent. *)
Lemma canonical_shift m1 m2 e1 :
  0 ≤ m1 → m1 ≤ m2 ≤ m1 + 1 →
  (if decide (m1 = 0) then e1 = -1074
   else fexp64 (Zdigits2 m1 + e1) = e1) →
  0 ≤ fexp64 (Zdigits2 m2 + e1) - e1 →
  if decide (m2 / 2 ^ (fexp64 (Zdigits2 m2 + e1) - e1) = 0)
  then fexp64 (Zdigits2 m2 + e1) = -1074
  else fexp64 (Zdigits2 (m2 / 2 ^ (fexp64 (Zdigits2 m2 + e1) - e1))
               + fexp64 (Zdigits2 m2 + e1))
       = fexp64 (Zdigits2 m2 + e1).
Proof.
  intros H1 Hb Hfirst Hn.
  pose proof (Zdigits2_div_pow2 m2 _ ltac:(lia) Hn) as Hd.
  pose proof (Zdigits2_carry m1 m2 H1 Hb) as Hc.
  pose proof (Zdigits2_nonneg m1).
  case_decide; [|rewrite Hd; f_equal; lia].
  rewrite !fexp64_eq in *. case_decide; [subst; simpl in Hc|]; lia.
Qed.

(** [binary_round_aux] rounds: it returns the mantissa and the exponent
    that the number in its mantissa and flags, in units of [w] at the
    exponent [e], is rounded to. *)
Lemma binary_round_aux_rounds s m e l x w :
  0 < w → shifted x w (shr_record_of_loc m l) →
  e ≤ fexp64 (Zdigits2 m + e) →
  ∃ m3 e3, binary_round_aux double_prec double_emax s m e l = rounded s m3 e3
         ∧ rounds x w e m3 e3.
Proof.
  intros Hw Hx He. unfold binary_round_aux, shr_fexp.
  assert (0 ≤ m) as Hm by (destruct Hx as [Hx _]; by destruct l as [|[]]).
  set (e1 := fexp64 (Zdigits2 m + e)).
  destruct (shr_shifted _ e (e1 - e) x w ltac:(lia) Hw Hx)
    as (mrs1 & -> & Hm1 & Hs1).
  rewrite shr_record_of_loc_m in Hm1.
  pose proof (first_shift m e _ Hm He Hm1) as Hfirst. fold e1 in Hfirst.
  set (w1 := 2 ^ (e1 - e) * w) in *. assert (0 < w1) by (unfold w1; lia).
  pose proof (round_shifted x w1 mrs1 ltac:(done) Hs1) as Hround.
  cbv zeta in Hround. set (m2 := round_nearest_even _ _) in *.
  destruct Hround as (Hb & Hlow & Hnear & Htie).
  replace (e + (e1 - e)) with e1 by lia.
  assert (0 ≤ shr_m mrs1) as Hpos by apply Hs1.
  pose proof (second_shift (shr_m mrs1) m2 e1 Hpos Hb Hfirst) as Hsecond.
  pose proof (canonical_shift (shr_m mrs1) m2 e1 Hpos Hb Hfirst) as Hcan.
  set (n := fexp64 (Zdigits2 m2 + e1) - e1) in *.
  destruct (shr_shifted _ e1 n m2 1 ltac:(lia) ltac:(lia)
              (shifted_exact m2 ltac:(lia))) as (mrs2 & -> & Hm2 & Hs2).
  destruct Hs2 as (Hm3 & Hrem & _). rewrite shr_record_of_loc_m in Hm2.
  exists (shr_m mrs2), (e1 + n). split; [done|]. unfold rounds.
  replace (2 ^ (e1 + n - e) * w) with (2 ^ n * w1)
    by (unfold w1; rewrite Z.mul_assoc, <- Z.pow_add_r by lia;
        do 2 f_equal; lia).
  split; [done|]. split; [lia|]. split.
  - rewrite Hm2. replace (e1 + n) with (fexp64 (Zdigits2 m2 + e1))
      by (unfold n; lia). apply Hcan. lia.
  - by apply (nearest_shift x w1 (shr_m mrs1) m2 n _ e1).
Qed.

(** A finite result of [binary_round_aux], in units of [w] at the
    exponent it was given: within half a unit of its last place of the
    number, with an even mantissa when it is half a unit away, and
    within a quarter when it is a power of two above the number. *)
Lemma binary_round_aux_nearest s m e l x w s' m3 e3 :
  0 < w → shifted x w (shr_record_of_loc m l) →
  e ≤ fexp64 (Zdigits2 m + e) →
  binary_round_aux double_prec double_emax s m e l = S754_finite s' m3 e3 →
  s' = s ∧ e ≤ e3
  ∧ 2 * Z.abs (Zpos m3 * (2 ^ (e3 - e) * w) - x) ≤ 2 ^ (e3 - e) * w
  ∧ (2 * Z.abs (Zpos m3 * (2 ^ (e3 - e) * w) - x) = 2 ^ (e3 - e) * w
     → Z.even (Zpos m3) = true)
  ∧ (0 < Zpos m3 * (2 ^ (e3 - e) * w) - x → Zpos m3 = 2 ^ 52 →
     -1074 < e3 →
     4 * (Zpos m3 * (2 ^ (e3 - e) * w) - x) ≤ 2 ^ (e3 - e) * w).
Proof.
  intros Hw Hx He.
  destruct (binary_round_aux_rounds s m e l x w) as (m' & e' & -> & Hr);
    [done..|].
  destruct Hr as (_ & He' & _ & Hn). unfold rounded.
  destruct m' as [|m'|m']; [done| |done]. destruct (_ <=? _); [|done].
  by intros [= <- <- <-].
Qed.

(** Three facts on a number in units of [c], in units of one. *)
Lemma nearest_scaled a b c (P Q R : Prop) :
  0 < c →
  2 * Z.abs (a * c) ≤ b * c
  ∧ (2 * Z.abs (a * c) = b * c → P)
  ∧ (0 < a * c → Q → R → 4 * (a * c) ≤ b * c) →
  2 * Z.abs a ≤ b ∧ (2 * Z.abs a = b → P) ∧ (0 < a → Q → R → 4 * a ≤ b).
Proof.
  intros Hc. rewrite Z.abs_mul, (Z.abs_eq c) by lia. intros (H1 & H2 & H3).
  split_and!; [nia|intros; apply H2; nia|].
  intros Ha HQ HR. specialize (H3 ltac:(nia) HQ HR). nia.
Qed.

(** The result of [binary_round_aux] on a number that was scaled to the
    exponent [e0], against the number itself. *)
Lemma nearest_rescale n d m e e0 :
  e0 ≤ 0 → e0 ≤ e →
  2 * Z.abs (Zpos m * (2 ^ (e - e0) * d) - n * 2 ^ (- e0))
  ≤ 2 ^ (e - e0) * d
  ∧ (2 * Z.abs (Zpos m * (2 ^ (e - e0) * d) - n * 2 ^ (- e0))
     = 2 ^ (e - e0) * d → Z.even (Zpos m) = true)
  ∧ (0 < Zpos m * (2 ^ (e - e0) * d) - n * 2 ^ (- e0) → Zpos m = 2 ^ 52 →
     -1074 < e →
     4 * (Zpos m * (2 ^ (e - e0) * d) - n * 2 ^ (- e0)) ≤ 2 ^ (e - e0) * d) →
  nearest n d m e.
Proof.
  intros He0 He H. unfold nearest. cbv zeta.
  destruct (decide (0 ≤ e)) as [Hpos|Hneg].
  - rewrite Z.max_l, Z.max_r by lia. apply (nearest_scaled _ _ (2 ^ (- e0)));
      [lia|].
    replace (2 ^ (e - e0)) with (2 ^ e * 2 ^ (- e0)) in H
      by (rewrite <- Z.pow_add_r by lia; f_equal; lia).
    replace ((Zpos m * 2 ^ e * d - n * 2 ^ 0) * 2 ^ (- e0))
      with (Zpos m * (2 ^ e * 2 ^ (- e0) * d) - n * 2 ^ (- e0)) by ring.
    by replace (2 ^ e * d * 2 ^ (- e0)) with (2 ^ e * 2 ^ (- e0) * d) by ring.
  - rewrite Z.max_r, Z.max_l by lia.
    apply (nearest_scaled _ _ (2 ^ (e - e0))); [lia|].
    replace (2 ^ (- e0)) with (2 ^ (- e) * 2 ^ (e - e0)) in H
      by (rewrite <- Z.pow_add_r by lia; f_equal; lia).
    replace ((Zpos m * 2 ^ 0 * d - n * 2 ^ (- e)) * 2 ^ (e - e0))
      with (Zpos m * (2 ^ (e - e0) * d) - n * (2 ^ (- e) * 2 ^ (e - e0)))
      by ring.
    by replace (2 ^ 0 * d * 2 ^ (e - e0)) with (2 ^ (e - e0) * d) by ring.
Qed.

(** [binary_round_aux] on the quotient of [n * 2 ^ (- e)] by [d], at the
    exponent [e]: a finite result is nearest to [n / d]. *)
Lemma binary_round_aux_scaled s m e l n d s' m3 e3 :
  0 < d → e ≤ 0 → shifted (n * 2 ^ (- e)) d (shr_record_of_loc m l) →
  e ≤ fexp64 (Zdigits2 m + e) →
  binary_round_aux double_prec double_emax s m e l = S754_finite s' m3 e3 →
  s' = s ∧ nearest n d m3 e3.
Proof.
  intros Hd He Hx Hfexp Hf.
  apply (binary_round_aux_nearest _ _ _ _ (n * 2 ^ (- e)) d) in Hf
    as (-> & He3 & Hn); [|done..].
  split; [done|]. by apply (nearest_rescale n d m3 e3 e).
Qed.

(** At an exponent that is not above zero, the double nearest to an
    integer is the integer. *)
Lemma nearest_integer n m e :
  e ≤ 0 → nearest n 1 m e ↔ Zpos m = n * 2 ^ (- e).
Proof.
  intros He. unfold nearest. cbv zeta. rewrite Z.max_r, Z.max_l by lia.
  change (2 ^ 0) with 1. split; [lia|]. intros ->. split_and!; lia.
Qed.

(** A finite result of [binary_round] on an integer is nearest to it,
    and at an exponent that is not above zero when the integer has at
    most 53 bits. *)
Lemma binary_round_nearest s p s' m e :
  binary_round double_prec double_emax s p 0 = S754_finite s' m e →
  s' = s ∧ nearest (Zpos p) 1 m e ∧ (Zpos p ≤ MAX_SAFE_INTEGER → e ≤ 0).
Proof.
  destruct (decide (fexp64 (Zpos (Pos.size p)) ≤ 0)) as [He|He].
  - destruct (binary_round_exact s p He) as (mz & -> & Hmz).
    intros [= <- <- <-]. split_and!; [done| |done]. by apply nearest_integer.
  - unfold binary_round, shl_align. rewrite digits2_pos_size, Z.add_0_r.
    destruct (fexp64 _ - 0) eqn:Hd; [exfalso; lia| |exfalso; lia]. intros Hf.
    apply (binary_round_aux_scaled _ _ _ _ (Zpos p) 1) in Hf as [-> Hn];
      [|lia|lia| |cbn [Zdigits2]; rewrite digits2_pos_size, Z.add_0_r; lia].
    + split_and!; [done..|]. unfold MAX_SAFE_INTEGER. intros Hp. exfalso.
      pose proof (size_bound p ltac:(lia)). rewrite fexp64_eq in He. lia.
    + change (2 ^ (- 0)) with 1. rewrite Z.mul_1_r. apply shifted_exact. lia.
Qed.

(** The double of a decimal is the nearest to the number the decimal
    denotes; an integer up to [MAX_SAFE_INTEGER] is stored at an
    exponent that is not above zero, that is, exactly. *)
Theorem to_double_nearest x s m e :
  to_double x = S754_finite s m e →
  s = num_neg x
  ∧ nearest (numerator x) (denominator x) m e
  ∧ (denominator x = 1 → numerator x ≤ MAX_SAFE_INTEGER → e ≤ 0).
Proof.
  unfold to_double, numerator, denominator.
  destruct (num_mantissa x) as [|p]; [done|]. unfold round_decimal.
  destruct (num_exp10 x) as [|k|k]; cbn [Z.of_N].
  - intros (-> & Hn & He)%binary_round_nearest. auto.
  - intros (-> & Hn & He)%binary_round_nearest.
    rewrite Pos2Z.inj_mul, Pos2Z.inj_pow in *. auto.
  - unfold SFdiv.
    destruct (SFdiv_core_binary_spec (Zpos p) 0 (Zpos (10 ^ k)) 0)
      as (q & e' & l & -> & Hq & He & He0 & Hsh); [done..|].
    rewrite xorb_false_r. intros Hf.
    apply (binary_round_aux_scaled _ _ _ _ (Zpos p) (Zpos (10 ^ k))) in Hf
      as [-> Hn]; [|done|lia| |done].
    + rewrite Pos2Z.inj_pow in *. split_and!; [done..|].
      intros H1. pose proof (Z.pow_gt_1 10 (Zpos k)). lia.
    + by replace (- e') with (0 - 0 - e') by lia.
Qed.

(** The double of an integer literal is the nearest one: the integer
    itself up to [MAX_SAFE_INTEGER]. *)
Lemma to_double_integer_nearest neg n s m e :
  to_double (integer_number neg n) = S754_finite s m e →
  s = neg
  ∧ nearest (Z.of_N n) 1 m e
  ∧ (Z.of_N n ≤ MAX_SAFE_INTEGER → Zpos m = Z.of_N n * 2 ^ (- e)).
Proof.
  intros (-> & Hn & He)%to_double_nearest. split_and!; [done..|].
  intros Hs. apply nearest_integer; [|done]. by apply He.
Qed.

(** ** Zeros and infinities *)

(** A number that is rounded to zero is at most half the least double;
    a number that is rounded beyond the format is at least half way
    between the greatest double and [2 ^ 1024]. *)
Lemma rounds_zero x w e0 e :
  0 ≤ x → rounds x w e0 0 e →
  e0 ≤ -1074 ∧ 2 * x ≤ 2 ^ (-1074 - e0) * w.
Proof.
  intros Hx (_ & He0 & He & Hn & _). rewrite decide_True in He by done.
  subst e. split; [done|]. lia.
Qed.

Lemma rounds_infinity x w e0 m e :
  0 < w → rounds x w e0 m e → 0 < m → 971 < e →
  (2 ^ 54 - 1) * (2 ^ (972 - e0) * w) ≤ 4 * x.
Proof.
  intros Hw (_ & He0 & He & Hn & _ & Hq) Hm Hmax.
  rewrite decide_False, fexp64_eq in He by lia.
  pose proof (Zdigits2_bounds m Hm) as [Hl _].
  replace (Zdigits2 m - 1) with 52 in Hl by lia.
  pose proof (Z.pow_le_mono_r 2 (972 - e0) (e - e0) ltac:(lia) ltac:(lia)).
  assert (0 ≤ 2 ^ (972 - e0)) by lia.
  remember (2 ^ (972 - e0) * w) as u0. remember (2 ^ (e - e0) * w) as u.
  assert (0 ≤ u0 ≤ u) by (subst; nia).
  set (k := 2 ^ 52) in *. assert (2 ^ 54 = 4 * k) as -> by done.
  assert (0 < k) by done. clearbody k.
  assert ((4 * k - 1) * u0 ≤ (4 * k - 1) * u) by nia.
  destruct (decide (m = k)) as [->|].
  - destruct (decide (0 < k * u - x)); [|lia].
    specialize (Hq ltac:(done) ltac:(done) ltac:(lia)). lia.
  - assert ((k + 1) * u ≤ m * u) by nia. lia.
Qed.

(** [binary_round] of an integer rounds the integer, scaled to an
    exponent that is not above zero. *)
Lemma binary_round_rounds s p :
  ∃ e0 m e, e0 ≤ 0
          ∧ binary_round double_prec double_emax s p 0 = rounded s m e
          ∧ rounds (Zpos p * 2 ^ (- e0)) 1 e0 m e.
Proof.
  unfold binary_round. rewrite digits2_pos_size, Z.add_0_r.
  set (e' := fexp64 _). destruct (decide (e' ≤ 0)) as [He|He].
  - destruct (shl_align_spec p 0 e' He) as (mz & -> & Hmz & Hsz).
    rewrite Z.sub_0_l in *. exists e'. rewrite <- Hmz.
    destruct (binary_round_aux_rounds s (Zpos mz) e' loc_Exact (Zpos mz) 1)
      as (m & e & ? & ?); [lia|by apply shifted_exact| |by exists m, e].
    cbn [Zdigits2]. rewrite digits2_pos_size, Hsz. unfold e'.
    apply Z.eq_le_incl. f_equal. lia.
  - unfold shl_align. destruct (e' - 0) eqn:Hd; [exfalso; lia| |exfalso; lia].
    exists 0. change (2 ^ (- 0)) with 1. rewrite Z.mul_1_r.
    destruct (binary_round_aux_rounds s (Zpos p) 0 loc_Exact (Zpos p) 1)
      as (m & e & ? & ?); [lia|by apply shifted_exact| |by exists m, e].
    cbn [Zdigits2]. rewrite digits2_pos_size, Z.add_0_r. fold e'. lia.
Qed.

(** [to_double] rounds the number a decimal denotes, scaled to an
    exponent that is not above zero. *)
Lemma to_double_rounds x :
  num_mantissa x ≠ 0%N →
  ∃ e0 m e, e0 ≤ 0 ∧ to_double x = rounded (num_neg x) m e
          ∧ rounds (numerator x * 2 ^ (- e0)) (denominator x) e0 m e.
Proof.
  unfold to_double, numerator, denominator.
  destruct (num_mantissa x) as [|p]; [done|]. intros _. unfold round_decimal.
  destruct (num_exp10 x) as [|k|k]; cbn [Z.of_N].
  - apply binary_round_rounds.
  - rewrite <- Pos2Z.inj_pow, <- Pos2Z.inj_mul. apply binary_round_rounds.
  - unfold SFdiv.
    destruct (SFdiv_core_binary_spec (Zpos p) 0 (Zpos (10 ^ k)) 0)
      as (q & e' & l & -> & Hq & He & He0 & Hsh); [done..|].
    rewrite xorb_false_r, <- Pos2Z.inj_pow. exists e'.
    replace (- e') with (0 - 0 - e') by lia.
    destruct (binary_round_aux_rounds (num_neg x) q e' l _ (Zpos (10 ^ k))
                ltac:(done) Hsh He) as (m & e & ? & ?).
    exists m, e. split_and!; [lia|done..].
Qed.

(** A decimal whose double is a zero denotes at most half the least
    double, [2 ^ -1075]. *)
Theorem to_double_zero x s :
  to_double x = S754_zero s →
  s = num_neg x ∧ 2 ^ 1075 * numerator x ≤ denominator x.
Proof.
  destruct (decide (num_mantissa x = 0%N)) as [H0|H0].
  - unfold to_double, numerator, denominator. rewrite H0. intros [= <-].
    split; [done|]. destruct (num_exp10 x); lia.
  - destruct (to_double_rounds x H0) as (e0 & m & e & He0 & -> & Hr).
    unfold rounded. destruct m as [|m|m]; [|by destruct (_ <=? _)|done].
    intros [= <-]. split; [done|].
    apply rounds_zero in Hr as [He Hle]; [|unfold numerator; case_match; lia].
    replace (2 ^ (- e0)) with (2 ^ 1074 * 2 ^ (-1074 - e0)) in Hle
      by (rewrite <- Z.pow_add_r by lia; f_equal; lia).
    apply (Z.mul_le_mono_pos_r _ _ (2 ^ (-1074 - e0))); [lia|].
    change (2 ^ 1075) with (2 * 2 ^ 1074). set (k := 2 ^ 1074) in *.
    clearbody k. lia.
Qed.

(** A decimal whose double is an infinity denotes at least the number
    half way between the greatest double and [2 ^ 1024]. *)
Theorem to_double_infinity x s :
  to_double x = S754_infinity s →
  s = num_neg x ∧ (2 ^ 54 - 1) * 2 ^ 970 * denominator x ≤ numerator x.
Proof.
  destruct (decide (num_mantissa x = 0%N)) as [H0|H0].
  { unfold to_double. by rewrite H0. }
  destruct (to_double_rounds x H0) as (e0 & m & e & He0 & -> & Hr).
  unfold rounded. destruct m as [|m|m]; [done| |done].
  destruct (Z.leb_spec e (double_emax - double_prec)); [done|].
  intros [= <-]. split; [done|].
  assert (0 < denominator x) by (unfold denominator; case_match; lia).
  apply rounds_infinity in Hr; [|done..].
  replace (2 ^ (972 - e0)) with (4 * 2 ^ 970 * 2 ^ (- e0)) in Hr
    by (change (4 * 2 ^ 970) with (2 ^ 972);
        rewrite <- Z.pow_add_r by lia; f_equal; lia).
  assert (0 < 2 ^ (- e0)) by lia.
  set (k := 2 ^ 970) in *. set (j := 2 ^ 54) in *. clearbody k j. nia.
Qed.

(** ** The number tokens *)

(** The value of a number token is the decimal of its text. *)
Lemma number_token_value json toks t :
  tokenize json = Ok toks → t ∈ toks → tok_type t = T_number →
  tok_value t = VNumber (to_number (tok_raw t)).
Proof.
  intros Hok%tokenize_Ok_typed Hin Hty. rewrite forallb_forall in Hok.
  apply list_elem_of_In, Hok in Hin. unfold token_ok in Hin.
  rewrite Hty in Hin. apply andb_prop in Hin as [_ Hin].
  destruct (tok_value t); try done. by apply bool_decide_eq_true in Hin as ->.
Qed.

(** ** Theorems *)

(** C30. The double of a number token is the nearest to the number its
    text denotes: within half a unit of the last place of the double,
    with an even mantissa when it is half a unit away, and within a
    quarter of a unit when the double is a power of two above the
    number.  An integer up to [MAX_SAFE_INTEGER] is stored exactly. *)
Theorem tokenize_number_nearest json toks t s m e :
  tokenize json = Ok toks → t ∈ toks → tok_type t = T_number →
  double_of (tok_value t) = Some (S754_finite s m e) →
  s = num_neg (to_number (tok_raw t))
  ∧ nearest (numerator (to_number (tok_raw t)))
      (denominator (to_number (tok_raw t))) m e
  ∧ (denominator (to_number (tok_raw t)) = 1 →
     numerator (to_number (tok_raw t)) ≤ MAX_SAFE_INTEGER →
     Zpos m = numerator (to_number (tok_raw t)) * 2 ^ (- e)).
Proof.
  intros Hok Hin Hty. rewrite (number_token_value json toks t) by done.
  intros [= (-> & Hn & He)%to_double_nearest]. split_and!; [done..|].
  intros Hd Hs. rewrite Hd in Hn. apply nearest_integer in Hn; auto.
Qed.

Lemma tokenize_number_nearest_witness :
  false = num_neg (to_number (tok_raw unsafe_token))
  ∧ nearest (numerator (to_number (tok_raw unsafe_token)))
      (denominator (to_number (tok_raw unsafe_token))) 4503599627370496 1
  ∧ (denominator (to_number (tok_raw unsafe_token)) = 1 →
     numerator (to_number (tok_raw unsafe_token)) ≤ MAX_SAFE_INTEGER →
     4503599627370496
     = numerator (to_number (tok_raw unsafe_token)) * 2 ^ (- 1)).
Proof.
  apply (tokenize_number_nearest unsafe_text unsafe_tokens unsafe_token);
    [by vm_compute|by right; left|done|by vm_compute].
Defined.

(** The double of a number token whose text is the decimal digits of an
    integer up to [MAX_SAFE_INTEGER] is that integer. *)
Theorem tokenize_integer_exact json toks t n :
  tokenize json = Ok toks → t ∈ toks → tok_type t = T_number →
  tok_raw t = decimal n → Z.of_N n ≤ MAX_SAFE_INTEGER →
  double_of (tok_value t) ≫= integer_of = Some (Z.of_N n).
Proof.
  intros Hok Hin Hty Hraw Hn. rewrite (number_token_value json toks t) by done.
  rewrite Hraw. by apply to_double_decimal.
Qed.

(** ** Examples *)

(** Two texts of one number: the decimals differ in the exponent, the
    doubles are equal. *)
Example strict_equal_texts :
  to_number (js "1.0") ≠ to_number (js "1")
  ∧ strict_equal (to_number (js "1.0")) (to_number (js "1")) = true
  ∧ strict_equal (to_number (js "1e2")) (to_number (js "100")) = true
  ∧ strict_equal (to_number (js "-0")) (to_number (js "0")) = true.
Proof. by vm_compute. Qed.

(** Beyond [MAX_SAFE_INTEGER] two integers can be one double. *)
Example strict_equal_unsafe :
  strict_equal (integer_number false 9007199254740993)
    (integer_number false 9007199254740992) = true
  ∧ integer_of (to_double (to_number (js "9007199254740993")))
    = Some 9007199254740992.
Proof. by vm_compute. Qed.

(** The double of [0.1] is the nearest to one tenth, and above it. *)
Example nearest_tenth :
  nearest 1 10 7205759403792794 (-56)
  ∧ 1 * 2 ^ 56 < 7205759403792794 * 10.
Proof.
  split; [|by vm_compute].
  by apply (to_double_nearest (to_number (js "0.1")) false).
Qed.

(** The decimals [1e400] and [1e-400] are beyond the two bounds. *)
Example beyond_the_format :
  (2 ^ 54 - 1) * 2 ^ 970 * denominator (to_number (js "1e400"))
  ≤ numerator (to_number (js "1e400"))
  ∧ 2 ^ 1075 * numerator (to_number (js "1e-400"))
    ≤ denominator (to_number (js "1e-400")).
Proof.
  split.
  - by apply (to_double_infinity (to_number (js "1e400")) false).
  - by apply (to_double_zero (to_number (js "1e-400")) false).
Qed.
