(* ===== verification/Numeric.v ===== *)
(** * Numeric: the unary plus on a text

    [create] of a number token stores [+value]
    (src/src/json-parse-ast.js:272).  On a text the unary plus is
    StringToNumber of the language: the white space at both ends is
    dropped; the empty text is 0; a text with the prefix [0x], [0o] or
    [0b] is read in that radix; a text of the grammar StrDecimalLiteral
    (an optional sign, then [Infinity], or digits with an optional
    fraction and exponent, or a fraction that starts with the point) is
    rounded to the nearest double; every other text is NaN.
    [StringToNumber] is that function, with [to_double] of [Double] for
    the rounding, and [unary_plus] is the operator.  The rounding is
    the one of the exact decimal: the language requires it of a text of
    at most 20 significant digits and allows an implementation to cut
    a longer one at the 20th digit first, which the engines that run
    the program do not do.

    [Token] reads the value of a number token with [to_number], which
    knows the grammar of the number expression of the tokenizer only.
    The theorems justify this: the language of the number expression
    [re_number] is included in StrDecimalLiteral, its texts have no
    white space, no radix prefix and no plus sign in front
    ([number_StrDecimalLiteral], [number_chars]), so that on the text of
    a number token the unary plus is the double of the decimal
    [to_number] reads and is never NaN ([unary_plus_number],
    [tokenize_number_double]).  The examples show the texts on which the
    two differ, none of which the number expression matches. *)

From Stdlib Require Import SpecFloat.
From S2P Require Import Prelude Regex Token Tokenizer Language Json Double.

Local Open Scope Z_scope.
Local Open Scope regex_scope.

(** ** StringToNumber *)

(** StrWhiteSpace at both ends is not part of the number. *)
Definition trim (s : jstring) : jstring :=
  reverse (drop_while is_space (reverse (drop_while is_space s))).

(** The digits of a radix of 2, 8 or 16, at least one of them. *)
Definition radix_value (radix : N) (digits : jstring) : option N :=
  if decide (digits = []) then None
  else
    foldl (λ acc c,
             a ← acc; d ← hex_digit c;
             if (d <? radix)%N then Some (radix * a + d)%N else None)
      (Some 0%N) digits.

(** NonDecimalIntegerLiteral: [0x], [0o] or [0b] and digits, no sign. *)
Definition NonDecimalIntegerLiteral (s : jstring) : option N :=
  match s with
  | c0 :: c :: digits =>
    if negb (c0 =? 48)%N then None
    else if one_of ["x"; "X"]%char c then radix_value 16 digits
    else if one_of ["o"; "O"]%char c then radix_value 8 digits
    else if one_of ["b"; "B"]%char c then radix_value 2 digits
    else None
  | _ => None
  end.

(** StrDecimalLiteral, as an expression. *)
Definition re_digits : regex := Plus (Chr is_digit).
Definition re_sign : regex := Chr (one_of ["+"; "-"]%char).
Definition re_exponent : regex :=
  Chr (one_of ["e"; "E"]%char) ⨾ Opt re_sign ⨾ re_digits.

Definition re_StrUnsignedDecimalLiteral : regex :=
  Word (list_ascii_of_string "Infinity")
  ∣ re_digits ⨾ Opt (Lit "." ⨾ (Chr is_digit)⋆) ⨾ Opt re_exponent
  ∣ Lit "." ⨾ re_digits ⨾ Opt re_exponent.

Definition re_StrDecimalLiteral : regex :=
  Opt re_sign ⨾ re_StrUnsignedDecimalLiteral.

(** The whole of [s] is a text of [r]. *)
Definition whole (r : regex) (s : jstring) : bool :=
  bool_decide ([] ∈ matches r s).

(** A text without its sign, and without its plus sign. *)
Definition unsigned (s : jstring) : jstring :=
  match s with
  | c :: s' => if one_of ["+"; "-"]%char c then s' else s
  | [] => []
  end.

Definition without_plus (s : jstring) : jstring :=
  match s with
  | c :: s' => if (c =? 43)%N then s' else s
  | [] => []
  end.

(** StringToNumber of the language. *)
Definition StringToNumber (s : jstring) : spec_float :=
  let t := trim s in
  if decide (t = []) then S754_zero false
  else
    match NonDecimalIntegerLiteral t with
    | Some n => to_double (integer_number false n)
    | None =>
      if whole re_StrDecimalLiteral t then
        if decide (unsigned t = js "Infinity")
        then S754_infinity (bool_decide (head t = Some 45%N))
        else to_double (to_number (without_plus t))
      else S754_nan
    end.

(** [+value] on a text. *)
Definition unary_plus (value : jstring) : spec_float := StringToNumber value.

(** ** The characters of an expression *)

(** Every character the expression [r] reads satisfies [P]. *)
Fixpoint over (P : code_unit → bool) (r : regex) : Prop :=
  match r with
  | Eps => True
  | Chr p => ∀ c, p c = true → P c = true
  | Seq r1 r2 | Alt r1 r2 => over P r1 ∧ over P r2
  | Star r => over P r
  end.

(** The characters of a number of JSON. *)
Definition number_char (c : code_unit) : bool :=
  is_digit c || one_of ["-"; "+"; "."; "e"; "E"]%char c.

(** ** Lemmas *)

Lemma number_char_spec c :
  number_char c = true ↔ (48 ≤ c ≤ 57)%N ∨ c ∈ [45; 43; 46; 101; 69]%N.
Proof.
  unfold number_char, one_of.
  by rewrite orb_true_iff, is_digit_spec, bool_decide_eq_true.
Qed.

Lemma number_char_not_space c : number_char c = true → is_space c = false.
Proof.
  intros Hc%number_char_spec. unfold is_space.
  apply orb_false_iff. split.
  - apply bool_decide_eq_false. set_unfold. lia.
  - apply andb_false_iff. rewrite !N.leb_gt. set_unfold. lia.
Qed.

(** *** The languages *)

Lemma denotes_over P r w :
  over P r → denotes r w → Forall (λ c, P c = true) w.
Proof.
  intros Hr Hd.
  induction Hd as [|p c Hp|r1 r2 w1 w2 _ IH1 _ IH2|r1 r2 w _ IH|r1 r2 w _ IH
                  |r|r w1 w2 _ IH1 _ IH2]; simpl in Hr.
  - constructor.
  - repeat constructor. auto.
  - apply Forall_app. split; [apply IH1|apply IH2]; tauto.
  - apply IH. tauto.
  - apply IH. tauto.
  - constructor.
  - apply Forall_app. split; [apply IH1|apply IH2]; done.
Qed.

Lemma denotes_Seq_inv r1 r2 w :
  denotes (Seq r1 r2) w →
  ∃ w1 w2, w = w1 ++ w2 ∧ denotes r1 w1 ∧ denotes r2 w2.
Proof. inversion 1; eauto. Qed.

Lemma denotes_Alt_inv r1 r2 w :
  denotes (Alt r1 r2) w → denotes r1 w ∨ denotes r2 w.
Proof. inversion 1; eauto. Qed.

Lemma denotes_Chr_inv p w : denotes (Chr p) w → ∃ c, w = [c] ∧ p c = true.
Proof. inversion 1; eauto. Qed.

Lemma denotes_Opt_inv r w : denotes (Opt r) w → denotes r w ∨ w = [].
Proof. intros [?|H]%denotes_Alt_inv; [by left|right]. by inversion H. Qed.

(** Inclusions of languages, part by part. *)
Lemma denotes_Chr_impl (p q : code_unit → bool) :
  (∀ c, p c = true → q c = true) →
  ∀ w, denotes (Chr p) w → denotes (Chr q) w.
Proof. intros Hpq w (c & -> & Hc)%denotes_Chr_inv. constructor. auto. Qed.

Lemma denotes_Seq_impl r1 r2 r1' r2' :
  (∀ w, denotes r1 w → denotes r1' w) → (∀ w, denotes r2 w → denotes r2' w) →
  ∀ w, denotes (Seq r1 r2) w → denotes (Seq r1' r2') w.
Proof.
  intros H1 H2 w (w1 & w2 & -> & ? & ?)%denotes_Seq_inv. constructor; auto.
Qed.

Lemma denotes_Alt_impl r1 r2 r :
  (∀ w, denotes r1 w → denotes r w) → (∀ w, denotes r2 w → denotes r w) →
  ∀ w, denotes (Alt r1 r2) w → denotes r w.
Proof. intros H1 H2 w [?|?]%denotes_Alt_inv; auto. Qed.

Lemma denotes_Opt_impl r r' :
  (∀ w, denotes r w → denotes r' w) →
  ∀ w, denotes (Opt r) w → denotes (Opt r') w.
Proof.
  intros Hr w [?| ->]%denotes_Opt_inv;
    [apply denotes_Alt_l; auto|apply denotes_Alt_r; constructor].
Qed.

Lemma denotes_Plus_one r w : denotes r w → denotes (Plus r) w.
Proof. intros. rewrite <- (app_nil_r w). by repeat constructor. Qed.

Lemma denotes_Plus_Star r w : denotes (Plus r) w → denotes (Star r) w.
Proof. intros (w1 & w2 & -> & ? & ?)%denotes_Seq_inv. by constructor. Qed.

(** The whole of a text is matched when the text is in the language. *)
Lemma whole_spec r s : whole r s = true ↔ denotes r s.
Proof.
  unfold whole. rewrite bool_decide_eq_true, matches_denotes. split.
  - intros (w & -> & Hw). by rewrite app_nil_r.
  - intros Hd. exists s. by rewrite app_nil_r.
Qed.

(** *** The number expression *)

Lemma over_number : over number_char re_number.
Proof.
  unfold re_number, Opt, Plus, Lit. cbn [over].
  repeat split; intros c Hc; apply number_char_spec;
    first [ apply N.eqb_eq in Hc as <-; cbn; (left; lia) || (right; set_solver)
          | apply is_digit_spec in Hc; by left
          | apply in_range_spec in Hc; cbn in Hc; left; lia
          | apply bool_decide_eq_true in Hc; right; cbn in Hc; set_solver ].
Qed.

(** The texts of the number expression are made of digits, signs, the
    point and the letter of the exponent. *)
Lemma number_chars w :
  denotes re_number w → Forall (λ c, number_char c = true) w.
Proof. apply denotes_over, over_number. Qed.

Lemma number_not_empty w : denotes re_number w → w ≠ [].
Proof. by intros Hd ->; apply nullable_denotes in Hd. Qed.

(** ... and start with the minus sign or a digit. *)
Lemma number_head w :
  denotes re_number w → ∃ c w', w = c :: w' ∧ c ≠ 43%N.
Proof.
  intros (ws & w1 & -> & Hs & H)%denotes_Seq_inv.
  apply denotes_Seq_inv in H as (wi & w2 & -> & Hi & _).
  apply denotes_Opt_inv in Hs as [(c & -> & Hc)%denotes_Chr_inv| ->].
  { exists c; eexists. split; [done|]. by apply N.eqb_eq in Hc as <-. }
  apply denotes_Alt_inv in Hi
    as [(c & -> & Hc)%denotes_Chr_inv
       |(w3 & w4 & -> & (c & -> & Hc)%denotes_Chr_inv & _)%denotes_Seq_inv];
    exists c; eexists; (split; [done|]).
  - by apply N.eqb_eq in Hc as <-.
  - apply in_range_spec in Hc. cbn in Hc. lia.
Qed.

(** The language of the number expression is part of StrDecimalLiteral. *)
Lemma number_StrDecimalLiteral w :
  denotes re_number w → denotes re_StrDecimalLiteral w.
Proof.
  revert w. apply denotes_Seq_impl.
  { apply denotes_Opt_impl, denotes_Chr_impl. by intros c <-%N.eqb_eq. }
  intros w H. apply denotes_Alt_r, denotes_Alt_l. revert w H.
  apply denotes_Seq_impl.
  - apply denotes_Alt_impl.
    + intros w H. apply denotes_Plus_one. revert w H.
      apply denotes_Chr_impl. by intros c <-%N.eqb_eq.
    + apply denotes_Seq_impl; [|done]. apply denotes_Chr_impl.
      intros c Hc%in_range_spec. apply is_digit_spec. cbn in Hc. lia.
  - apply denotes_Seq_impl; [|done].
    apply denotes_Opt_impl, denotes_Seq_impl; [done|].
    apply denotes_Plus_Star.
Qed.

(** *** StringToNumber on a number of JSON *)

Lemma drop_while_none p s :
  Forall (λ c, p c = false) s → drop_while p s = s.
Proof. destruct 1 as [|c s Hc _]; simpl; [done|]. by rewrite Hc. Qed.

Lemma trim_id s : Forall (λ c, is_space c = false) s → trim s = s.
Proof.
  intros Hs. unfold trim. rewrite (drop_while_none _ s) by done.
  rewrite drop_while_none by by apply Forall_reverse.
  apply reverse_involutive.
Qed.

(** No letter of a radix among the characters of a number. *)
Lemma NonDecimalIntegerLiteral_number s :
  Forall (λ c, number_char c = true) s → NonDecimalIntegerLiteral s = None.
Proof.
  destruct s as [|c0 [|c ds]]; [done..|].
  intros [_ [Hc%number_char_spec _]%Forall_cons]%Forall_cons.
  simpl. destruct (negb _); [done|]. unfold one_of.
  by rewrite !bool_decide_eq_false_2 by (cbn; set_unfold; lia).
Qed.

Lemma unsigned_number s :
  Forall (λ c, number_char c = true) s → unsigned s ≠ js "Infinity".
Proof.
  intros Hs Heq.
  assert (Forall (λ c, number_char c = true) (unsigned s)) as Hu.
  { destruct Hs as [|c s Hc Hs]; simpl; [done|].
    by destruct (one_of _ c); auto. }
  rewrite Heq in Hu. by apply Forall_cons in Hu as [? _].
Qed.

(** On a text of the number expression the unary plus is the double of
    the decimal that [to_number] reads. *)
Theorem unary_plus_number w :
  denotes re_number w → unary_plus w = to_double (to_number w).
Proof.
  intros Hd. pose proof (number_chars w Hd) as Hc.
  unfold unary_plus, StringToNumber. rewrite trim_id.
  2: { eapply Forall_impl; [done|apply number_char_not_space]. }
  rewrite decide_False by by apply number_not_empty.
  rewrite NonDecimalIntegerLiteral_number by done.
  rewrite (proj2 (whole_spec _ _) (number_StrDecimalLiteral _ Hd)).
  rewrite decide_False by by apply unsigned_number.
  apply number_head in Hd as (c & w' & -> & ?%N.eqb_neq). simpl.
  by destruct (c =? 43)%N.
Qed.

(** *** The number tokens *)

(** The text of a number token is a text of the number expression. *)
Lemma number_token_denotes json toks t :
  tokenize json = Ok toks → t ∈ toks → tok_type t = T_number →
  denotes re_number (tok_raw t).
Proof.
  intros Hok. revert t.
  apply (Forall_forall
           (λ t, tok_type t = T_number → denotes re_number (tok_raw t))).
  revert Hok. apply tokenize_Forall.
  intros ty s raw range tok [Hty Hex]%first_match_Some Hc Htype.
  pose proof (exec_denotes (regexp ty) s) as Hd. rewrite Hex in Hd.
  destruct Hd as [_ Hd].
  repeat (apply elem_of_cons in Hty as [->|Hty]);
    [..|by apply elem_of_nil in Hty]; simpl in Hc, Hd;
    cbv beta delta [create_inlinecomment create_multilinecomment
                    create_whitespace create_string create_literal
                    create_number create_punctuation] in Hc;
    outcome_inv; done.
Qed.

(** ** Theorems *)

(** The unary plus gives a NaN where the text is not empty and is
    neither an integer in a radix nor a decimal, and only there. *)
Theorem StringToNumber_nan s :
  StringToNumber s = S754_nan
  ↔ trim s ≠ [] ∧ NonDecimalIntegerLiteral (trim s) = None
    ∧ ¬ denotes re_StrDecimalLiteral (trim s).
Proof.
  unfold StringToNumber. rewrite <- whole_spec.
  pose proof to_double_is_double as Hnan. unfold is_double in Hnan.
  repeat case_match; naive_solver.
Qed.

(** C31. The value of every number token [tokenize] returns is stored as
    the double that the unary plus of the language gives of its text,
    and this double is a number of the binary64 format or an infinity,
    never the NaN that the unary plus gives of a text that is not a
    number. *)
Theorem tokenize_number_double json toks t :
  tokenize json = Ok toks → t ∈ toks → tok_type t = T_number →
  double_of (tok_value t) = Some (unary_plus (tok_raw t))
  ∧ is_double (unary_plus (tok_raw t)).
Proof.
  intros Hok Hin Hty.
  rewrite unary_plus_number by by eapply number_token_denotes.
  rewrite (number_token_value json toks t) by done.
  split; [done|]. apply to_double_is_double.
Qed.

Lemma tokenize_number_double_witness :
  double_of (tok_value unsafe_token) = Some (unary_plus (tok_raw unsafe_token))
  ∧ is_double (unary_plus (tok_raw unsafe_token)).
Proof.
  apply (tokenize_number_double unsafe_text unsafe_tokens);
    [by vm_compute|by right; left|done].
Defined.

(** ** Examples *)

(** The value of the number token of the tests. *)
Example unary_plus_123 :
  unary_plus (js "123") = S754_finite false 8655355533852672 (-46)
  ∧ integer_of (unary_plus (js "123")) = Some 123.
Proof. by vm_compute. Qed.

(** A fraction is rounded: [0.1] is stored as 0x1.999999999999ap-4. *)
Example unary_plus_tenth :
  unary_plus (js "0.1") = S754_finite false 7205759403792794 (-56)
  ∧ integer_of (unary_plus (js "0.1")) = None.
Proof. by vm_compute. Qed.

(** An integer between two doubles goes to the one with the even
    mantissa: 2^53 + 1 down, 2^53 + 3 up. *)
Example unary_plus_ties :
  integer_of (unary_plus (js "9007199254740993")) = Some 9007199254740992
  ∧ integer_of (unary_plus (js "9007199254740995")) = Some 9007199254740996.
Proof. by vm_compute. Qed.

(** An exponent out of range gives an infinity or a zero, a negative
    zero keeps its sign. *)
Example unary_plus_range :
  unary_plus (js "1e400") = S754_infinity false
  ∧ unary_plus (js "-1e400") = S754_infinity true
  ∧ unary_plus (js "1e-400") = S754_zero false
  ∧ unary_plus (js "-0") = S754_zero true
  ∧ unary_plus (js "5e-324") = S754_finite false 1 (-1074)
  ∧ unary_plus (js "1.7976931348623157e308")
    = S754_finite false 9007199254740991 971.
Proof. by vm_compute. Qed.

(** Texts that are no number of JSON and that the unary plus reads: the
    empty text and white space, a radix, a plus sign, a point at either
    end, zeros in front, [Infinity]. *)
Example unary_plus_beyond_JSON :
  unary_plus (js "") = S754_zero false
  ∧ unary_plus (js "  ") = S754_zero false
  ∧ integer_of (unary_plus (js " 12 ")) = Some 12
  ∧ integer_of (unary_plus (js "0x1F")) = Some 31
  ∧ integer_of (unary_plus (js "0o17")) = Some 15
  ∧ integer_of (unary_plus (js "0b101")) = Some 5
  ∧ integer_of (unary_plus (js "+7")) = Some 7
  ∧ integer_of (unary_plus (js "5.")) = Some 5
  ∧ integer_of (unary_plus (js "007")) = Some 7
  ∧ unary_plus (js ".5") = unary_plus (js "0.5")
  ∧ unary_plus (js "Infinity") = S754_infinity false
  ∧ unary_plus (js "-Infinity") = S754_infinity true.
Proof. by vm_compute. Qed.

(** Texts of which the unary plus is NaN: a word, an exponent without
    digits, a point alone, a sign alone, a radix without digits or with
    a sign or a digit out of the radix, two numbers, a separator. *)
Example unary_plus_NaN :
  Forall (λ s, unary_plus (js s) = S754_nan)
    ["abc"; "1e"; "1e+"; "."; "-"; "0x"; "-0x10"; "0o8"; "1 2"; "1_000";
     "1,5"; "infinity"; "12px"]%string.
Proof. repeat constructor. Qed.

(** None of them is a text of the number expression: what the tokenizer
    reads of ["1e"] and of ["12px"] is the number in front. *)
Example exec_number_prefix :
  exec re_number (js "1e") = Some (js "1")
  ∧ exec re_number (js "12px") = Some (js "12")
  ∧ exec re_number (js "0x1F") = Some (js "0")
  ∧ exec re_number (js "+7") = None
  ∧ exec re_number (js ".5") = None.
Proof. by vm_compute. Qed.

(** Where the decimal that [to_number] reads and the unary plus part:
    on texts that the number expression does not match. *)
Example to_number_beyond_JSON :
  to_double (to_number (js "0x1F")) = S754_zero false
  ∧ to_double (to_number (js "abc")) = S754_zero false
  ∧ integer_of (to_double (to_number (js "12px"))) = Some 12.
Proof. by vm_compute. Qed.
