(* ===== verification/Members.v ===== *)
(** * Members: the children of an object node

    What the queries on a tree need of the children of an object: the
    values among them, which [extractValues] keeps, are keys and values
    in turn, and the other children are colons, commas, comments and
    white space.  [tidy] and [alternates] say this of the children
    between the braces; the lemmas of this file turn it into the
    well-formedness [wf_value] that the theorems on the path inference
    and on the key positions assume, and give the key leaves of a tree,
    whose ranges are the [key_ranges]. *)

From S2P Require Import Prelude Regex Token Tokenizer Ast PathAt Pipeline.
From S2P Require Import PathTree KeyRanges.

(** ** Values among children *)

(** The values among the children of a container: what [extractValues]
    keeps. *)
Definition values (cs : list ast) : list ast :=
  filter (λ c, is_value c = true) cs.

(** Children each of which is a value or a leaf the path inference
    ignores. *)
Definition tidy (cs : list ast) : Prop :=
  Forall (λ c, is_value c = true ∨ ignored_leaf c = true) cs.

(** Keys and values, in turn. *)
Definition flat {A} (kns : list (A * A)) : list A :=
  kns ≫= (λ kn, [kn.1; kn.2]).

(** The values [l] are in turn a key that is a string and a value that
    is well formed; [keyed] tells that a key is open before them. *)
Fixpoint alternates (l : list ast) (keyed : bool) : bool :=
  match l with
  | [] => negb keyed
  | c :: l' =>
    (if keyed then wf_value c else string_leaf c)
    && alternates l' (negb keyed)
  end.

(** ** Key leaves *)

(** The keys among the children [cs] of an object and in the values
    among them; [isKey] is the variable of that name of [extractValues]. *)
Fixpoint key_leaves_in (key_leaves : ast → list ast) (cs : list ast)
    (isKey : bool) : list ast :=
  match cs with
  | [] => []
  | c :: cs' =>
    if is_value c then
      (if isKey then [c] else key_leaves c)
      ++ key_leaves_in key_leaves cs' (negb isKey)
    else key_leaves_in key_leaves cs' isKey
  end.

(** The key leaves of a tree, in the order of the text. *)
Fixpoint key_leaves (n : ast) : list ast :=
  match n with
  | Leaf _ _ _ _ _ => []
  | Container _ children _ _ => key_leaves_in key_leaves children true
  end.

(** ** Lemmas on values *)

Lemma values_app cs1 cs2 : values (cs1 ++ cs2) = values cs1 ++ values cs2.
Proof. apply filter_app. Qed.

Lemma values_is_value cs : Forall (λ c, is_value c = true) (values cs).
Proof. apply Forall_forall. by intros c [Hc _]%list_elem_of_filter. Qed.

Lemma is_value_set_parent n : is_value (set_parent n) = is_value n.
Proof. by destruct n. Qed.

Lemma values_set_parent cs : values (set_parent <$> cs) = set_parent <$> values cs.
Proof.
  induction cs as [|c cs IH]; [done|]. unfold values in *.
  rewrite fmap_cons, !filter_cons, is_value_set_parent.
  case_decide; by rewrite IH.
Qed.

(** The values among the children of a built container are those among
    the children between its opening and its closing token. *)
Lemma values_container topen tclose b (cs : list ast) :
  values (punct topen true :: (set_parent <$> cs) ++ [punct tclose b])
  = set_parent <$> values cs.
Proof.
  unfold values. rewrite filter_cons, decide_False by done.
  rewrite filter_app, filter_cons, decide_False, filter_nil, app_nil_r by done.
  apply values_set_parent.
Qed.

Lemma flat_fmap {A B} (f : A → B) (kns : list (A * A)) :
  f <$> flat kns = flat (prod_map f f <$> kns).
Proof.
  unfold flat. induction kns as [|[k n] kns IH]; [done|].
  rewrite fmap_cons, !bind_cons, fmap_app, IH. done.
Qed.

(** ** Well-formed objects *)

Lemma wf_value_set_parent n : wf_value (set_parent n) = wf_value n.
Proof. by destruct n. Qed.

Lemma string_leaf_set_parent n : string_leaf (set_parent n) = string_leaf n.
Proof. by destruct n. Qed.

Lemma ignored_leaf_set_parent n : ignored_leaf (set_parent n) = ignored_leaf n.
Proof. by destruct n. Qed.

Lemma tidy_set_parent cs : tidy cs → tidy (set_parent <$> cs).
Proof.
  intros Hcs. apply Forall_fmap. eapply Forall_impl; [exact Hcs|].
  intros c. simpl. by rewrite is_value_set_parent, ignored_leaf_set_parent.
Qed.

Lemma alternates_set_parent l : ∀ keyed,
  alternates (set_parent <$> l) keyed = alternates l keyed.
Proof.
  induction l as [|c l IH]; intros keyed; [done|]. simpl.
  by rewrite IH, wf_value_set_parent, string_leaf_set_parent.
Qed.

Lemma alternates_flat kns :
  Forall (λ kn, string_leaf kn.1 = true ∧ wf_value kn.2 = true) kns →
  alternates (flat kns) false = true.
Proof. induction 1 as [|[k n] kns [Hk Hn] _ IH]; [done|]. simpl in *. by rewrite Hk, Hn. Qed.

Lemma wf_members_cons wf c cs key :
  cs ≠ [] →
  wf_members wf (c :: cs) key
  = (if is_value c then
       match key with None => string_leaf c | Some _ => wf c end
     else ignored_leaf c)
    && wf_members wf cs (next_key c key).
Proof. by destruct cs. Qed.

(** Children that are tidy and whose values alternate, before a closing
    brace, are the children of a well-formed object. *)
Lemma wf_members_alternates close cs : ∀ key,
  tidy cs → alternates (values cs) (bool_decide (is_Some key)) = true →
  brace "}" close = true →
  wf_members wf_value (cs ++ [close]) key = true.
Proof.
  induction cs as [|c cs IH]; intros key Ht Ha Hb.
  - simpl in *. rewrite Hb. by destruct key.
  - apply Forall_cons in Ht as [Hc Ht].
    rewrite <- app_comm_cons, wf_members_cons by (by destruct cs).
    unfold values in Ha. rewrite filter_cons in Ha. unfold next_key.
    destruct (is_value c) eqn:Hv.
    + rewrite decide_True in Ha by done.
      apply andb_true_iff in Ha as [Hcheck Ha]. apply andb_true_iff.
      destruct key; (split; [done|by apply IH]).
    + rewrite decide_False in Ha by done. destruct Hc as [?| ->]; [done|].
      by apply IH.
Qed.

Lemma wf_value_object topen tclose b cs position hp kns :
  tok_raw topen = js "{" → tok_raw tclose = js "}" →
  tidy cs → values cs = flat kns →
  Forall (λ kn, string_leaf kn.1 = true ∧ wf_value kn.2 = true) kns →
  wf_value (Container Object
              (punct topen true :: (set_parent <$> cs) ++ [punct tclose b])
              position hp) = true.
Proof.
  intros Ho Hc Ht Hv Hk. cbn [wf_value]. apply andb_true_iff. split.
  { unfold punct, brace. by rewrite Ho, bool_decide_eq_true_2. }
  apply (wf_members_alternates _ _ None); [by apply tidy_set_parent| |].
  - rewrite values_set_parent, alternates_set_parent, Hv.
    by apply alternates_flat.
  - unfold punct, brace. by rewrite Hc, bool_decide_eq_true_2.
Qed.

(** ** The key leaves and the key ranges *)

Lemma key_leaves_set_parent n : key_leaves (set_parent n) = key_leaves n.
Proof. by destruct n. Qed.

(** The ranges [getPositionOfKeys] reports are those of the key
    leaves. *)
Lemma key_ranges_leaves n : key_ranges n = ast_position <$> key_leaves n.
Proof.
  induction n as [|type children position hp IH] using ast_ind'; [done|].
  cbn [key_ranges key_leaves]. generalize true.
  induction IH as [|c cs Hc _ IH]; intros isKey; [done|].
  cbn [key_members key_leaves_in]. destruct (is_value c); [|apply IH].
  rewrite fmap_app, IH. by destruct isKey; [|rewrite Hc].
Qed.

Lemma key_leaves_in_values f cs : ∀ isKey,
  key_leaves_in f cs isKey = key_leaves_in f (values cs) isKey.
Proof.
  induction cs as [|c cs IH]; intros isKey; [done|]. unfold values in *.
  rewrite filter_cons. cbn [key_leaves_in]. case_decide as Hv.
  - cbn [key_leaves_in]. rewrite Hv. by rewrite IH.
  - apply not_true_is_false in Hv. by rewrite Hv.
Qed.

Lemma key_leaves_flat kns :
  Forall (λ c, is_value c = true) (flat kns) →
  key_leaves_in key_leaves (flat kns) true
  = kns ≫= (λ kn, kn.1 :: key_leaves kn.2).
Proof.
  induction kns as [|[k n] kns IH]; [done|]. unfold flat in *.
  rewrite !bind_cons. simpl.
  intros [Hk [Hn Hkns]%Forall_cons]%Forall_cons. by rewrite Hk, Hn, IH.
Qed.

(** The key leaves of a built object: the keys of its members, each
    followed by the key leaves of its value. *)
Lemma key_leaves_container ty topen tclose b cs position hp kns :
  values cs = flat kns →
  key_leaves (Container ty
                (punct topen true :: (set_parent <$> cs) ++ [punct tclose b])
                position hp)
  = kns ≫= (λ kn, set_parent kn.1 :: key_leaves kn.2).
Proof.
  intros Hv. cbn [key_leaves].
  rewrite key_leaves_in_values, values_container.
  pose proof (values_is_value (set_parent <$> cs)) as Hall.
  rewrite values_set_parent, Hv, flat_fmap in *.
  rewrite (key_leaves_flat _ Hall). clear.
  induction kns as [|[k n] kns IH]; [done|].
  rewrite fmap_cons, !bind_cons, IH. simpl. by rewrite key_leaves_set_parent.
Qed.
