(* ===== verification/Document.v ===== *)
(** * Document: from a value to its text and back

    [JSON.stringify] writes a value as a text, and a hand may add white
    space and comments; [tokenize] and [parseTokens] turn the text into
    a tree; [extractValues] gives the members of the objects and the
    elements of the arrays of the tree.  [value_of] reads a value off a
    tree with [extractValues], and the theorem of this file closes the
    circle: the tree of the text of a value, in any layout of white
    space and comments, has that value, and its raw text is the text.
    For an object without arrays the tree is a document of the path
    inference ([Members]), so that [getPositionOfKeys] on the tokens of
    the text returns the ranges of the keys of the value.  Two
    corollaries: the text determines the value, and the value read
    does not depend on the layout. *)

From S2P Require Import Prelude Regex Token Tokenizer Prefix Scanner Ast.
From S2P Require Import PathAt Pipeline PathTree KeyRanges Completion Shape.
From S2P Require Import Json Members.

(** ** The value of a tree *)

(** The string a key stands for. *)
Definition key_text (n : ast) : option jstring :=
  match n with
  | Leaf StringLiteral _ (Some (VString s)) _ _ => Some s
  | _ => None
  end.

(** A member of an object, from a pair of [extractValues] whose nodes
    come with their values. *)
Definition member_of (p : option (ast * option json) * (ast * option json))
    : option (jstring * json) :=
  k ← p.1; s ← key_text k.1; v ← p.2.2; Some (s, v).

(** The value of a tree: of a leaf the [value] of its token, of an
    object the pairs of [extractValues] with a string as the key, of an
    array the elements of [extractValues]. *)
Fixpoint value_of (n : ast) : option json :=
  match n with
  | Leaf StringLiteral _ (Some (VString s)) _ _ => Some (JString s)
  | Leaf NumberLiteral _ (Some (VNumber x)) _ _ =>
    if decide (VNumber x = natural (num_mantissa x))
    then Some (JNumber (num_mantissa x)) else None
  | Leaf LiteralLiteral _ (Some (VBool b)) _ _ => Some (JBool b)
  | Leaf LiteralLiteral _ (Some VNull) _ _ => Some JNull
  | Leaf _ _ _ _ _ => None
  | Container Object children _ _ =>
    JObject <$>
      mapM member_of
        (extractValues_Object (λ c, is_value c.1)
           ((λ c, (c, value_of c)) <$> children))
  | Container Array children _ _ =>
    JArray <$>
      mapM snd
        (extractValues_Array (λ c, is_value c.1)
           ((λ c, (c, value_of c)) <$> children))
  end.

(** ** Tokens that read as words *)

(** The tokens from [cur] on are the words [ws], up to their ranges. *)
Fixpoint reads (toks : list token) (cur : nat) (ws : list token) : Prop :=
  match ws with
  | [] => True
  | w :: ws' => (∃ t, toks !! cur = Some t ∧ t ≡ w) ∧ reads toks (S cur) ws'
  end.

(** The builder turns the words [ws], wherever they stand among the
    children of a container that [close] closes, into children that are
    tidy and the values among which satisfy [R]. *)
Definition builds (close : jstring) (ws : list token)
    (R : list ast → Prop) : Prop :=
  ∀ toks cur, reads toks cur ws →
  ∃ cs, built_children toks close cur (cur + length ws) cs
      ∧ tidy cs ∧ R (values cs).

(** The node [n] stands for the value [v]: it has that value, and when
    the value has no arrays it is well formed for the path inference and
    its key leaves are the keys of the value. *)
Definition represents (n : ast) (v : json) : Prop :=
  value_of n = Some v
  ∧ (objects_only v = true →
     wf_value n = true ∧ key_text <$> key_leaves n = Some <$> keys_in v).

(** The builder turns the words of [v] in the layout [gap], wherever
    they stand, into a node that stands for [v]. *)
Definition parses (gap : text_layout) (v : json) : Prop :=
  ∀ depth toks cur, reads toks cur (words gap depth v) →
  ∃ n, built toks cur (cur + length (words gap depth v)) n
     ∧ represents n v ∧ is_value n = true.

(** The values [l] stand for the elements [vs]. *)
Definition elements_of (vs : list json) (l : list ast) : Prop :=
  Forall2 represents l vs.

(** The values [l] are, two by two, the keys and the values of the
    members [ms]. *)
Definition members_of (ms : list (jstring * json)) (l : list ast) : Prop :=
  ∃ kns : list (ast * ast),
    l = flat kns
    ∧ Forall2 (λ kn m, key_text kn.1 = Some m.1 ∧ represents kn.2 m.2)
        kns ms.

(** No value. *)
Definition none (l : list ast) : Prop := l = [].

(** One value, which stands for [v]. *)
Definition one (v : json) (l : list ast) : Prop :=
  ∃ n, l = [n] ∧ represents n v.

(** ** Lemmas on [reads] *)

Lemma reads_app toks cur ws1 ws2 :
  reads toks cur (ws1 ++ ws2)
  ↔ reads toks cur ws1 ∧ reads toks (cur + length ws1) ws2.
Proof.
  revert cur. induction ws1 as [|w ws1 IH]; intros cur; simpl.
  - rewrite Nat.add_0_r. naive_solver.
  - rewrite IH, Nat.add_succ_r. naive_solver.
Qed.

Lemma equiv_reads (toks ws : list token) : toks ≡ ws → reads toks 0 ws.
Proof.
  intros Heq. change toks with ([] ++ toks).
  change 0 with (length (@nil token)).
  generalize (@nil token). induction Heq as [|t w toks ws Ht _ IH]; intros pre.
  - done.
  - split; [exists t; by rewrite list_lookup_middle|].
    specialize (IH (pre ++ [t])).
    by rewrite length_app, Nat.add_1_r, <- (assoc_L (++)) in IH.
Qed.

(** ** Lemmas on the value of a tree *)

Lemma value_of_set_parent n : value_of (set_parent n) = value_of n.
Proof. by destruct n. Qed.

Lemma key_text_set_parent n : key_text (set_parent n) = key_text n.
Proof. by destruct n. Qed.

(** The nodes with their values that [extractValues] keeps. *)
Lemma filter_valued (children : list ast) :
  filter (λ c : ast * option json, is_value c.1 = true)
    ((λ c, (c, value_of c)) <$> children)
  = (λ c, (c, value_of c)) <$> values children.
Proof.
  unfold values. induction children as [|c cs IH]; [done|].
  rewrite fmap_cons, !filter_cons. simpl.
  case_decide; by rewrite IH.
Qed.

Lemma value_of_Array topen tclose b cs position hp vs :
  elements_of vs (values cs) →
  value_of (Container Array
              (punct topen true :: (set_parent <$> cs) ++ [punct tclose b])
              position hp)
  = Some (JArray vs).
Proof.
  intros Hvs. cbn [value_of].
  rewrite extractValues_Array_filter, filter_valued.
  rewrite (values_container topen tclose b cs).
  rewrite (mapM_Some_2 _ _ vs); [done|].
  rewrite <- list_fmap_compose. apply Forall2_fmap_l.
  eapply Forall2_impl; [exact Hvs|]. intros c v [Hc _]. simpl.
  by rewrite value_of_set_parent.
Qed.

Lemma pair_up_flat {A} (kns : list (A * A)) :
  pair_up (flat kns) = (λ kn, (Some kn.1, kn.2)) <$> kns.
Proof.
  unfold flat. induction kns as [|[k n] kns IH]; [done|].
  rewrite bind_cons, fmap_cons, <- IH. done.
Qed.

Lemma value_of_Object topen tclose b cs position hp ms :
  members_of ms (values cs) →
  value_of (Container Object
              (punct topen true :: (set_parent <$> cs) ++ [punct tclose b])
              position hp)
  = Some (JObject ms).
Proof.
  intros (kns & Hf & Hms). cbn [value_of].
  rewrite extractValues_Object_pair_up, filter_valued.
  rewrite (values_container topen tclose b cs), Hf, !flat_fmap.
  rewrite pair_up_flat, <- !list_fmap_compose.
  rewrite (mapM_Some_2 _ _ ms); [done|].
  apply Forall2_fmap_l. eapply Forall2_impl; [exact Hms|].
  intros [k n] [s v] [Hk [Hv _]]. unfold member_of. simpl in *.
  by rewrite key_text_set_parent, Hk, value_of_set_parent, Hv.
Qed.

(** What the pairs of a built object give for the path inference and
    the key positions, when the values of the members have no arrays. *)
Lemma members_of_objects kns ms :
  Forall2 (λ kn m, key_text kn.1 = Some m.1 ∧ represents kn.2 m.2) kns ms →
  forallb (λ m, objects_only m.2) ms = true →
  Forall (λ kn, string_leaf kn.1 = true ∧ wf_value kn.2 = true) kns
  ∧ key_text <$> (kns ≫= (λ kn, set_parent kn.1 :: key_leaves kn.2))
    = Some <$> (m ← ms; m.1 :: keys_in m.2).
Proof.
  induction 1 as [|[k n] [s v] kns ms [Hk [_ Hn]] _ IH]; [done|].
  intros [Hv Hms]%andb_true_iff. destruct (IH Hms) as [Hwf Hkeys].
  destruct (Hn Hv) as [Hwfn Hkn]. split.
  - constructor; [|done]. split; [|done]. simpl in Hk.
    by destruct k as [[] ? [[]|] ? ?|].
  - rewrite !bind_cons, !fmap_app, Hkeys. cbn [fst snd] in *.
    by rewrite !fmap_cons, key_text_set_parent, Hk, Hkn.
Qed.

Lemma represents_Object topen tclose b cs position hp ms :
  tok_raw topen = js "{" → tok_raw tclose = js "}" →
  tidy cs → members_of ms (values cs) →
  represents
    (Container Object
       (punct topen true :: (set_parent <$> cs) ++ [punct tclose b])
       position hp) (JObject ms).
Proof.
  intros Ho Hc Ht Hms. split; [by apply value_of_Object|].
  destruct Hms as (kns & Hv & Hall). intros Hoo.
  destruct (members_of_objects _ _ Hall Hoo) as [Hwf Hkeys].
  split; [by apply (wf_value_object _ _ _ _ _ _ kns)|].
  by rewrite (key_leaves_container _ _ _ _ _ _ _ kns Hv).
Qed.

(** ** The builder on words *)

Lemma built_children_app toks close cur mid next cs1 cs2 :
  built_children toks close cur mid cs1 →
  built_children toks close mid next cs2 →
  built_children toks close cur next (cs1 ++ cs2).
Proof. induction 1; simpl; [done|]. intros. econstructor; eauto. Qed.

Lemma builds_nil close (R : list ast → Prop) : R [] → builds close [] R.
Proof.
  intros HR toks cur _. exists []. split; [|by split; [constructor|]].
  rewrite Nat.add_0_r. constructor.
Qed.

Lemma builds_app close ws1 ws2 (R1 R2 R : list ast → Prop) :
  builds close ws1 R1 → builds close ws2 R2 →
  (∀ l1 l2, R1 l1 → R2 l2 → R (l1 ++ l2)) →
  builds close (ws1 ++ ws2) R.
Proof.
  intros H1 H2 HR toks cur [Hr1 Hr2]%reads_app.
  destruct (H1 _ _ Hr1) as (cs1 & Hb1 & ? & ?).
  destruct (H2 _ _ Hr2) as (cs2 & Hb2 & ? & ?).
  exists (cs1 ++ cs2). split_and!.
  - rewrite length_app, Nat.add_assoc. by eapply built_children_app.
  - by apply Forall_app.
  - rewrite values_app. auto.
Qed.

Lemma builds_impl close ws (R Q : list ast → Prop) :
  builds close ws R → (∀ l, R l → Q l) → builds close ws Q.
Proof. intros H HQ toks cur (cs & ? & ? & ?)%H. eauto. Qed.

(** Words without a value before and after others. *)
Lemma builds_skip_l close ws1 ws2 (R : list ast → Prop) :
  builds close ws1 none → builds close ws2 R → builds close (ws1 ++ ws2) R.
Proof.
  intros H1 H2. apply (builds_app _ _ _ _ _ _ H1 H2). by intros ? ? ->.
Qed.

Lemma builds_skip_r close ws1 ws2 (R : list ast → Prop) :
  builds close ws1 R → builds close ws2 none → builds close (ws1 ++ ws2) R.
Proof.
  intros H1 H2. apply (builds_app _ _ _ _ _ _ H1 H2).
  intros ? ? ? ->. by rewrite app_nil_r.
Qed.

(** A word that becomes a leaf. *)
Lemma built_word toks cur t w ty value :
  toks !! cur = Some t → t ≡ w → leaf_kind w = Some (ty, value) →
  built toks cur (S cur) (Leaf ty (tok_raw w) value (tok_position t) false).
Proof.
  intros Ht (Hty & Hraw & Hval)%token_equiv_fields Hk. rewrite <- Hraw.
  apply built_leaf; [done|]. unfold leaf_kind in *.
  by rewrite Hty, Hraw, Hval.
Qed.

Lemma builds_leaf close w ty value (R : list ast → Prop) :
  leaf_kind w = Some (ty, value) → tok_raw w ≠ close →
  (∀ position,
     let leaf := Leaf ty (tok_raw w) value position false in
     tidy [leaf] ∧ R (values [leaf])) →
  builds close [w] R.
Proof.
  intros Hk Hne HR toks cur [(t & Ht & Heq) _].
  eexists. split; [|apply HR]. rewrite Nat.add_1_r.
  eapply built_cons; [done| |by eapply built_word|constructor].
  by rewrite (tok_raw_proper _ _ Heq).
Qed.

Lemma builds_punctuation close c :
  c ∈ [":"; ","]%string → close ∈ [js "]"; js "}"] →
  builds close [punctuation_word c] none.
Proof.
  intros Hc Hclose.
  apply (builds_leaf _ _ Punctuation (Some (VString (js c)))).
  - set_unfold in Hc. by destruct_or!; subst.
  - set_unfold in Hc. set_unfold in Hclose. by destruct_or!; subst.
  - intros position. split; [|done]. apply Forall_singleton. right.
    set_unfold in Hc. by destruct_or!; subst.
Qed.

(** A comment or white space becomes a leaf that is no value and that
    the path inference ignores. *)
Lemma trivia_leaf w :
  is_trivia w = true →
  ∃ ty value, leaf_kind w = Some (ty, value)
     ∧ ∀ raw position,
         let leaf := Leaf ty raw value position false in
         tidy [leaf] ∧ values [leaf] = [].
Proof.
  unfold is_trivia, leaf_kind. intros Hw%bool_decide_eq_true.
  set_unfold in Hw. destruct_or!; rewrite Hw; eexists _, _;
    (split; [done|]); intros raw position; (split; [|done]);
    apply Forall_singleton; by right.
Qed.

Lemma builds_trivia close g :
  close ∈ [js "]"; js "}"] → Forall (λ w, is_trivia w = true) g →
  lexable g [] → builds close g none.
Proof.
  intros Hc Hg. induction Hg as [|w g Hw _ IH]; [intros; by apply builds_nil|].
  intros [Hlex Hlexable]. apply (builds_skip_l _ [w]); [|by apply IH].
  destruct (trivia_leaf w Hw) as (ty & value & Hk & Hv).
  apply (builds_leaf _ _ ty value); [done| |intros; apply Hv].
  pose proof (lexes_trivia _ _ Hlex Hw). set_solver.
Qed.

(** ** Every value parses *)

Lemma parses_leaf gap v w ty value :
  (∀ depth, words gap depth v = [w]) → leaf_kind w = Some (ty, value) →
  (∀ position, value_of (Leaf ty (tok_raw w) value position false) = Some v) →
  (∀ position, is_value (Leaf ty (tok_raw w) value position false) = true) →
  keys_in v = [] →
  parses gap v.
Proof.
  intros Hw Hk Hv Hi Hkeys depth toks cur. rewrite Hw.
  intros [(t & Ht & Heq) _].
  eexists. split; [rewrite Nat.add_1_r; by eapply built_word|].
  split; [|done]. split; [done|]. intros _. rewrite Hkeys.
  specialize (Hi (tok_position t)). by destruct ty.
Qed.

(** The words of the items between the opening and the closing word of
    a container become the children of a container node. *)
Lemma built_container_words ty ws (R : list ast → Prop) toks cur :
  builds (close_raw ty) ws R →
  reads toks cur
    (word T_punctuation (open_raw ty) (VString (open_raw ty))
     :: ws ++ [word T_punctuation (close_raw ty) (VString (close_raw ty))]) →
  ∃ topen tclose cs position,
    built toks cur (cur + S (length ws + 1))
      (Container ty
         (punct topen true :: (set_parent <$> cs)
          ++ [punct tclose (close_has_parent ty)]) position false)
    ∧ tok_raw topen = open_raw ty ∧ tok_raw tclose = close_raw ty
    ∧ tidy cs ∧ R (values cs).
Proof.
  intros Hws [(topen & Ho & Heqo) [Hr [(tclose & Hc & Heqc) _]]%reads_app].
  destruct (Hws _ _ Hr) as (cs & Hcs & Ht & HR).
  apply token_equiv_fields in Heqo as (Htyo & Hrawo & _).
  apply token_equiv_fields in Heqc as (_ & Hrawc & _).
  exists topen, tclose, cs, (span (tok_position topen) (tok_position tclose)).
  split; [|done]. rewrite Nat.add_1_r, <- !Nat.add_succ_comm.
  by eapply built_container.
Qed.

Lemma parses_container gap ty (ws : nat → list token) (R : list ast → Prop) v :
  (∀ depth, words gap depth v
   = word T_punctuation (open_raw ty) (VString (open_raw ty))
     :: ws depth
     ++ [word T_punctuation (close_raw ty) (VString (close_raw ty))]) →
  (∀ depth, builds (close_raw ty) (ws depth) R) →
  (∀ topen tclose cs position,
     tok_raw topen = open_raw ty → tok_raw tclose = close_raw ty →
     tidy cs → R (values cs) →
     represents
       (Container ty
          (punct topen true :: (set_parent <$> cs)
           ++ [punct tclose (close_has_parent ty)]) position false) v) →
  parses gap v.
Proof.
  intros Hw Hws Hv depth toks cur. rewrite Hw. intros Hr.
  destruct (built_container_words _ _ _ _ _ (Hws depth) Hr)
    as (topen & tclose & cs & position & Hb & Ho & Hc & Ht & HR).
  eexists. split; [|split; [by apply Hv|done]].
  by rewrite length_cons, length_app.
Qed.

Lemma members_of_app ms1 ms2 l1 l2 :
  members_of ms1 l1 → members_of ms2 l2 → members_of (ms1 ++ ms2) (l1 ++ l2).
Proof.
  intros (kns1 & -> & H1) (kns2 & -> & H2). exists (kns1 ++ kns2).
  split; [unfold flat; by rewrite bind_app|by apply Forall2_app].
Qed.

Section spacing.
Context (gap : text_layout) `{!Spacing gap}.

Lemma builds_gap close depth p :
  close ∈ [js "]"; js "}"] → builds close (gap depth p) none.
Proof.
  intros Hc. apply builds_trivia; [done|apply gap_trivia|by apply gap_lexable].
Qed.

Lemma builds_comma close depth :
  close ∈ [js "]"; js "}"] → builds close (comma gap depth) none.
Proof.
  intros Hc. apply builds_skip_l; [by apply builds_gap|].
  apply (builds_skip_l _ [_]); [|by apply builds_gap].
  apply builds_punctuation; [set_solver|done].
Qed.

Lemma builds_value close depth v :
  parses gap v → close ∈ [js "]"; js "}"] →
  builds close (words gap depth v) (one v).
Proof.
  intros Hp Hc toks cur Hr. destruct (Hp _ _ _ Hr) as (n & Hb & Hv & Hi).
  exists [n]. split.
  2: { split; [by apply Forall_singleton; left|]. exists n. unfold values.
       by rewrite filter_cons, decide_True. }
  destruct (words_head gap depth v) as (w & ws & c & s & Hw & Hraw & _ & Hne).
  rewrite Hw in Hr. destruct Hr as [(t & Ht & Heq) _].
  eapply built_cons; [done| |done|constructor].
  rewrite (tok_raw_proper _ _ Heq), Hraw. intros <-. apply Hne.
  set_unfold in Hc. set_unfold.
  destruct Hc as [Hc|[Hc|[]]]; injection Hc as -> _; auto.
Qed.

(** A member: its key, the colon and its value. *)
Lemma builds_member close depth s v :
  close ∈ [js "]"; js "}"] → parses gap v →
  builds close
    (word T_string (JSON_stringify s) (VString s) :: gap depth AfterKey
     ++ punctuation_word ":" :: gap depth AfterColon ++ words gap (S depth) v)
    (members_of [(s, v)]).
Proof.
  intros Hc Hv.
  apply (builds_app _ [_] _ (λ l, ∃ k, l = [k] ∧ key_text k = Some s) (one v)).
  - apply (builds_leaf _ _ StringLiteral (Some (VString s))); [done| |].
    + unfold JSON_stringify. set_unfold in Hc. by destruct_or!; subst.
    + intros position. split; [by apply Forall_singleton; left|by eauto].
  - apply builds_skip_l; [by apply builds_gap|].
    apply (builds_skip_l _ [_]); [by apply builds_punctuation; [set_solver|]|].
    apply builds_skip_l; [by apply builds_gap|]. by apply builds_value.
  - intros l1 l2 (k & -> & Hk) (n & -> & Hn). exists [(k, n)].
    split; [done|]. by constructor; [|constructor].
Qed.

(** The items of a container, with the commas between them and what
    stands around them. *)
Lemma builds_enclosed {A} close depth (item : A → list token)
    (R : list A → list ast → Prop) (xs : list A) :
  close ∈ [js "]"; js "}"] → R [] [] →
  (∀ xs1 xs2 l1 l2, R xs1 l1 → R xs2 l2 → R (xs1 ++ xs2) (l1 ++ l2)) →
  Forall (λ x, builds close (item x) (R [x])) xs →
  builds close
    (enclosed (gap depth AfterOpen) (comma gap depth) (gap depth BeforeClose)
       (item <$> xs)) (R xs).
Proof.
  intros Hc Hnone Happ Hall. destruct Hall as [|x xs Hx Hxs].
  { by apply builds_nil. }
  cbn [enclosed fmap list_fmap]. apply builds_skip_l; [by apply builds_gap|].
  apply (builds_app _ _ _ (R [x]) (R xs)); [done| |apply (Happ [x])].
  induction Hxs as [|x' xs Hx' _ IH]; cbn [fmap list_fmap mjoin list_join].
  - apply (builds_impl _ _ none); [by apply builds_gap|by intros ? ->].
  - rewrite <- (assoc_L (++)).
    apply (builds_app _ _ _ (R [x']) (R xs)); [|done|apply (Happ [x'])].
    apply builds_skip_l; [by apply builds_comma|done].
Qed.

Lemma parses_all v : parses gap v.
Proof.
  induction v as [s|n|b| |members IH|elements IH] using json_ind'.
  - by apply (parses_leaf gap (JString s) _ StringLiteral (Some (VString s))
                (λ _, eq_refl)).
  - apply (parses_leaf gap (JNumber n) _ NumberLiteral (Some (natural n))
             (λ _, eq_refl)); [done| |done..].
    intros position. simpl. by rewrite decide_True.
  - by apply (parses_leaf gap (JBool b) _ LiteralLiteral (Some (VBool b))
                (λ _, eq_refl)).
  - by apply (parses_leaf gap JNull _ LiteralLiteral (Some VNull)
                (λ _, eq_refl)).
  - apply (parses_container gap Object _ (members_of members) (JObject members)
             (λ _, eq_refl)).
    + intros depth. apply (builds_enclosed _ _ _ members_of);
        [set_solver|by exists []|intros; by apply members_of_app|].
      eapply Forall_impl; [exact IH|]. intros [s v] Hv.
      apply builds_member; [set_solver|done].
    + intros. by apply represents_Object.
  - apply (parses_container gap Array _ (elements_of elements)
             (JArray elements) (λ _, eq_refl)).
    + intros depth. apply (builds_enclosed _ _ _ elements_of);
        [set_solver|constructor|intros; by apply Forall2_app|].
      eapply Forall_impl; [exact IH|]. intros v Hv.
      eapply builds_impl; [by apply builds_value; [|set_solver]|].
      intros l (n & -> & Hn). by constructor; [|constructor].
    + intros. split; [by apply value_of_Array|done].
Qed.

End spacing.

(** A text made of words that the tokenizer reads one by one and that
    the builder turns into a node is parsed into that node. *)
Lemma parse_words ws (P : ast → Prop) :
  lexable ws [] →
  (∀ toks, reads toks 0 ws → ∃ n, built toks 0 (length ws) n ∧ P n) →
  ∃ toks n, tokenize (mjoin (tok_raw <$> ws)) = Ok toks
     ∧ built toks 0 (length toks) n ∧ P n
     ∧ ast_raw n = mjoin (tok_raw <$> ws).
Proof.
  intros Hlex Hp. pose proof (tokenize_lexable ws Hlex) as Htok.
  destruct (tokenize _) as [toks| |] eqn:Heq; try done.
  change (toks ≡ ws) in Htok.
  destruct (Hp toks (equiv_reads _ _ Htok)) as (n & Hb & Hn).
  apply list_equiv_bare, (f_equal (fmap tok_raw)) in Htok.
  rewrite <- !list_fmap_compose in Htok.
  change (tok_raw <$> toks = tok_raw <$> ws) in Htok.
  assert (length toks = length ws) as Hlen.
  { by rewrite <- (length_fmap tok_raw toks), Htok, length_fmap. }
  rewrite <- Hlen in Hb. exists toks, n. split_and!; [done..|].
  by rewrite (built_raw _ _ _ _ Hb), segment_all, Htok.
Qed.

Lemma parses_root gap v toks :
  parses gap v → reads toks 0 (words gap 0 v) →
  ∃ n, built toks 0 (length (words gap 0 v)) n ∧ represents n v.
Proof. intros Hp Hr. destruct (Hp 0 toks 0 Hr) as (n & ? & ? & _). eauto. Qed.

(** The tokens and the tree of the text of a value in a layout. *)
Lemma parse_text_represents gap `{!Spacing gap} v :
  ∃ toks n, tokenize (text gap v) = Ok toks
     ∧ built toks 0 (length toks) n ∧ represents n v
     ∧ ast_raw n = text gap v.
Proof.
  apply parse_words; [by apply words_lexable|].
  intros toks. by apply parses_root, parses_all.
Qed.

(** The tree of the text of a value in a layout. *)
Lemma parse_text_of gap `{!Spacing gap} v :
  ∃ n, parse_text (text gap v) = Ok n
     ∧ represents n v ∧ ast_raw n = text gap v.
Proof.
  destruct (parse_text_represents gap v) as (toks & n & Htok & Hb & ? & ?).
  exists n. split; [|done]. apply parse_text_Ok. exists toks.
  split; [done|]. apply parseTokens_root_Ok. by eexists.
Qed.

(** The tree of the text of an object without arrays is a document of
    the path inference. *)
Lemma represents_document n members :
  represents n (JObject members) → objects_only (JObject members) = true →
  wf_document n = true
  ∧ key_text <$> key_leaves n = Some <$> keys_in (JObject members).
Proof.
  intros [Hv Hn] [Hwf Hkeys]%Hn. split; [|done].
  destruct n as [[] ? [[]|] ? ?|]; try done.
  simpl in Hv. by case_decide.
Qed.

(** ** Theorems *)

(** C6. From a value to its text and back

    The text of a value (objects, arrays, strings, natural numbers,
    [true], [false], [null]) in any layout of white space and comments
    between its tokens is tokenized and parsed into a tree whose value,
    read with [extractValues], is that value, and whose raw text is the
    text: the layout changes the tree and leaves the value alone. *)
Theorem parse_text_value gap `{!Spacing gap} v :
  ∃ n, parse_text (text gap v) = Ok n
     ∧ value_of n = Some v ∧ ast_raw n = text gap v.
Proof. destruct (parse_text_of gap v) as (n & ? & [? _] & ?). eauto. Qed.

Lemma parse_text_value_witness :
  ∃ n, parse_text (text indented (JObject [(js "a", JArray [JNumber 12])]))
       = Ok n
     ∧ value_of n = Some (JObject [(js "a", JArray [JNumber 12])])
     ∧ ast_raw n = text indented (JObject [(js "a", JArray [JNumber 12])]).
Proof. apply (parse_text_value indented). Defined.

(** The compact text of [JSON.stringify]. *)
Theorem parse_stringify v :
  ∃ n, parse_text (stringify v) = Ok n
     ∧ value_of n = Some v ∧ ast_raw n = stringify v.
Proof. destruct (parse_text_of compact v) as (n & ? & [? _] & ?). eauto. Qed.

(** A text with comments. *)
Theorem parse_commented body v :
  Forall (λ c, is_dot c = true) body →
  ∃ n, parse_text (text (commented body) v) = Ok n
     ∧ value_of n = Some v ∧ ast_raw n = text (commented body) v.
Proof.
  intros Hs%commented_spacing.
  destruct (parse_text_of (commented body) v) as (n & ? & [? _] & ?). eauto.
Qed.

(** Two values with the same text in a layout are the same value, and
    the texts of a value in two layouts have trees with the same
    value. *)
Theorem text_injective gap `{!Spacing gap} v1 v2 :
  text gap v1 = text gap v2 → v1 = v2.
Proof.
  intros Heq. destruct (parse_text_of gap v1) as (n1 & Hp1 & [Hv1 _] & _).
  destruct (parse_text_of gap v2) as (n2 & Hp2 & [Hv2 _] & _).
  rewrite Heq, Hp2 in Hp1. injection Hp1 as <-. congruence.
Qed.

Theorem text_layouts gap1 gap2 `{!Spacing gap1, !Spacing gap2} v :
  value_of <$> parse_text (text gap1 v) = value_of <$> parse_text (text gap2 v).
Proof.
  destruct (parse_text_of gap1 v) as (n1 & -> & [Hv1 _] & _).
  destruct (parse_text_of gap2 v) as (n2 & -> & [Hv2 _] & _).
  simpl. congruence.
Qed.

(** C9. The key positions of the text of a value

    On the tokens of the text of an object without arrays, in any
    layout of white space and comments, [getPositionOfKeys] returns the
    ranges of the key leaves of the tree of the text, and these leaves
    are, in the order of the text, the keys of the object and of the
    objects in it. *)
Theorem getPositionOfKeys_text gap `{!Spacing gap} members :
  objects_only (JObject members) = true →
  ∃ toks n, tokenize (text gap (JObject members)) = Ok toks
     ∧ parseTokens_root toks = Ok n
     ∧ value_of n = Some (JObject members)
     ∧ getPositionOfKeys toks = ast_position <$> key_leaves n
     ∧ key_text <$> key_leaves n = Some <$> keys_in (JObject members).
Proof.
  intros Hoo. destruct (parse_text_represents gap (JObject members))
    as (toks & n & Htok & Hb & Hn & _).
  destruct (represents_document _ _ Hn Hoo) as [Hwf Hkeys].
  exists toks, n. split_and!; [done| |apply Hn| |done].
  - apply parseTokens_root_Ok. by eexists.
  - rewrite <- key_ranges_leaves, <- (firstn_all toks).
    apply built_keys; [by eapply tokenize_closers_punct|done..].
Qed.

Lemma getPositionOfKeys_text_witness :
  ∃ toks n,
    tokenize (text indented (JObject [(js "a", JObject [(js "b", JNull)])]))
    = Ok toks
    ∧ parseTokens_root toks = Ok n
    ∧ value_of n = Some (JObject [(js "a", JObject [(js "b", JNull)])])
    ∧ getPositionOfKeys toks = ast_position <$> key_leaves n
    ∧ key_text <$> key_leaves n
      = Some <$> keys_in (JObject [(js "a", JObject [(js "b", JNull)])]).
Proof. by apply (getPositionOfKeys_text indented). Defined.

(** The path at a cursor in the text of an object without arrays, in
    any layout: the documented composition on the text up to the cursor
    gives the keys around the cursor in the tree of the whole text. *)
Theorem pathOfText_text gap `{!Spacing gap} members k p q :
  objects_only (JObject members) = true →
  ∃ toks n, tokenize (text gap (JObject members)) = Ok toks
     ∧ parseTokens_root toks = Ok n
     ∧ value_of n = Some (JObject members)
     ∧ (k ≤ length toks →
        text gap (JObject members) = (textUntil toks k ++ p) ++ q →
        first_match tokenTypes p = None →
        pathOfText (textUntil toks k ++ p) = Ok (path_in n k)).
Proof.
  intros Hoo. destruct (parse_text_represents gap (JObject members))
    as (toks & n & Htok & Hb & Hn & _).
  destruct (represents_document _ _ Hn Hoo) as [Hwf _].
  exists toks, n. split_and!; [done| |apply Hn|].
  - apply parseTokens_root_Ok. by eexists.
  - intros Hk Hjson Hp.
    apply pathOfText_built with (text gap (JObject members)) (length toks) q;
      try done.
    pose proof (tokenize_closers_punct _ _ Htok) as Hcl.
    pose proof (built_width _ _ _ _ Hcl Hb). lia.
Qed.

(** The texts of a value, and the value of the tree of the sample
    document of [Pipeline]. *)
Example stringify_sample :
  stringify
    (JObject [(js "a", JArray [JNumber 12; JBool true; JNull]);
              (js "b", JString (js "x"))])
  = jsq "{'a':[12,true,null],'b':'x'}".
Proof. by vm_compute. Qed.

Example text_indented :
  text indented
    (JObject [(js "a", JArray [JNumber 12; JNull]); (js "b", JObject [])])
  = jsq "{" ++ [10%N] ++ jsq "  'a': [" ++ [10%N] ++ jsq "    12," ++ [10%N]
    ++ jsq "    null" ++ [10%N] ++ jsq "  ]," ++ [10%N] ++ jsq "  'b': {}"
    ++ [10%N] ++ jsq "}".
Proof. by vm_compute. Qed.

Example text_commented :
  text (commented (js "c")) (JObject [(js "a", JNumber 1); (js "b", JNull)])
  = jsq "{ //c" ++ [10%N] ++ jsq "'a' /*c*/" ++ [10%N] ++ jsq ": //c" ++ [10%N]
    ++ jsq "1 /*c*/" ++ [10%N] ++ jsq ", //c" ++ [10%N] ++ jsq "'b' /*c*/"
    ++ [10%N] ++ jsq ": //c" ++ [10%N] ++ jsq "null //c" ++ [10%N] ++ jsq "}".
Proof. by vm_compute. Qed.

Example value_of_doc :
  value_of doc_tree
  = Some (JObject [(js "foo", JString (js "bar"));
                   (js "foo2", JObject [(js "hallo", JString (js "welt"))])]).
Proof. by vm_compute. Qed.
