(* ===== verification/Cursor.v ===== *)
(** * Cursor: the path at a place of the text of a value

    The use the documentation of [getPathInObject] gives of it: the text
    of a document up to the cursor is tokenized, and the path says in
    which member of which object the cursor stands.  This file says it
    on values.  A place is given by the members one goes through from
    the root ([walk]: the index of a member in its object, and so on
    inwards); [words_before] are the words of the text up to the place
    where the value of the last of them starts, and [keys_at] the keys
    of these members; a [target] tells whether the place is the start
    of that value, of the key of one of its members, or of the first
    element of the array it is.  The theorem says that the composition
    of [tokenize] and [getPathInObject] on the text up to the place
    returns these keys and whether a value is expected there, provided
    that no array stands before the place: the loop of
    [getPathInObject] has no case for the elements of an array after
    the first. *)

From S2P Require Import Prelude Regex Token Tokenizer Prefix Ast PathAt.
From S2P Require Import Pipeline PathTree Completion Shape Json.

(** ** Places of a value *)

(** The words of a member: its key, the colon and its value. *)
Definition member_words (gap : text_layout) (depth : nat)
    (m : jstring * json) : list token :=
  word T_string (JSON_stringify m.1) (VString m.1) :: gap depth AfterKey
  ++ punctuation_word ":" :: gap depth AfterColon ++ words gap (S depth) m.2.

(** The words of the text of [v] before the value of the member that
    [walk] leads to. *)
Fixpoint words_before (gap : text_layout) (depth : nat) (v : json)
    (walk : list nat) : option (list token) :=
  match walk with
  | [] => Some []
  | i :: walk' =>
    match v with
    | JObject members =>
      m ← members !! i;
      rest ← words_before gap (S depth) m.2 walk';
      Some (punctuation_word "{" :: gap depth AfterOpen
            ++ mjoin ((λ m', member_words gap depth m' ++ comma gap depth)
                      <$> take i members)
            ++ word T_string (JSON_stringify m.1) (VString m.1)
            :: gap depth AfterKey
            ++ punctuation_word ":" :: gap depth AfterColon ++ rest)
    | _ => None
    end
  end.

(** The keys of the members that [walk] goes through. *)
Fixpoint keys_at (v : json) (walk : list nat) : list jstring :=
  match walk with
  | [] => []
  | i :: walk' =>
    match v with
    | JObject members =>
      match members !! i with
      | Some m => m.1 :: keys_at m.2 walk'
      | None => []
      end
    | _ => []
    end
  end.

(** The value that [walk] leads to. *)
Fixpoint value_at (v : json) (walk : list nat) : option json :=
  match walk with
  | [] => Some v
  | i :: walk' =>
    match v with
    | JObject members => m ← members !! i; value_at m.2 walk'
    | _ => None
    end
  end.

(** The words of an object before the key of its member [j]. *)
Definition key_words (gap : text_layout) (depth : nat)
    (members : list (jstring * json)) (j : nat) : list token :=
  punctuation_word "{" :: gap depth AfterOpen
  ++ mjoin ((λ m, member_words gap depth m ++ comma gap depth)
            <$> take j members).

(** A place of a text: where the value of the member that [walk] leads
    to starts, where the key of the member [j] of that value starts, or
    where the first element of that value, an array, starts. *)
Inductive target :=
| AtValue
| AtKey (j : nat)
| AtElement.

Definition expects_value (t : target) : bool :=
  match t with AtValue | AtElement => true | AtKey _ => false end.

(** The members before those that [walk] goes through have no
    arrays. *)
Fixpoint clear_to (v : json) (walk : list nat) : bool :=
  match walk with
  | [] => true
  | i :: walk' =>
    match v with
    | JObject members =>
      forallb (λ m, objects_only m.2) (take i members)
      && match members !! i with
         | Some m => clear_to m.2 walk'
         | None => false
         end
    | _ => false
    end
  end.

(** The members before a place have no arrays: the tokens of an array
    would mislead the path inference, which has no case for them. *)
Definition clear_before (v : json) (walk : list nat) (t : target) : bool :=
  clear_to v walk
  && match t, value_at v walk with
     | AtKey j, Some (JObject members) =>
       forallb (λ m, objects_only m.2) (take j members)
     | _, _ => true
     end.

(** The words of the text of [v] before a place. *)
Definition words_to (gap : text_layout) (v : json) (walk : list nat)
    (t : target) : option (list token) :=
  ws ← words_before gap 0 v walk;
  match t with
  | AtValue => if walk is [] then None else Some ws
  | AtKey j =>
    o ← value_at v walk;
    match o with
    | JObject members =>
      if decide (j < length members)
      then Some (ws ++ key_words gap (length walk) members j)
      else None
    | _ => None
    end
  | AtElement =>
    o ← value_at v walk;
    match o with
    | JArray _ => Some (ws ++ [punctuation_word "["])
    | _ => None
    end
  end.

(** The state of the path inference in an object whose keys so far are
    [stack], where a key comes next. *)
Definition at_key (stack : list jsval) : path_state :=
  {| stack := stack; nextStringWillBeKey := true |}.

(** The state after a key, where its value comes next. *)
Definition at_value (stack : list jsval) : path_state :=
  {| stack := stack; nextStringWillBeKey := false |}.

(** The words of [v] in any state after a key close the key. *)
Definition closes_key (gap : text_layout) (v : json) : Prop :=
  ∀ depth s k,
    foldl path_step (at_value (s ++ [k])) (words gap depth v) = at_key s.

(** The stack at a place: the keys that lead to it, and the marker of
    an array when the place is its first element. *)
Definition stack_at (v : json) (walk : list nat) (t : target) : list jsval :=
  (VString <$> keys_at v walk)
  ++ match t with AtElement => [LIST_MARKER] | _ => [] end.

(** The state after the words before a place: as before when the place
    is the start of the text, and else after the keys that lead to
    it. *)
Definition after_walk (v : json) (walk : list nat) (st : path_state)
    : path_state :=
  match walk with
  | [] => st
  | _ => at_value (stack st ++ (VString <$> keys_at v walk))
  end.

(** ** The words before a place start the text *)

Lemma join_separated {A} (sep y : list A) (ls1 ls2 : list (list A)) : ∀ l,
  l ++ mjoin ((λ k, sep ++ k) <$> (ls1 ++ y :: ls2))
  = mjoin ((λ k, k ++ sep) <$> (l :: ls1)) ++ y
    ++ mjoin ((λ k, sep ++ k) <$> ls2).
Proof.
  induction ls1 as [|l' ls1 IH]; intros l; simpl.
  - by rewrite <- !(assoc_L (++)).
  - rewrite <- !(assoc_L (++)). do 2 f_equal. rewrite IH. simpl.
    by rewrite <- !(assoc_L (++)).
Qed.

(** The items of a container up to one of them. *)
Lemma enclosed_middle {A B} (f : A → list B) first sep last l1 x l2 :
  enclosed first sep last (f <$> (l1 ++ x :: l2))
  = first ++ mjoin ((λ y, f y ++ sep) <$> l1) ++ f x
    ++ mjoin ((λ k, sep ++ k) <$> (f <$> l2)) ++ last.
Proof.
  destruct l1 as [|y l1]; simpl; [done|].
  rewrite fmap_app, fmap_cons, (assoc_L (++) (f y)), join_separated.
  simpl. by rewrite <- list_fmap_compose, <- !(assoc_L (++)).
Qed.

Lemma words_Object gap depth members :
  words gap depth (JObject members)
  = punctuation_word "{"
    :: enclosed (gap depth AfterOpen) (comma gap depth) (gap depth BeforeClose)
         (member_words gap depth <$> members)
    ++ [punctuation_word "}"].
Proof. done. Qed.

(** The text of a value is the words before a place, the words of the
    value at the place, and the rest. *)
Lemma words_before_split gap walk : ∀ depth v ws,
  words_before gap depth v walk = Some ws →
  ∃ o rest, value_at v walk = Some o
    ∧ words gap depth v = ws ++ words gap (depth + length walk) o ++ rest.
Proof.
  induction walk as [|i walk IH]; intros depth v ws.
  { intros [= <-]. exists v, []. by rewrite Nat.add_0_r, app_nil_r. }
  destruct v as [| | | |members|]; try done. intros Hw.
  cbn [words_before value_at] in *.
  destruct (members !! i) as [m|] eqn:Hm; [|done].
  cbn [mbind option_bind] in *.
  destruct (words_before gap (S depth) m.2 walk) as [rest|] eqn:Hr; [|done].
  apply (inj Some) in Hw as <-. apply IH in Hr as (o & rest' & Ho & Hr).
  pose proof (take_drop_middle _ _ _ Hm) as Hsplit.
  remember (take i members) as before eqn:Hb.
  remember (drop (S i) members) as after eqn:Ha. clear Hb Ha Hm.
  subst members. exists o. eexists. split; [done|].
  rewrite words_Object, enclosed_middle.
  unfold member_words at 2. rewrite Hr. cbn [length].
  rewrite Nat.add_succ_r, !app_comm_cons, <- !(assoc_L (++)).
  cbn [app Nat.add]. done.
Qed.

Lemma words_before_prefix gap depth v walk ws :
  words_before gap depth v walk = Some ws → ws `prefix_of` words gap depth v.
Proof. intros (o & rest & _ & ->)%words_before_split. by eexists. Qed.

(** The words before the key of a member start the words of its
    object. *)
Lemma key_words_prefix gap depth members j :
  j < length members →
  key_words gap depth members j `prefix_of` words gap depth (JObject members).
Proof.
  intros [m Hm]%lookup_lt_is_Some.
  pose proof (take_drop_middle _ _ _ Hm) as Hsplit. unfold key_words.
  remember (take j members) as before eqn:Hb.
  remember (drop (S j) members) as after eqn:Ha. clear Hb Ha Hm.
  subst members. rewrite words_Object, enclosed_middle. eexists.
  rewrite !app_comm_cons, <- !(assoc_L (++)). cbn [app]. done.
Qed.

Lemma words_to_prefix gap v walk t ws :
  words_to gap v walk t = Some ws → ws `prefix_of` words gap 0 v.
Proof.
  unfold words_to. destruct (words_before gap 0 v walk) as [ws0|] eqn:Hw;
    [|done]. cbn [mbind option_bind].
  apply words_before_split in Hw as (o & rest & Ho & Hw).
  cbn [Nat.add] in Hw. destruct t as [|j|].
  - destruct walk; [done|]. intros [= <-]. rewrite Hw. by eexists.
  - rewrite Ho. cbn [mbind option_bind].
    destruct o as [| | | |members|]; try done. case_decide as Hj; [|done].
    intros [= <-]. rewrite Hw.
    destruct (key_words_prefix gap (length walk) members j Hj) as [k ->].
    eexists. by rewrite <- !(assoc_L (++)).
  - rewrite Ho. cbn [mbind option_bind].
    destruct o as [| | | | |elements]; try done.
    intros [= <-]. rewrite Hw. cbn [words]. eexists.
    by rewrite <- !(assoc_L (++)).
Qed.

(** ** The path inference on the words of a value *)

Lemma path_step_open st :
  path_step st (punctuation_word "{") = at_key (stack st).
Proof. by rewrite path_step_class. Qed.

Lemma path_step_close st :
  path_step st (punctuation_word "}") = at_key (pop (stack st)).
Proof. by rewrite path_step_class. Qed.

Lemma path_step_key s raw k :
  path_step (at_key s) (word T_string raw (VString k))
  = at_value (s ++ [VString k]).
Proof. by rewrite path_step_class. Qed.

Lemma path_step_colon st : path_step st (punctuation_word ":") = st.
Proof. by rewrite path_step_class. Qed.

Lemma path_step_comma st : path_step st (punctuation_word ",") = st.
Proof. by rewrite path_step_class. Qed.

Lemma path_trivia g : ∀ st,
  Forall (λ w, is_trivia w = true) g → foldl path_step st g = st.
Proof.
  intros st Hg. induction Hg as [|w g Hw _ IH]; [done|]. simpl.
  by rewrite path_step_class, (classify_trivia _ Hw).
Qed.

(** A leaf value after a key closes the key. *)
Lemma path_leaf s k w :
  classify w = AValue ∨ (∃ v, classify w = AString v) →
  path_step (at_value (s ++ [k])) w = at_key s.
Proof.
  rewrite path_step_class.
  intros [->|[v ->]]; unfold class_step, at_value, at_key, pop;
    cbn [nextStringWillBeKey stack]; by rewrite removelast_last.
Qed.

Lemma objects_only_members members :
  forallb (λ m : jstring * json, objects_only m.2) members = true
  ↔ Forall (λ m, objects_only m.2 = true) members.
Proof.
  induction members as [|m ms IH]; simpl; [by split; [constructor|]|].
  by rewrite andb_true_iff, Forall_cons, IH.
Qed.

Section spacing.
Context (gap : text_layout) `{!Spacing gap}.

Lemma path_gap depth p st : foldl path_step st (gap depth p) = st.
Proof. apply path_trivia, gap_trivia. Qed.

Lemma path_comma depth st : foldl path_step st (comma gap depth) = st.
Proof.
  unfold comma. rewrite foldl_app, path_gap. simpl.
  by rewrite path_step_comma, path_gap.
Qed.

(** A member leaves the state as it finds it. *)
Lemma path_member depth m s :
  closes_key gap m.2 →
  foldl path_step (at_key s) (member_words gap depth m) = at_key s.
Proof.
  intros Hv. unfold member_words. cbn [foldl].
  rewrite path_step_key, foldl_app, path_gap. cbn [foldl].
  by rewrite path_step_colon, foldl_app, path_gap.
Qed.

Lemma path_members_before depth members s :
  Forall (λ m, closes_key gap m.2) members →
  foldl path_step (at_key s)
    (mjoin ((λ m, member_words gap depth m ++ comma gap depth) <$> members))
  = at_key s.
Proof.
  induction 1 as [|m ms Hm _ IH]; [done|].
  cbn [fmap list_fmap mjoin list_join].
  by rewrite !foldl_app, path_member, path_comma.
Qed.

Lemma path_members_after depth members s :
  Forall (λ m, closes_key gap m.2) members →
  foldl path_step (at_key s)
    (mjoin ((λ k, comma gap depth ++ k) <$> (member_words gap depth <$> members)))
  = at_key s.
Proof.
  induction 1 as [|m ms Hm _ IH]; [done|].
  cbn [fmap list_fmap mjoin list_join].
  by rewrite !foldl_app, path_comma, path_member.
Qed.

Lemma path_enclosed depth members s :
  Forall (λ m, closes_key gap m.2) members →
  foldl path_step (at_key s)
    (enclosed (gap depth AfterOpen) (comma gap depth) (gap depth BeforeClose)
       (member_words gap depth <$> members))
  = at_key s.
Proof.
  intros [|m ms Hm Hms]; [done|]. cbn [enclosed fmap list_fmap].
  rewrite !foldl_app, !path_gap, path_member by done.
  by rewrite path_members_after.
Qed.

(** The words of a value without arrays, after a key, close the key. *)
Lemma path_value v : objects_only v = true → closes_key gap v.
Proof.
  induction v as [s|n|b| |members IH|elements IH] using json_ind';
    intros Hoo depth s' k; try done;
    try (apply path_leaf; by eauto).
  rewrite words_Object. cbn [foldl].
  rewrite path_step_open, foldl_app, path_enclosed.
  - cbn [foldl]. rewrite path_step_close. unfold at_key, at_value, pop.
    cbn [stack]. by rewrite removelast_last.
  - apply objects_only_members in Hoo.
    apply Forall_forall. rewrite Forall_forall in IH, Hoo. auto.
Qed.

(** The words before a place lead the path inference to the keys of the
    place. *)
Lemma path_before walk : ∀ v depth st ws,
  clear_to v walk = true → words_before gap depth v walk = Some ws →
  foldl path_step st ws = after_walk v walk st.
Proof.
  induction walk as [|i walk IH]; intros v depth st ws Hc Hw.
  { by injection Hw as <-. }
  destruct v as [| | | |members|]; try done. cbn [words_before clear_to] in *.
  destruct (members !! i) as [m|] eqn:Hm; [|by rewrite andb_false_r in Hc].
  cbn [mbind option_bind] in Hw.
  destruct (words_before gap (S depth) m.2 walk) as [rest|] eqn:Hr; [|done].
  apply (inj Some) in Hw as <-.
  apply andb_true_iff in Hc as [Hoo%objects_only_members Hc].
  cbn [foldl]. rewrite path_step_open, !foldl_app, path_gap.
  rewrite path_members_before.
  2: { eapply Forall_impl; [done|]. intros m'. apply path_value. }
  cbn [foldl]. rewrite path_step_key, foldl_app, path_gap. cbn [foldl].
  rewrite path_step_colon, foldl_app, path_gap, (IH _ _ _ _ Hc Hr).
  unfold after_walk. cbn [keys_at]. rewrite Hm. simpl.
  destruct walk; [done|]. by rewrite <- (assoc_L (++)).
Qed.

Lemma stack_after_walk v walk :
  stack (after_walk v walk path_init) = VString <$> keys_at v walk.
Proof. by destruct walk. Qed.

(** The words of an object before the key of a member lead to the
    state in which a key comes next. *)
Lemma path_key_words depth members j st :
  forallb (λ m, objects_only m.2) (take j members) = true →
  foldl path_step st (key_words gap depth members j) = at_key (stack st).
Proof.
  intros Hoo%objects_only_members. unfold key_words. cbn [foldl].
  rewrite path_step_open, foldl_app, path_gap. apply path_members_before.
  eapply Forall_impl; [done|]. intros m. apply path_value.
Qed.

(** The state of the path inference at a place. *)
Lemma path_to v walk t ws :
  clear_before v walk t = true → words_to gap v walk t = Some ws →
  foldl path_step path_init ws
  = {| stack := stack_at v walk t;
       nextStringWillBeKey := negb (expects_value t) |}.
Proof.
  intros [Hc Ht]%andb_true_iff. unfold words_to, stack_at.
  destruct (words_before gap 0 v walk) as [ws0|] eqn:Hw; [|done].
  cbn [mbind option_bind].
  pose proof (path_before _ _ _ path_init _ Hc Hw) as Hp.
  pose proof (stack_after_walk v walk) as Hs.
  destruct t as [|j|]; [|destruct (value_at v walk) as [o|]; [|done]..];
    cbn [mbind option_bind].
  - destruct walk; [done|]. intros [= <-]. by rewrite Hp, app_nil_r.
  - destruct o as [| | | |members|]; try done. case_decide; [|done].
    intros [= <-]. rewrite foldl_app, Hp, path_key_words, Hs by done.
    by rewrite app_nil_r.
  - destruct o as [| | | | |elements]; try done. intros [= <-].
    rewrite foldl_app, Hp. cbn [foldl]. rewrite path_step_class.
    change (classify (punctuation_word "[")) with OpenArray.
    cbn [class_step]. by rewrite Hs.
Qed.

(** In a value without arrays every place is clear. *)
Lemma objects_only_members_lookup members i m :
  forallb (λ m : jstring * json, objects_only m.2) members = true →
  members !! i = Some m → objects_only m.2 = true.
Proof.
  rewrite objects_only_members, Forall_forall. intros Hoo Hm.
  by eapply Hoo, list_elem_of_lookup_2.
Qed.

Lemma objects_only_take members i :
  forallb (λ m : jstring * json, objects_only m.2) members = true →
  forallb (λ m : jstring * json, objects_only m.2) (take i members) = true.
Proof. rewrite !objects_only_members. apply Forall_take. Qed.

Lemma objects_only_clear_to walk : ∀ v o,
  objects_only v = true → value_at v walk = Some o →
  clear_to v walk = true ∧ objects_only o = true.
Proof.
  induction walk as [|i walk IH]; intros v o Hoo; [by intros [= <-]|].
  destruct v as [| | | |members|]; try done. cbn [value_at clear_to].
  destruct (members !! i) as [m|] eqn:Hm; [|done]. cbn [mbind option_bind].
  intros Ho. rewrite (objects_only_take _ _ Hoo). simpl.
  by eapply IH, Ho; eapply objects_only_members_lookup.
Qed.

(** The places of a value without arrays are clear. *)
Lemma objects_only_clear_before v walk t ws :
  objects_only v = true → words_to gap v walk t = Some ws →
  clear_before v walk t = true.
Proof.
  intros Hoo. unfold words_to, clear_before.
  destruct (words_before gap 0 v walk) as [ws0|] eqn:Hw; [|done].
  apply words_before_split in Hw as (o & rest & Ho & _). rewrite Ho.
  destruct (objects_only_clear_to _ _ _ Hoo Ho) as [-> Hoo'].
  destruct t as [|j|], o as [| | | |members|]; try done.
  intros _. by apply objects_only_take.
Qed.

End spacing.

(** ** The tokens of the text before a place *)

(** The text of the first words of a text that the tokenizer reads word
    by word is read as these words. *)
Lemma tokenize_words_before ws rest :
  lexable (ws ++ rest) [] →
  ∃ toks, tokenize (mjoin (tok_raw <$> ws)) = Ok toks ∧ toks ≡ ws.
Proof.
  intros Htok%tokenize_lexable.
  destruct (tokenize _) as [toks| |] eqn:Heq; try done.
  change (toks ≡ ws ++ rest) in Htok. apply list_equiv_bare in Htok.
  assert (bare <$> take (length ws) toks = bare <$> ws) as Hws.
  { rewrite fmap_take, Htok, fmap_app. apply take_app_length'.
    by rewrite length_fmap. }
  assert (mjoin (tok_raw <$> take (length ws) toks) = mjoin (tok_raw <$> ws))
    as Hraw.
  { pose proof (f_equal (fmap tok_raw) Hws) as Hr.
    rewrite <- !list_fmap_compose in Hr.
    change (tok_raw <$> take (length ws) toks = tok_raw <$> ws) in Hr.
    by rewrite Hr. }
  exists (take (length ws) toks). split; [|by apply list_equiv_bare].
  rewrite <- Hraw, <- (app_nil_r (mjoin _)).
  apply (tokenize_Ok_cut (mjoin (tok_raw <$> ws ++ rest)) toks _ []
           (mjoin (tok_raw <$> rest))); [done| |done].
  by rewrite Hraw, app_nil_r, fmap_app, join_app.
Qed.

(** ** Theorems *)

(** C8. The path at a place of the text of a value

    In the text of a value, in any layout of white space and comments,
    take the text up to a place: where the value of a member starts,
    where the key of a member of that value starts, or where the first
    element of that value starts, the member being reached from the
    root through members of objects, and the members before the place
    having no arrays.  This text is a start of the text of the value,
    and the composition of [tokenize] and [getPathInObject] on it
    returns the keys of the members gone through, from the root inwards
    and without those that are the text of the array marker, and says
    whether a value is expected at the place. *)
Theorem pathOfText_place gap `{!Spacing gap} v walk t ws :
  clear_before v walk t = true → words_to gap v walk t = Some ws →
  mjoin (tok_raw <$> ws) `prefix_of` text gap v
  ∧ pathOfText (mjoin (tok_raw <$> ws))
    = Ok (filter (λ k, k ≠ LIST_MARKER) (VString <$> keys_at v walk),
          expects_value t).
Proof.
  intros Hoo Hw. destruct (words_to_prefix _ _ _ _ _ Hw) as [rest Hws].
  split. { unfold text. rewrite Hws, fmap_app, join_app. by eexists. }
  destruct (tokenize_words_before ws rest) as (toks & Htok & Heq).
  { rewrite <- Hws. by apply words_lexable. }
  unfold pathOfText. rewrite Htok. simpl. f_equal.
  rewrite Heq. unfold getPathInObject. cbv zeta.
  rewrite (path_to gap v walk t ws Hoo Hw), path_of_stack_filter.
  cbn [stack nextStringWillBeKey]. rewrite negb_involutive. f_equal.
  unfold stack_at. rewrite filter_app.
  destruct t; by rewrite ?filter_nil, ?app_nil_r.
Qed.

Lemma pathOfText_place_witness :
  mjoin (tok_raw <$> [punctuation_word "{"]) `prefix_of`
    text compact (JObject [(js "a", JNull)])
  ∧ pathOfText (mjoin (tok_raw <$> [punctuation_word "{"]))
    = Ok (filter (λ k, k ≠ LIST_MARKER)
            (VString <$> keys_at (JObject [(js "a", JNull)]) []),
          expects_value (AtKey 0)).
Proof. by apply (pathOfText_place compact). Defined.

(** The example of the documentation, with an object in the place of
    the array: the text up to the value of a member of the object
    [dependencies], and up to the key of that member. *)
Example pathOfText_dependencies :
  let v := JObject [(js "name", JString (js "test"));
                    (js "dependencies", JObject [(js "left", JNull)])] in
  ((λ ws, (mjoin (tok_raw <$> ws), pathOfText (mjoin (tok_raw <$> ws))))
     <$> words_to compact v [1; 0] AtValue)
  = Some (jsq "{'name':'test','dependencies':{'left':",
          Ok ([VString (js "dependencies"); VString (js "left")], true))
  ∧ ((λ ws, (mjoin (tok_raw <$> ws), pathOfText (mjoin (tok_raw <$> ws))))
       <$> words_to compact v [1] (AtKey 0))
    = Some (jsq "{'name':'test','dependencies':{",
            Ok ([VString (js "dependencies")], false)).
Proof. by vm_compute. Qed.

(** The example of the documentation: the first element of the array
    [dependencies]. *)
Example pathOfText_array_start :
  let v := JObject [(js "name", JString (js "test"));
                    (js "dependencies", JArray [JString (js "left")])] in
  ((λ ws, (mjoin (tok_raw <$> ws), pathOfText (mjoin (tok_raw <$> ws))))
     <$> words_to compact v [1] AtElement)
  = Some (jsq "{'name':'test','dependencies':[",
          Ok ([VString (js "dependencies")], true)).
Proof. by vm_compute. Qed.

(** After the first element of an array the path inference has lost
    the marker: at the second element it says that no value is
    expected, and at the third the key of the array is gone. *)
Example pathOfText_array_later :
  pathOfText (jsq "{'a':[1,") = Ok ([VString (js "a")], false)
  ∧ pathOfText (jsq "{'a':[1,2,") = Ok ([], false).
Proof. by vm_compute. Qed.

(** The same places in the indented text. *)
Example pathOfText_indented :
  let v := JObject [(js "a", JObject [(js "b", JNull); (js "c", JNull)])] in
  (pathOfText ∘ (λ ws, mjoin (tok_raw <$> ws)))
    <$> words_to indented v [0] (AtKey 1)
  = Some (Ok ([VString (js "a")], false)).
Proof. by vm_compute. Qed.
