(* ===== verification/Heap.v ===== *)
(** * Heap: the store of syntax-tree objects

    The objects the builders of [json-parse.js] and [json-parse-ast.js]
    allocate and mutate: a node is an object with the properties [type],
    [raw], [value], [position], [parent], [children] and (on the
    containers of [json-parse-ast.js]) the method [extractValues], a
    reference to a node is its address in the store, and [console.error]
    appends to a log.  A call is a function of
    the store that returns an outcome and the store it leaves ([M]); the
    store survives an exception, as the log does in the program.

    [sim] is the simulation between such a call and a call of the
    functional model, [holds] says that a store contains a segment of
    objects at an address. *)

From S2P Require Import Prelude Token Ast.

(** ** Objects *)

(** A reference to an object: its address. *)
Abbreviation addr := nat (only parsing).

(** The [type] of a node: one of seven leaf types or of two container
    types. *)
Inductive node_type :=
| LeafType (ty : leaf_type)
| ContainerType (ty : container_type).

(** The [raw] property of a node: absent, a data property, or the accessor
    that [Object.defineProperty] installs on a container.  The property
    [extractValues] is absent or one of two functions, named by the
    builder that assigns it. *)
Inductive raw_property :=
| NoRaw
| Data (raw : jstring)
| Getter.

Record node := {
  node_type_of : node_type;
  node_raw : raw_property;
  node_value : option jsval;
  node_position : option IRange;
  node_parent : option addr;
  node_children : option (list addr);
  node_extractValues : option container_type
}.

#[export] Instance node_type_eq_dec : EqDecision node_type.
Proof. solve_decision. Defined.

#[export] Instance raw_property_eq_dec : EqDecision raw_property.
Proof. solve_decision. Defined.

#[export] Instance node_eq_dec : EqDecision node.
Proof. solve_decision. Defined.

(** The store, and what [console.error] has printed. *)
Record world := {
  objects : list node;
  console : list token
}.

Definition empty_world : world := {| objects := []; console := [] |}.

(** The store with the objects [l] allocated after the others. *)
Definition extend (w : world) (l : list node) : world :=
  {| objects := objects w ++ l; console := console w |}.

(** ** Calls *)

Definition M (A : Type) : Type := world → outcome A * world.

#[export] Instance M_ret : MRet M := λ A a w, (Ok a, w).

#[export] Instance M_bind : MBind M := λ A B f m w,
  match m w with
  | (Ok a, w') => f a w'
  | (Throw e, w') => (Throw e, w')
  | (OutOfFuel, w') => (OutOfFuel, w')
  end.

#[export] Instance M_fmap : FMap M := λ A B f m w,
  match m w with
  | (r, w') => (f <$> r, w')
  end.

(** A call that does not touch the store. *)
Definition lift {A} (r : outcome A) : M A := λ w, (r, w).

(** An object literal: the new object gets the next address. *)
Definition alloc (o : node) : M addr := λ w,
  (Ok (length (objects w)), extend w [o]).

(** An assignment to properties of the object at [a]. *)
Definition update (a : addr) (f : node → node) : M () := λ w,
  (Ok (), {| objects := alter f a (objects w); console := console w |}).

(** [console.error("Unknown token: ", token)] *)
Definition console_error (token : token) : M () := λ w,
  (Ok (), {| objects := objects w; console := console w ++ [token] |}).

(** ** Property assignments *)

(** [o.parent = result] *)
Definition with_parent (result : addr) (o : node) : node :=
  {| node_type_of := node_type_of o; node_raw := node_raw o;
     node_value := node_value o; node_position := node_position o;
     node_parent := Some result; node_children := node_children o;
     node_extractValues := node_extractValues o |}.

(** [children.push(child)], [children] being the array of [o]. *)
Definition with_child (child : addr) (o : node) : node :=
  {| node_type_of := node_type_of o; node_raw := node_raw o;
     node_value := node_value o; node_position := node_position o;
     node_parent := node_parent o;
     node_children := (λ children, children ++ [child]) <$> node_children o;
     node_extractValues := node_extractValues o |}.

(** [o.position = position] *)
Definition with_position (position : IRange) (o : node) : node :=
  {| node_type_of := node_type_of o; node_raw := node_raw o;
     node_value := node_value o; node_position := Some position;
     node_parent := node_parent o; node_children := node_children o;
     node_extractValues := node_extractValues o |}.

(** [Object.defineProperty(o, 'raw', {get: ...})] *)
Definition with_getter (o : node) : node :=
  {| node_type_of := node_type_of o; node_raw := Getter;
     node_value := node_value o; node_position := node_position o;
     node_parent := node_parent o; node_children := node_children o;
     node_extractValues := node_extractValues o |}.

(** [o.extractValues = function () { ... }], the function being the one
    [parseObject] or the one [parseArray] assigns. *)
Definition with_extractValues (closure : container_type) (o : node) : node :=
  {| node_type_of := node_type_of o; node_raw := node_raw o;
     node_value := node_value o; node_position := node_position o;
     node_parent := node_parent o; node_children := node_children o;
     node_extractValues := Some closure |}.

(** ** Well-formed stores *)

Definition is_container (o : node) : bool :=
  match node_type_of o with
  | ContainerType _ => true
  | LeafType _ => false
  end.

(** The object [o] has the shape of the interface [AST] of the declaration
    file, in the store [h]: a position; a leaf has a [raw] text, no
    children and no method; a container has the getter, no value,
    children that are objects of the store and, if it has the method
    [extractValues], the one of its type; the parent, if any, is a
    container of the store. *)
Definition node_ok (h : list node) (o : node) : bool :=
  match node_type_of o, node_raw o, node_position o, node_children o with
  | LeafType _, Data _, Some _, None =>
    bool_decide (node_extractValues o = None)
  | ContainerType type, Getter, Some _, Some children =>
    forallb (λ c, bool_decide (c < length h)) children
    && bool_decide (node_value o = None)
    && bool_decide (node_extractValues o ∈ [None; Some type])
  | _, _, _, _ => false
  end
  && match node_parent o with
     | None => true
     | Some p =>
       match h !! p with
       | Some po => is_container po
       | None => false
       end
     end.

Definition store_ok (h : list node) : bool := forallb (node_ok h) h.

(** ** Simulation of a functional call *)

(** The call that left [r] simulates the functional call that returned [p]:
    both returned, values and final store related by [R], or both threw
    the same error or both ran out of fuel, leaving a store in [E]. *)
Definition sim {A B} (E : world → Prop) (R : B → A → world → Prop)
    (p : outcome B) (r : outcome A * world) : Prop :=
  match p with
  | Ok b => ∃ a, r.1 = Ok a ∧ R b a r.2
  | Throw e => r.1 = Throw e ∧ E r.2
  | OutOfFuel => r.1 = OutOfFuel ∧ E r.2
  end.

(** The store [h] holds the objects [seg] from the address [base] on. *)
Definition holds (h : list node) (base : addr) (seg : list node) : Prop :=
  ∀ i o, seg !! i = Some o → h !! (base + i) = Some o.

(** ** Lemmas on calls *)

Section calls.
Context {A B : Type}.
Implicit Types (m : M A) (f : A → M B) (w : world).

Lemma bind_run_Ok m f w a w' : m w = (Ok a, w') → (m ≫= f) w = f a w'.
Proof. unfold mbind, M_bind. by intros ->. Qed.

Lemma bind_run_Throw m f w e w' :
  m w = (Throw e, w') → (m ≫= f) w = (Throw e, w').
Proof. unfold mbind, M_bind. by intros ->. Qed.

Lemma bind_lift_Ok (a : A) f w : (lift (Ok a) ≫= f) w = f a w.
Proof. done. Qed.

Lemma bind_lift_Throw e f w :
  (lift (Throw e : outcome A) ≫= f) w = (Throw e, w).
Proof. done. Qed.

Lemma bind_ret (a : A) f w : (mret a ≫= f) w = f a w.
Proof. done. Qed.

Lemma bind_update a g (f : () → M B) w :
  (update a g ≫= f) w
  = f () {| objects := alter g a (objects w); console := console w |}.
Proof. done. Qed.

Lemma bind_update_if (c : bool) a g (f : () → M B) w :
  ((if c then update a g else mret ()) ≫= f) w
  = f () {| objects := alter (if c then g else id) a (objects w);
            console := console w |}.
Proof. destruct c; [done|]. rewrite list_alter_id by done. by destruct w. Qed.

Lemma bind_alloc o (f : addr → M B) w :
  (alloc o ≫= f) w = f (length (objects w)) (extend w [o]).
Proof. done. Qed.

Lemma bind_run_inv m f w b w' :
  (m ≫= f) w = (Ok b, w') ↔ ∃ a w1, m w = (Ok a, w1) ∧ f a w1 = (Ok b, w').
Proof.
  unfold mbind, M_bind. destruct (m w) as [[a|e|] w1]; naive_solver.
Qed.

Lemma sim_bind {A' B'} E (R : B → A → world → Prop)
    (R' : B' → A' → world → Prop) p (g : B → outcome B') m
    (f' : A → M A') w :
  sim E R p (m w) →
  (∀ b a w', R b a w' → sim E R' (g b) (f' a w')) →
  sim E R' (p ≫= g) ((m ≫= f') w).
Proof.
  unfold sim at 1, mbind at 2, M_bind.
  destruct p as [b|e|], (m w) as [r w1]; simpl.
  - intros (a & -> & HR) Hf. by apply Hf.
  - by intros [-> ?].
  - by intros [-> ?].
Qed.

Lemma sim_weaken (E E' : world → Prop) (R R' : B → A → world → Prop) p r :
  sim E R p r →
  (E r.2 → E' r.2) → (∀ b a, R b a r.2 → R' b a r.2) → sim E' R' p r.
Proof. destruct p; simpl; naive_solver. Qed.

End calls.

Lemma world_eq w1 w2 :
  objects w1 = objects w2 → console w1 = console w2 → w1 = w2.
Proof. destruct w1, w2; simpl; congruence. Qed.

(** ** Lemmas on segments *)

Section segments.
Implicit Types (h seg : list node) (base : addr).

Lemma holds_nil h base : holds h base [].
Proof. by intros i o. Qed.

Lemma holds_app h base seg1 seg2 :
  holds h base (seg1 ++ seg2)
  ↔ holds h base seg1 ∧ holds h (base + length seg1) seg2.
Proof.
  split.
  - intros H. split; intros i o Hi.
    + apply H. by apply lookup_app_l_Some.
    + rewrite <- Nat.add_assoc. apply H.
      by rewrite lookup_app_r, Nat.add_comm, Nat.add_sub by lia.
  - intros [H1 H2] i o [Hi|[Hlen Hi]]%lookup_app_Some; [by apply H1|].
    replace (base + i) with (base + length seg1 + (i - length seg1)) by lia.
    by apply H2.
Qed.

Lemma holds_cons h base o seg :
  holds h base (o :: seg) ↔ h !! base = Some o ∧ holds h (S base) seg.
Proof.
  rewrite (holds_app h base [o] seg). simpl.
  replace (base + 1) with (S base) by lia.
  split; intros [H1 H2]; split; try done.
  - specialize (H1 0 o eq_refl). by rewrite Nat.add_0_r in H1.
  - intros [|i] o' Hi; simplify_eq/=. by rewrite Nat.add_0_r.
Qed.

Lemma holds_self h seg : holds (h ++ seg) (length h) seg.
Proof.
  intros i o Hi. by rewrite lookup_app_r, Nat.add_comm, Nat.add_sub by lia.
Qed.

Lemma holds_extend h base seg l : holds h base seg → holds (h ++ l) base seg.
Proof. intros H i o Hi. apply lookup_app_l_Some. by apply H. Qed.

Lemma holds_lookup h base seg i o :
  holds h base seg → seg !! i = Some o → h !! (base + i) = Some o.
Proof. intros H. apply H. Qed.

End segments.

(** ** Well-formed stores *)

Lemma node_ok_extend h l o : node_ok h o = true → node_ok (h ++ l) o = true.
Proof.
  unfold node_ok. intros [Hs Hp]%andb_true_iff. apply andb_true_iff. split.
  - destruct (node_type_of o), (node_raw o), (node_position o),
      (node_children o) as [cs|]; try done.
    rewrite !andb_true_iff in *. destruct Hs as [[Hcs ?] ?].
    split_and!; [|done..].
    rewrite forallb_forall in *. intros c Hc. specialize (Hcs c Hc).
    apply bool_decide_eq_true in Hcs. apply bool_decide_eq_true.
    rewrite length_app. lia.
  - destruct (node_parent o) as [p|]; [|done].
    destruct (h !! p) as [po|] eqn:Hpo; [|done].
    by rewrite (lookup_app_l_Some _ _ _ _ Hpo).
Qed.

Lemma store_ok_extend h l :
  store_ok h = true → Forall (λ o, node_ok (h ++ l) o = true) l →
  store_ok (h ++ l) = true.
Proof.
  unfold store_ok. rewrite !forallb_forall. intros Hh Hl o.
  rewrite <- list_elem_of_In, elem_of_app. intros [Ho|Ho].
  - apply node_ok_extend, Hh. by apply list_elem_of_In.
  - by eapply Forall_forall in Hl.
Qed.
