(* ===== verification/HeapBuilder.v ===== *)
(** * HeapBuilder: the tree builder of [json-parse.js] on the store

    [json-parse.js] holds the builder and [findAtPosition] once more,
    without [extractValues].  The module [JsonParse] translates it
    statement by statement on the store of [Heap]: every object literal is
    an allocation, [x.parent = result], [children.push(x)],
    [result.position = ...] and [Object.defineProperty(result, 'raw', ...)]
    are updates of the object at an address, and a token of an unknown type
    is printed by [console.error].  The builder of [json-parse-ast.js] is
    the same text with one more statement at the end of [parseObject] and
    of [parseArray], [result.extractValues = function ...]; the parameter
    [methods] of the builder says whether the statement is there.

    [layout] is the segment of the store that holds a tree: the objects of
    the first child, the container, the objects of the other children, in
    the order the builder allocates them.  The theorems say that a run of
    the builder on the store simulates the run of the functional builder of
    [Ast] on the same tokens, that it appends the layout of the tree that
    one returns and touches nothing else, and that the [parent] of every
    object of a layout is the address of the container whose [children]
    hold it. *)

From S2P Require Import Prelude Token Ast Query Heap.

Module JsonParse.

(** ** The leaf builders *)

(** The object literal of a leaf builder. *)
Definition leaf (type : leaf_type) (raw : jstring) (value : option jsval)
    (position : IRange) : node :=
  {| node_type_of := LeafType type; node_raw := Data raw;
     node_value := value; node_position := Some position;
     node_parent := None; node_children := None;
     node_extractValues := None |}.

Definition leaf_of (type : leaf_type) (value : token → option jsval)
    (tokens : list token) (current : nat) : M (nat * addr) :=
  token ← lift (defined (tokens !! current));
  a ← alloc (leaf type (tok_raw token) (value token) (tok_position token));
  mret (current + 1, a).

Definition parseInlineComment := leaf_of InlineComment (λ _, None).
Definition parseMultilineComment := leaf_of MultilineComment (λ _, None).
Definition parseString := leaf_of StringLiteral (λ t, Some (tok_value t)).
Definition parseNumber := leaf_of NumberLiteral (λ t, Some (tok_value t)).
Definition parseLiteral := leaf_of LiteralLiteral (λ t, Some (tok_value t)).
Definition parseWhitespace := leaf_of Whitespace (λ t, Some (tok_value t)).
Definition parseToken := leaf_of Punctuation (λ t, Some (VString (tok_raw t))).

(** ** Containers *)

(** [{type: type, children: children}] *)
Definition container (type : container_type) (children : list addr) : node :=
  {| node_type_of := ContainerType type; node_raw := NoRaw;
     node_value := None; node_position := None;
     node_parent := None; node_children := Some children;
     node_extractValues := None |}.

Section containers.
(** [parseObject] and [parseArray] of [json-parse-ast.js] end with one
    more statement than those of [json-parse.js], the assignment of
    [result.extractValues]; [methods] says that the statement is there. *)
Context (methods : bool).
(** The recursive call [parseTokens(tokens, curr)]. *)
Context (parseTokens : nat → M (option (nat * addr))).
Context (tokens : list token).

(** The [while] loop of [parseObject] and [parseArray]: the child is
    parsed, the cursor moved, the parent of the child assigned and the
    child pushed on the array of [result]. *)
Fixpoint children_loop (fuel : nat) (close : jstring) (result : addr)
    (curr : nat) : M nat :=
  match fuel with
  | 0 => lift OutOfFuel
  | S fuel' =>
    token ← lift (defined (tokens !! curr));
    if decide (tok_raw token ≠ close) then
      foo ← parseTokens curr;
      '(next, child) ← lift (defined foo);
      _ ← update child (with_parent result);
      _ ← update result (with_child child);
      children_loop fuel' close result next
    else mret curr
  end.

Definition parseObject (fuel : nat) (current : nat) : M (nat * addr) :=
  '(_, start) ← parseToken tokens current;
  result ← alloc (container Object [start]);
  _ ← update start (with_parent result);
  curr ← children_loop fuel (js "}") result (current + 1);
  '(_, end_) ← parseToken tokens curr;
  _ ← update result (with_child end_);
  position ← lift (container_position tokens current curr);
  _ ← update result (with_position position);
  _ ← update result with_getter;
  _ ← (if methods then update result (with_extractValues Object)
       else mret ());
  mret (curr + 1, result).

Definition parseArray (fuel : nat) (current : nat) : M (nat * addr) :=
  '(_, startToken) ← parseToken tokens current;
  result ← alloc (container Array [startToken]);
  _ ← update startToken (with_parent result);
  curr ← children_loop fuel (js "]") result (current + 1);
  '(_, endToken) ← parseToken tokens curr;
  _ ← update endToken (with_parent result);
  _ ← update result (with_child endToken);
  position ← lift (container_position tokens current curr);
  _ ← update result (with_position position);
  _ ← update result with_getter;
  _ ← (if methods then update result (with_extractValues Array)
       else mret ());
  mret (curr + 1, result).

End containers.

(** ** [parseTokens] *)

Fixpoint parseTokens (methods : bool) (fuel : nat) (tokens : list token)
    (current : nat) : M (option (nat * addr)) :=
  match fuel with
  | 0 => lift OutOfFuel
  | S fuel' =>
    token ← lift (defined (tokens !! current));
    match tok_type token with
    | T_inlinecomment => Some <$> parseInlineComment tokens current
    | T_multilinecomment => Some <$> parseMultilineComment tokens current
    | T_whitespace => Some <$> parseWhitespace tokens current
    | T_string => Some <$> parseString tokens current
    | T_literal => Some <$> parseLiteral tokens current
    | T_number => Some <$> parseNumber tokens current
    | T_punctuation =>
      if decide (tok_raw token = js "{") then
        Some <$> parseObject methods (parseTokens methods fuel' tokens)
                   tokens fuel' current
      else if decide (tok_raw token = js "[") then
        Some <$> parseArray methods (parseTokens methods fuel' tokens)
                   tokens fuel' current
      else if decide (tok_raw token = js ":" ∨ tok_raw token = js ",") then
        Some <$> parseToken tokens current
      else mret None
    | T_other _ => _ ← console_error token; mret None
    end
  end.

(** The exported [parseTokens(tokens)]: [parseTokens(tokens, 0)[1]]. *)
Definition parseTokens_export (methods : bool) (tokens : list token)
    : M addr :=
  r ← parseTokens methods (S (length tokens)) tokens 0;
  '(_, node) ← lift (defined r);
  mret node.

(** ** The [raw] getter *)

(** Reading [raw] of the object at [a]: a data property, or the getter,
    which appends the [raw] of every child to the empty string; a property
    that is not there reads as [undefined], which [+=] appends as a word. *)
Fixpoint raw (fuel : nat) (h : list node) (a : addr) : outcome jstring :=
  match fuel with
  | 0 => OutOfFuel
  | S fuel' =>
    o ← defined (h !! a);
    match node_raw o with
    | Data s => Ok s
    | Getter =>
      children ← defined (node_children o);
      foldl (λ s child, s ← s; r ← raw fuel' h child; Ok (s ++ r))
        (Ok []) children
    | NoRaw => Ok (js "undefined")
    end
  end.

(** ** [findAtPosition] *)

(** What [findAtPosition] returns: [null], [undefined], or a node. *)
Inductive found_at :=
| NullAt
| UndefinedAt
| FoundAt (a : addr).

Section search_children.
(** The recursive call [findAtPosition(ast.children[i], position)]. *)
Context (find : addr → outcome found_at).

Fixpoint search_children (children : list addr) : outcome found_at :=
  match children with
  | [] => Ok UndefinedAt
  | child :: rest =>
    result ← find child;
    match result with
    | NullAt => search_children rest
    | _ => Ok result
    end
  end.

End search_children.

Fixpoint findAtPosition (fuel : nat) (h : list node) (ast : addr)
    (position : IPosition) : outcome found_at :=
  match fuel with
  | 0 => OutOfFuel
  | S fuel' =>
    o ← defined (h !! ast);
    range ← defined (node_position o);
    if inRange position range then
      match node_type_of o with
      | ContainerType _ =>
        children ← defined (node_children o);
        search_children (λ child, findAtPosition fuel' h child position)
          children
      | LeafType _ => Ok (FoundAt ast)
      end
    else Ok NullAt
  end.

End JsonParse.

#[export] Instance found_at_eq_dec : EqDecision JsonParse.found_at.
Proof. solve_decision. Defined.

(** ** The layout of a tree in the store

    The definitions and theorems that follow are for both builders,
    [methods] saying which: with it the builder is the one of
    [json-parse-ast.js], without it the one of [json-parse.js]. *)

Section methods.
Context (methods : bool).


(** The number of objects of a tree. *)
Fixpoint size (n : ast) : nat :=
  match n with
  | Leaf _ _ _ _ _ => 1
  | Container _ children _ _ => S (sum_list_with size children)
  end.

(** Where the root of a tree lies in its segment: a container is allocated
    after its first child. *)
Definition first_size (children : list ast) : nat :=
  match children with
  | c :: _ => size c
  | [] => 0
  end.

Definition root_offset (n : ast) : nat := first_size (ast_children n).

(** The addresses of the roots of the children laid out from [b], [gap]
    addresses being left free after the first of them. *)
Fixpoint child_addrs (b : addr) (gap : nat) (cs : list ast) : list addr :=
  match cs with
  | [] => []
  | c :: cs' => (b + root_offset c) :: child_addrs (b + size c + gap) 0 cs'
  end.

(** The segments [f b c] of the children [cs] from [b], the objects [me]
    lying after the first of them. *)
Fixpoint layout_children (f : addr → ast → list node) (me : list node)
    (b : addr) (cs : list ast) : list node :=
  match cs with
  | [] => me
  | c :: cs' => f b c ++ me ++ layout_children f [] (b + size c + length me) cs'
  end.

(** A container that the builder has finished. *)
Definition finished (type : container_type) (position : IRange)
    (parent : option addr) (children : list addr) : node :=
  {| node_type_of := ContainerType type; node_raw := Getter;
     node_value := None; node_position := Some position;
     node_parent := parent; node_children := Some children;
     node_extractValues := if methods then Some type else None |}.

(** The [parent] of the root of a segment. *)
Definition parent_field (has_parent : bool) (parent : option addr)
    : option addr :=
  if has_parent then parent else None.

(** The objects of the tree [n] from the address [base], [parent] being
    the address of the container that holds [n]. *)
Fixpoint layout (base : addr) (parent : option addr) (n : ast) : list node :=
  match n with
  | Leaf type raw value position has_parent =>
    [{| node_type_of := LeafType type; node_raw := Data raw;
        node_value := value; node_position := Some position;
        node_parent := parent_field has_parent parent;
        node_children := None;
        node_extractValues := None |}]
  | Container type children position has_parent =>
    layout_children
      (λ b c, layout b (Some (base + first_size children)) c)
      [finished type position (parent_field has_parent parent)
         (child_addrs base 1 children)]
      base children
  end.

(** The segment of a container whose object is [me] of the addresses of
    its children. *)
Definition container_layout (base : addr) (me : list addr → node)
    (children : list ast) : list node :=
  layout_children (λ b c, layout b (Some (base + first_size children)) c)
    [me (child_addrs base 1 children)] base children.

(** The addresses where the segments of the children start. *)
Fixpoint child_bases (b : addr) (gap : nat) (cs : list ast) : list addr :=
  match cs with
  | [] => []
  | c :: cs' => b :: child_bases (b + size c + gap) 0 cs'
  end.

(** The object of the root of [n] in [layout base parent n]. *)
Definition root_node (base : addr) (parent : option addr) (n : ast) : node :=
  match n with
  | Leaf type raw value position has_parent =>
    {| node_type_of := LeafType type; node_raw := Data raw;
       node_value := value; node_position := Some position;
       node_parent := parent_field has_parent parent;
       node_children := None;
        node_extractValues := None |}
  | Container type children position has_parent =>
    finished type position (parent_field has_parent parent)
      (child_addrs base 1 children)
  end.

(** The address of the node at [path] of the tree laid out from [base]. *)
Fixpoint addr_at (base : addr) (n : ast) (path : list nat) : addr :=
  match path with
  | [] => base + root_offset n
  | i :: path' =>
    match ast_children n !! i, child_bases base 1 (ast_children n) !! i with
    | Some c, Some b => addr_at b c path'
    | _, _ => base + root_offset n
    end
  end.

(** The result of [findAtPosition] on a tree, as a result on its layout. *)
Definition found_in (base : addr) (n : ast) (r : found) : JsonParse.found_at :=
  match r with
  | Null => JsonParse.NullAt
  | Undefined => JsonParse.UndefinedAt
  | Found path => JsonParse.FoundAt (addr_at base n path)
  end.

(** ** The relation between the two builders *)

(** What [console.error] has printed since the console was [c]: nothing,
    or one token of [tokens] of an unknown type. *)
Definition logged (tokens : list token) (c : list token) (w' : world)
    : Prop :=
  console w' = c
  ∨ ∃ t name, t ∈ tokens ∧ tok_type t = T_other name ∧ console w' = c ++ [t].

(** What a run that fails leaves: the objects [h] it found are untouched,
    and the console is as [logged] says. *)
Definition failed (tokens : list token) (h : list node) (c : list token)
    (w' : world) : Prop :=
  h `prefix_of` objects w' ∧ logged tokens c w'.

(** The exported builder returned the address of the root of [n], and
    appended the layout of [n] to the store. *)
Definition root_rel (w : world) (n : ast) (a : addr) (w' : world) : Prop :=
  a = length (objects w) + root_offset n
  ∧ w' = extend w (layout (length (objects w)) None n).

(** The store builder returned the cursor and the address of the root of
    the tree [b.2], and appended the layout of this tree to the store. *)
Definition node_rel (w : world) (b : nat * ast) (a : nat * addr)
    (w' : world) : Prop :=
  a = (b.1, length (objects w) + root_offset b.2)
  ∧ w' = extend w (layout (length (objects w)) None b.2).

Definition result_rel (tokens : list token) (w : world)
    (b : option (nat * ast)) (a : option (nat * addr)) (w' : world) : Prop :=
  match b with
  | Some b => ∃ a', a = Some a' ∧ node_rel w b a' w'
  | None => a = None ∧ objects w' = objects w ∧ logged tokens (console w) w'
  end.

(** The loop over the children stopped at the same cursor, the store
    after [h0] holding the container under construction with the children
    [b.2], the first of which is [c0]. *)
Definition loop_rel (h0 : list node) (me : list addr → node) (c0 : ast)
    (w : world) (b : nat * list ast) (curr : nat) (w' : world) : Prop :=
  curr = b.1
  ∧ (∃ cs, b.2 = c0 :: cs)
  ∧ objects w' = h0 ++ container_layout (length h0) me b.2
  ∧ console w' = console w.

(** The two leaf builders read the same token, the store builder
    allocating the leaf at the next address. *)
Definition leaf_rel (type : leaf_type) (value : token → option jsval)
    (tokens : list token) (current : nat) (w : world) (b : nat * ast)
    (a : nat * addr) (w' : world) : Prop :=
  ∃ t, tokens !! current = Some t
    ∧ b = (current + 1,
           Leaf type (tok_raw t) (value t) (tok_position t) false)
    ∧ a = (current + 1, length (objects w))
    ∧ w' = extend w
             [JsonParse.leaf type (tok_raw t) (value t) (tok_position t)].

(** [parseObject] and [parseArray] of the module as one function of the
    container type. *)
Definition store_container (ty : container_type)
    (parseTokens : nat → M (option (nat * addr))) (tokens : list token)
    (fuel : nat) (current : nat) : M (nat * addr) :=
  '(_, start) ← JsonParse.parseToken tokens current;
  result ← alloc (JsonParse.container ty [start]);
  _ ← update start (with_parent result);
  curr ← JsonParse.children_loop parseTokens tokens fuel (close_raw ty)
            result (current + 1);
  '(_, end_) ← JsonParse.parseToken tokens curr;
  _ ← (if close_has_parent ty then update end_ (with_parent result)
       else mret ());
  _ ← update result (with_child end_);
  position ← lift (container_position tokens current curr);
  _ ← update result (with_position position);
  _ ← update result with_getter;
  _ ← (if methods then update result (with_extractValues ty) else mret ());
  mret (curr + 1, result).

(** ** Sample data *)

(** An array that holds a token of a type the tokenizer does not make. *)
Definition unknown_tokens : list token := [
  mk_token T_punctuation (sample_range 1) (js "[") (VString (js "["));
  mk_token (T_other (js "regex")) (sample_range 2) (js "/") (VString (js "/"))
].

(** The store the builder leaves of the tokens of [[1,{}]], from the empty
    store: eight objects, the array at address 1. *)
Definition sample_store : world :=
  Eval vm_compute in (JsonParse.parseTokens_export false sample_tokens empty_world).2.

(** ** Lemmas on layouts *)

Lemma length_layout_children f me b cs :
  Forall (λ c, ∀ b, length (f b c) = size c) cs →
  length (layout_children f me b cs) = length me + sum_list_with size cs.
Proof.
  intros H. revert me b. induction H as [|c cs Hc _ IH]; intros me b; simpl.
  - lia.
  - rewrite !length_app, Hc, IH. simpl. lia.
Qed.

Lemma length_layout base parent n : length (layout base parent n) = size n.
Proof.
  revert base parent. induction n as [|ty children position hp IH] using ast_ind';
    intros base parent; [done|].
  simpl. rewrite length_layout_children; [done|].
  eapply Forall_impl; [exact IH|]. naive_solver.
Qed.

Lemma length_container_layout base me children :
  length (container_layout base me children)
  = S (sum_list_with size children).
Proof.
  unfold container_layout. rewrite length_layout_children; [done|].
  apply Forall_forall. intros c _ b. apply length_layout.
Qed.

Lemma size_set_parent n : size (set_parent n) = size n.
Proof. by destruct n. Qed.

Lemma root_offset_set_parent n : root_offset (set_parent n) = root_offset n.
Proof. by destruct n. Qed.

Lemma layout_children_snoc f b cs c :
  layout_children f [] b (cs ++ [c])
  = layout_children f [] b cs ++ f (b + sum_list_with size cs) c.
Proof.
  revert b. induction cs as [|c' cs IH]; intros b; simpl.
  - by rewrite Nat.add_0_r, app_nil_r.
  - rewrite IH, <- !app_assoc. do 3 f_equal. lia.
Qed.

Lemma child_addrs_snoc b cs c :
  child_addrs b 0 (cs ++ [c])
  = child_addrs b 0 cs ++ [b + sum_list_with size cs + root_offset c].
Proof.
  revert b. induction cs as [|c' cs IH]; intros b; simpl.
  - by rewrite Nat.add_0_r.
  - rewrite IH. do 3 f_equal. lia.
Qed.

Lemma alter_layout_root f base parent n :
  alter f (root_offset n) (layout base parent n)
  = match n with
    | Leaf _ _ _ _ _ => f <$> layout base parent n
    | Container type children position hp =>
      container_layout base
        (λ addrs, f (finished type position (parent_field hp parent) addrs))
        children
    end.
Proof.
  destruct n as [|type [|c cs] position hp]; try done.
  unfold root_offset, container_layout. simpl.
  rewrite <- (length_layout base (Some (base + size c)) c) at 1.
  by rewrite <- (Nat.add_0_r (length _)), alter_app_r.
Qed.

Lemma layout_set_parent result base parent n :
  alter (with_parent result) (root_offset n) (layout base parent n)
  = layout base (Some result) (set_parent n).
Proof. rewrite alter_layout_root. by destruct n. Qed.

Lemma alter_container_layout f base me children :
  alter f (first_size children) (container_layout base me children)
  = container_layout base (λ addrs, f (me addrs)) children.
Proof.
  destruct children as [|c cs]; [done|].
  unfold container_layout. simpl.
  rewrite <- (length_layout base (Some (base + size c)) c) at 1.
  by rewrite <- (Nat.add_0_r (length _)), alter_app_r.
Qed.

Lemma container_layout_snoc base me c0 cs c :
  container_layout base me ((c0 :: cs) ++ [c])
  = container_layout base
      (λ addrs,
         me (addrs ++ [base + S (sum_list_with size (c0 :: cs))
                        + root_offset c]))
      (c0 :: cs)
    ++ layout (base + S (sum_list_with size (c0 :: cs)))
         (Some (base + size c0)) c.
Proof.
  unfold container_layout. simpl.
  rewrite child_addrs_snoc, layout_children_snoc, <- !app_assoc. simpl.
  by replace (base + S (size c0 + sum_list_with size cs))
    with (base + size c0 + 1 + sum_list_with size cs) by lia.
Qed.

(** The two assignments of the loop body, on the store that holds the
    container under construction and, behind it, the new child. *)
Lemma push_child ty h0 c0 cs child h :
  h = h0 ++ container_layout (length h0) (JsonParse.container ty) (c0 :: cs) →
  alter (with_child (length h + root_offset child)) (length h0 + size c0)
    (alter (with_parent (length h0 + size c0)) (length h + root_offset child)
       (h ++ layout (length h) None child))
  = h0 ++ container_layout (length h0) (JsonParse.container ty)
            ((c0 :: cs) ++ [set_parent child]).
Proof.
  intros Hh. rewrite alter_app_r, layout_set_parent.
  rewrite container_layout_snoc, root_offset_set_parent.
  assert (length h = length h0 + S (sum_list_with size (c0 :: cs))) as ->.
  { by rewrite Hh, length_app, length_container_layout. }
  rewrite Hh, <- app_assoc, alter_app_r, alter_app_l
    by (rewrite length_container_layout; simpl; lia).
  by rewrite (alter_container_layout _ _ _ (c0 :: cs)).
Qed.

(** The assignments after the loop: the closing token is pushed, the
    position assigned, the getter installed and, in [json-parse-ast.js],
    the method assigned. *)
Lemma close_container ty h0 c0 cs h end_ position :
  h = h0 ++ container_layout (length h0) (JsonParse.container ty) (c0 :: cs) →
  root_offset end_ = 0 →
  alter (if methods then with_extractValues ty else id) (length h0 + size c0)
    (alter with_getter (length h0 + size c0)
       (alter (with_position position) (length h0 + size c0)
          (alter (with_child (length h)) (length h0 + size c0)
             (h ++ layout (length h) (Some (length h0 + size c0)) end_))))
  = h0 ++ layout (length h0) None
            (Container ty ((c0 :: cs) ++ [end_]) position false).
Proof.
  intros Hh Hend.
  change (layout (length h0) None (Container ty ?cs position false))
    with (container_layout (length h0) (finished ty position None) cs).
  rewrite container_layout_snoc, Hend, Nat.add_0_r.
  assert (length h = length h0 + S (sum_list_with size (c0 :: cs))) as ->.
  { by rewrite Hh, length_app, length_container_layout. }
  rewrite Hh, <- app_assoc.
  rewrite !alter_app_r, !alter_app_l
    by (rewrite ?length_alter, length_container_layout; simpl; lia).
  rewrite !(alter_container_layout _ _ _ (c0 :: cs)).
  unfold finished. by destruct methods.
Qed.

(** The first assignment of a container builder. *)
Lemma open_container ty h0 type raw value position :
  let start := Leaf type raw value position false in
  alter (with_parent (length (h0 ++ layout (length h0) None start)))
    (length h0)
    ((h0 ++ layout (length h0) None start)
     ++ [JsonParse.container ty [length h0]])
  = h0 ++ container_layout (length h0) (JsonParse.container ty)
            [set_parent start].
Proof.
  intros start. rewrite <- app_assoc, alter_app_r_alt, Nat.sub_diag by done.
  rewrite length_app. unfold container_layout. simpl.
  by rewrite Nat.add_0_r.
Qed.

(** ** The simulation *)

Lemma failed_refl tokens h0 w :
  h0 `prefix_of` objects w → failed tokens h0 (console w) w.
Proof. intros ?. split; [done|by left]. Qed.

Lemma failed_prefix tokens h0 h c w' :
  h0 `prefix_of` h → failed tokens h c w' → failed tokens h0 c w'.
Proof. intros ? [? ?]. split; [by etrans|done]. Qed.

#[local] Hint Resolve failed_refl prefix_app_r : core.

Lemma sim_leaf_of E type value tokens current w :
  E w →
  sim E (leaf_rel type value tokens current w)
    (leaf_of type value tokens current)
    (JsonParse.leaf_of type value tokens current w).
Proof.
  intros HE. unfold leaf_of, JsonParse.leaf_of.
  destruct (tokens !! current) as [token|] eqn:Htoken; [|done].
  eexists. split; [done|]. by exists token.
Qed.

Lemma leaf_rel_node_rel type value tokens current w b a w' :
  leaf_rel type value tokens current w b a w' → node_rel w b a w'.
Proof.
  intros (t & _ & -> & -> & ->). split; [|done]. simpl. by rewrite Nat.add_0_r.
Qed.

Lemma sim_fmap_Some E tokens (w : world) p (m : M (nat * addr)) :
  sim E (node_rel w) p (m w) →
  sim E (result_rel tokens w) (Some <$> p) ((Some <$> m) w).
Proof.
  unfold fmap at 2, M_fmap.
  destruct p as [b|e|], (m w) as [r w']; simpl; try by intros [-> ?].
  intros (a & -> & HR). eauto.
Qed.

Lemma parseObject_store rec tokens fuel cur w :
  JsonParse.parseObject methods rec tokens fuel cur w
  = store_container Object rec tokens fuel cur w.
Proof. done. Qed.

Lemma parseArray_store rec tokens fuel cur w :
  JsonParse.parseArray methods rec tokens fuel cur w
  = store_container Array rec tokens fuel cur w.
Proof. done. Qed.

Section sim_containers.
Context (pt : nat → outcome (option (nat * ast))).
Context (pth : nat → M (option (nat * addr))).
Context (tokens : list token).
Context (Hpt : ∀ cur w,
  sim (failed tokens (objects w) (console w)) (result_rel tokens w)
    (pt cur) (pth cur w)).

Lemma sim_parse_children ty fuel close result curr c0 cs w h0 :
  result = length h0 + size c0 →
  objects w
  = h0 ++ container_layout (length h0) (JsonParse.container ty) (c0 :: cs) →
  sim (failed tokens h0 (console w))
    (loop_rel h0 (JsonParse.container ty) c0 w)
    (parse_children pt tokens fuel close curr (c0 :: cs))
    (JsonParse.children_loop pth tokens fuel close result curr w).
Proof.
  intros ->. revert curr cs w.
  induction fuel as [|fuel IH]; intros curr cs w Hw;
    assert (h0 `prefix_of` objects w) by (rewrite Hw; auto); [by split; auto|].
  simpl. destruct (tokens !! curr) as [token|]; [|by split; auto].
  cbn [defined]. rewrite bind_lift_Ok, bind_Ok.
  destruct (decide (tok_raw token ≠ close)).
  - eapply sim_bind.
    { eapply sim_weaken; [apply Hpt|by apply failed_prefix|done]. }
    intros [[next child]|] a w'; simpl.
    + intros (a' & -> & -> & ->). cbn [defined fst snd].
      rewrite bind_lift_Ok, !bind_update.
      eapply sim_weaken; [apply IH| |]; [|done|by intros b a].
      cbn [objects extend]. by apply push_child.
    + intros (-> & Hobj & Hlog). split; [done|]. simpl.
      split; [by rewrite Hobj|done].
  - eexists. split; [done|]. repeat split; eauto.
Qed.

Lemma sim_parse_container ty fuel current w :
  sim (failed tokens (objects w) (console w)) (node_rel w)
    (parse_container ty pt tokens fuel current)
    (store_container ty pth tokens fuel current w).
Proof.
  unfold parse_container, store_container, parseToken, JsonParse.parseToken.
  eapply sim_bind; [apply sim_leaf_of; by apply failed_refl|].
  intros ? ? w1 (topen & Hopen & -> & -> & ->).
  rewrite bind_alloc, bind_update.
  eapply sim_bind.
  { eapply sim_weaken.
    - eapply (sim_parse_children ty) with (h0 := objects w);
        cbn [objects extend]; [by rewrite length_app|apply open_container].
    - intros HE. exact HE.
    - intros b a HR. exact HR. }
  intros [curr children] curr' w3 (-> & [cs Hcs] & Hobj & Hcon).
  simpl in Hcs. subst children. cbn [fst].
  eapply sim_bind.
  { apply sim_leaf_of. cbn [console extend] in Hcon. rewrite <- Hcon.
    apply failed_refl. rewrite Hobj. auto. }
  intros ? ? w4 (tclose & Hclose & -> & -> & ->).
  unfold container_position. rewrite Hopen, Hclose. cbn [defined].
  rewrite !bind_Ok. cbn [objects extend console snd] in *.
  rewrite length_app in *. cbn [length] in *.
  set (r := length (objects w) + 1) in *.
  set (start := Leaf Punctuation _ _ (tok_position topen) true) in *.
  destruct ty; cbn [close_has_parent];
    rewrite ?bind_ret, !bind_update, bind_lift_Ok, !bind_update,
      bind_update_if;
    (eexists; split; [done|]); (split; [done|apply world_eq; [|done]]);
    unfold mret, M_ret; cbn [objects extend fst snd].
  - by apply (close_container Object (objects w) start cs _ (punct tclose false)).
  - rewrite alter_app_r_alt, Nat.sub_diag by done.
    by apply (close_container Array (objects w) start cs _ (punct tclose true)).
Qed.

End sim_containers.

Lemma sim_parseTokens fuel tokens cur w :
  sim (failed tokens (objects w) (console w)) (result_rel tokens w)
    (parseTokens fuel tokens cur) (JsonParse.parseTokens methods fuel tokens cur w).
Proof.
  revert cur w. induction fuel as [|fuel IH]; intros cur w; [by split; auto|].
  pose proof (sim_parse_container _ _ tokens IH) as Hc.
  assert (∀ type value,
            sim (failed tokens (objects w) (console w)) (node_rel w)
              (leaf_of type value tokens cur)
              (JsonParse.leaf_of type value tokens cur w)) as Hl.
  { intros type value.
    eapply sim_weaken; [apply sim_leaf_of; by apply failed_refl|done|].
    intros b a. apply leaf_rel_node_rel. }
  simpl. destruct (tokens !! cur) as [token|] eqn:Htoken; [|by split; auto].
  cbn [defined]. rewrite bind_lift_Ok, bind_Ok.
  destruct (tok_type token) eqn:Htype; try (apply sim_fmap_Some; apply Hl).
  - repeat case_decide; try (apply sim_fmap_Some; apply Hl).
    + apply sim_fmap_Some. rewrite parseObject_container. apply (Hc Object).
    + apply sim_fmap_Some. rewrite parseArray_container. apply (Hc Array).
    + eexists. split; [done|]. repeat split. by left.
  - eexists. split; [done|]. repeat split. right.
    exists token, name. by eauto using list_elem_of_lookup_2.
Qed.

(** ** The structure of a layout *)

Lemma child_addrs_bases b gap cs :
  child_addrs b gap cs
  = zip_with (λ b c, b + root_offset c) (child_bases b gap cs) cs.
Proof.
  revert b gap. induction cs as [|c cs IH]; intros b gap; simpl; [done|].
  by rewrite IH.
Qed.

Lemma holds_layout_children h f me b cs :
  (∀ b c, length (f b c) = size c) →
  holds h b (layout_children f me b cs) →
  holds h (b + first_size cs) me
  ∧ Forall2 (λ b' c, holds h b' (f b' c)) (child_bases b (length me) cs) cs.
Proof.
  intros Hf. revert me b. induction cs as [|c cs IH]; intros me b; simpl.
  { rewrite Nat.add_0_r. by split. }
  rewrite !holds_app, Hf. intros (Hc & Hme & Hcs).
  split; [done|]. constructor; [done|].
  by apply (IH []) in Hcs as [_ ?].
Qed.

Lemma holds_layout_Container h base parent type children position hp :
  holds h base (layout base parent (Container type children position hp)) →
  h !! (base + first_size children)
  = Some (root_node base parent (Container type children position hp))
  ∧ Forall2 (λ b c, holds h b (layout b (Some (base + first_size children)) c))
      (child_bases base 1 children) children.
Proof.
  intros [Hme Hcs]%holds_layout_children; [|intros; apply length_layout].
  split; [|done]. apply holds_cons in Hme as [Hme _]. done.
Qed.

Lemma holds_layout_root h base parent n :
  holds h base (layout base parent n) →
  h !! (base + root_offset n) = Some (root_node base parent n).
Proof.
  destruct n as [|type children position hp].
  - intros [H _]%holds_cons. by rewrite Nat.add_0_r.
  - by intros [? _]%holds_layout_Container.
Qed.

Lemma size_child c children : c ∈ children → size c ≤ sum_list_with size children.
Proof. apply sum_list_with_in. Qed.

(** ** The [raw] getter and [findAtPosition] on a layout *)

Lemma foldl_raw (g : addr → outcome jstring) bases cs acc :
  Forall2 (λ b c, g (b + root_offset c) = Ok (ast_raw c)) bases cs →
  foldl (λ s child, s ← s; r ← g child; Ok (s ++ r)) (Ok acc)
    (zip_with (λ b c, b + root_offset c) bases cs)
  = Ok (acc ++ mjoin (ast_raw <$> cs)).
Proof.
  intros H. revert acc.
  induction H as [|b c bases cs Hc _ IH]; intros acc; cbn [foldl zip_with].
  - by rewrite app_nil_r.
  - rewrite bind_Ok, Hc, bind_Ok, IH. simpl. by rewrite app_assoc.
Qed.

Lemma raw_layout h n : ∀ fuel base parent,
  holds h base (layout base parent n) → size n ≤ fuel →
  JsonParse.raw fuel h (base + root_offset n) = Ok (ast_raw n).
Proof.
  induction n as [|type children position hp IH] using ast_ind';
    intros [|fuel] base parent Hh Hf; simpl in Hf; try lia;
    pose proof (holds_layout_root _ _ _ _ Hh) as Hroot;
    cbn [JsonParse.raw]; rewrite Hroot; [done|].
  apply holds_layout_Container in Hh as [_ Hcs].
  rewrite ast_raw_Container. cbn [root_node finished node_raw node_children defined].
  rewrite bind_Ok, child_addrs_bases. apply (foldl_raw _ _ _ []).
  eapply Forall2_Forall_r_impl; [exact Hcs|exact IH|].
  intros b c Hc%size_child Hb Hraw. eapply Hraw; [exact Hb|lia].
Qed.

Lemma find_children_layout (find : ast → found)
    (find_at : addr → outcome JsonParse.found_at) base n :
  ∀ i bases cs,
  drop i (child_bases base 1 (ast_children n)) = bases →
  drop i (ast_children n) = cs →
  Forall2 (λ b c, find_at (b + root_offset c) = Ok (found_in b c (find c)))
    bases cs →
  JsonParse.search_children find_at (zip_with (λ b c, b + root_offset c) bases cs)
  = Ok (found_in base n (find_children find i cs)).
Proof.
  intros i bases cs Hb Hc H. revert i Hb Hc.
  induction H as [|b c bases cs Hfind _ IH]; intros i Hb Hc; [done|].
  cbn [zip_with JsonParse.search_children find_children]. rewrite Hfind, bind_Ok.
  assert (child_bases base 1 (ast_children n) !! i = Some b) as Hbi.
  { by rewrite <- (Nat.add_0_r i), <- lookup_drop, Hb. }
  assert (ast_children n !! i = Some c) as Hci.
  { by rewrite <- (Nat.add_0_r i), <- lookup_drop, Hc. }
  destruct (find c) as [| |path]; cbn [found_in addr_at].
  - apply IH; replace (S i) with (i + 1) by lia;
      rewrite <- drop_drop; by rewrite ?Hb, ?Hc.
  - done.
  - by rewrite Hci, Hbi.
Qed.

Lemma findAtPosition_layout h position n : ∀ fuel base parent,
  holds h base (layout base parent n) → size n ≤ fuel →
  JsonParse.findAtPosition fuel h (base + root_offset n) position
  = Ok (found_in base n (findAtPosition n position)).
Proof.
  induction n as [|type children pos hp IH] using ast_ind';
    intros [|fuel] base parent Hh Hf; simpl in Hf; try lia;
    pose proof (holds_layout_root _ _ _ _ Hh) as Hroot;
    cbn [JsonParse.findAtPosition]; rewrite Hroot; simpl;
    destruct (inRange position _); try done.
  apply holds_layout_Container in Hh as [_ Hcs].
  rewrite child_addrs_bases.
  apply (find_children_layout _ _ base (Container type children pos hp) 0);
    [done..|].
  eapply Forall2_Forall_r_impl; [exact Hcs|exact IH|].
  intros b c Hc%size_child Hb Hfind. eapply Hfind; [exact Hb|lia].
Qed.

(** ** Parents and children in a layout *)

Lemma holds_child h base parent n i c :
  holds h base (layout base parent n) →
  ast_children n !! i = Some c →
  ∃ b, child_bases base 1 (ast_children n) !! i = Some b
     ∧ holds h b (layout b (Some (base + root_offset n)) c).
Proof.
  destruct n as [|type children position hp]; [done|].
  intros [_ Hcs]%holds_layout_Container Hi.
  destruct (Forall2_lookup_r _ _ _ _ _ Hcs Hi) as (b & ? & ?). by exists b.
Qed.

Lemma node_parent_root base parent n :
  node_parent (root_node base parent n) = parent_field (has_parent n) parent.
Proof. by destruct n. Qed.

Lemma node_children_root base parent n i c b :
  ast_children n !! i = Some c →
  child_bases base 1 (ast_children n) !! i = Some b →
  ∃ cs, node_children (root_node base parent n) = Some cs
      ∧ cs !! i = Some (b + root_offset c).
Proof.
  destruct n as [|type children position hp]; [done|].
  intros Hc Hb. eexists. split; [done|].
  rewrite child_addrs_bases, lookup_zip_with. simpl in *. by rewrite Hb, Hc.
Qed.

Lemma layout_node_at h path : ∀ base parent n c,
  holds h base (layout base parent n) →
  node_at n path = Some c →
  ∃ b p, h !! addr_at base n path = Some (root_node b p c).
Proof.
  induction path as [|j path IH]; intros base parent n c Hh; simpl.
  - intros [= <-]. exists base, parent. by apply holds_layout_root.
  - destruct (ast_children n !! j) as [c'|] eqn:Hj; [|done]. simpl.
    destruct (holds_child _ _ _ _ _ _ Hh Hj) as (b & -> & Hc). by eapply IH.
Qed.

Lemma layout_parent_child h path : ∀ base parent n i c,
  holds h base (layout base parent n) →
  node_at n (path ++ [i]) = Some c →
  ∃ o po cs,
    h !! addr_at base n (path ++ [i]) = Some o
    ∧ node_parent o = parent_field (has_parent c) (Some (addr_at base n path))
    ∧ h !! addr_at base n path = Some po
    ∧ node_children po = Some cs
    ∧ cs !! i = Some (addr_at base n (path ++ [i])).
Proof.
  induction path as [|j path IH]; intros base parent n i c Hh; simpl.
  - destruct (ast_children n !! i) as [c'|] eqn:Hi; [|done]. intros [= ->].
    destruct (holds_child _ _ _ _ _ _ Hh Hi) as (b & Hb & Hc). rewrite Hb.
    destruct (node_children_root base parent n i c b) as (cs & ? & ?); [done..|].
    exists (root_node b (Some (base + root_offset n)) c),
      (root_node base parent n), cs.
    by rewrite node_parent_root, (holds_layout_root h _ _ _ Hc),
      (holds_layout_root h _ _ _ Hh).
  - destruct (ast_children n !! j) as [c'|] eqn:Hj; [|done]. simpl.
    destruct (holds_child _ _ _ _ _ _ Hh Hj) as (b & -> & Hc). by eapply IH.
Qed.

(** ** The builder on the store *)

Lemma sim_parseTokens_root tokens w :
  sim (failed tokens (objects w) (console w)) (root_rel w)
    (parseTokens_root tokens) (JsonParse.parseTokens_export methods tokens w).
Proof.
  unfold parseTokens_root, JsonParse.parseTokens_export.
  eapply sim_bind; [apply sim_parseTokens|].
  intros [[next n]|] a w'; simpl.
  - intros (a' & -> & -> & ->). by eexists.
  - intros (-> & Hobj & Hlog). split; [done|]. simpl. split; [by rewrite Hobj|done].
Qed.

Lemma parseTokens_root_on_store tokens w a w' :
  JsonParse.parseTokens_export methods tokens w = (Ok a, w')
  ↔ ∃ n, parseTokens_root tokens = Ok n ∧ root_rel w n a w'.
Proof.
  pose proof (sim_parseTokens_root tokens w) as H. unfold sim in H.
  destruct (parseTokens_root tokens) as [n|e|],
    (JsonParse.parseTokens_export methods tokens w) as [r w1]; simpl in H.
  - destruct H as (a' & -> & -> & ->). unfold root_rel. naive_solver.
  - destruct H as [-> _]. naive_solver.
  - destruct H as [-> _]. naive_solver.
Qed.

Lemma parseTokens_root_logged tokens w :
  logged tokens (console w) (JsonParse.parseTokens_export methods tokens w).2.
Proof.
  pose proof (sim_parseTokens_root tokens w) as H. unfold sim in H.
  destruct (parseTokens_root tokens) as [n|e|].
  - destruct H as (a & _ & _ & ->). by left.
  - by destruct H as (_ & _ & ?).
  - by destruct H as (_ & _ & ?).
Qed.

Lemma built_store_holds w n w' :
  w' = extend w (layout (length (objects w)) None n) →
  holds (objects w') (length (objects w)) (layout (length (objects w)) None n)
  ∧ size n ≤ length (objects w').
Proof.
  intros ->. split; [apply holds_self|].
  simpl. rewrite length_app, length_layout. lia.
Qed.

(** C3. The builder of [json-parse.js] on the store refines the functional
    builder: from the store [w] it returns the cursor [next] and the
    address [a] and leaves the store [w'] exactly when the functional
    builder returns [next] and a tree [n] such that [w'] is [w] with the
    layout of [n] allocated behind its objects and nothing printed, [a]
    being the address of the root of [n] in that layout. *)
Theorem parseTokens_store_refines fuel tokens cur w next a w' :
  JsonParse.parseTokens methods fuel tokens cur w = (Ok (Some (next, a)), w')
  ↔ ∃ n, parseTokens fuel tokens cur = Ok (Some (next, n))
       ∧ a = length (objects w) + root_offset n
       ∧ w' = extend w (layout (length (objects w)) None n).
Proof.
  pose proof (sim_parseTokens fuel tokens cur w) as H. unfold sim in H.
  destruct (parseTokens fuel tokens cur) as [[[next' n]|]|e|],
    (JsonParse.parseTokens methods fuel tokens cur w) as [r w1]; simpl in H.
  - destruct H as (? & -> & ? & -> & -> & ->). naive_solver.
  - destruct H as (? & -> & -> & _). naive_solver.
  - destruct H as [-> _]. naive_solver.
  - destruct H as [-> _]. naive_solver.
Qed.

(** The two builders fail together: the exported [parseTokens] of
    [json-parse.js] throws an error on a store exactly when the functional
    builder throws it on the same tokens, whatever the store holds. *)
Theorem parseTokens_store_throws tokens w e :
  (JsonParse.parseTokens_export methods tokens w).1 = Throw e
  ↔ parseTokens_root tokens = Throw e.
Proof.
  pose proof (sim_parseTokens_root tokens w) as H. unfold sim in H.
  destruct (parseTokens_root tokens) as [n|e'|].
  - destruct H as (a & -> & _). naive_solver.
  - destruct H as [-> _]. naive_solver.
  - destruct H as [-> _]. naive_solver.
Qed.

(** Whatever a run of the builder does (return, fall off its end, or
    throw), it leaves the objects it found untouched, its own objects lying
    behind them, and it prints at most one token, one of an unknown type. *)
Theorem parseTokens_store_frame fuel tokens cur w :
  failed tokens (objects w) (console w)
    (JsonParse.parseTokens methods fuel tokens cur w).2.
Proof.
  pose proof (sim_parseTokens fuel tokens cur w) as H. unfold sim in H.
  destruct (parseTokens fuel tokens cur) as [[[next' n]|]|e|].
  - destruct H as (? & _ & ? & _ & _ & ->). split; [by apply prefix_app_r|by left].
  - destruct H as (? & _ & _ & Hobj & ?). split; [by rewrite Hobj|done].
  - by destruct H.
  - by destruct H.
Qed.

(** C40. A token of an unknown type is fatal: when the exported
    [parseTokens] has printed anything, it has thrown a TypeError, and
    what it printed is one token of the input whose type is none of the
    seven. *)
Theorem parseTokens_logs_unknown tokens w :
  let r := JsonParse.parseTokens_export methods tokens w in
  console r.2 ≠ console w →
  r.1 = Throw TypeError
  ∧ ∃ t name, t ∈ tokens ∧ tok_type t = T_other name
              ∧ console r.2 = console w ++ [t].
Proof.
  intros r Hne. subst r.
  pose proof (sim_parseTokens_root tokens w) as H. unfold sim in H.
  destruct (parseTokens_root_cases tokens) as [[n Hn]|Ht]; rewrite ?Hn, ?Ht in H.
  - destruct H as (a & _ & _ & Hw). by rewrite Hw in Hne.
  - destruct H as (-> & _ & [?|?]); [done|by split].
Qed.

(** Reading [raw] of the node the builder returned gives the raw text
    of the tree: the getters of the containers, called through the
    [children] arrays of the store, append the raw texts of the leaves in
    order, within as many nested calls as the store has objects. *)
Theorem raw_on_store tokens w a w' :
  JsonParse.parseTokens_export methods tokens w = (Ok a, w') →
  ∃ n, parseTokens_root tokens = Ok n
     ∧ JsonParse.raw (length (objects w')) (objects w') a = Ok (ast_raw n).
Proof.
  intros (n & Hn & -> & Hw)%parseTokens_root_on_store. exists n. split; [done|].
  destruct (built_store_holds _ _ _ Hw). by eapply raw_layout.
Qed.

(** C34. [findAtPosition] of [json-parse.js] on the store agrees with
    [findAtPosition] on the tree: it returns [null] and [undefined] on the
    same positions, and the node it returns is the object at the address
    of the node the other returns by its path. *)
Theorem findAtPosition_on_store tokens w a w' position :
  JsonParse.parseTokens_export methods tokens w = (Ok a, w') →
  ∃ n, parseTokens_root tokens = Ok n
     ∧ JsonParse.findAtPosition (length (objects w')) (objects w') a position
       = Ok (found_in (length (objects w)) n (findAtPosition n position)).
Proof.
  intros (n & Hn & -> & Hw)%parseTokens_root_on_store. exists n. split; [done|].
  destruct (built_store_holds _ _ _ Hw). by eapply findAtPosition_layout.
Qed.

(** C20. The references of a built store are those of the tree: the
    [children] array of the object of a node holds, at index [i], the
    address of the object of its child [i], and the [parent] of that
    object is the address of the node when the builder assigned it (the
    flag of the child in the tree), and absent otherwise. *)
Theorem parent_on_store tokens w a w' :
  JsonParse.parseTokens_export methods tokens w = (Ok a, w') →
  ∃ n, parseTokens_root tokens = Ok n
     ∧ ∀ path i c, node_at n (path ++ [i]) = Some c →
       ∃ o po cs,
         objects w' !! addr_at (length (objects w)) n (path ++ [i]) = Some o
         ∧ node_parent o
           = parent_field (has_parent c)
               (Some (addr_at (length (objects w)) n path))
         ∧ objects w' !! addr_at (length (objects w)) n path = Some po
         ∧ node_children po = Some cs
         ∧ cs !! i = Some (addr_at (length (objects w)) n (path ++ [i])).
Proof.
  intros (n & Hn & -> & Hw)%parseTokens_root_on_store. exists n. split; [done|].
  destruct (built_store_holds _ _ _ Hw). intros path i c.
  by eapply layout_parent_child.
Qed.

(** ** Built stores are well formed *)

Lemma Forall_layout_children (P : node → Prop) f me b cs :
  Forall P me →
  Forall2 (λ b' c, Forall P (f b' c)) (child_bases b (length me) cs) cs →
  Forall P (layout_children f me b cs).
Proof.
  revert me b. induction cs as [|c cs IH]; intros me b Hme; simpl; [done|].
  intros [Hc Hcs]%Forall2_cons. rewrite !Forall_app. split_and!; [done..|].
  by apply IH.
Qed.

Lemma child_addrs_lt h base parent type children position hp :
  holds h base (layout base parent (Container type children position hp)) →
  forallb (λ c, bool_decide (c < length h)) (child_addrs base 1 children) = true.
Proof.
  intros [_ Hcs]%holds_layout_Container. rewrite child_addrs_bases.
  apply forallb_forall. intros a. rewrite <- list_elem_of_In.
  intros (i & Hi)%list_elem_of_lookup_1. apply bool_decide_eq_true.
  apply lookup_zip_with_Some in Hi as (b & c & -> & Hb & Hc).
  pose proof (Forall2_lookup_lr _ _ _ _ _ _ Hcs Hb Hc) as Hh.
  by apply holds_layout_root, lookup_lt_Some in Hh.
Qed.

Lemma method_ok (type : container_type) :
  bool_decide ((if methods then Some type else None) ∈ [None; Some type])
  = true.
Proof. apply bool_decide_eq_true. destruct methods; set_solver. Qed.

Lemma layout_ok h n : ∀ base parent,
  holds h base (layout base parent n) →
  (∀ p, parent = Some p → ∃ po, h !! p = Some po ∧ is_container po = true) →
  Forall (λ o, node_ok h o = true) (layout base parent n).
Proof.
  induction n as [type raw value position hp|type children position hp IH]
    using ast_ind'; intros base parent Hh Hp.
  - apply Forall_singleton. unfold node_ok. simpl.
    destruct hp, parent as [p|]; simpl; try done.
    by destruct (Hp p) as (po & -> & ->).
  - pose proof (child_addrs_lt _ _ _ _ _ _ _ Hh) as Hlt.
    pose proof Hh as [Hroot Hcs]%holds_layout_Container.
    apply Forall_layout_children.
    + apply Forall_singleton. unfold node_ok. simpl.
      rewrite Hlt, method_ok. simpl.
      destruct hp, parent as [p|]; simpl; try done.
      by destruct (Hp p) as (po & -> & ->).
    + eapply Forall2_Forall_r_impl; [exact Hcs|exact IH|].
      intros b c _ Hb Hc. apply Hc; [exact Hb|].
      intros ? [= <-]. by eexists.
Qed.

(** C29. The builder keeps the store well formed: from a store whose
    objects have the shape of the interface [AST], a run that returns
    leaves such a store, and the node it returns is an object of it that
    has no parent. *)
Theorem parseTokens_store_ok tokens w a w' :
  store_ok (objects w) = true →
  JsonParse.parseTokens_export methods tokens w = (Ok a, w') →
  store_ok (objects w') = true
  ∧ ∃ o, objects w' !! a = Some o ∧ node_parent o = None.
Proof.
  intros Hok (n & Hn & -> & Hw)%parseTokens_root_on_store.
  destruct (built_store_holds _ _ _ Hw) as [Hh _]. split.
  - rewrite Hw in *. by apply store_ok_extend, layout_ok.
  - eexists. split; [by eapply holds_layout_root|].
    rewrite node_parent_root. by destruct (has_parent n).
Qed.

End methods.

(** ** The theorems on the sample store *)

Lemma parseTokens_logs_unknown_witness :
  (JsonParse.parseTokens_export false unknown_tokens empty_world).1
  = Throw TypeError
  ∧ ∃ t name, t ∈ unknown_tokens ∧ tok_type t = T_other name
      ∧ console (JsonParse.parseTokens_export false unknown_tokens
                   empty_world).2
        = console empty_world ++ [t].
Proof.
  apply (parseTokens_logs_unknown false unknown_tokens empty_world).
  by vm_compute.
Defined.

Lemma raw_on_store_witness :
  ∃ n, parseTokens_root sample_tokens = Ok n
     ∧ JsonParse.raw (length (objects sample_store)) (objects sample_store) 1
       = Ok (ast_raw n).
Proof.
  apply (raw_on_store false sample_tokens empty_world 1 sample_store).
  by vm_compute.
Defined.

Lemma findAtPosition_on_store_witness :
  ∃ n, parseTokens_root sample_tokens = Ok n
     ∧ JsonParse.findAtPosition (length (objects sample_store))
         (objects sample_store) 1 sample_position
       = Ok (found_in 0 n (findAtPosition n sample_position)).
Proof.
  apply (findAtPosition_on_store false sample_tokens empty_world 1 sample_store).
  by vm_compute.
Defined.

Lemma parent_on_store_witness :
  ∃ n, parseTokens_root sample_tokens = Ok n
     ∧ ∀ path i c, node_at n (path ++ [i]) = Some c →
       ∃ o po cs,
         objects sample_store !! addr_at 0 n (path ++ [i]) = Some o
         ∧ node_parent o
           = parent_field (has_parent c) (Some (addr_at 0 n path))
         ∧ objects sample_store !! addr_at 0 n path = Some po
         ∧ node_children po = Some cs
         ∧ cs !! i = Some (addr_at 0 n (path ++ [i])).
Proof.
  apply (parent_on_store false sample_tokens empty_world 1 sample_store).
  by vm_compute.
Defined.

Lemma parseTokens_store_ok_witness :
  store_ok (objects sample_store) = true
  ∧ ∃ o, objects sample_store !! 1 = Some o ∧ node_parent o = None.
Proof.
  apply (parseTokens_store_ok false sample_tokens empty_world 1 sample_store);
    by vm_compute.
Defined.
