(* ===== verification/HeapQuery.v ===== *)
(** * HeapQuery: [extractValues], [getKeyInParent] and [isKeyInParent] on
    the store

    The queries of [json-parse-ast.js] decide which child of its parent a
    node is by comparing references ([values[i] === ast]).  The module
    [JsonParseAst] translates them on the store of [Heap], where a
    reference is an address and [===] is equality of addresses; [Query]
    has them on trees, where a node is named by its path.  The theorems
    say that on a store the builder left both give the same answers: the
    addresses of the children of a container are distinct, so that the
    index of a child is as good a name as its address.

    The builder of [json-parse-ast.js] is the one of [json-parse.js] with
    one more statement, which gives a container its method
    [extractValues] ([JsonParse.parseTokens true]).  A call of the method
    is a function of the store and of the address of the container; on a
    node that [json-parse.js] built there is no method to call, and the
    queries throw. *)

From S2P Require Import Prelude Token Ast Query Heap HeapBuilder.

Module JsonParseAst.

(** [["StringLiteral", "NumberLiteral", "LiteralLiteral", "Object",
      "Array"].includes(type)] *)
Definition is_value_type (type : node_type) : bool :=
  match type with
  | LeafType (StringLiteral | NumberLiteral | LiteralLiteral) => true
  | LeafType _ => false
  | ContainerType _ => true
  end.

(** What [extractValues] returns: nodes, or pairs of a key and a value. *)
Inductive extracted :=
| Values (s : list addr)
| Pairs (s : list (option addr * addr)).

Section store.
Context (h : list node).

(** The test of [extractValues] on [children[i]], a reference. *)
Definition keeps (child : addr) : bool :=
  match h !! child with
  | Some o => is_value_type (node_type_of o)
  | None => false
  end.

(** [this.extractValues()]: the function [parseArray] assigns returns the
    children that are values, the one [parseObject] assigns pairs them;
    on an object without the method the call throws a TypeError. *)
Definition extractValues (this : addr) : outcome extracted :=
  o ← defined (h !! this);
  closure ← defined (node_extractValues o);
  children ← defined (node_children o);
  Ok (match closure with
      | Array => Values (extractValues_Array keeps children)
      | Object => Pairs (extractValues_Object keeps children)
      end).

(** [key.value], of a key that [extractValues] paired. *)
Definition value_of (key : option addr) : outcome key_result :=
  key ← defined key;
  o ← defined (h !! key);
  Ok (match node_value o with
      | Some v => KeyValue v
      | None => NoKey
      end).

(** [getKeyInParent(ast)].  The loops compare [values[i]], or
    [values[i].value], with [ast]; where [extractValues] returned the other
    kind of array, the one is a pair and the other the value of a node,
    and neither is the node [ast]. *)
Definition getKeyInParent (ast : addr) : outcome key_result :=
  o ← defined (h !! ast);
  match node_parent o with
  | None => Ok NoKey
  | Some parent =>
    po ← defined (h !! parent);
    match node_type_of po with
    | ContainerType Array =>
      values ← extractValues parent;
      match values with
      | Values values =>
        match list_find (λ value, value = ast) values with
        | Some (i, _) => Ok (Index i)
        | None => Ok NoKey
        end
      | Pairs _ => Ok NoKey
      end
    | ContainerType Object =>
      values ← extractValues parent;
      match values with
      | Pairs values =>
        match list_find (λ kv, kv.2 = ast) values with
        | Some (_, (key, _)) => value_of key
        | None => Ok NoKey
        end
      | Values _ => Ok NoKey
      end
    | LeafType _ => Throw invalid_parent
    end
  end.

(** [isKeyInParent(ast)] *)
Definition isKeyInParent (ast : addr) : outcome bool :=
  o ← defined (h !! ast);
  if decide (node_type_of o ≠ LeafType StringLiteral) then Ok false
  else
    match node_parent o with
    | None => Ok false
    | Some parent =>
      po ← defined (h !! parent);
      match node_type_of po with
      | ContainerType Array => Ok false
      | ContainerType Object =>
        values ← extractValues parent;
        match values with
        | Pairs values =>
          match list_find (λ kv, kv.2 = ast) values with
          | Some _ => Ok false
          | None => Ok true
          end
        | Values _ => Ok true
        end
      | LeafType _ => Throw invalid_parent
      end
    end.

End store.

End JsonParseAst.

(** ** Reference definitions *)

(** The address [a] is the one of the child [r] of a container, given by
    its index, in the array [addrs] of the container; the object at [a]
    is the root of the segment of that child. *)
Definition ref_rel (h : list node) (addrs : list addr) (a : addr)
    (r : nat * ast) : Prop :=
  addrs !! r.1 = Some a ∧ ∃ m b p, h !! a = Some (root_node m b p r.2).

(** A pair of [extractValues] of an object, by addresses and by indices. *)
Definition pair_rel (h : list node) (addrs : list addr)
    (a : option addr * addr) (r : option (nat * ast) * (nat * ast)) : Prop :=
  option_Forall2 (ref_rel h addrs) a.1 r.1 ∧ ref_rel h addrs a.2 r.2.

(** The store the builder of [json-parse-ast.js] leaves of the tokens of
    [[1,{}]], from the empty store. *)
Definition sample_store_ast : world :=
  Eval vm_compute in
    (JsonParse.parseTokens_export true sample_tokens empty_world).2.

(** ** Lemmas on layouts *)

Lemma node_type_root m b p c :
  JsonParseAst.is_value_type (node_type_of (root_node m b p c)) = is_value c.
Proof. by destruct c as [[] ? ? ? ?|]. Qed.

Lemma node_value_root m b p c :
  match node_value (root_node m b p c) with
  | Some v => KeyValue v
  | None => NoKey
  end = key_value c.
Proof. by destruct c as [? ? [] ? ?|]. Qed.

Lemma keeps_ref h addrs a r :
  ref_rel h addrs a r → JsonParseAst.keeps h a = ref_is_value r.
Proof.
  intros (_ & m & b & p & Ha). unfold JsonParseAst.keeps, ref_is_value.
  by rewrite Ha, node_type_root.
Qed.

Section layouts.
Context (methods : bool).

Lemma root_offset_lt c : root_offset c < size c.
Proof.
  destruct c as [|ty [|c cs] ? ?]; unfold root_offset; simpl; lia.
Qed.

Lemma child_addrs_ge b gap cs : Forall (λ a, b ≤ a) (child_addrs b gap cs).
Proof.
  revert b gap. induction cs as [|c cs IH]; intros b gap; simpl; constructor.
  - lia.
  - eapply Forall_impl; [apply IH|]. simpl. lia.
Qed.

(** The objects of distinct children are distinct objects. *)
Lemma child_addrs_NoDup b gap cs : NoDup (child_addrs b gap cs).
Proof.
  revert b gap. induction cs as [|c cs IH]; intros b gap; simpl;
    constructor; [|done].
  intros Hin. pose proof (child_addrs_ge (b + size c + gap) 0 cs) as Hge.
  rewrite Forall_forall in Hge. specialize (Hge _ Hin).
  pose proof (root_offset_lt c). lia.
Qed.

(** The node at a path of a tree in the store is the root of a segment
    of the store, and paths from it lead where they lead in the tree. *)
Lemma layout_subtree h path : ∀ base parent n c,
  holds h base (layout methods base parent n) →
  node_at n path = Some c →
  ∃ b p, holds h b (layout methods b p c)
       ∧ ∀ path', addr_at base n (path ++ path') = addr_at b c path'.
Proof.
  induction path as [|j path IH]; intros base parent n c Hh; simpl.
  - intros [= <-]. by exists base, parent.
  - destruct (ast_children n !! j) as [c'|] eqn:Hj; [|done]. simpl.
    destruct (holds_child _ _ _ _ _ _ _ Hh Hj) as (b & -> & Hc). by eapply IH.
Qed.

(** The [children] array of a container of the store against the children
    of the node, one by one. *)
Lemma children_refs h base parent type children position hp :
  holds h base (layout methods base parent (Container type children position hp)) →
  Forall2 (ref_rel h (child_addrs base 1 children))
    (child_addrs base 1 children) (refs children).
Proof.
  intros [_ Hcs]%holds_layout_Container.
  apply Forall2_same_length_lookup. split.
  { unfold refs. rewrite length_imap, child_addrs_bases, length_zip_with.
    apply Forall2_length in Hcs. lia. }
  intros i a r Ha [c [Hc ->]]%refs_lookup. split; [done|].
  rewrite child_addrs_bases in Ha.
  apply lookup_zip_with_Some in Ha as (b & c' & -> & Hb & Hc').
  assert (c' = c) as -> by congruence.
  eexists methods, b, _. apply holds_layout_root.
  by eapply (Forall2_lookup_lr _ _ _ _ _ _ Hcs).
Qed.

End layouts.

(** ** The queries on a layout *)

Section children.
Context (h : list node) (addrs : list addr) (children : list ast).
Context (j : nat) (a : addr).
Context (Hdistinct : NoDup addrs) (Hj : addrs !! j = Some a).
Context (Hrefs : Forall2 (ref_rel h addrs) addrs (refs children)).

(** Comparing references is comparing indices. *)
Lemma ref_rel_same x r : ref_rel h addrs x r → x = a ↔ r.1 = j.
Proof.
  intros [Hx _]. split.
  - intros ->. by eapply NoDup_lookup.
  - intros <-. congruence.
Qed.

Lemma find_value_on_store :
  option_Forall2 (λ x r, x.1 = r.1 ∧ ref_rel h addrs x.2 r.2)
    (list_find (λ value, value = a)
       (extractValues_Array (JsonParseAst.keeps h) addrs))
    (list_find (λ value, value.1 = j)
       (extractValues_Array ref_is_value (refs children))).
Proof.
  rewrite !extractValues_Array_filter.
  apply list_find_Forall2; [apply ref_rel_same|].
  apply Forall2_filter; [|done]. intros x r Hxr.
  by rewrite (keeps_ref _ _ _ _ Hxr).
Qed.

Lemma find_pair_on_store :
  option_Forall2 (λ x r, x.1 = r.1 ∧ pair_rel h addrs x.2 r.2)
    (list_find (λ kv, kv.2 = a)
       (extractValues_Object (JsonParseAst.keeps h) addrs))
    (list_find (λ kv, (kv.2).1 = j)
       (extractValues_Object ref_is_value (refs children))).
Proof.
  rewrite !extractValues_Object_pair_up.
  apply (list_find_Forall2 (pair_rel h addrs)).
  - intros x r [_ Hxr]. by apply ref_rel_same.
  - apply Forall2_pair_up, Forall2_filter; [|done]. intros x r Hxr.
    by rewrite (keeps_ref _ _ _ _ Hxr).
Qed.

End children.

Lemma value_of_key h addrs key r :
  option_Forall2 (ref_rel h addrs) key r →
  JsonParseAst.value_of h key = (key ← defined r; Ok (key_value key.2)).
Proof.
  intros [ka kr (_ & m & b & p & Hka)|]; [|done]. unfold JsonParseAst.value_of.
  simpl. by rewrite Hka, <- (node_value_root m b p).
Qed.

(** A child of a container of a tree in the store: its object, the object
    of the container, and the [children] array of the latter. *)
Lemma child_on_store methods h base n path j c :
  holds h base (layout methods base None n) →
  node_at n (path ++ [j]) = Some c →
  ∃ type children range hp bp pp b,
    node_at n path = Some (Container type children range hp)
    ∧ children !! j = Some c
    ∧ h !! addr_at base n (path ++ [j])
      = Some (root_node methods b (Some (addr_at base n path)) c)
    ∧ h !! addr_at base n path
      = Some (finished methods type range pp (child_addrs bp 1 children))
    ∧ child_addrs bp 1 children !! j = Some (addr_at base n (path ++ [j]))
    ∧ Forall2 (ref_rel h (child_addrs bp 1 children))
        (child_addrs bp 1 children) (refs children).
Proof.
  intros Hh Hc.
  destruct (node_at_parent _ _ _ _ Hc) as (type & children & range & hp & Hp & Hj).
  destruct (layout_subtree _ _ _ _ _ _ _ Hh Hp) as (bp & pp & Hhp & Hpath).
  exists type, children, range, hp, bp, (parent_field hp pp).
  destruct (holds_child _ _ _ _ _ j c Hhp Hj) as (b & Hb & Hhc).
  exists b. rewrite (Hpath [j]). rewrite <- (app_nil_r path) at 2 3.
  rewrite (Hpath []). simpl in *. rewrite Hj, Hb.
  split_and!; try done.
  - by apply holds_layout_root.
  - by apply (holds_layout_root methods h bp pp
                (Container type children range hp)).
  - rewrite child_addrs_bases. by rewrite lookup_zip_with, Hb, Hj.
  - by eapply children_refs.
Qed.

Lemma getKeyInParent_orphan n path c :
  node_at n path = Some c → has_parent c = false →
  Query.getKeyInParent n path = Ok NoKey.
Proof. unfold Query.getKeyInParent. intros -> Hc. simpl. by rewrite Hc. Qed.

Lemma isKeyInParent_other n path c :
  node_at n path = Some c →
  (∀ raw v pos, c ≠ Leaf StringLiteral raw v pos true) →
  Query.isKeyInParent n path = Ok false.
Proof.
  unfold Query.isKeyInParent. intros -> Hc. simpl.
  destruct c as [[] raw v pos []|]; try done. by destruct (Hc raw v pos).
Qed.

Lemma getKeyInParent_layout h base n path c :
  holds h base (layout true base None n) →
  node_at n path = Some c →
  JsonParseAst.getKeyInParent h (addr_at base n path)
  = Query.getKeyInParent n path.
Proof.
  intros Hh Hc. unfold JsonParseAst.getKeyInParent.
  destruct path as [|j path _] using rev_ind.
  { simpl in *. simplify_eq. rewrite (holds_layout_root _ _ _ _ _ Hh). simpl.
    rewrite node_parent_root. unfold Query.getKeyInParent. simpl.
    by destruct (has_parent c). }
  destruct (child_on_store _ _ _ _ _ _ _ Hh Hc)
    as (type & children & range & hp & bp & pp & b & Hp & Hj & -> & Hpo & Ha
        & Hrefs).
  simpl. rewrite node_parent_root. destruct (has_parent c) eqn:Hpar; simpl.
  2: by rewrite (getKeyInParent_orphan _ _ c).
  rewrite (getKeyInParent_child _ _ _ _ _ _ _ _ Hp Hj Hpar), Hpo. simpl.
  unfold JsonParseAst.extractValues. rewrite Hpo. simpl. destruct type.
  - destruct (find_pair_on_store h _ children j _ (child_addrs_NoDup _ _ _)
                Ha Hrefs) as [[i [ka va]] [i' [kr vr]] [_ [Hk _]]|]; [|done].
    simpl in *. by apply value_of_key with (child_addrs bp 1 children).
  - destruct (find_value_on_store h _ children j _ (child_addrs_NoDup _ _ _)
                Ha Hrefs) as [[i x] [i' r] [Hi _]|]; [|done].
    simpl in *. by subst.
Qed.

Lemma isKeyInParent_layout h base n path c :
  holds h base (layout true base None n) →
  node_at n path = Some c →
  JsonParseAst.isKeyInParent h (addr_at base n path)
  = Query.isKeyInParent n path.
Proof.
  intros Hh Hc. unfold JsonParseAst.isKeyInParent.
  destruct path as [|j path _] using rev_ind.
  { simpl in *. simplify_eq. rewrite (holds_layout_root _ _ _ _ _ Hh).
    unfold Query.isKeyInParent. simpl. by destruct c as [[] ? ? ? []|]. }
  destruct (child_on_store _ _ _ _ _ _ _ Hh Hc)
    as (type & children & range & hp & bp & pp & b & Hp & Hj & -> & Hpo & Ha
        & Hrefs).
  destruct c as [[] raw v pos []|];
    try (by rewrite (isKeyInParent_other _ _ _ Hc)). simpl.
  rewrite (isKeyInParent_child _ _ _ _ _ _ _ _ _ _ Hp Hj), Hpo. simpl.
  destruct type; [|done]. unfold JsonParseAst.extractValues.
  rewrite Hpo. simpl.
  by destruct (find_pair_on_store h _ children j _ (child_addrs_NoDup _ _ _)
                 Ha Hrefs) as [? ? ?|].
Qed.

(** ** Distinct nodes are distinct objects *)

Lemma child_bases_ge b gap cs : Forall (λ b', b ≤ b') (child_bases b gap cs).
Proof.
  revert b gap. induction cs as [|c cs IH]; intros b gap; simpl; constructor.
  - lia.
  - eapply Forall_impl; [apply IH|]. simpl. lia.
Qed.

Lemma length_child_bases b gap cs : length (child_bases b gap cs) = length cs.
Proof. revert b gap. induction cs; intros; simpl; by f_equal. Qed.

(** The segments of the children lie one after the other, the first
    followed by [gap] free addresses. *)
Lemma child_bases_apart cs : ∀ b gap i j bi bj ci,
  i < j → child_bases b gap cs !! i = Some bi → cs !! i = Some ci →
  child_bases b gap cs !! j = Some bj →
  bi + size ci + (if i is 0 then gap else 0) ≤ bj.
Proof.
  induction cs as [|c cs IH]; intros b gap i j bi bj ci Hij; [done|].
  destruct j as [|j]; [lia|]. destruct i as [|i]; simpl.
  - intros [= <-] [= <-] Hj%list_elem_of_lookup_2.
    pose proof (child_bases_ge (b + size c + gap) 0 cs) as Hge.
    rewrite Forall_forall in Hge. by apply Hge.
  - intros Hi Hci Hj.
    pose proof (IH _ 0 i j bi bj ci ltac:(lia) Hi Hci Hj).
    destruct i; lia.
Qed.

Lemma child_bases_end cs : ∀ b gap i bi ci,
  child_bases b gap cs !! i = Some bi → cs !! i = Some ci →
  b ≤ bi ∧ bi + size ci ≤ b + sum_list_with size cs + gap.
Proof.
  induction cs as [|c cs IH]; intros b gap [|i] bi ci; simpl; try done.
  - intros [= <-] [= <-]. lia.
  - intros Hi Hci. pose proof (IH _ _ _ _ _ Hi Hci). lia.
Qed.

(** The object of a node lies in the segment of every node above it. *)
Lemma addr_at_range path : ∀ base n c,
  node_at n path = Some c →
  base ≤ addr_at base n path < base + size n.
Proof.
  induction path as [|i path IH]; intros base n c; simpl.
  { intros _. pose proof (root_offset_lt n). lia. }
  destruct (ast_children n !! i) as [c'|] eqn:Hi; [|done]. simpl. intros Hc.
  destruct (lookup_lt_is_Some_2 (child_bases base 1 (ast_children n)) i)
    as [b Hb].
  { rewrite length_child_bases. by eapply lookup_lt_Some. }
  rewrite Hb. pose proof (IH b c' c Hc).
  pose proof (child_bases_end _ _ _ _ _ _ Hb Hi).
  destruct n; simpl in *; [done|lia].
Qed.

(** The object of a container lies in the segment of none of its
    children. *)
Lemma root_apart base n i b c :
  child_bases base 1 (ast_children n) !! i = Some b →
  ast_children n !! i = Some c →
  base + root_offset n < b ∨ b + size c ≤ base + root_offset n.
Proof.
  unfold root_offset. destruct (ast_children n) as [|c0 cs]; [done|].
  destruct i as [|i]; simpl.
  - intros [= <-] [= <-]. lia.
  - intros Hb%list_elem_of_lookup_2 _.
    pose proof (child_bases_ge (base + size c0 + 1) 0 cs) as Hge.
    rewrite Forall_forall in Hge. specialize (Hge _ Hb). lia.
Qed.

Lemma addr_at_cons base n i path c b :
  ast_children n !! i = Some c →
  child_bases base 1 (ast_children n) !! i = Some b →
  addr_at base n (i :: path) = addr_at b c path.
Proof. simpl. by intros -> ->. Qed.

Lemma node_at_cons n i path c :
  node_at n (i :: path) = Some c →
  ∃ c', ast_children n !! i = Some c' ∧ node_at c' path = Some c.
Proof.
  simpl. destruct (ast_children n !! i) as [c'|]; [|done]. by exists c'.
Qed.

Lemma child_base n i c base :
  ast_children n !! i = Some c →
  ∃ b, child_bases base 1 (ast_children n) !! i = Some b.
Proof.
  intros Hi. apply lookup_lt_is_Some_2. rewrite length_child_bases.
  by eapply lookup_lt_Some.
Qed.

Lemma addr_at_inj path1 : ∀ path2 base n c1 c2,
  node_at n path1 = Some c1 → node_at n path2 = Some c2 →
  addr_at base n path1 = addr_at base n path2 → path1 = path2.
Proof.
  induction path1 as [|i path1 IH]; intros [|j path2] base n c1 c2; try done.
  - intros _ (c & Hj & Hc)%node_at_cons.
    destruct (child_base _ _ _ base Hj) as [b Hb].
    rewrite (addr_at_cons _ _ _ _ _ _ Hj Hb).
    pose proof (addr_at_range _ b _ _ Hc).
    pose proof (root_apart _ _ _ _ _ Hb Hj). simpl. lia.
  - intros (c & Hi & Hc)%node_at_cons _.
    destruct (child_base _ _ _ base Hi) as [b Hb].
    rewrite (addr_at_cons _ _ _ _ _ _ Hi Hb).
    pose proof (addr_at_range _ b _ _ Hc).
    pose proof (root_apart _ _ _ _ _ Hb Hi). simpl. lia.
  - intros (ci & Hi & Hci)%node_at_cons (cj & Hj & Hcj)%node_at_cons.
    destruct (child_base _ _ _ base Hi) as [bi Hbi].
    destruct (child_base _ _ _ base Hj) as [bj Hbj].
    rewrite (addr_at_cons _ _ _ _ _ _ Hi Hbi), (addr_at_cons _ _ _ _ _ _ Hj Hbj).
    pose proof (addr_at_range _ bi _ _ Hci).
    pose proof (addr_at_range _ bj _ _ Hcj).
    destruct (Nat.lt_trichotomy i j) as [Hlt|[->|Hlt]].
    + pose proof (child_bases_apart _ _ _ _ _ _ _ _ Hlt Hbi Hi Hbj). lia.
    + simplify_eq. intros ?. f_equal. by eapply IH.
    + pose proof (child_bases_apart _ _ _ _ _ _ _ _ Hlt Hbj Hj Hbi). lia.
Qed.

(** ** Theorems *)

(** C22. [getKeyInParent] and [isKeyInParent] of [json-parse-ast.js], run
    on the store the builder left, with references compared by address,
    return on the object of every node what the functions of [Query]
    return on the path of the node: an index, the value of a key,
    [undefined], or the same error. *)
Theorem queries_on_store tokens w a w' :
  JsonParse.parseTokens_export true tokens w = (Ok a, w') →
  ∃ n, parseTokens_root tokens = Ok n
     ∧ ∀ path c, node_at n path = Some c →
       JsonParseAst.getKeyInParent (objects w')
         (addr_at (length (objects w)) n path)
       = Query.getKeyInParent n path
       ∧ JsonParseAst.isKeyInParent (objects w')
           (addr_at (length (objects w)) n path)
         = Query.isKeyInParent n path.
Proof.
  intros (n & Hn & -> & Hw)%parseTokens_root_on_store. exists n.
  split; [done|]. destruct (built_store_holds _ _ _ _ Hw) as [Hh _].
  intros path c Hc.
  by split; [eapply getKeyInParent_layout|eapply isKeyInParent_layout].
Qed.

Lemma queries_on_store_witness :
  ∃ n, parseTokens_root sample_tokens = Ok n
     ∧ ∀ path c, node_at n path = Some c →
       JsonParseAst.getKeyInParent (objects sample_store_ast) (addr_at 0 n path)
       = Query.getKeyInParent n path
       ∧ JsonParseAst.isKeyInParent (objects sample_store_ast) (addr_at 0 n path)
         = Query.isKeyInParent n path.
Proof.
  apply (queries_on_store sample_tokens empty_world 1 sample_store_ast).
  by vm_compute.
Defined.

(** Distinct nodes are distinct objects: in the store the builder
    left, two paths of the tree that lead to the same address are the
    same path, so that comparing references of nodes is comparing their
    places in the tree. *)
Theorem objects_distinct methods tokens w a w' :
  JsonParse.parseTokens_export methods tokens w = (Ok a, w') →
  ∃ n, parseTokens_root tokens = Ok n
     ∧ ∀ path1 path2 c1 c2,
       node_at n path1 = Some c1 → node_at n path2 = Some c2 →
       addr_at (length (objects w)) n path1
       = addr_at (length (objects w)) n path2 →
       path1 = path2.
Proof.
  intros (n & Hn & _)%parseTokens_root_on_store. exists n. split; [done|].
  intros path1 path2 c1 c2. apply addr_at_inj.
Qed.

Lemma objects_distinct_witness :
  ∃ n, parseTokens_root sample_tokens = Ok n
     ∧ ∀ path1 path2 c1 c2,
       node_at n path1 = Some c1 → node_at n path2 = Some c2 →
       addr_at 0 n path1 = addr_at 0 n path2 → path1 = path2.
Proof.
  apply (objects_distinct true sample_tokens empty_world 1 sample_store_ast).
  by vm_compute.
Defined.

(** C37. The containers [json-parse.js] builds have no method
    [extractValues]: on the store its builder left, [getKeyInParent] of
    [json-parse-ast.js] throws a TypeError on every node whose parent was
    assigned. *)
Theorem queries_without_methods tokens w a w' :
  JsonParse.parseTokens_export false tokens w = (Ok a, w') →
  ∃ n, parseTokens_root tokens = Ok n
     ∧ ∀ path j c, node_at n (path ++ [j]) = Some c → has_parent c = true →
       JsonParseAst.getKeyInParent (objects w')
         (addr_at (length (objects w)) n (path ++ [j]))
       = Throw TypeError.
Proof.
  intros (n & Hn & -> & Hw)%parseTokens_root_on_store. exists n.
  split; [done|]. destruct (built_store_holds _ _ _ _ Hw) as [Hh _].
  intros path j c Hc Hpar.
  destruct (child_on_store _ _ _ _ _ _ _ Hh Hc)
    as (type & children & range & hp & bp & pp & b & _ & _ & Ho & Hpo & _).
  unfold JsonParseAst.getKeyInParent, JsonParseAst.extractValues.
  rewrite Ho. simpl. rewrite node_parent_root, Hpar. simpl. rewrite Hpo. simpl.
  by destruct type.
Qed.

Lemma queries_without_methods_witness :
  ∃ n, parseTokens_root sample_tokens = Ok n
     ∧ ∀ path j c, node_at n (path ++ [j]) = Some c → has_parent c = true →
       JsonParseAst.getKeyInParent (objects sample_store)
         (addr_at 0 n (path ++ [j]))
       = Throw TypeError.
Proof.
  apply (queries_without_methods sample_tokens empty_world 1 sample_store).
  by vm_compute.
Defined.
