(* ===== verification/Machine.v ===== *)
(** * Machine: [tokenize] of [json-tokenize.js] as a transition system

    [json-tokenize.js] holds the tokenizer once more.  The module
    [JsonTokenize] translates its [tokenize] statement by statement: a state
    is a point of the control flow (the test of the [while], the test of
    the [for] with its counter, the [return], a pending exception) with the
    variables [position], [index] and [tokens] live there, and [step] is
    one pass from a test to the next.  The exported function runs the
    machine from its initial state.

    The theorems say that the machine always reaches a final state, within
    a number of steps linear in the input, that every state it reaches has
    read a prefix of the input into tokens, and that the result is the one
    of the loop of [Tokenizer], so that every theorem on [tokenize] holds of
    both files.

    The module also holds the table [tokenTypes] of the file and its
    [getPositionOfKeys] and [getPathInObject], as loops by their counters
    around the loop bodies of [PathAt]; they return what the folds of
    [PathAt] return. *)

From stdpp Require Import relations.
From S2P Require Import Prelude Regex Token Tokenizer PathAt.

Module JsonTokenize.

(** ** [tokenTypes]

    The table of [json-parse-ast.js] once more: the same expressions and
    [create] functions, in the same order. *)

Definition tokenTypes : list tokenType := [
  {| regexp := re_inlinecomment; create := create_inlinecomment |};
  {| regexp := re_multilinecomment; create := create_multilinecomment |};
  {| regexp := re_whitespace; create := create_whitespace |};
  {| regexp := re_string; create := create_string |};
  {| regexp := re_literal; create := create_literal |};
  {| regexp := re_number; create := create_number |};
  {| regexp := re_punctuation; create := create_punctuation |}
].

(** ** The inner functions of [tokenize]

    Both are declared and never called. *)

Definition update (position : IPosition) (line column : Z) : IPosition :=
  {| lineNumber := lineNumber position + line;
     column := Token.column position + column |}.

Definition toIRange (start end_ : IPosition) : IRange :=
  {| startLineNumber := lineNumber start; startColumn := column start;
     endLineNumber := lineNumber end_; endColumn := column end_ |}.

(** ** States *)

Inductive state :=
| While (position : IPosition) (index : nat) (tokens : list token)
| For (position : IPosition) (index : nat) (tokens : list token) (i : nat)
| Return (tokens : list token)
| Thrown (e : js_error).

(** [var position = {lineNumber: 1, column: 1}; var index = 0;
    var tokens = []] *)
Definition initial : state :=
  While {| lineNumber := 1; column := 1 |} 0 [].

(** ** Steps *)

(** The body of [if (matchResult)], up to the call of [create]: the new
    [index], the new [position], and the range given to [create]. *)
Definition matched (position : IPosition) (index : nat) (rawToken : jstring)
    : nat * IPosition * IRange :=
  let index := index + length rawToken in
  let numberOfNewLinesInToken := count_unit LF%js rawToken in
  let startLine := lineNumber position in
  let startCol := column position in
  let position :=
    if decide (1 ≤ numberOfNewLinesInToken) then
      {| lineNumber := lineNumber position + Z.of_nat numberOfNewLinesInToken;
         column := Z.of_nat (length rawToken) - lastIndexOf LF%js rawToken + 1 |}
    else
      {| lineNumber := lineNumber position;
         column := column position + Z.of_nat (length rawToken) |} in
  (index, position,
   {| startLineNumber := startLine; startColumn := startCol;
      endLineNumber := lineNumber position; endColumn := column position |}).

(** From a test to the next one.  At the [while]: into the [for] when input
    is left, to the [return] otherwise.  At the [for] with counter [i]:
    past the last token type no token was found and the [while] is left;
    a type that does not match moves the counter; one that matches makes a
    token, unless [create] throws, and goes back to the [while]. *)
Definition step (json : jstring) (s : state) : option state :=
  match s with
  | While position index tokens =>
    if decide (index < length json) then Some (For position index tokens 0)
    else Some (Return tokens)
  | For position index tokens i =>
    let subjson := substring index json in
    match tokenTypes !! i with
    | Some tokenType =>
      match exec (regexp tokenType) subjson with
      | Some rawToken =>
        let '(index, position, range) := matched position index rawToken in
        match create tokenType rawToken range with
        | Ok token => Some (While position index (tokens ++ [token]))
        | Throw e => Some (Thrown e)
        | OutOfFuel => None
        end
      | None => Some (For position index tokens (S i))
      end
    | None => Some (Return tokens)
    end
  | Return _ | Thrown _ => None
  end.

(** At most [fuel] steps. *)
Fixpoint run (fuel : nat) (json : jstring) (s : state) : state :=
  match fuel with
  | 0 => s
  | S fuel' =>
    match step json s with
    | Some s' => run fuel' json s'
    | None => s
    end
  end.

(** [tokenize(json)]: the machine run from the initial state. *)
Definition tokenize (json : jstring) : outcome (list token) :=
  match run ((length tokenTypes + 2) * S (length json)) json initial with
  | Return tokens => Ok tokens
  | Thrown e => Throw e
  | _ => OutOfFuel
  end.

(** ** [getPositionOfKeys] and [getPathInObject]

    The loops over the tokens, by their counter.  The bodies are those of
    [json-parse-ast.js] ([keys_step], [path_step]). *)

(** [for (var i = 0; i < tokens.length; i++) { var token = tokens[i]; ... }]
    from the counter [i], within [n] rounds; [for (var i in tokens)] visits
    the same indices in the same order. *)
Fixpoint for_tokens {St : Type} (body : St → token → St)
    (tokens : list token) (n i : nat) (st : St) : outcome St :=
  if decide (i < length tokens) then
    match n with
    | 0 => OutOfFuel
    | S n' =>
      token ← defined (tokens !! i);
      for_tokens body tokens n' (S i) (body st token)
    end
  else Ok st.

Definition getPositionOfKeys (tokens : list token) : outcome (list IRange) :=
  st ← for_tokens keys_step tokens (length tokens) 0
         {| highlights := []; keys_nextStringWillBeKey := true |};
  Ok (highlights st).

(** [for (var j = 0; j < stack.length; j++)
      if (stack[j] !== LIST_MARKER) path.push(stack[j])] *)
Fixpoint path_loop (stack : list jsval) (n j : nat) (path : list jsval)
    : outcome (list jsval) :=
  if decide (j < length stack) then
    match n with
    | 0 => OutOfFuel
    | S n' =>
      v ← defined (stack !! j);
      path_loop stack n' (S j)
        (if bool_decide (v ≠ LIST_MARKER) then path ++ [v] else path)
    end
  else Ok path.

Definition getPathInObject (tokens : list token)
    : outcome (list jsval * bool) :=
  st ← for_tokens path_step tokens (length tokens) 0 path_init;
  path ← path_loop (stack st) (length (stack st)) 0 [];
  Ok (path, negb (nextStringWillBeKey st)).

End JsonTokenize.

Import JsonTokenize.

#[export] Instance state_eq_dec : EqDecision state.
Proof. solve_decision. Defined.

(** ** Reference definitions *)

(** One step of the machine, as a relation. *)
Definition steps_to (json : jstring) (s s' : state) : Prop :=
  step json s = Some s'.

(** The states that have no successor by design. *)
Definition final (s : state) : bool :=
  match s with
  | Return _ | Thrown _ => true
  | _ => false
  end.

(** The state in which a call with the outcome [r] ends. *)
Definition state_of (r : outcome (list token)) : option state :=
  match r with
  | Ok tokens => Some (Return tokens)
  | Throw e => Some (Thrown e)
  | OutOfFuel => None
  end.

(** What holds of every state the machine reaches: the variables satisfy
    the invariant of the loop, the counter of the [for] is in range, the
    tokens returned spell a prefix of the input, and an exception is a
    [SyntaxError]. *)
Definition state_inv (json : jstring) (s : state) : Prop :=
  match s with
  | While position index tokens =>
    lexer_inv json {| position := position; index := index; tokens := tokens |}
  | For position index tokens i =>
    lexer_inv json {| position := position; index := index; tokens := tokens |}
    ∧ index < length json ∧ i ≤ length tokenTypes
  | Return tokens => mjoin (tok_raw <$> tokens) `prefix_of` json
  | Thrown e => e = SyntaxError
  end.

(** The state after the [for] loop, given its first match. *)
Definition after_match (position : IPosition) (index : nat)
    (tokens : list token) (r : option (tokenType * jstring)) : option state :=
  match r with
  | None => Some (Return tokens)
  | Some (tokenType, rawToken) =>
    let position' := advance position rawToken in
    match create tokenType rawToken (to_IRange position position') with
    | Ok token =>
      Some (While position' (index + length rawToken) (tokens ++ [token]))
    | Throw e => Some (Thrown e)
    | OutOfFuel => None
    end
  end.

(** The state after one pass of the body of the [while]. *)
Definition after_step (st : lexer) (r : outcome (option lexer))
    : option state :=
  match r with
  | Ok (Some st') => Some (While (position st') (index st') (tokens st'))
  | Ok None => Some (Return (tokens st))
  | Throw e => Some (Thrown e)
  | OutOfFuel => None
  end.

(** ** One round *)

Lemma matched_advance p idx raw :
  matched p idx raw
  = (idx + length raw, advance p raw, to_IRange p (advance p raw)).
Proof. unfold matched, advance, to_IRange. by case_decide. Qed.

(** The inner functions, had the loop called them: the range it builds is
    [toIRange] of the cursor before and after the token, and within a line
    the cursor moves as [update] by no line and the length of the token. *)
Lemma matched_helpers p idx raw :
  (matched p idx raw).2 = toIRange p (matched p idx raw).1.2
  ∧ (count_unit LF%js raw = 0 →
     (matched p idx raw).1.2 = update p 0 (Z.of_nat (length raw))).
Proof.
  rewrite matched_advance. unfold advance, update. simpl.
  split; [done|]. intros ->. rewrite decide_False by lia.
  f_equal. lia.
Qed.

Lemma final_step json s : final s = true → step json s = None.
Proof. by destruct s. Qed.

Lemma for_steps json p idx toks types : ∀ i s',
  drop i tokenTypes = types →
  after_match p idx toks (first_match types (substring idx json)) = Some s' →
  ∃ k, k ≤ S (length types) ∧ nsteps (steps_to json) k (For p idx toks i) s'.
Proof.
  induction types as [|tt types IH]; intros i s' Hd; simpl.
  - intros [= <-]. exists 1. split; [lia|]. apply nsteps_once.
    unfold steps_to. simpl.
    by rewrite (lookup_ge_None_2 _ _ (drop_nil_inv _ _ Hd)).
  - assert (tokenTypes !! i = Some tt) as Hi
      by (by rewrite <- (Nat.add_0_r i), <- lookup_drop, Hd).
    assert (drop (S i) tokenTypes = types) as Hd'.
    { replace (S i) with (i + 1) by lia. by rewrite <- drop_drop, Hd. }
    destruct (exec (regexp tt) (substring idx json)) as [raw|] eqn:He; simpl.
    + intros Hs. exists 1. split; [lia|]. apply nsteps_once.
      unfold steps_to. cbn [step]. rewrite Hi, He, matched_advance.
      by destruct (create tt raw _).
    + intros Hs. destruct (IH (S i) s' Hd' Hs) as (k & ? & ?).
      exists (S k). split; [lia|]. eapply nsteps_l; [|done].
      unfold steps_to. cbn [step]. by rewrite Hi, He.
Qed.

Lemma while_steps json st s' :
  after_step st (tokenize_step json st) = Some s' →
  ∃ k, k ≤ length tokenTypes + 2
     ∧ nsteps (steps_to json) k (While (position st) (index st) (tokens st)) s'.
Proof.
  unfold tokenize_step. case_decide as Hlt.
  - intros Hs.
    destruct (for_steps json (position st) (index st) (tokens st) tokenTypes
                0 s' eq_refl) as (k & ? & ?).
    { destruct (first_match _ _) as [[tt raw]|]; [|done]. simpl in *.
      by destruct (create tt raw _). }
    exists (S k). split; [lia|]. eapply nsteps_l; [|done].
    unfold steps_to. simpl. by rewrite decide_True.
  - intros [= <-]. exists 1. split; [lia|]. apply nsteps_once.
    unfold steps_to. simpl. by rewrite decide_False.
Qed.

Lemma loop_steps json fuel : ∀ st s',
  state_of (tokenize_loop fuel json st) = Some s' →
  ∃ k, k ≤ (length tokenTypes + 2) * fuel
     ∧ nsteps (steps_to json) k (While (position st) (index st) (tokens st)) s'.
Proof.
  induction fuel as [|fuel IH]; intros st s'; simpl; [done|].
  pose proof (while_steps json st) as Hw.
  destruct (tokenize_step json st) as [[st'|]|e|]; simpl in *; try done.
  - intros (k2 & ? & ?)%IH. destruct (Hw _ eq_refl) as (k1 & ? & ?).
    exists (k1 + k2). split; [lia|]. by eapply nsteps_trans.
  - intros [= <-]. destruct (Hw _ eq_refl) as (k & ? & ?).
    exists k. split; [lia|done].
  - intros [= <-]. destruct (Hw _ eq_refl) as (k & ? & ?).
    exists k. split; [lia|done].
Qed.

Lemma run_nsteps json k s s' :
  nsteps (steps_to json) k s s' → final s' = true →
  ∀ fuel, k ≤ fuel → run fuel json s = s'.
Proof.
  induction 1 as [s|k s s1 s' Hs _ IH]; intros Hf fuel Hk.
  - destruct fuel; simpl; [done|]. by rewrite final_step.
  - destruct fuel as [|fuel]; [lia|]. simpl. rewrite Hs. apply IH; [done|lia].
Qed.

Lemma tokenize_steps json :
  ∃ k s, k ≤ (length tokenTypes + 2) * S (length json)
       ∧ nsteps (steps_to json) k initial s
       ∧ state_of (Tokenizer.tokenize json) = Some s.
Proof.
  assert (∃ s, state_of (Tokenizer.tokenize json) = Some s) as [s Hs].
  { pose proof (tokenize_loop_terminated (S (length json)) json lexer_init) as Ht.
    unfold Tokenizer.tokenize.
    destruct (tokenize_loop _ _ _); simpl in *; eauto.
    by destruct Ht; [lia|]. }
  destruct (loop_steps _ _ _ _ Hs) as (k & ? & ?). by exists k, s.
Qed.

Lemma state_of_final r s : state_of r = Some s → final s = true.
Proof. destruct r; simpl; by intros [= <-]. Qed.

(** ** The invariant *)

Lemma step_inv json s s' :
  state_inv json s → steps_to json s s' → state_inv json s'.
Proof.
  unfold steps_to.
  destruct s as [p idx toks|p idx toks i| |]; cbn [step state_inv]; [| |done..].
  - intros Hinv. pose proof (inv_raw _ _ Hinv) as Hr. simpl in Hr.
    case_decide; intros [= <-]; simpl; [split_and!; [done..|lia]|].
    rewrite Hr. apply prefix_take.
  - intros (Hinv & Hlt & Hi). pose proof (inv_raw _ _ Hinv) as Hr. simpl in Hr.
    destruct (tokenTypes !! i) as [tt|] eqn:Htt.
    2:{ intros [= <-]. simpl. rewrite Hr. apply prefix_take. }
    pose proof (lookup_lt_Some _ _ _ Htt).
    apply list_elem_of_lookup_2 in Htt.
    destruct (exec (regexp tt) _) as [raw|] eqn:He.
    2:{ intros [= <-]. cbn [state_inv]. split_and!; [done..|lia]. }
    rewrite matched_advance.
    destruct (create_cases tt raw (to_IRange p (advance p raw)) Htt)
      as [[tok Hc]|Hc]; rewrite Hc; intros [= <-]; simpl; [|done].
    apply create_Ok in Hc as [? ?]; [|done].
    destruct (exec_prefix _ _ _ He) as [rest Hrest].
    apply (lexer_inv_push json {| position := p; index := idx; tokens := toks |}
             raw rest); try done.
    eapply exec_nonempty; [|done].
    by eapply (proj1 (Forall_forall _ _) tokenTypes_not_nullable).
Qed.

Lemma initial_inv json : state_inv json initial.
Proof. apply lexer_init_inv. Qed.

Lemma run_reaches json fuel : ∀ s, rtc (steps_to json) s (run fuel json s).
Proof.
  induction fuel as [|fuel IH]; intros s; simpl; [done|].
  destruct (step json s) as [s'|] eqn:Hs; [|done].
  by eapply rtc_l.
Qed.

Lemma run_tokenize json :
  JsonTokenize.tokenize json = Tokenizer.tokenize json.
Proof.
  destruct (tokenize_steps json) as (k & s & Hk & Hn & Hs).
  unfold JsonTokenize.tokenize.
  rewrite (run_nsteps _ _ _ _ Hn (state_of_final _ _ Hs) _ Hk).
  by destruct (Tokenizer.tokenize json); simplify_eq/=.
Qed.

(** C16. The machine of [json-tokenize.js] computes what the loop of
    [json-parse-ast.js] computes: on every input the two [tokenize] return
    the same tokens or throw the same error, the fuel of the machine, nine
    steps for each code unit and nine more, being enough. *)
Theorem tokenize_machine_equiv json :
  JsonTokenize.tokenize json = Tokenizer.tokenize json
  ∧ terminated (JsonTokenize.tokenize json).
Proof.
  rewrite run_tokenize. split; [done|].
  apply tokenize_loop_terminated. simpl. lia.
Qed.

(** C27. The machine halts: from the initial state it reaches a [return]
    or a pending exception, within nine steps for each code unit of the
    input and nine more (a round of the [while] tries at most the seven
    token types). *)
Theorem tokenize_machine_halts json :
  ∃ k s, k ≤ (length tokenTypes + 2) * S (length json)
       ∧ nsteps (steps_to json) k initial s
       ∧ final s = true.
Proof.
  destruct (tokenize_steps json) as (k & s & Hk & Hn & Hs).
  exists k, s. eauto using state_of_final.
Qed.

Lemma reachable_inv json s :
  rtc (steps_to json) initial s → state_inv json s.
Proof.
  revert s. apply rtc_ind_r; [apply initial_inv|].
  intros s s' _ Hs IH. by eapply step_inv.
Qed.

(** Every state the machine reaches satisfies the invariant of the
    loop: the raw texts of the tokens are the input up to [index], none is
    empty, the ranges follow the cursor; the tokens returned spell a prefix
    of the input, and a pending exception is a SyntaxError. *)
Theorem machine_reachable_inv json s :
  rtc (steps_to json) initial s → state_inv json s.
Proof. apply reachable_inv. Qed.

Lemma machine_reachable_inv_witness :
  state_inv (jsq "{'a':1}") (run 20 (jsq "{'a':1}") initial).
Proof. apply machine_reachable_inv, run_reaches. Defined.

(** The machine is never stuck: a state that is neither a [return]
    nor a pending exception has a successor, [create] returning or
    throwing on the text of every match. *)
Theorem machine_progress json s :
  final s = false → ∃ s', steps_to json s s'.
Proof.
  intros Hf. unfold steps_to.
  destruct s as [p idx toks|p idx toks i| |]; cbn [step]; try done.
  - case_decide; eauto.
  - destruct (tokenTypes !! i) as [tt|] eqn:Htt; [|eauto].
    apply list_elem_of_lookup_2 in Htt.
    destruct (exec (regexp tt) _) as [raw|]; [|eauto].
    rewrite matched_advance.
    destruct (create_cases tt raw (to_IRange p (advance p raw)) Htt)
      as [[tok ->]| ->]; eauto.
Qed.

Lemma machine_progress_witness :
  ∃ s', steps_to (jsq "{'a':1}") (run 3 (jsq "{'a':1}") initial) s'.
Proof. apply machine_progress. by vm_compute. Defined.

(** ** The loops of [getPositionOfKeys] and [getPathInObject] *)

Lemma tokenTypes_same : JsonTokenize.tokenTypes = Tokenizer.tokenTypes.
Proof. reflexivity. Qed.

Lemma for_tokens_foldl {St} (body : St → token → St) tokens n i st :
  length tokens ≤ i + n →
  for_tokens body tokens n i st = Ok (foldl body st (drop i tokens)).
Proof.
  revert i st. induction n as [|n IH]; intros i st Hn; simpl;
    case_decide as Hi; try lia; try by rewrite drop_ge by lia.
  destruct (lookup_lt_is_Some_2 tokens i Hi) as [t Ht]. rewrite Ht. simpl.
  rewrite IH by lia. by rewrite (drop_S _ _ _ Ht).
Qed.

Lemma path_loop_foldl stack n j path :
  length stack ≤ j + n →
  path_loop stack n j path
  = Ok (foldl (λ path v, if bool_decide (v ≠ LIST_MARKER) then path ++ [v]
                         else path) path (drop j stack)).
Proof.
  revert j path. induction n as [|n IH]; intros j path Hn; simpl;
    case_decide as Hj; try lia; try by rewrite drop_ge by lia.
  destruct (lookup_lt_is_Some_2 stack j Hj) as [v Hv]. rewrite Hv. simpl.
  rewrite IH by lia. by rewrite (drop_S _ _ _ Hv).
Qed.

(** The loops of [getPathInObject] of [json-tokenize.js], run by their
    counters, return: no token is read past the end of the array, the
    rounds are as many as there are tokens and stack entries, and the
    result is the one of the folds of [PathAt]. *)
Theorem getPathInObject_loops tokens :
  JsonTokenize.getPathInObject tokens = Ok (PathAt.getPathInObject tokens).
Proof.
  unfold JsonTokenize.getPathInObject, PathAt.getPathInObject.
  rewrite for_tokens_foldl by lia. cbn [mbind outcome_bind].
  by rewrite path_loop_foldl by lia.
Qed.

(** The loop of [getPositionOfKeys] of [json-tokenize.js] returns what the
    fold of [PathAt] returns. *)
Theorem getPositionOfKeys_loops tokens :
  JsonTokenize.getPositionOfKeys tokens
  = Ok (PathAt.getPositionOfKeys tokens).
Proof.
  unfold JsonTokenize.getPositionOfKeys, PathAt.getPositionOfKeys.
  by rewrite for_tokens_foldl by lia.
Qed.
