(* ===== verification/Modules.v ===== *)
(** * Modules: the files composed

    [json-parse.test.js] takes [tokenize] from [json-tokenize.js] and
    [parseTokens] and [findAtPosition] from [json-parse.js].
    [parse_on_store] is that composition, on the machine of [Machine] and
    the store of [HeapBuilder].  The theorems carry what [Pipeline] shows
    of the functions of [json-parse-ast.js] over to it: the store holds the
    layout of the tree [parse_text] returns, the console stays silent,
    [raw] reads the input back under the condition of the round trip, and
    [findAtPosition] returns the object of the leaf a position lies in.

    [json-parse-ast.test.js] takes everything from [json-parse-ast.js] and
    asks for the key of the container a position lies in;
    [parse_ast_on_store] and [key_of_parent_at] are that composition. *)

From S2P Require Import Prelude Regex Token Tokenizer Ast Query Pipeline.
From S2P Require Import Heap HeapBuilder HeapQuery Machine.

(** ** The composition *)

(** [parseTokens(tokenize(json))] *)
Definition parse_on_store (json : jstring) : M addr :=
  tokens ← lift (JsonTokenize.tokenize json);
  JsonParse.parseTokens_export false tokens.

(** The store [parse_on_store] leaves of the sample document of
    [Pipeline], from the empty store. *)
Definition doc_store : world :=
  Eval vm_compute in (parse_on_store doc empty_world).2.

(** ** Lemmas *)

(** [parseTokens(tokenize(json))] of [json-parse-ast.js], whose
    containers get the method [extractValues]. *)
Definition parse_ast_on_store (json : jstring) : M addr :=
  tokens ← lift (Tokenizer.tokenize json);
  JsonParse.parseTokens_export true tokens.

(** [getKeyInParent(findAtPosition(ast, position).parent)], as
    [json-parse-ast.test.js] asks for the key of the container a position
    lies in. *)
Definition key_of_parent_at (h : list node) (ast : addr)
    (position : IPosition) : outcome key_result :=
  found ← JsonParse.findAtPosition (length h) h ast position;
  match found with
  | JsonParse.FoundAt a =>
    o ← defined (h !! a);
    parent ← defined (node_parent o);
    JsonParseAst.getKeyInParent h parent
  | _ => Throw TypeError
  end.

(** The store [parse_ast_on_store] leaves of the sample document. *)
Definition doc_store_ast : world :=
  Eval vm_compute in (parse_ast_on_store doc empty_world).2.

Lemma parse_on_store_tokens json w :
  parse_on_store json w
  = match tokenize json with
    | Ok toks => JsonParse.parseTokens_export false toks w
    | Throw e => (Throw e, w)
    | OutOfFuel => (OutOfFuel, w)
    end.
Proof.
  unfold parse_on_store. rewrite run_tokenize.
  by destruct (tokenize json).
Qed.

Lemma parse_on_store_Ok json w a w' :
  parse_on_store json w = (Ok a, w')
  ↔ ∃ n, parse_text json = Ok n ∧ root_rel false w n a w'.
Proof.
  rewrite parse_on_store_tokens. unfold parse_text.
  destruct (tokenize json) as [toks|e|]; simpl;
    [apply parseTokens_root_on_store|naive_solver..].
Qed.

Lemma tokenize_known json toks t name :
  tokenize json = Ok toks → t ∈ toks → tok_type t ≠ T_other name.
Proof.
  intros Hok%tokenize_Ok_typed Ht. rewrite forallb_forall in Hok.
  apply token_ok_type, Hok. by apply list_elem_of_In.
Qed.

(** ** Theorems *)

(** C21. The composition of [json-tokenize.js] and [json-parse.js] refines
    [parseTokens(tokenize(json))] of [json-parse-ast.js]: it returns the
    address [a] and leaves the store [w'] exactly when [parse_text] returns
    a tree whose layout [w'] holds behind the objects of [w], with its root
    at [a]. *)
Theorem parse_on_store_refines json w a w' :
  parse_on_store json w = (Ok a, w')
  ↔ ∃ n, parse_text json = Ok n
       ∧ a = length (objects w) + root_offset n
       ∧ w' = extend w (layout false (length (objects w)) None n).
Proof. apply parse_on_store_Ok. Qed.

(** On the tokens of the tokenizer the diagnostic of the builder is
    dead code: whatever the text, [parse_on_store] prints nothing, every
    token of [tokenize] having one of the seven types. *)
Theorem parse_on_store_silent json w :
  console (parse_on_store json w).2 = console w.
Proof.
  rewrite parse_on_store_tokens.
  destruct (tokenize json) as [toks|e|] eqn:Htok; [|done..].
  destruct (parseTokens_root_logged false toks w)
    as [?|(t & name & Ht & Hty & _)]; [done|].
  by destruct (tokenize_known _ _ _ name Htok Ht).
Qed.

(** The round trip, through the store: when [parse_on_store] returns,
    reading [raw] of the node it returned gives a text, and this text is
    the input exactly when the value spans all the tokens and the
    tokenizer read the whole input. *)
Theorem parse_on_store_raw json w a w' :
  parse_on_store json w = (Ok a, w') →
  ∃ text, JsonParse.raw (length (objects w')) (objects w') a = Ok text
    ∧ (text = json
       ↔ ∃ toks n, tokenize json = Ok toks ∧ built toks 0 (length toks) n
                   ∧ mjoin (tok_raw <$> toks) = json).
Proof.
  intros (n & Hn & -> & Hw)%parse_on_store_Ok.
  destruct (built_store_holds _ _ _ _ Hw). exists (ast_raw n).
  split; [by eapply raw_layout|].
  apply parse_text_Ok in Hn as (toks & Htok & Hroot).
  pose proof Hroot as [next Hb]%parseTokens_root_Ok. split.
  - intros Heq. exists toks, n. split; [done|].
    pose proof (tokenize_Ok_nonempty _ _ Htok) as Hne.
    pose proof Htok as (rest & Hjson & _)%tokenize_Ok_prefix.
    destruct (built_spans toks next n rest json) as [-> ->]; try done.
    by rewrite app_nil_r in Hjson.
  - intros (toks' & n' & Htok' & Hb' & Hall).
    rewrite Htok in Htok'. injection Htok' as <-.
    assert (parseTokens_root toks = Ok n') as Hn'
      by (apply parseTokens_root_Ok; eauto).
    rewrite Hroot in Hn'. injection Hn' as <-.
    by rewrite (built_raw _ _ _ _ Hb'), segment_all.
Qed.

Lemma parse_on_store_raw_witness :
  ∃ text, JsonParse.raw (length (objects doc_store)) (objects doc_store) 1
          = Ok text
    ∧ (text = doc
       ↔ ∃ toks n, tokenize doc = Ok toks ∧ built toks 0 (length toks) n
                   ∧ mjoin (tok_raw <$> toks) = doc).
Proof.
  apply (parse_on_store_raw doc empty_world 1 doc_store). by vm_compute.
Defined.

(** [findAtPosition] through the store, as [json-parse.test.js] calls
    it: for a position after the start of a leaf of the parsed text and at
    or before its end, the object returned is the object of that leaf,
    with its raw text and its range. *)
Theorem parse_on_store_findAtPosition json w a w' n path type raw value
    range b position :
  parse_on_store json w = (Ok a, w') →
  parse_text json = Ok n →
  node_at n path = Some (Leaf type raw value range b) →
  pos_lt (range_start range) position → pos_le position (range_end range) →
  ∃ a' o,
    JsonParse.findAtPosition (length (objects w')) (objects w') a position
    = Ok (JsonParse.FoundAt a')
    ∧ objects w' !! a' = Some o
    ∧ node_raw o = Data raw ∧ node_position o = Some range.
Proof.
  intros (n' & Hn' & -> & Hw)%parse_on_store_Ok Hn Hpath Hs He.
  rewrite Hn in Hn'. injection Hn' as <-.
  destruct (built_store_holds _ _ _ _ Hw) as [Hh Hsize].
  destruct (layout_node_at _ _ _ _ _ _ _ Hh Hpath) as (b' & p & Ho).
  eexists (addr_at (length (objects w)) n path), _.
  split_and!; [|exact Ho|done..].
  rewrite (findAtPosition_layout _ _ _ _ _ _ _ Hh Hsize).
  by rewrite (findAtPosition_at _ _ _ _ _ _ _ _
                (parse_tokenize_chained _ _ Hn) Hpath Hs He).
Qed.

Lemma parse_on_store_findAtPosition_witness :
  ∃ a' o,
    JsonParse.findAtPosition (length (objects doc_store)) (objects doc_store)
      1 {| lineNumber := 1; column := 23 |}
    = Ok (JsonParse.FoundAt a')
    ∧ objects doc_store !! a' = Some o
    ∧ node_raw o = Data (jsq "'hallo'")
    ∧ node_position o = Some {| startLineNumber := 1; startColumn := 22;
                                endLineNumber := 1; endColumn := 29 |}.
Proof.
  apply (parse_on_store_findAtPosition doc empty_world 1 doc_store doc_tree
           [7; 1] StringLiteral (jsq "'hallo'") (Some (VString (js "hallo")))
           {| startLineNumber := 1; startColumn := 22;
              endLineNumber := 1; endColumn := 29 |} true);
    [by vm_compute..|unfold pos_lt; simpl; lia|unfold pos_le; simpl; lia].
Defined.

(** ** The key under the cursor *)

Lemma parse_ast_on_store_Ok json w a w' :
  parse_ast_on_store json w = (Ok a, w')
  ↔ ∃ n, parse_text json = Ok n ∧ root_rel true w n a w'.
Proof.
  unfold parse_ast_on_store, parse_text.
  destruct (tokenize json) as [toks|e|]; simpl;
    [apply parseTokens_root_on_store|naive_solver..].
Qed.

(** The scenario of [json-parse-ast.test.js]: for a position in a
    leaf of the parsed text whose parent was assigned, [findAtPosition],
    [.parent] and [getKeyInParent], all on the store, return the key of
    the container that holds the leaf, as [getKeyInParent] computes it on
    the tree. *)
Theorem key_of_parent_on_store json w a w' n path j type raw value range
    position :
  parse_ast_on_store json w = (Ok a, w') →
  parse_text json = Ok n →
  node_at n (path ++ [j]) = Some (Leaf type raw value range true) →
  pos_lt (range_start range) position → pos_le position (range_end range) →
  key_of_parent_at (objects w') a position = Query.getKeyInParent n path.
Proof.
  intros (n' & Hn' & -> & Hw)%parse_ast_on_store_Ok Hn Hpath Hs He.
  rewrite Hn in Hn'. injection Hn' as <-.
  destruct (built_store_holds _ _ _ _ Hw) as [Hh Hsize].
  unfold key_of_parent_at.
  rewrite (findAtPosition_layout _ _ _ _ _ _ _ Hh Hsize).
  rewrite (findAtPosition_at _ _ _ _ _ _ _ _
             (parse_tokenize_chained _ _ Hn) Hpath Hs He). simpl.
  destruct (child_on_store _ _ _ _ _ _ _ Hh Hpath)
    as (ty & children & rg & hp & bp & pp & b & Hp & _ & -> & _). simpl.
  by eapply getKeyInParent_layout.
Qed.

Lemma key_of_parent_on_store_witness :
  key_of_parent_at (objects doc_store_ast) 1 {| lineNumber := 1; column := 23 |}
  = Query.getKeyInParent doc_tree [7].
Proof.
  apply (key_of_parent_on_store doc empty_world 1 doc_store_ast doc_tree
           [7] 1 StringLiteral (jsq "'hallo'") (Some (VString (js "hallo")))
           {| startLineNumber := 1; startColumn := 22;
              endLineNumber := 1; endColumn := 29 |});
    [by vm_compute..|unfold pos_lt; simpl; lia|unfold pos_le; simpl; lia].
Defined.
