(* ===== verification/Exports.v ===== *)
(** * Exports: the module objects and the names the tests bind

    The three files assign their functions to properties of
    [module.exports]; the test files bind names to what [require]
    returns, a module object or, through a destructuring pattern, its
    properties, and call these names.  This file holds the tables (which
    file exports which name, which name the declaration file declares,
    which name each test file binds and calls) and the two steps of a
    call, the lookup of a property and the call of its value.  The
    theorems say which function each call of a test file runs, and
    which calls throw because the callee is not a function. *)

From stdpp Require Import strings.
From S2P Require Import Prelude.

Local Open Scope string_scope.

(** ** Module objects *)

Inductive js_file :=
| json_parse_ast_js
| json_tokenize_js
| json_parse_js.

(** The value of a name or of a property: a module object, a function
    declared in a file, or [undefined]. *)
Inductive binding :=
| ModuleObject (file : js_file)
| FunctionOf (file : js_file) (name : string)
| Undefined.

(** The assignments [module.exports.name = ...] of [json-parse-ast.js],
    of [json-tokenize.js] and of [json-parse.js], in order. *)
Definition json_parse_ast_exports : list string :=
  ["parseTokens"; "tokenize"; "getPositionOfKeys"; "getPathInObject";
   "findAtPosition"; "getKeyInParent"; "isKeyInParent"].

Definition json_tokenize_exports : list string :=
  ["tokenize"; "getPositionOfKeys"; "getPathInObject"].

Definition json_parse_exports : list string :=
  ["parseTokens"; "findAtPosition"].

(** The names of the properties of [module.exports] of a file. *)
Definition module_exports (file : js_file) : list string :=
  match file with
  | json_parse_ast_js => json_parse_ast_exports
  | json_tokenize_js => json_tokenize_exports
  | json_parse_js => json_parse_exports
  end.

(** The functions [json-parse-ast.d.ts] declares. *)
Definition declared : list string :=
  ["tokenize"; "getPathInObject"; "findAtPosition"; "parseTokens";
   "getKeyInParent"; "isKeyInParent"].

(** [require("./file")] *)
Definition require (file : js_file) : binding := ModuleObject file.

(** [o.name]: a property of a module object is the function assigned to
    it; the functions of the program have no properties of their own;
    reading a property of [undefined] throws. *)
Definition property (o : binding) (name : string) : outcome binding :=
  match o with
  | ModuleObject file =>
    Ok (if bool_decide (name ∈ module_exports file)
        then FunctionOf file name else Undefined)
  | FunctionOf _ _ => Ok Undefined
  | Undefined => Throw TypeError
  end.

(** [f(...)]: the function that runs, when [f] is one. *)
Definition called (f : binding) : outcome (js_file * string) :=
  match f with
  | FunctionOf file name => Ok (file, name)
  | _ => Throw TypeError
  end.

(** ** The names of a test file *)

(** [const {a, b} = o]: every name is bound to the property of that
    name. *)
Definition destructure (names : list string) (o : binding)
    : list (string * outcome binding) :=
  (λ name, (name, property o name)) <$> names.

(** The value of a name: that of its first binding. *)
Definition value_of_name (env : list (string * outcome binding))
    (name : string) : outcome binding :=
  match list_find (λ b, b.1 = name) env with
  | Some (_, b) => b.2
  | None => Throw (GenericError (js "ReferenceError"))
  end.

(** The callee of a call: a name, or a property of a name. *)
Inductive callee :=
| Name (name : string)
| Dot (name property : string).

(** The function a call runs. *)
Definition resolve (env : list (string * outcome binding)) (c : callee)
    : outcome (js_file * string) :=
  match c with
  | Name name => f ← value_of_name env name; called f
  | Dot name p => o ← value_of_name env name; f ← property o p; called f
  end.

(** The first lines of the three test files. *)
Definition json_parse_ast_test : list (string * outcome binding) :=
  destructure ["findAtPosition"; "parseTokens"; "tokenize"; "getPathInObject";
               "getKeyInParent"; "isKeyInParent"]
    (require json_parse_ast_js).

Definition json_parse_test : list (string * outcome binding) :=
  (destructure ["findAtPosition"] (require json_parse_js)
   ++ destructure ["parseTokens"] (require json_parse_js)
   ++ destructure ["tokenize"] (require json_tokenize_js))%list.

Definition json_tokenize_test : list (string * outcome binding) :=
  [("tokenize", Ok (require json_tokenize_js))].

(** The callees of the calls of the test files. *)
Definition json_tokenize_test_calls : list callee :=
  [Dot "tokenize" "tokenize"; Dot "tokenize" "getPathInObject"].

Definition json_parse_test_calls : list callee :=
  [Name "parseTokens"; Name "tokenize"; Name "findAtPosition"].

Definition json_parse_ast_test_calls : list callee :=
  [Name "tokenize"; Dot "tokenize" "tokenize"; Name "getPathInObject";
   Name "parseTokens"; Name "findAtPosition"; Name "getKeyInParent";
   Name "isKeyInParent"].

(** ** Lemmas *)

#[export] Instance js_file_eq_dec : EqDecision js_file.
Proof. solve_decision. Defined.

#[export] Instance binding_eq_dec : EqDecision binding.
Proof. solve_decision. Defined.

(** A name bound by a destructuring pattern is bound to the property of
    that name. *)
Lemma value_of_name_destructure names o name :
  name ∈ names → value_of_name (destructure names o) name = property o name.
Proof.
  unfold value_of_name, destructure. intros Hin.
  induction names as [|n names IH]; [by apply elem_of_nil in Hin|].
  rewrite fmap_cons. cbn [list_find]. case_decide as Hn; simpl in *.
  - by subst.
  - apply elem_of_cons in Hin as [->|Hin]; [done|].
    specialize (IH Hin). by destruct (list_find _ _) as [[? [? ?]]|].
Qed.

(** A call of a property of a module object runs the function of that
    name of the file, when the file exports the name. *)
Lemma called_property file name :
  (o ← property (ModuleObject file) name; called o)
  = if bool_decide (name ∈ module_exports file)
    then Ok (file, name) else Throw TypeError.
Proof. simpl. by case_bool_decide. Qed.

(** ** Theorems *)

(** A name that a destructuring pattern takes from a module object
    runs, when called, the function of that name of the file, and throws
    a TypeError when the file does not export the name. *)
Theorem resolve_destructured file names name :
  name ∈ names →
  resolve (destructure names (require file)) (Name name)
  = if bool_decide (name ∈ module_exports file)
    then Ok (file, name) else Throw TypeError.
Proof.
  intros Hin. unfold resolve. rewrite value_of_name_destructure by done.
  apply called_property.
Qed.

(** A property of a destructured name is a property of a function or of
    [undefined]: the call throws a TypeError, whatever the names. *)
Theorem resolve_property_of_destructured file names name p :
  name ∈ names →
  resolve (destructure names (require file)) (Dot name p) = Throw TypeError.
Proof.
  intros Hin. unfold resolve. rewrite value_of_name_destructure by done.
  simpl. by case_bool_decide.
Qed.

(** The calls of [json-tokenize.test.js] and of [json-parse.test.js]
    run the functions of [json-tokenize.js] and of [json-parse.js]. *)
Example test_calls_resolve :
  resolve json_tokenize_test <$> json_tokenize_test_calls
  = [Ok (json_tokenize_js, "tokenize");
     Ok (json_tokenize_js, "getPathInObject")]
  ∧ resolve json_parse_test <$> json_parse_test_calls
    = [Ok (json_parse_js, "parseTokens"); Ok (json_tokenize_js, "tokenize");
       Ok (json_parse_js, "findAtPosition")].
Proof. by vm_compute. Qed.

(** The calls of [json-parse-ast.test.js] run the functions of
    [json-parse-ast.js], but for [tokenize.tokenize], which throws. *)
Example ast_test_calls_resolve :
  resolve json_parse_ast_test <$> json_parse_ast_test_calls
  = [Ok (json_parse_ast_js, "tokenize"); Throw TypeError;
     Ok (json_parse_ast_js, "getPathInObject");
     Ok (json_parse_ast_js, "parseTokens");
     Ok (json_parse_ast_js, "findAtPosition");
     Ok (json_parse_ast_js, "getKeyInParent");
     Ok (json_parse_ast_js, "isKeyInParent")].
Proof. by vm_compute. Qed.

(** The declaration file declares functions that [json-parse-ast.js]
    exports, and all of them but [getPositionOfKeys]; the two small
    files export nothing that the large one does not. *)
Theorem declared_exported :
  declared ⊆ module_exports json_parse_ast_js
  ∧ filter (λ name, name ∉ declared) (module_exports json_parse_ast_js)
    = ["getPositionOfKeys"]
  ∧ (module_exports json_tokenize_js ++ module_exports json_parse_js)%list
    ⊆ module_exports json_parse_ast_js.
Proof. split_and!; [|done|]; intros name Hin; set_unfold; naive_solver. Qed.
