(* ===== verification/Tests.v ===== *)
(** * Tests: the Jest suites on the model

    The three test files of the repository, call by call, on the
    definitions of this development: [json-tokenize.test.js] on the
    machine of [Machine], [json-parse.test.js] on the machine and the
    builder on the store, [json-parse-ast.test.js] on the functions of
    [json-parse-ast.js], on trees and on the store.  An example states
    the value the model computes for the expression a test passes to
    [expect]; it is the value the test expects but for the cases the
    comments name. *)

From S2P Require Import Prelude Regex Token Tokenizer Ast PathAt Query Pipeline.
From S2P Require Import Heap HeapBuilder HeapQuery Machine Modules.

Local Open Scope string_scope.

(** ** The texts and the expected values *)

(** A template literal that spans lines: the lines joined by line feeds,
    every apostrophe read as a double quote. *)
Definition lines (ls : list string) : jstring :=
  match ls with
  | [] => []
  | l :: ls' => foldl (λ s l', (s ++ 10%N :: jsq l')%list) (jsq l) ls'
  end.

(** An expected token. *)
Definition tk (type : token_type) (startLine startCol endLine endCol : Z)
    (raw : string) (value : jsval) : token :=
  mk_token type
    {| startLineNumber := startLine; startColumn := startCol;
       endLineNumber := endLine; endColumn := endCol |}
    (jsq raw) value.

(** The number an integer literal denotes. *)
Definition integer (n : N) : jsval :=
  VNumber {| num_neg := false; num_mantissa := n; num_exp10 := 0 |}.

Definition at_position (line col : Z) : IPosition :=
  {| lineNumber := line; column := col |}.

(** The expected tokens of the three tests of [tokenize]. *)
Definition simple_object_tokens : list token := [
  tk T_punctuation 1 1 1 2 "{" (VString (js "{"));
  tk T_string 1 2 1 7 "'foo'" (VString (js "foo"));
  tk T_punctuation 1 7 1 8 ":" (VString (js ":"));
  tk T_string 1 8 1 13 "'bar'" (VString (js "bar"));
  tk T_punctuation 1 13 1 14 "}" (VString (js "}"))
].

Definition simple_array_tokens : list token := [
  tk T_punctuation 1 1 1 2 "[" (VString (js "["));
  tk T_string 1 2 1 7 "'foo'" (VString (js "foo"));
  tk T_punctuation 1 7 1 8 "," (VString (js ","));
  tk T_string 1 8 1 13 "'bar'" (VString (js "bar"));
  tk T_punctuation 1 13 1 14 "]" (VString (js "]"))
].

Definition complex_tokens : list token := [
  tk T_punctuation 1 1 1 2 "{" (VString (js "{"));
  tk T_string 1 2 1 7 "'foo'" (VString (js "foo"));
  tk T_punctuation 1 7 1 8 ":" (VString (js ":"));
  tk T_whitespace 1 8 1 9 " " (VString (js " "));
  tk T_number 1 9 1 12 "123" (integer 123);
  tk T_punctuation 1 12 1 13 "," (VString (js ","));
  tk T_whitespace 1 13 1 14 " " (VString (js " "));
  tk T_string 1 14 1 19 "'bar'" (VString (js "bar"));
  tk T_punctuation 1 19 1 20 ":" (VString (js ":"));
  tk T_whitespace 1 20 1 21 " " (VString (js " "));
  tk T_punctuation 1 21 1 22 "[" (VString (js "["));
  tk T_string 1 22 1 27 "'foo'" (VString (js "foo"));
  tk T_punctuation 1 27 1 28 "," (VString (js ","));
  tk T_string 1 28 1 33 "'bar'" (VString (js "bar"));
  tk T_punctuation 1 33 1 34 "]" (VString (js "]"));
  tk T_whitespace 1 34 1 35 " " (VString (js " "));
  tk T_multilinecomment 1 35 1 48 "/* comment */" (VString (js " comment "));
  tk T_whitespace 1 48 1 49 " " (VString (js " "));
  tk T_punctuation 1 49 1 50 "}" (VString (js "}"));
  tk T_whitespace 1 50 1 51 " " (VString (js " "));
  tk T_inlinecomment 1 51 1 56 "//baz" (VString (js "baz"))
].

Definition simple_object : jstring := jsq "{'foo':'bar'}".
Definition simple_array : jstring := jsq "['foo','bar']".
Definition complex : jstring :=
  jsq "{'foo': 123, 'bar': ['foo','bar'] /* comment */ } //baz".

(** The text of the tests of [getPathInObject], which ends in an open
    string. *)
Definition nested_in_array : jstring := lines [
  "{";
  "    'foo': 123, ";
  "    'bar': [";
  "        {'baz':'baz'}, ";
  "        {'bay': '"].

(** The texts the two other tests of [getPathInObject] pass to
    [tokenize]: not a JSON text but the source of a call, and the JSON
    texts these calls hold, which are the examples of the documentation
    of [getPathInObject]. *)
Definition call_after_array_start : jstring :=
  jsq "getPathInObject(tokenize('{'name':'test', 'dependencies': ['))".
Definition call_next_key : jstring :=
  jsq "getPathInObject(tokenize('{'dependencies': {'))".
Definition after_array_start : jstring :=
  jsq "{'name':'test', 'dependencies': [".
Definition next_key_text : jstring := jsq "{'dependencies': {' ".

(** [testString] of [json-parse-ast.test.js]. *)
Definition testString : jstring := lines [
  "{";
  "        'foo': 'bar',";
  "        'foo2': {";
  "            'hallo': 'welt'";
  "        },";
  "        'baz:': ['bazinga']";
  "    }"].

(** [testString] of [json-parse.test.js], without the colon after the
    last key. *)
Definition testString_parse : jstring := lines [
  "{";
  "        'foo': 'bar',";
  "        'foo2': {";
  "            'hallo': 'welt'";
  "        },";
  "        'baz:' ['bazinga']";
  "    }"].

(** ** [json-tokenize.test.js] *)

Module JsonTokenizeTest.

(** [tokenize.getPathInObject(tokenize.tokenize(text))] *)
Definition path_of (text : jstring) : outcome (list jsval * bool) :=
  tokens ← JsonTokenize.tokenize text;
  JsonTokenize.getPathInObject tokens.

End JsonTokenizeTest.

(** ** [json-parse.test.js] *)

Module JsonParseTest.

(** [parseTokens(tokenize(testString)).raw] *)
Definition raw_of (json : jstring) : outcome jstring :=
  let r := parse_on_store json empty_world in
  ast ← r.1;
  JsonParse.raw (length (objects r.2)) (objects r.2) ast.

(** [findAtPosition(parseTokens(tokenize(testString)), position).raw] *)
Definition raw_at (json : jstring) (position : IPosition) : outcome jstring :=
  let r := parse_on_store json empty_world in
  ast ← r.1;
  found ← JsonParse.findAtPosition (length (objects r.2)) (objects r.2) ast
            position;
  match found with
  | JsonParse.FoundAt a => JsonParse.raw (length (objects r.2)) (objects r.2) a
  | _ => Throw TypeError
  end.

End JsonParseTest.

(** ** [json-parse-ast.test.js] *)

Module JsonParseAstTest.

(** [getPathInObject(tokenize(text))] *)
Definition path_of (text : jstring) : outcome (list jsval * bool) :=
  tokens ← tokenize text;
  Ok (getPathInObject tokens).

(** [parseTokens(tokenize(testString)).raw] *)
Definition raw_of (json : jstring) : outcome jstring :=
  let r := parse_ast_on_store json empty_world in
  ast ← r.1;
  JsonParse.raw (length (objects r.2)) (objects r.2) ast.

(** The node [findAtPosition(ast, position)] of the parsed text, which
    the tests read a property of. *)
Definition node_at_position (json : jstring) (position : IPosition)
    : outcome (list node * addr) :=
  let r := parse_ast_on_store json empty_world in
  ast ← r.1;
  found ← JsonParse.findAtPosition (length (objects r.2)) (objects r.2) ast
            position;
  match found with
  | JsonParse.FoundAt a => Ok (objects r.2, a)
  | _ => Throw TypeError
  end.

(** [findAtPosition(ast, position).raw] *)
Definition raw_at (json : jstring) (position : IPosition) : outcome jstring :=
  r ← node_at_position json position;
  JsonParse.raw (length r.1) r.1 r.2.

(** [getKeyInParent(findAtPosition(ast, position).parent)] *)
Definition key_of_parent (json : jstring) (position : IPosition)
    : outcome key_result :=
  let r := parse_ast_on_store json empty_world in
  ast ← r.1;
  key_of_parent_at (objects r.2) ast position.

(** [isKeyInParent(findAtPosition(ast, position))] *)
Definition is_key_at (json : jstring) (position : IPosition) : outcome bool :=
  r ← node_at_position json position;
  JsonParseAst.isKeyInParent r.1 r.2.

End JsonParseAstTest.

(** ** The tests of [json-tokenize.test.js] *)

Example tokenize_test_simple_object :
  JsonTokenize.tokenize simple_object = Ok simple_object_tokens.
Proof. by vm_compute. Qed.

Example tokenize_test_simple_array :
  JsonTokenize.tokenize simple_array = Ok simple_array_tokens.
Proof. by vm_compute. Qed.

Example tokenize_test_complex :
  JsonTokenize.tokenize complex = Ok complex_tokens.
Proof. by vm_compute. Qed.

Example tokenize_test_getPathInObject :
  JsonTokenizeTest.path_of nested_in_array
  = Ok ([VString (js "bar"); VString (js "bay")], true).
Proof. by vm_compute. Qed.

(** The tests [getPathInObject-2] and [getPathInObject-3] expect the path
    [dependencies], with the flags [true] and [false].  The text they
    tokenize starts with the letter g, where no expression matches: there
    are no tokens and the path is empty. *)
Example tokenize_test_getPathInObject_2 :
  JsonTokenize.tokenize call_after_array_start = Ok []
  ∧ JsonTokenizeTest.path_of call_after_array_start = Ok ([], false).
Proof. by vm_compute. Qed.

Example tokenize_test_getPathInObject_3 :
  JsonTokenize.tokenize call_next_key = Ok []
  ∧ JsonTokenizeTest.path_of call_next_key = Ok ([], false).
Proof. by vm_compute. Qed.

(** On the JSON texts the calls hold, which are the examples of the
    documentation, the results are the documented ones. *)
Example getPathInObject_documented :
  JsonTokenizeTest.path_of after_array_start
  = Ok ([VString (js "dependencies")], true)
  ∧ JsonTokenizeTest.path_of next_key_text
    = Ok ([VString (js "dependencies")], false).
Proof. by vm_compute. Qed.

(** ** The tests of [json-parse.test.js] *)

(** The text without the colon parses as the other does: the builder
    does not look at the punctuation between the values. *)
Example parse_test_raw :
  JsonParseTest.raw_of testString_parse = Ok testString_parse.
Proof. by vm_compute. Qed.

Example parse_test_findAtPosition :
  JsonParseTest.raw_at testString_parse (at_position 4 16)
  = Ok (jsq "'hallo'").
Proof. by vm_compute. Qed.

(** ** The tests of [json-parse-ast.test.js] *)

Example ast_test_simple_object :
  tokenize simple_object = Ok simple_object_tokens.
Proof. by vm_compute. Qed.

(** The tests of the array and of the complex example call
    [tokenize.tokenize], a property the function [tokenize] of
    [json-parse-ast.js] does not have; on the function itself the tokens
    are the expected ones. *)
Example ast_test_simple_array :
  tokenize simple_array = Ok simple_array_tokens.
Proof. by vm_compute. Qed.

Example ast_test_complex :
  tokenize complex = Ok complex_tokens.
Proof. by vm_compute. Qed.

Example ast_test_getPathInObject :
  JsonParseAstTest.path_of nested_in_array
  = Ok ([VString (js "bar"); VString (js "bay")], true)
  ∧ JsonParseAstTest.path_of call_after_array_start = Ok ([], false)
  ∧ JsonParseAstTest.path_of call_next_key = Ok ([], false).
Proof. by vm_compute. Qed.

Example ast_test_raw :
  JsonParseAstTest.raw_of testString = Ok testString.
Proof. by vm_compute. Qed.

Example ast_test_findAtPosition :
  JsonParseAstTest.raw_at testString (at_position 4 16) = Ok (jsq "'hallo'").
Proof. by vm_compute. Qed.

Example ast_test_getNameInParent_Object :
  JsonParseAstTest.key_of_parent testString (at_position 4 16)
  = Ok (KeyValue (VString (js "foo2"))).
Proof. by vm_compute. Qed.

Example ast_test_getNameInParent_Array :
  JsonParseAstTest.key_of_parent testString (at_position 6 23)
  = Ok (KeyValue (VString (js "baz:"))).
Proof. by vm_compute. Qed.

(** The test of [isKeyInParent] passes, the second time by accident:
    the node at line 4, column 23 is not the string [welt], which a
    reader finds there, but the space before it, whose range ends at
    that column, the columns of the tokenizer being one too large after
    a line feed and the end of a range being taken in. *)
Example ast_test_isKeyInParent :
  JsonParseAstTest.is_key_at testString (at_position 4 16) = Ok true
  ∧ JsonParseAstTest.is_key_at testString (at_position 4 23) = Ok false
  ∧ JsonParseAstTest.raw_at testString (at_position 4 23) = Ok (js " ")
  ∧ JsonParseAstTest.raw_at testString (at_position 4 24) = Ok (jsq "'welt'").
Proof. by vm_compute. Qed.
